(** * Verification of the sorting library [algorithms/algorithms.go]

    The Go functions are embedded as executable Rocq functions over
    lists.  A Go slice is the list of its elements and a function that
    mutates its slice argument returns the new contents.  Go's [int] is
    modelled by [Z]: a slice holds fewer than [2^62] elements, so the
    index arithmetic of the program never wraps.  Go's [uint] is a
    64-bit word, with the wrap-around of [+], [-] and [*] written out
    ([wrap64]); a [uint8] wraps at [2^8] ([wrap8]).  A run-time panic
    (index out of range, integer division by zero, [make] with a length
    out of range, [slices.Max] of an empty slice) is a value of the
    [result] type.  Loops are unfolded a number of times fixed by
    the loop bounds; where the number of iterations depends on the data
    the unfolding is bounded by a fuel, and [OutOfFuel] is the result
    when it does not suffice. *)

From Stdlib Require Import ZArith Lia.
From Stdlib Require Import Floats.SpecFloat.
From Stdlib Require Strings.Byte Strings.String.
From stdpp Require Import base numbers list sorting.

Local Open Scope Z_scope.

(** ** Results of a call: a value, or one of Go's run-time panics *)

Inductive panic : Type :=
  | IndexOutOfRange
  | DivideByZero
  | MakeLenOutOfRange
  | EmptyList.

Inductive result (A : Type) : Type :=
  | Ok (a : A)
  | Panic (p : panic)
  | OutOfFuel.

Arguments Ok {A} a.
Arguments Panic {A} p.
Arguments OutOfFuel {A}.

#[export] Instance result_bind : MBind result := λ A B k r,
  match r with
  | Ok a => k a
  | Panic p => Panic p
  | OutOfFuel => OutOfFuel
  end.

(** ** Machine integers *)

Definition wrap64 (z : Z) : Z := z mod 2 ^ 64.
Definition wrap8 (z : Z) : Z := z mod 2 ^ 8.
Definition maxInt : Z := 2 ^ 63 - 1.
Definition minInt : Z := - 2 ^ 63.

(** [int] arithmetic where the program can leave the range of [int] *)
Definition wrapInt (z : Z) : Z := (z + 2 ^ 63) mod 2 ^ 64 - 2 ^ 63.

(** [a / b] on [uint] *)
Definition udiv (a b : Z) : result Z :=
  if bool_decide (b = 0) then Panic DivideByZero else Ok (a / b).

Definition is_uint (z : Z) : Prop := 0 ≤ z < 2 ^ 64.

(** ** Slices *)

Definition len {A} (vec : list A) : Z := Z.of_nat (length vec).

(** [idx vec i] is the element that [vec[i]] reads, when [i] is in range. *)
Definition idx {A} (vec : list A) (i : Z) : option A :=
  if bool_decide (0 ≤ i < len vec) then vec !! Z.to_nat i else None.

(** [vec[i]] as an expression *)
Definition get {A} (vec : list A) (i : Z) : result A :=
  match idx vec i with
  | Some x => Ok x
  | None => Panic IndexOutOfRange
  end.

(** [vec[i] = x] *)
Definition set {A} (vec : list A) (i : Z) (x : A) : result (list A) :=
  if bool_decide (0 ≤ i < len vec) then Ok (<[Z.to_nat i := x]> vec)
  else Panic IndexOutOfRange.

(** [vec[i], vec[j] = vec[j], vec[i]]: the operands are read, then the
    two elements are written. *)
Definition swap {A} (vec : list A) (i j : Z) : result (list A) :=
  vj ← get vec j;
  vi ← get vec i;
  vec ← set vec i vj;
  set vec j vi.

(** The greatest size of an allocation, in bytes (linux/amd64), and
    the sizes of a [uint] and of a slice header *)
Definition maxAlloc : Z := 2 ^ 48.
Definition sizeof_uint : Z := 8.
Definition sizeof_slice : Z := 24.

(** [make([]A, n)] for a length [n] computed at run time and elements
    of [size] bytes: the run time panics when [n] is no valid [int] or
    the [n] elements take more than [maxAlloc] bytes.  A request within
    these bounds is taken to be served. *)
Definition make {A} (size : Z) (zero : A) (n : Z) : result (list A) :=
  if bool_decide (0 ≤ n ≤ maxInt ∧ n * size ≤ maxAlloc)
  then Ok (replicate (Z.to_nat n) zero)
  else Panic MakeLenOutOfRange.

(** [make([]A, len(vec))]: the length of a slice is a valid length. *)
Definition make_len {A B} (zero : A) (vec : list B) : list A :=
  replicate (length vec) zero.

(** [make([]A, n)] for a constant [n] *)
Definition make_const {A} (zero : A) (n : nat) : list A :=
  replicate n zero.

(** [copy(dst, src)] *)
Definition copy {A} (dst src : list A) : list A :=
  take (length dst) src ++ drop (length src) dst.

(** [slices.Max(vec)] on [uint]s *)
Definition slices_Max (vec : list Z) : result Z :=
  match vec with
  | [] => Panic EmptyList
  | x :: rest => Ok (foldl Z.max x rest)
  end.

(** [counts[i]++] and [counts[i]--] on a slice of [uint] *)
Definition incr (counts : list Z) (i : Z) : result (list Z) :=
  c ← get counts i; set counts i (wrap64 (c + 1)).

Definition decr (counts : list Z) (i : Z) : result (list Z) :=
  c ← get counts i; set counts i (wrap64 (c - 1)).

(** ** Loops *)

(** [for i := lo; i < hi; i++ { body }], where [hi] does not change
    during the loop. *)
Fixpoint for_up_from {S} (n : nat) (i : Z) (body : Z → S → result S) (s : S)
  : result S :=
  match n with
  | O => Ok s
  | Datatypes.S n' => s' ← body i s; for_up_from n' (i + 1) body s'
  end.

Definition for_up {S} (lo hi : Z) (body : Z → S → result S) (s : S) : result S :=
  for_up_from (Z.to_nat (hi - lo)) lo body s.

(** The same loop with a [break]: the body also says whether it broke
    out of the loop. *)
Fixpoint for_up_break_from {S} (n : nat) (i : Z)
  (body : Z → S → result (S * bool)) (s : S) : result S :=
  match n with
  | O => Ok s
  | Datatypes.S n' =>
      '(s', broke) ← body i s;
      if broke : bool then Ok s' else for_up_break_from n' (i + 1) body s'
  end.

Definition for_up_break {S} (lo hi : Z) (body : Z → S → result (S * bool))
  (s : S) : result S :=
  for_up_break_from (Z.to_nat (hi - lo)) lo body s.

(** [for i := hi; i >= lo; i-- { body }] *)
Fixpoint for_down_from {S} (n : nat) (i : Z) (body : Z → S → result S) (s : S)
  : result S :=
  match n with
  | O => Ok s
  | Datatypes.S n' => s' ← body i s; for_down_from n' (i - 1) body s'
  end.

Definition for_down {S} (hi lo : Z) (body : Z → S → result S) (s : S) : result S :=
  for_down_from (Z.to_nat (hi - lo + 1)) hi body s.

(** [for _, val := range vec { body }] *)
Fixpoint for_range {A S} (vec : list A) (body : A → S → result S) (s : S)
  : result S :=
  match vec with
  | [] => Ok s
  | val :: rest => s' ← body val s; for_range rest body s'
  end.

(** [for cond { body }]: at most [fuel] tests of the condition. *)
Fixpoint while {S} (fuel : nat) (cond : S → result bool) (body : S → result S)
  (s : S) : result S :=
  match fuel with
  | O => OutOfFuel
  | Datatypes.S fuel' =>
      b ← cond s;
      if b : bool then s' ← body s; while fuel' cond body s' else Ok s
  end.

(** ** The [Ordered] constraint *)

(** The operators [<], [<=] and [>] of an element type, and its zero
    value (what [make] fills a fresh slice with). *)
Class Ordered (T : Type) : Type := {
  ltb : T → T → bool;
  leb : T → T → bool;
  gtb : T → T → bool;
  zero : T;
}.

(** ** Comparison sorts *)

Section ComparisonSorts.
Context {T : Type} `{Ordered T}.

Definition SimpleSort (vec : list T) : result (list T) :=
for_up 0 (len vec - 1) (λ i vec,
for_up (i + 1) (len vec) (λ j vec,
  vj ← get vec j;
  vi ← get vec i;
  if ltb vj vi then swap vec i j else Ok vec) vec) vec.

Definition SelectionSort (vec : list T) : result (list T) :=
for_up 0 (len vec - 1) (λ i vec,
let minIndex := i in
minIndex ← for_up (i + 1) (len vec) (λ j minIndex,
  vj ← get vec j;
  vm ← get vec minIndex;
  Ok (if ltb vj vm then j else minIndex)) minIndex;
if bool_decide (minIndex ≠ i) then swap vec i minIndex else Ok vec) vec.

Definition BubbleSort (vec : list T) : result (list T) :=
for_up_break 0 (len vec - 1) (λ i vec,
let swapped := false in
'(vec, swapped) ← for_up 0 (len vec - 1 - i) (λ j '(vec, swapped),
  vj ← get vec j;
  vj1 ← get vec (j + 1);
  if gtb vj vj1 then
    vec ← swap vec j (j + 1);
    Ok (vec, true)
  else Ok (vec, swapped)) (vec, swapped);
Ok (vec, negb swapped)) vec.

(** The inner loop moves [j] down from [i], so [i + 1] tests of its
condition are enough. *)
Definition InsertionSort (vec : list T) : result (list T) :=
for_up 1 (len vec) (λ i vec,
'(vec, _) ← while (Datatypes.S (Z.to_nat i))
  (λ '(vec, j),
    if bool_decide (j > 0) then
      vj ← get vec j;
      vj1 ← get vec (j - 1);
      Ok (ltb vj vj1)
    else Ok false)
  (λ '(vec, j),
    vec ← swap vec j (j - 1);
    Ok (vec, j - 1)) (vec, i);
Ok vec) vec.

(** An iteration of the first loop of [merge] moves [i] towards [mid]
or [j] towards [end], one of the second moves [i] and one of the
third [j]: none of the loops makes more than
[(mid - start + 1) + (end - mid)] iterations. *)
Definition merge (vec tmp : list T) (start mid end_ : Z)
: result (list T * list T) :=
let fuel :=
Datatypes.S (Z.to_nat (mid - start + 1) + Z.to_nat (end_ - mid)) in
'(tmp, i, j, k) ← while fuel
(λ '(tmp, i, j, k), Ok (bool_decide (i ≤ mid) && bool_decide (j ≤ end_)))
(λ '(tmp, i, j, k),
  vi ← get vec i;
  vj ← get vec j;
  if leb vi vj then
    tmp ← set tmp k vi;
    Ok (tmp, i + 1, j, k + 1)
  else
    tmp ← set tmp k vj;
    Ok (tmp, i, j + 1, k + 1)) (tmp, start, mid + 1, start);
'(tmp, i, k) ← while fuel
(λ '(tmp, i, k), Ok (bool_decide (i ≤ mid)))
(λ '(tmp, i, k),
  vi ← get vec i;
  tmp ← set tmp k vi;
  Ok (tmp, i + 1, k + 1)) (tmp, i, k);
'(tmp, j, k) ← while fuel
(λ '(tmp, j, k), Ok (bool_decide (j ≤ end_)))
(λ '(tmp, j, k),
  vj ← get vec j;
  tmp ← set tmp k vj;
  Ok (tmp, j + 1, k + 1)) (tmp, j, k);
vec ← for_up start (end_ + 1) (λ i vec,
t ← get tmp i;
set vec i t) vec;
Ok (vec, tmp).

Fixpoint mergeSortHelper (fuel : nat) (vec tmp : list T) (start end_ : Z)
: result (list T * list T) :=
match fuel with
| O => OutOfFuel
| Datatypes.S fuel' =>
  if bool_decide (start >= end_) then Ok (vec, tmp)
  else
    let mid := start + (end_ - start) ÷ 2 in
    '(vec, tmp) ← mergeSortHelper fuel' vec tmp start mid;
    '(vec, tmp) ← mergeSortHelper fuel' vec tmp (mid + 1) end_;
    merge vec tmp start mid end_
end.

(** Each recursive call of [mergeSortHelper] is on a shorter range,
so [len(vec)] nested calls are enough. *)
Definition MergeSort (vec : list T) : result (list T) :=
if bool_decide (len vec ≤ 1) then Ok vec
else
let tmp := make_len zero vec in
'(vec, _) ← mergeSortHelper (length vec) vec tmp 0 (len vec - 1);
Ok vec.

Definition medianOfThree (vec : list T) (i j k : Z) : result Z :=
vi ← get vec i;
vj ← get vec j;
vk ← get vec k;
if negb (eqb (gtb vi vj) (gtb vi vk)) then Ok i
else if negb (eqb (gtb vj vi) (gtb vj vk)) then Ok j
else Ok k.

Definition partition (vec : list T) (start end_ : Z) : result (list T * Z) :=
let mid := start + (end_ - start) ÷ 2 in
pivotIndex ← medianOfThree vec start mid end_;
vec ← swap vec pivotIndex end_;
pivot ← get vec end_;
let i := start - 1 in
'(vec, i) ← for_up start end_ (λ j '(vec, i),
vj ← get vec j;
if leb vj pivot then
  let i := i + 1 in
  vec ← swap vec i j;
  Ok (vec, i)
else Ok (vec, i)) (vec, i);
vec ← swap vec (i + 1) end_;
Ok (vec, i + 1).

Fixpoint quickSortHelper (fuel : nat) (vec : list T) (start end_ : Z)
: result (list T) :=
match fuel with
| O => OutOfFuel
| Datatypes.S fuel' =>
  if bool_decide (start >= end_) then Ok vec
  else
    '(vec, pivot) ← partition vec start end_;
    vec ← quickSortHelper fuel' vec start (pivot - 1);
    quickSortHelper fuel' vec (pivot + 1) end_
end.

(** Each recursive call of [quickSortHelper] is on a shorter range. *)
Definition QuickSort (vec : list T) : result (list T) :=
if bool_decide (len vec ≤ 1) then Ok vec
else quickSortHelper (length vec) vec 0 (len vec - 1).

Fixpoint heapify (fuel : nat) (vec : list T) (i n : Z) : result (list T) :=
match fuel with
| O => OutOfFuel
| Datatypes.S fuel' =>
  let largest := i in
  let left := 2 * i + 1 in
  let right := 2 * i + 2 in
  largest ←
    (if bool_decide (left < n) then
       vl ← get vec left;
       vm ← get vec largest;
       Ok (if gtb vl vm then left else largest)
     else Ok largest);
  largest ←
    (if bool_decide (right < n) then
       vr ← get vec right;
       vm ← get vec largest;
       Ok (if gtb vr vm then right else largest)
     else Ok largest);
  if bool_decide (largest ≠ i) then
    vec ← swap vec i largest;
    heapify fuel' vec largest n
  else Ok vec
end.

(** A recursive call of [heapify] is on a larger index below [n], so
[len(vec) + 1] nested calls are enough. *)
Definition buildHeap (vec : list T) : result (list T) :=
let n := len vec in
for_down (n ÷ 2 - 1) 0 (λ i vec,
heapify (Datatypes.S (length vec)) vec i n) vec.

Definition HeapSort (vec : list T) : result (list T) :=
let n := len vec in
vec ← buildHeap vec;
for_down (n - 1) 0 (λ i vec,
vec ← swap vec 0 i;
heapify (Datatypes.S (length vec)) vec 0 i) vec.

End ComparisonSorts.

(** ** Linear-time integer sorts *)

Definition NumDigits : Z := 10.

(** The source sorts slices of [uint].  The elements here are of a type
    [A] from which [key] reads the [uint] that the source compares and
    indexes with; the source functions are the instances at [A := Z]
    and [key] the identity.  An element may so carry a tag next to its
    key, which is what stability is about. *)
Section IntegerSorts.
Context {A : Type} (key : A → Z) (zeroA : A).

Definition GeneralCountingSortBy (vec : list A) : result (list A) :=
if bool_decide (len vec ≤ 1) then Ok vec
else
max ← slices_Max (key <$> vec);
counts ← make sizeof_uint 0 (wrap64 (max + 1));
let sorted := make_len zeroA vec in
counts ← for_range vec (λ val counts, incr counts (key val)) counts;
counts ← for_up 1 (len counts) (λ i counts,
  ci ← get counts i;
  cp ← get counts (i - 1);
  set counts i (wrap64 (ci + cp))) counts;
'(sorted, counts) ← for_down (len vec - 1) 0 (λ i '(sorted, counts),
  vi ← get vec i;
  c ← get counts (key vi);
  sorted ← set sorted (wrap64 (c - 1)) vi;
  counts ← decr counts (key vi);
  Ok (sorted, counts)) (sorted, counts);
Ok (copy vec sorted).

Definition radixIntCountSortBy (vec : list A) (exp : Z) : result (list A) :=
let output := make_len zeroA vec in
let counts := make_const 0 (Z.to_nat NumDigits) in
counts ← for_up 0 (len vec) (λ i counts,
vi ← get vec i;
q ← udiv (key vi) exp;
let bucket := q mod NumDigits in
incr counts bucket) counts;
counts ← for_up 1 NumDigits (λ i counts,
ci ← get counts i;
cp ← get counts (i - 1);
set counts i (wrap64 (ci + cp))) counts;
'(output, counts) ← for_down (len vec - 1) 0 (λ i '(output, counts),
vi ← get vec i;
q ← udiv (key vi) exp;
let bucket := q mod NumDigits in
c ← get counts bucket;
output ← set output (wrap64 (c - 1)) vi;
counts ← decr counts bucket;
Ok (output, counts)) (output, counts);
Ok (copy vec output).

(** [exp] runs through [10^k mod 2^64], which is [0] from [k = 64]
on, where the test [max / exp > 0] divides by zero: the loop makes
at most 65 tests. *)
Definition IntRadixSortBy (vec : list A) : result (list A) :=
if bool_decide (len vec ≤ 1) then Ok vec
else
max ← slices_Max (key <$> vec);
let exp := 1 in
'(vec, _) ← while 65
  (λ '(vec, exp), q ← udiv max exp; Ok (bool_decide (q > 0)))
  (λ '(vec, exp),
    vec ← radixIntCountSortBy vec exp;
    Ok (vec, wrap64 (exp * 10))) (vec, exp);
Ok vec.

Definition LessEfficientRadixSortBy (vec : list A) : result (list A) :=
if bool_decide (len vec ≤ 1) then Ok vec
else
max ← slices_Max (key <$> vec);
let divisor := 1 in
'(vec, _) ← while 65
  (λ '(vec, divisor), q ← udiv max divisor; Ok (bool_decide (q > 0)))
  (λ '(vec, divisor),
    let radixArray := make_const ([] : list A) (Z.to_nat NumDigits) in
    radixArray ← for_up 0 (len vec) (λ i radixArray,
      vi ← get vec i;
      q ← udiv (key vi) divisor;
      let radixIndex := q mod NumDigits in
      bucket ← get radixArray radixIndex;
      set radixArray radixIndex (bucket ++ [vi])) radixArray;
    let k := 0 in
    '(vec, k, radixArray) ← for_up 0 (len radixArray)
      (λ i '(vec, k, radixArray),
        bucket ← get radixArray i;
        '(vec, k) ← for_up 0 (len bucket) (λ j '(vec, k),
          bucket ← get radixArray i;
          x ← get bucket j;
          vec ← set vec k x;
          Ok (vec, k + 1)) (vec, k);
        radixArray ← set radixArray i [];
        Ok (vec, k, radixArray)) (vec, k, radixArray);
    Ok (vec, wrap64 (divisor * 10))) (vec, divisor);
Ok vec.

End IntegerSorts.

Definition GeneralCountingSort (vec : list Z) : result (list Z) :=
  GeneralCountingSortBy (λ v, v) 0 vec.

Definition radixIntCountSort (vec : list Z) (exp : Z) : result (list Z) :=
  radixIntCountSortBy (λ v, v) 0 vec exp.

Definition IntRadixSort (vec : list Z) : result (list Z) :=
  IntRadixSortBy (λ v, v) 0 vec.

Definition LessEfficientRadixSort (vec : list Z) : result (list Z) :=
  LessEfficientRadixSortBy (λ v, v) vec.

(** [IntegerCountingSort] writes the keys themselves back, so it has no
    form for tagged elements.  The inner loop counts [counts[i]] down,
    which is at most [len(vec)]. *)
Definition IntegerCountingSort (vec : list Z) : result (list Z) :=
  if bool_decide (len vec ≤ 1) then Ok vec
  else
    max ← slices_Max vec;
    counts ← make sizeof_uint 0 (wrap64 (max + 1));
    counts ← for_range vec (λ val counts, incr counts val) counts;
    let index := 0 in
    '(vec, counts, index) ← for_up 0 (len counts) (λ i '(vec, counts, index),
      while (Datatypes.S (length vec))
        (λ '(vec, counts, index), c ← get counts i; Ok (bool_decide (c > 0)))
        (λ '(vec, counts, index),
          vec ← set vec index i;
          counts ← decr counts i;
          Ok (vec, counts, index + 1)) (vec, counts, index))
      (vec, counts, index);
    Ok vec.

(** ** String radix sort *)

(** A Go string is the sequence of its bytes. *)
Definition gostring : Type := list Byte.byte.

(** [uint8(b)] *)
Definition byte_val (b : Byte.byte) : Z := Z.of_N (Byte.to_N b).

Section StringSort.
Context {A : Type} (key : A → gostring) (zeroA : A).

(** The bucket of an element in the pass over position [curIdx]; the
sum is computed in [uint8]. *)
Definition bucketOf (curIdx : Z) (s : gostring) : result Z :=
if bool_decide (curIdx < len s) then
c ← get s curIdx;
Ok (wrap8 (byte_val c + 1))
else Ok 0.

Definition radixStringCountSortBy (vec : list A) (curIdx : Z)
: result (list A) :=
let output := make_len zeroA vec in
let counts := make_const 0 129 in
counts ← for_up 0 (len vec) (λ i counts,
vi ← get vec i;
bucket ← bucketOf curIdx (key vi);
incr counts bucket) counts;
counts ← for_up 1 (len counts) (λ i counts,
ci ← get counts i;
cp ← get counts (i - 1);
set counts i (wrap64 (ci + cp))) counts;
'(output, counts) ← for_down (len vec - 1) 0 (λ i '(output, counts),
vi ← get vec i;
bucket ← bucketOf curIdx (key vi);
c ← get counts bucket;
output ← set output (wrap64 (c - 1)) vi;
counts ← decr counts bucket;
Ok (output, counts)) (output, counts);
Ok (copy vec output).

Definition StringRadixSortBy (vec : list A) : result (list A) :=
if bool_decide (len vec ≤ 1) then Ok vec
else
v0 ← get vec 0;
let maxLen := len (key v0) in
maxLen ← for_up 1 (len vec) (λ i maxLen,
  vi ← get vec i;
  Ok (if bool_decide (len (key vi) > maxLen) then len (key vi)
      else maxLen)) maxLen;
for_down (maxLen - 1) 0 (λ i vec, radixStringCountSortBy vec i) vec.

End StringSort.

Definition radixStringCountSort (vec : list gostring) (curIdx : Z)
  : result (list gostring) :=
  radixStringCountSortBy (λ s, s) [] vec curIdx.

Definition StringRadixSort (vec : list gostring) : result (list gostring) :=
  StringRadixSortBy (λ s, s) [] vec.


(** ** Bucket sort *)

(** A [float64] is a binary64 number of IEEE 754, and [-], [*], [/],
    [math.Sqrt] and the comparisons are the operations of the standard:
    a comparison with NaN is false. *)
Definition float64 : Type := spec_float.

Definition f64_sub : float64 → float64 → float64 := SFsub 53 1024.
Definition f64_mul : float64 → float64 → float64 := SFmul 53 1024.
Definition f64_div : float64 → float64 → float64 := SFdiv 53 1024.
Definition math_Sqrt : float64 → float64 := SFsqrt 53 1024.

(** [math.Inf(sign)] *)
Definition math_Inf (sign : Z) : float64 :=
  S754_infinity (bool_decide (sign < 0)).

Definition f64_gtb (x y : float64) : bool :=
  match SFcompare x y with
  | Some Gt => true
  | _ => false
  end.

#[export] Instance float64_Ordered : Ordered float64 := {|
  ltb := SFltb;
  leb := SFleb;
  gtb := f64_gtb;
  zero := S754_zero false;
|}.

(** [float64(n)] for an [int]: the nearest [float64] *)
Definition float64_of_int (n : Z) : float64 :=
  binary_normalize 53 1024 n 0 false.

(** The integer part of a finite number *)
Definition trunc (f : float64) : option Z :=
  match f with
  | S754_zero _ => Some 0
  | S754_finite s m e =>
      let a := if bool_decide (0 ≤ e) then Z.pos m * 2 ^ e
               else Z.pos m / 2 ^ (- e) in
      Some (if s then - a else a)
  | _ => None
  end.

Section BucketSort.
(** [int(f)] is the integer part of [f] when that is an [int], and a
  value that depends on the implementation when it is not. *)
Variable int_overflow : float64 → Z.

Definition int_of_float64 (f : float64) : Z :=
match trunc f with
| Some z =>
    if bool_decide (minInt ≤ z ≤ maxInt) then z
    else wrapInt (int_overflow f)
| None => wrapInt (int_overflow f)
end.

Definition BucketSort (vec : list float64) : result (list float64) :=
if bool_decide (len vec ≤ 1) then Ok vec
else
  let min := math_Inf 1 in
  let max := math_Inf (-1) in
  '(min, max) ← for_range vec (λ val '(min, max),
    let min := if ltb val min then val else min in
    let max := if gtb val max then val else max in
    Ok (min, max)) (min, max);
  if SFeqb max min then QuickSort vec
  else
    let numBuckets :=
      wrapInt (int_of_float64
        (f64_div (f64_sub max min)
           (math_Sqrt (float64_of_int (len vec)))) + 1) in
    buckets ← make sizeof_slice ([] : list float64) numBuckets;
    buckets ← for_range vec (λ val buckets,
      let index :=
        int_of_float64
          (f64_mul (f64_div (f64_sub val min) (f64_sub max min))
             (float64_of_int (wrapInt (numBuckets - 1)))) in
      bucket ← get buckets index;
      set buckets index (bucket ++ [val])) buckets;
    let output := make_len (zero : float64) vec in
    let k := 0 in
    '(output, k, buckets) ← for_up 0 (len buckets)
      (λ i '(output, k, buckets),
        bucket ← get buckets i;
        bucket ← QuickSort bucket;
        buckets ← set buckets i bucket;
        '(output, k) ← for_range bucket (λ val '(output, k),
          output ← set output k val;
          Ok (output, k + 1)) (output, k);
        Ok (output, k, buckets)) (output, k, buckets);
    Ok (copy vec output).
End BucketSort.

(** * Specifications *)

(** The element types the comparison sorts are meant for: [<=] is total
    and transitive, and [<] and [>] are its strict parts.  Two elements
    may compare equal without being the same value (a key that carries
    a tag). *)
Class TotalOrder (T : Type) `{Ordered T} : Prop := {
  leb_total : ∀ x y : T, leb x y = true ∨ leb y x = true;
  leb_trans : ∀ x y z : T, leb x y = true → leb y z = true → leb x z = true;
  ltb_leb : ∀ x y : T, ltb x y = negb (leb y x);
  gtb_ltb : ∀ x y : T, gtb x y = ltb y x;
}.

Definition le {T} `{Ordered T} (x y : T) : Prop := leb x y = true.
Infix "⪯" := le (at level 70) : stdpp_scope.

(** Non-decreasing order: [vec[i] <= vec[j]] for all positions [i < j]. *)
Definition sorted {T} `{Ordered T} (vec : list T) : Prop :=
  ∀ i j x y, i < j → idx vec i = Some x → idx vec j = Some y → x ⪯ y.

(** [x] and [y] have equal keys. *)
Definition equivb {T} `{Ordered T} (x y : T) : bool := leb x y && leb y x.

(** [vec'] holds the elements of each key in the order in which [vec]
    holds them. *)
Definition stable {T} `{Ordered T} (vec vec' : list T) : Prop :=
  ∀ x, filter (λ y, equivb x y) vec' = filter (λ y, equivb x y) vec.

(** [<=] is total and transitive, and [<] and [>] are its strict parts,
    on the elements that satisfy [P]: on the numbers, for the floats,
    of which NaN compares with nothing. *)
Class TotalOrderOn {T : Type} `{Ordered T} (P : T → Prop) : Prop := {
  leb_total_on : ∀ x y : T, P x → P y → leb x y = true ∨ leb y x = true;
  leb_trans_on : ∀ x y z : T, P x → P y → P z →
    leb x y = true → leb y z = true → leb x z = true;
  ltb_leb_on : ∀ x y : T, P x → P y → ltb x y = negb (leb y x);
  gtb_ltb_on : ∀ x y : T, P x → P y → gtb x y = ltb y x;
}.

(** [vec'] holds the elements with the key of [x] in the order in
    which [vec] holds them, for every [x] that satisfies [P]. *)
Definition stable_on {T} `{Ordered T} (P : T → Prop) (vec vec' : list T)
  : Prop :=
  ∀ x, P x → filter (λ y, equivb x y) vec' = filter (λ y, equivb x y) vec.

(** The order of the elements that satisfy [P], with the other
    elements, all equal, behind them: a total order on all elements
    when the comparisons are one on [P]. *)
Definition extend_leb {T} `{Ordered T} (P : T → Prop)
    `{∀ x, Decision (P x)} (x y : T) : bool :=
  if decide (P x) then (if decide (P y) then leb x y else true)
  else (if decide (P y) then false else true).

Definition extend_Ordered {T} (O : Ordered T) (P : T → Prop)
    `{∀ x, Decision (P x)} : Ordered T := {|
  ltb x y := negb (extend_leb P y x);
  leb x y := extend_leb P x y;
  gtb x y := negb (extend_leb P x y);
  zero := @zero T O;
|}.

(** [r] is a value that satisfies [Post]: the call returns, and with
    such a result. *)
Definition yields {A} (r : result A) (Post : A → Prop) : Prop :=
  ∃ a, r = Ok a ∧ Post a.

(** The elements at the positions [a .. b - 1] (Go's [vec[a:b]]) *)
Definition slice {A} (vec : list A) (a b : Z) : list A :=
  take (Z.to_nat (b - a)) (drop (Z.to_nat a) vec).

(** [vec'] is [vec] outside the positions [a .. b - 1]. *)
Definition frame {A} (vec vec' : list A) (a b : Z) : Prop :=
  len vec' = len vec ∧ ∀ k, ¬ a ≤ k < b → idx vec' k = idx vec k.

(** The order of the elements of type [A] by their keys: the
    comparison that the integer sorts are about. *)
Definition keyed_Ordered {A} (key : A → Z) (zeroA : A) : Ordered A := {|
  ltb x y := key x <? key y;
  leb x y := key x <=? key y;
  gtb x y := key x >? key y;
  zero := zeroA;
|}.

(** The order of [int] and [uint] values *)
#[export] Instance Z_Ordered : Ordered Z := keyed_Ordered (λ v, v) 0.

(** The elements of [vec] put into the buckets [0 .. nb - 1] and the
    buckets put one after the other: the elements of a bucket are in
    the order they have in [vec]. *)
Definition bucket_sort {A} (bkt : A → Z) (nb : Z) (vec : list A) : list A :=
  concat ((λ b, filter (λ v, bkt v = b) vec) <$> seqZ 0 nb).

(** How many elements of [l] are in bucket [d], and in the buckets
    before [d] *)
Definition count_in {A} (bkt : A → Z) (l : list A) (d : Z) : Z :=
  len (filter (λ v, bkt v = d) l).

Definition below_in {A} (bkt : A → Z) (l : list A) (d : Z) : Z :=
  len (filter (λ v, bkt v < d) l).

(** [out] is [vec] sorted by key: the same elements, those of each key
    in the order they have in [vec], in non-decreasing order of their
    keys. *)
Definition sorted_by_key {A} (key : A → Z) (vec out : list A) : Prop :=
  out ≡ₚ vec ∧
  (∀ q, filter (λ v, key v = q) out = filter (λ v, key v = q) vec) ∧
  StronglySorted (λ x y, key x ≤ key y) out.

(** ** The passes of the radix sorts *)

Section RadixSpec.
Context {A : Type} (key : A → Z).

(** The digit of weight [exp] *)
Definition digit exp (v : A) : Z := (key v / exp) mod 10.

(** One pass of [LessEfficientRadixSort] *)
Definition lessEfficientPass vec (divisor : Z) : result (list A) :=
let radixArray := make_const ([] : list A) (Z.to_nat NumDigits) in
radixArray ← for_up 0 (len vec) (λ i radixArray,
vi ← get vec i;
q ← udiv (key vi) divisor;
let radixIndex := q mod NumDigits in
bucket ← get radixArray radixIndex;
set radixArray radixIndex (bucket ++ [vi])) radixArray;
let k := 0 in
'(vec, k, radixArray) ← for_up 0 (len radixArray)
(λ i '(vec, k, radixArray),
  bucket ← get radixArray i;
  '(vec, k) ← for_up 0 (len bucket) (λ j '(vec, k),
    bucket ← get radixArray i;
    x ← get bucket j;
    vec ← set vec k x;
    Ok (vec, k + 1)) (vec, k);
  radixArray ← set radixArray i [];
  Ok (vec, k, radixArray)) (vec, k, radixArray);
Ok vec.

(** The order that the digit loop reaches by its passes on the
    weights [e0], [e0 * 10], ..., [e0 * 10^(t-1)]: by the [t] digits
    from the weight [e0] on, and, for elements equal there, by their
    keys, unless these passes are the [first] ones of the loop. *)
Definition group_le (e0 : Z) (t : nat) (first : bool) (x y : A) : Prop :=
  (key x / e0) mod 10 ^ Z.of_nat t < (key y / e0) mod 10 ^ Z.of_nat t ∨
  ((key x / e0) mod 10 ^ Z.of_nat t = (key y / e0) mod 10 ^ Z.of_nat t ∧
   (first = false → key x ≤ key y)).
End RadixSpec.

(** The greatest of the weights [10^j mod 2^64] of the digit loop,
    which is the one at [j = 49] *)
Definition radix_limit : Z := 17909126868192198656.

(** ** Strings *)

#[export] Instance byte_eq_dec : EqDecision Byte.byte := Byte.byte_eq_dec.

(** Go's [<=] on strings: the order of the first bytes that differ; a
    string is before the strings it is a proper prefix of. *)
Fixpoint string_leb (s t : gostring) : bool :=
  match s, t with
  | [], _ => true
  | _ :: _, [] => false
  | a :: s', b :: t' =>
      if byte_val a <? byte_val b then true
      else if byte_val a =? byte_val b then string_leb s' t'
      else false
  end.

(** The order of the elements of type [A] by their string keys *)
Definition string_keyed_Ordered {A} (key : A → gostring) (zeroA : A)
  : Ordered A := {|
  ltb x y := negb (string_leb (key y) (key x));
  leb x y := string_leb (key x) (key y);
  gtb x y := negb (string_leb (key x) (key y));
  zero := zeroA;
|}.

#[export] Instance string_Ordered : Ordered gostring :=
  string_keyed_Ordered (λ s, s) [].

Definition is_ascii (s : gostring) : Prop :=
  ∀ c, c ∈ s → byte_val c < 128.

(** The bucket of the string [s] in the pass over position [curIdx] *)
Definition sbkt (curIdx : Z) (s : gostring) : Z :=
  match idx s curIdx with
  | Some c => wrap8 (byte_val c + 1)
  | None => 0
  end.

(** [out] is [vec] sorted by string key: the same elements, those of
    each key in the order they have in [vec], in the order of their
    keys. *)
Definition sorted_by_string {A} (key : A → gostring) (vec out : list A)
  : Prop :=
  out ≡ₚ vec ∧
  (∀ q, filter (λ v, key v = q) out = filter (λ v, key v = q) vec) ∧
  StronglySorted (λ x y, string_leb (key x) (key y) = true) out.

(** ** Floating-point numbers *)

Definition is_nan (f : float64) : bool :=
  match f with
  | S754_nan => true
  | _ => false
  end.

(** The place of a number in the order of the numbers: its sign and
    kind, then its exponent, then its mantissa; NaN is given a place
    before all numbers. *)
Definition fkey (f : float64) : Z * Z * Z :=
  match f with
  | S754_nan => (-3, 0, 0)
  | S754_infinity true => (-2, 0, 0)
  | S754_finite true m e => (-1, - e, - Z.pos m)
  | S754_zero _ => (0, 0, 0)
  | S754_finite false m e => (1, e, Z.pos m)
  | S754_infinity false => (2, 0, 0)
  end.

Definition lex_leb (a b : Z * Z * Z) : bool :=
  let '(a1, a2, a3) := a in
  let '(b1, b2, b3) := b in
  (a1 <? b1) || ((a1 =? b1) && ((a2 <? b2) || ((a2 =? b2) && (a3 <=? b3)))).

(** The order of the places: a total order, which is the order of
    [float64_Ordered] on the numbers that are not NaN. *)
Definition fkey_Ordered : Ordered float64 := {|
  ltb x y := negb (lex_leb (fkey y) (fkey x));
  leb x y := lex_leb (fkey x) (fkey y);
  gtb x y := negb (lex_leb (fkey x) (fkey y));
  zero := S754_zero false;
|}.

(** The least and the greatest element, as the first loop of
    [BucketSort] finds them *)
Definition min_max (vec : list float64) : float64 * float64 :=
  foldl (λ '(min, max) val,
      (if ltb val min then val else min, if gtb val max then val else max))
    (math_Inf 1, math_Inf (-1)) vec.

Section BucketSpec.
Variable int_overflow : float64 → Z.

(** The number of buckets and the bucket of a value, as [BucketSort]
    computes them *)
Definition numBuckets (vec : list float64) : Z :=
  let '(min, max) := min_max vec in
  wrapInt (int_of_float64 int_overflow
    (f64_div (f64_sub max min) (math_Sqrt (float64_of_int (len vec)))) + 1).

Definition bucket_index (vec : list float64) (val : float64) : Z :=
  let '(min, max) := min_max vec in
  int_of_float64 int_overflow
    (f64_mul (f64_div (f64_sub val min) (f64_sub max min))
       (float64_of_int (wrapInt (numBuckets vec - 1)))).

(** The least and the greatest element are equal, or the bucket of
    each element is one of the buckets and a greater bucket holds no
    smaller element. *)
Definition buckets_ok (vec : list float64) : Prop :=
  SFeqb (min_max vec).2 (min_max vec).1 = true ∨
  ((∀ x, x ∈ vec → 0 ≤ bucket_index vec x < numBuckets vec) ∧
   (∀ x y, x ∈ vec → y ∈ vec →
      bucket_index vec x < bucket_index vec y → SFleb x y = true)).
End BucketSpec.

(** ** Rounding to the nearest [float64] *)

(** The value of a number in units of the least positive number,
    [2^-1074]: every [float64] is a whole number of them. *)
Definition fval (f : float64) : Z :=
  match f with
  | S754_finite s m e =>
      let a := Z.pos m * 2 ^ (e + 1074) in if s then - a else a
  | _ => 0
  end.

Definition is_finite (f : float64) : bool :=
  match f with
  | S754_zero _ | S754_finite _ _ _ => true
  | _ => false
  end.

(** A value of the type [float64]: the mantissa and the exponent are
    those of a binary64 number. *)
Definition is_float64 (f : float64) : Prop := valid_binary 53 1024 f = true.

(** [n / d] rounded to the nearest integer, and to the even one of two
    that are as near *)
Definition round_half_even (n d : Z) : Z :=
  let q := n / d in
  let r := n mod d in
  if 2 * r <? d then q
  else if d <? 2 * r then q + 1
  else if Z.even q then q else q + 1.

(** The numbers from [2^(k+52)] to [2^(k+53)] are [2^k] units apart. *)
Definition round_exp (n d : Z) : Z := Z.max 0 (Zdigits2 (n / d) - 53).

(** The [float64] nearest to [n / d] units, in units *)
Definition round_float (n d : Z) : Z :=
  2 ^ round_exp n d * round_half_even n (d * 2 ^ round_exp n d).

(** [f] is the number of [r] units, for [r] the result of a rounding
    that is not negative: infinity from [2^2098] units on. *)
Definition rounds_to (r : Z) (f : float64) : Prop :=
  (r = 0 ∧ ∃ s, f = S754_zero s) ∨
  (0 < r < 2 ^ 2098 ∧ is_float64 f ∧ fval f = r ∧
     ∃ m e, f = S754_finite false m e) ∨
  (2 ^ 2098 ≤ r ∧ f = S754_infinity false).

(** The mantissa, the round bit and the sticky bit of [a / b], as the
    shifts of the rounding keep them *)
Definition shr_of (a b : Z) : shr_record := {|
  shr_m := a / b;
  shr_r := b <=? 2 * (a mod b);
  shr_s := negb ((a mod b =? 0) || (2 * (a mod b) =? b));
|}.

(** The [float64] nearest to [a / b * 2^e], in units *)
Definition round_at (a b e : Z) : Z :=
  round_float (a * 2 ^ Z.max 0 (e + 1074)) (b * 2 ^ Z.max 0 (- 1074 - e)).

(** The bucket of a number of [t] units, for the least number [mn],
    the difference [d] of the greatest and the least, and the number
    of buckets less one [f], all in units: the index that [BucketSort]
    computes, each operation rounded. *)
Definition bucket_of (mn d f t : Z) : Z :=
  round_float
    (round_float (round_float (t - mn) 1 * 2 ^ 1074) d * f) (2 ^ 1074)
  / 2 ^ 1074.

(** Two calls have the same outcome, and the result, if there is one,
    satisfies [Q]. *)
Definition agree {S} (r1 r2 : result S) (Q : S → Prop) : Prop :=
  r1 = r2 ∧ ∀ a, r1 = Ok a → Q a.

(** [x] is between [y] and [z]: neither below both nor above both. *)
Definition is_between {T} `{Ordered T} (x y z : T) : Prop :=
  (y ⪯ x ∧ x ⪯ z) ∨ (z ⪯ x ∧ x ⪯ y).

(** ** Invariants of the loops *)

Section Invariants.
Context {T : Type} `{Ordered T}.
Implicit Types (vec : list T).

(** The elements before position [i] are in order and none is above
an element behind it. *)
Definition below vec (i n : Z) : Prop :=
∀ a b x y, 0 ≤ a < i → a < b < n →
idx vec a = Some x → idx vec b = Some y → x ⪯ y.

(** The elements from position [m] on are in order and none is below
an element before it. *)
Definition above vec (m n : Z) : Prop :=
∀ a b x y, m ≤ b < n → 0 ≤ a < b →
idx vec a = Some x → idx vec b = Some y → x ⪯ y.

(** The positions [lo .. hi - 1] are in order. *)
Definition sorted_range vec (lo hi : Z) : Prop :=
∀ a b x y, lo ≤ a < b → b < hi →
idx vec a = Some x → idx vec b = Some y → x ⪯ y.

(** In the heap of the first [n] elements, the element at [k] is not
below its children. *)
Definition heap_at vec (n k : Z) : Prop :=
∀ c x y, c = 2 * k + 1 ∨ c = 2 * k + 2 → c < n →
idx vec k = Some x → idx vec c = Some y → y ⪯ x.

Definition heap_from vec (lo n : Z) : Prop :=
∀ k, lo ≤ k < n → heap_at vec n k.

(** The parent of [i], if it is at [lo] or behind, is not below the
children of [i]. *)
Definition heap_parent vec (lo n i : Z) : Prop :=
∀ p c x y, lo ≤ p → i = 2 * p + 1 ∨ i = 2 * p + 2 →
c = 2 * i + 1 ∨ c = 2 * i + 2 → c < n →
idx vec p = Some x → idx vec c = Some y → y ⪯ x.
End Invariants.

(** ** Values for the examples *)

(** The bytes of a string literal *)
Definition str (s : String.string) : gostring := String.list_byte_of_string s.

Section Strings.
Import String.StringSyntax.
Local Open Scope string_scope.

(** The strings of the example of the specification, and the order it
    gives for them *)
Definition fruits : list gostring :=
  [str "banana"; str "apple"; str "ab"; str "app"].

Definition fruits_sorted : list gostring :=
  [str "ab"; str "app"; str "apple"; str "banana"].

Definition figs : list gostring := [str "pear"; str "fig"; str "figs"].
End Strings.

(** The [float64] nearest to [a / b], for integers that are [float64]s *)
Definition f64 (a b : Z) : float64 :=
  f64_div (float64_of_int a) (float64_of_int b).

(** On amd64 the conversion of a number that is no [int] gives the
    least [int]. *)
Definition int_overflow_amd64 (f : float64) : Z := minInt.

(** The numbers of the examples of the specification *)
Definition fractions : list float64 :=
  [f64 42 100; f64 32 100; f64 23 100; f64 52 100; f64 25 100; f64 47 100;
   f64 51 100].

Definition threes : list float64 := [f64 3 1; f64 3 1; f64 3 1].

(** Numbers of which two compare equal and are not the same: the two
    zeros *)
Definition signed_zeros : list float64 :=
  [S754_zero true; f64 1 1; S754_zero false; f64 1 2].

(** Two runs in order, each with a zero *)
Definition signed_runs : list float64 :=
  [S754_zero true; f64 1 1; S754_zero false; f64 2 1].

(** Numbers that [BucketSort] spreads over six buckets *)
Definition spread : list float64 := [f64 0 1; f64 3 1; f64 3 2; f64 10 1].

(** Numbers that are far apart: [0] and [10^15] *)
Definition far_apart : list float64 := [f64 0 1; float64_of_int (10 ^ 15)].



(** * Reasoning about results, slices and loops *)

(** The loops are unfolded by their rules only. *)
Arguments while : simpl never.
Arguments for_up : simpl never.
Arguments for_down : simpl never.
Arguments for_up_break : simpl never.

(** Split a conjunction and close the parts that are assumptions or
    linear arithmetic. *)
Ltac splits :=
  repeat match goal with |- _ ∧ _ => split end; try done; try lia.



Section Slices.
Context {A : Type}.
Implicit Types (vec : list A) (i j k : Z) (x y : A).

Lemma len_nonneg vec : 0 ≤ len vec.
Proof. unfold len. lia. Qed.

Lemma idx_Some vec i x : idx vec i = Some x → 0 ≤ i < len vec.
Proof. unfold idx. case_bool_decide; [done | discriminate]. Qed.

Lemma idx_lookup vec i :
  0 ≤ i → idx vec i = vec !! Z.to_nat i.
Proof.
  intros Hi. unfold idx. case_bool_decide as Hr; [done|].
  symmetry. apply lookup_ge_None. unfold len in Hr. lia.
Qed.

Lemma idx_of_nat vec (n : nat) : idx vec (Z.of_nat n) = vec !! n.
Proof. rewrite idx_lookup by lia. by rewrite Nat2Z.id. Qed.

Lemma idx_is_Some vec i : 0 ≤ i < len vec → ∃ x, idx vec i = Some x.
Proof.
  intros Hi. rewrite idx_lookup by lia.
  apply lookup_lt_is_Some. unfold len in Hi. lia.
Qed.

Lemma idx_None vec i : ¬ 0 ≤ i < len vec → idx vec i = None.
Proof. intros Hi. unfold idx. by case_bool_decide. Qed.

Lemma idx_elem_of vec i x : idx vec i = Some x → x ∈ vec.
Proof.
  intros Hx. pose proof (idx_Some _ _ _ Hx).
  rewrite idx_lookup in Hx by lia. by eapply list_elem_of_lookup_2.
Qed.

Lemma elem_of_idx vec x : x ∈ vec → ∃ i, idx vec i = Some x.
Proof.
  intros [n Hn]%list_elem_of_lookup. exists (Z.of_nat n).
  by rewrite idx_of_nat.
Qed.

Lemma idx_ext vec1 vec2 :
  (∀ i, idx vec1 i = idx vec2 i) → vec1 = vec2.
Proof.
  intros Hi. apply list_eq. intros n. rewrite <- !idx_of_nat. apply Hi.
Qed.

Lemma get_Ok vec i x : idx vec i = Some x → get vec i = Ok x.
Proof. unfold get. by intros ->. Qed.

Lemma get_Ok_inv vec i x : get vec i = Ok x → idx vec i = Some x.
Proof. unfold get. destruct (idx vec i); naive_solver. Qed.

Lemma get_Panic vec i : ¬ 0 ≤ i < len vec → get vec i = Panic IndexOutOfRange.
Proof. intros Hi. unfold get. by rewrite idx_None. Qed.

Lemma len_insert vec (n : nat) x : len (<[n:=x]> vec) = len vec.
Proof. unfold len. by rewrite length_insert. Qed.

Lemma set_Ok vec i x :
  0 ≤ i < len vec → set vec i x = Ok (<[Z.to_nat i:=x]> vec).
Proof. intros Hi. unfold set. by rewrite bool_decide_true. Qed.

Lemma set_Panic vec i x :
  ¬ 0 ≤ i < len vec → set vec i x = Panic IndexOutOfRange.
Proof. intros Hi. unfold set. by rewrite bool_decide_false. Qed.

Lemma idx_insert vec i j x :
  0 ≤ i < len vec →
  idx (<[Z.to_nat i:=x]> vec) j = if bool_decide (j = i) then Some x else idx vec j.
Proof.
  intros Hi. unfold idx. rewrite len_insert.
  case_bool_decide as Hj; case_bool_decide as Hji; subst; try done.
  - apply list_lookup_insert_eq. unfold len in Hi. lia.
  - apply list_lookup_insert_ne. lia.
Qed.

(** The effect of [vec[i], vec[j] = vec[j], vec[i]] *)
Lemma swap_Ok vec i j x y :
  idx vec i = Some x → idx vec j = Some y →
  ∃ vec', swap vec i j = Ok vec' ∧ len vec' = len vec ∧ vec' ≡ₚ vec ∧
    ∀ k, idx vec' k =
      if bool_decide (k = j) then Some x
      else if bool_decide (k = i) then Some y else idx vec k.
Proof.
  intros Hx Hy.
  pose proof (idx_Some _ _ _ Hx) as Hi. pose proof (idx_Some _ _ _ Hy) as Hj.
  exists (<[Z.to_nat j:=x]> (<[Z.to_nat i:=y]> vec)). split; [|split; [|split]].
  - unfold swap. rewrite (get_Ok _ _ _ Hy), (get_Ok _ _ _ Hx). simpl.
    rewrite set_Ok by done. simpl. rewrite set_Ok; [done|].
    by rewrite len_insert.
  - by rewrite !len_insert.
  - apply Permutation_insert_swap.
    + by rewrite <- idx_lookup by lia.
    + by rewrite <- idx_lookup by lia.
  - intros k. rewrite idx_insert by (by rewrite len_insert).
    case_bool_decide; [done|]. by rewrite idx_insert.
Qed.

Lemma swap_Ok_eq vec i j x y :
  idx vec i = Some x → idx vec j = Some y →
  swap vec i j = Ok (<[Z.to_nat j:=x]> (<[Z.to_nat i:=y]> vec)).
Proof.
  intros Hx Hy.
  pose proof (idx_Some _ _ _ Hx) as Hi. pose proof (idx_Some _ _ _ Hy) as Hj.
  unfold swap. rewrite (get_Ok _ _ _ Hy), (get_Ok _ _ _ Hx). simpl.
  rewrite set_Ok by done. simpl. rewrite set_Ok; [done|].
  by rewrite len_insert.
Qed.

(** Exchanging two neighbours *)
Lemma swap_adjacent vec j x y :
  idx vec j = Some x → idx vec (j + 1) = Some y →
  ∃ l1 l2, vec = l1 ++ x :: y :: l2 ∧
    swap vec j (j + 1) = Ok (l1 ++ y :: x :: l2) ∧
    swap vec (j + 1) j = Ok (l1 ++ y :: x :: l2).
Proof.
  intros Hx Hy. pose proof (idx_Some _ _ _ Hx) as Hj.
  rewrite (swap_Ok_eq _ _ _ _ _ Hx Hy), (swap_Ok_eq _ _ _ _ _ Hy Hx).
  rewrite idx_lookup in Hx, Hy by lia.
  replace (Z.to_nat (j + 1)) with (Datatypes.S (Z.to_nat j)) in * by lia.
  apply list_elem_of_split_length in Hx as (l1 & l2' & -> & Hl1).
  rewrite Hl1 in *.
  rewrite lookup_app_r, Nat.sub_succ_l, Nat.sub_diag in Hy by lia.
  destruct l2' as [|y' l2]; [done|]. injection Hy as ->.
  exists l1, l2. split; [done|].
  assert (∀ l : list A,
    <[Datatypes.S (length l):=x]> (<[length l:=y]> (l ++ x :: y :: l2))
      = l ++ y :: x :: l2 ∧
    <[length l:=y]> (<[Datatypes.S (length l):=x]> (l ++ x :: y :: l2))
      = l ++ y :: x :: l2) as Hins.
  { induction l as [|z l [IH1 IH2]]; [done|]. simpl. by rewrite IH1, IH2. }
  destruct (Hins l1) as [-> ->]. done.
Qed.

Lemma swap_self vec i x : idx vec i = Some x → swap vec i i = Ok vec.
Proof.
  intros Hx. destruct (swap_Ok vec i i x x Hx Hx) as (vec' & -> & _ & _ & Hk).
  f_equal. apply idx_ext. intros k. rewrite Hk.
  repeat case_bool_decide; subst; done.
Qed.

Lemma len_replicate (n : nat) x : len (replicate n x) = Z.of_nat n.
Proof. unfold len. by rewrite length_replicate. Qed.

Lemma make_Ok size (z : A) n :
  0 ≤ n ≤ maxInt → n * size ≤ maxAlloc →
  make size z n = Ok (replicate (Z.to_nat n) z).
Proof. intros Hn Hsize. unfold make. by rewrite bool_decide_true. Qed.

Lemma make_Panic size (z : A) n :
  ¬ (0 ≤ n ≤ maxInt ∧ n * size ≤ maxAlloc) →
  make size z n = Panic MakeLenOutOfRange.
Proof. intros Hn. unfold make. by rewrite bool_decide_false. Qed.

Lemma copy_same_length vec1 vec2 :
  length vec1 = length vec2 → copy vec1 vec2 = vec2.
Proof.
  intros Hl. unfold copy. rewrite Hl, firstn_all, drop_ge by lia.
  apply app_nil_r.
Qed.
End Slices.

(** ** Rules for [yields] *)

Section Yields.
Context {A : Type}.
Implicit Types (vec : list A) (i j k : Z) (x y : A).

Lemma yields_Ok {B} (b : B) (Post : B → Prop) : Post b → yields (Ok b) Post.
Proof. intros Hb. by exists b. Qed.

Lemma yields_mono {B} (r : result B) (P Q : B → Prop) :
  yields r P → (∀ b, P b → Q b) → yields r Q.
Proof. intros (b & -> & Hb) HPQ. exists b. auto. Qed.

Lemma yields_bind {B C} (r : result B) (k : B → result C)
    (Q : B → Prop) (Post : C → Prop) :
  yields r Q → (∀ b, Q b → yields (k b) Post) → yields (r ≫= k) Post.
Proof. intros (b & -> & Hb) Hk. simpl. by apply Hk. Qed.

Lemma yields_get vec i (Post : A → Prop) :
  0 ≤ i < len vec → (∀ x, idx vec i = Some x → Post x) →
  yields (get vec i) Post.
Proof.
  intros Hi HP. destruct (idx_is_Some vec i Hi) as [x Hx].
  exists x. split; [by apply get_Ok|auto].
Qed.

Lemma yields_get_bind {C} vec i (k : A → result C) (Post : C → Prop) :
  0 ≤ i < len vec → (∀ x, idx vec i = Some x → yields (k x) Post) →
  yields (get vec i ≫= k) Post.
Proof.
  intros Hi HP. destruct (idx_is_Some vec i Hi) as [x Hx].
  rewrite (get_Ok _ _ _ Hx). simpl. auto.
Qed.

Lemma yields_set vec i x (Post : list A → Prop) :
  0 ≤ i < len vec → Post (<[Z.to_nat i:=x]> vec) →
  yields (set vec i x) Post.
Proof. intros Hi HP. rewrite set_Ok by done. by apply yields_Ok. Qed.

Lemma yields_set_bind {C} vec i x (k : list A → result C) (Post : C → Prop) :
  0 ≤ i < len vec → yields (k (<[Z.to_nat i:=x]> vec)) Post →
  yields (set vec i x ≫= k) Post.
Proof. intros Hi HP. rewrite set_Ok by done. done. Qed.

Lemma yields_swap vec i j x y (Post : list A → Prop) :
  idx vec i = Some x → idx vec j = Some y →
  (∀ vec', len vec' = len vec → vec' ≡ₚ vec →
     (∀ k, idx vec' k =
        if bool_decide (k = j) then Some x
        else if bool_decide (k = i) then Some y else idx vec k) →
     Post vec') →
  yields (swap vec i j) Post.
Proof.
  intros Hx Hy HP.
  destruct (swap_Ok vec i j x y Hx Hy) as (vec' & -> & Hl & Hp & Hk).
  apply yields_Ok. auto.
Qed.

Lemma yields_swap_bind {C} vec i j x y (k : list A → result C)
    (Post : C → Prop) :
  idx vec i = Some x → idx vec j = Some y →
  (∀ vec', len vec' = len vec → vec' ≡ₚ vec →
     (∀ k, idx vec' k =
        if bool_decide (k = j) then Some x
        else if bool_decide (k = i) then Some y else idx vec k) →
     yields (k vec') Post) →
  yields (swap vec i j ≫= k) Post.
Proof.
  intros Hx Hy HP.
  destruct (swap_Ok vec i j x y Hx Hy) as (vec' & -> & Hl & Hp & Hk).
  simpl. auto.
Qed.
End Yields.

(** ** Invariant rules for the loops *)

Section Loops.
Context {S : Type}.

Lemma for_up_from_inv (Inv : Z → S → Prop) (body : Z → S → result S) n lo s :
  Inv lo s →
  (∀ i s, lo ≤ i < lo + Z.of_nat n → Inv i s → yields (body i s) (Inv (i + 1))) →
  yields (for_up_from n lo body s) (Inv (lo + Z.of_nat n)).
Proof.
  revert lo s. induction n as [|n IH]; intros lo s Hs Hbody; simpl.
  - apply yields_Ok. by replace (lo + Z.of_nat 0) with lo by lia.
  - eapply yields_bind; [apply Hbody; [lia|done]|].
    intros s1 Hs1.
    replace (lo + Z.of_nat (Datatypes.S n)) with (lo + 1 + Z.of_nat n) by lia.
    apply IH; [done|]. intros i s' Hi. apply Hbody. lia.
Qed.

(** [Inv i s]: the state is [s] when the iteration for [i] is the next. *)
Lemma for_up_inv (Inv : Z → S → Prop) (Post : S → Prop)
    (body : Z → S → result S) lo hi s :
  lo ≤ hi →
  Inv lo s →
  (∀ i s, lo ≤ i < hi → Inv i s → yields (body i s) (Inv (i + 1))) →
  (∀ s, Inv hi s → Post s) →
  yields (for_up lo hi body s) Post.
Proof.
  intros Hle Hs Hbody Hpost. unfold for_up.
  eapply yields_mono.
  - apply (for_up_from_inv Inv); [done|]. intros i s' Hi. apply Hbody. lia.
  - intros s'. replace (lo + Z.of_nat (Z.to_nat (hi - lo))) with hi by lia.
    apply Hpost.
Qed.

Lemma for_up_empty (body : Z → S → result S) lo hi s :
  hi ≤ lo → for_up lo hi body s = Ok s.
Proof.
  intros Hle. unfold for_up. by replace (Z.to_nat (hi - lo)) with O by lia.
Qed.

Lemma for_down_from_inv (Inv : Z → S → Prop) (body : Z → S → result S) n hi s :
  Inv hi s →
  (∀ i s, hi - Z.of_nat n < i ≤ hi → Inv i s → yields (body i s) (Inv (i - 1))) →
  yields (for_down_from n hi body s) (Inv (hi - Z.of_nat n)).
Proof.
  revert hi s. induction n as [|n IH]; intros hi s Hs Hbody; simpl.
  - apply yields_Ok. by replace (hi - Z.of_nat 0) with hi by lia.
  - eapply yields_bind; [apply Hbody; [lia|done]|].
    intros s1 Hs1.
    replace (hi - Z.of_nat (Datatypes.S n)) with (hi - 1 - Z.of_nat n) by lia.
    apply IH; [done|]. intros i s' Hi. apply Hbody. lia.
Qed.

Lemma for_down_inv (Inv : Z → S → Prop) (Post : S → Prop)
    (body : Z → S → result S) hi lo s :
  lo ≤ hi + 1 →
  Inv hi s →
  (∀ i s, lo ≤ i ≤ hi → Inv i s → yields (body i s) (Inv (i - 1))) →
  (∀ s, Inv (lo - 1) s → Post s) →
  yields (for_down hi lo body s) Post.
Proof.
  intros Hle Hs Hbody Hpost. unfold for_down.
  eapply yields_mono.
  - apply (for_down_from_inv Inv); [done|]. intros i s' Hi. apply Hbody. lia.
  - intros s'.
    replace (hi - Z.of_nat (Z.to_nat (hi - lo + 1))) with (lo - 1) by lia.
    apply Hpost.
Qed.

Lemma for_down_empty (body : Z → S → result S) hi lo s :
  hi < lo → for_down hi lo body s = Ok s.
Proof.
  intros Hle. unfold for_down.
  by replace (Z.to_nat (hi - lo + 1)) with O by lia.
Qed.

Lemma for_up_break_inv (Inv : Z → S → Prop) (Post : S → Prop)
    (body : Z → S → result (S * bool)) lo hi s :
  lo ≤ hi →
  Inv lo s →
  (∀ i s, lo ≤ i < hi → Inv i s →
     yields (body i s) (λ '(s', b), if b : bool then Post s' else Inv (i + 1) s')) →
  (∀ s, Inv hi s → Post s) →
  yields (for_up_break lo hi body s) Post.
Proof.
  intros Hle Hs Hbody Hpost. unfold for_up_break.
  remember (Z.to_nat (hi - lo)) as n eqn:Hn.
  revert lo s Hle Hs Hbody Hn.
  induction n as [|n IH]; intros lo s Hle Hs Hbody Hn; simpl.
  - apply yields_Ok. apply Hpost. by replace hi with lo by lia.
  - eapply yields_bind; [apply Hbody; [lia|done]|].
    intros [s1 b] Hs1. destruct b; [by apply yields_Ok|].
    apply IH; [lia|done| |lia].
    intros i s' Hi. apply Hbody. lia.
Qed.

Lemma for_up_break_empty (body : Z → S → result (S * bool)) lo hi s :
  hi ≤ lo → for_up_break lo hi body s = Ok s.
Proof.
  intros Hle. unfold for_up_break.
  by replace (Z.to_nat (hi - lo)) with O by lia.
Qed.

(** A loop whose body makes the measure [m] smaller ends within
    [m s + 1] tests. *)
Lemma while_inv (Inv : S → Prop) (Post : S → Prop) (m : S → nat)
    (cond : S → result bool) (body : S → result S) fuel s :
  Inv s →
  (m s < fuel)%nat →
  (∀ s, Inv s → yields (cond s) (λ b,
     if b : bool then yields (body s) (λ s', Inv s' ∧ (m s' < m s)%nat)
     else Post s)) →
  yields (while fuel cond body s) Post.
Proof.
  intros Hs Hm Hstep. revert s Hs Hm.
  induction fuel as [|fuel IH]; intros s Hs Hm; [lia|]. simpl.
  eapply yields_bind; [by apply Hstep|].
  intros [] Hb; [|by apply yields_Ok].
  eapply yields_bind; [exact Hb|].
  intros s1 [Hs1 Hlt]. apply IH; [done|lia].
Qed.

(** [Inv pre s]: the state is [s] when the elements [pre] are done. *)
Lemma for_range_inv {A} (Inv : list A → S → Prop) (Post : S → Prop)
    (body : A → S → result S) (vec : list A) s :
  Inv [] s →
  (∀ pre x post s, vec = pre ++ x :: post → Inv pre s →
     yields (body x s) (Inv (pre ++ [x]))) →
  (∀ s, Inv vec s → Post s) →
  yields (for_range vec body s) Post.
Proof.
  intros Hs Hbody Hpost.
  assert (∀ pre post s, vec = pre ++ post → Inv pre s →
    yields (for_range post body s) Post) as Hgen.
  { intros pre post. revert pre.
    induction post as [|x post IH]; intros pre s0 Hvec Hpre; simpl.
    - apply yields_Ok. apply Hpost. by rewrite Hvec, app_nil_r.
    - eapply yields_bind; [by eapply Hbody|].
      intros s1 Hs1.
      apply (IH (pre ++ [x])); [|done]. by rewrite <- app_assoc. }
  by apply (Hgen [] vec).
Qed.
End Loops.

(** ** Facts about lists *)

Section ListFacts.
Context {A : Type}.
Implicit Types (l : list A).

Lemma filter_none (P : A → Prop) `{∀ a, Decision (P a)} l :
  (∀ a, a ∈ l → ¬ P a) → filter P l = [].
Proof.
  induction l as [|a l IH]; intros Hl; [done|].
  rewrite filter_cons_False by (apply Hl; left).
  apply IH. intros b Hb. apply Hl. by right.
Qed.

Lemma filter_disjoint_Permutation (P Q : A → Prop)
    `{∀ v, Decision (P v), ∀ v, Decision (Q v)} l :
  (∀ v, P v → Q v → False) →
  filter (λ v, P v ∨ Q v) l ≡ₚ filter P l ++ filter Q l.
Proof.
  intros Hd. induction l as [|v l IH]; [done|].
  rewrite !filter_cons.
  destruct (decide (P v)) as [HP|HP], (decide (Q v)) as [HQ|HQ].
  - destruct (Hd v HP HQ).
  - rewrite decide_True by auto. simpl. by rewrite IH.
  - rewrite decide_True by auto. rewrite IH. by rewrite Permutation_middle.
  - rewrite decide_False by tauto. done.
Qed.

Lemma filter_all (P : A → Prop) `{∀ v, Decision (P v)} l :
  (∀ v, v ∈ l → P v) → filter P l = l.
Proof.
  induction l as [|v l IH]; intros Hl; [done|].
  rewrite filter_cons_True by (apply Hl; left).
  f_equal. apply IH. intros w Hw. apply Hl. by right.
Qed.

Lemma StronglySorted_filter (R : relation A) (P : A → Prop)
    `{∀ v, Decision (P v)} l :
  StronglySorted R l → StronglySorted R (filter P l).
Proof.
  induction 1 as [|v l Hs IH Hall]; [constructor|].
  rewrite filter_cons. case_decide; [|done].
  constructor; [done|]. apply Forall_forall.
  intros w [_ Hw]%list_elem_of_filter. rewrite Forall_forall in Hall. auto.
Qed.

Lemma StronglySorted_impl_elem_of (R R' : relation A) l :
  StronglySorted R l →
  (∀ v w, v ∈ l → w ∈ l → R v w → R' v w) →
  StronglySorted R' l.
Proof.
  induction 1 as [|v l Hs IH Hall]; intros HR; [constructor|].
  constructor.
  - apply IH. intros w1 w2 ??. apply HR; by right.
  - rewrite Forall_forall in *. intros w Hw.
    apply HR; [by left|by right|auto].
Qed.
End ListFacts.

(** ** Order reasoning *)

Section Order.
Context {T : Type} `{TotalOrder T}.
Implicit Types x y z : T.

Lemma le_total x y : x ⪯ y ∨ y ⪯ x.
Proof. apply leb_total. Qed.

Lemma le_refl x : x ⪯ x.
Proof. by destruct (le_total x x). Qed.

Lemma le_trans x y z : x ⪯ y → y ⪯ z → x ⪯ z.
Proof. apply leb_trans. Qed.

Lemma not_le x y : ¬ x ⪯ y → y ⪯ x.
Proof. destruct (le_total x y); tauto. Qed.

Lemma leb_false x y : leb x y = false ↔ ¬ x ⪯ y.
Proof. unfold le. destruct (leb x y); naive_solver. Qed.

Lemma ltb_true x y : ltb x y = true ↔ ¬ y ⪯ x.
Proof. rewrite ltb_leb. unfold le. destruct (leb y x); naive_solver. Qed.

Lemma ltb_false x y : ltb x y = false ↔ y ⪯ x.
Proof. rewrite ltb_leb. unfold le. destruct (leb y x); naive_solver. Qed.

Lemma gtb_true x y : gtb x y = true ↔ ¬ x ⪯ y.
Proof. rewrite gtb_ltb. apply ltb_true. Qed.

Lemma gtb_false x y : gtb x y = false ↔ x ⪯ y.
Proof. rewrite gtb_ltb. apply ltb_false. Qed.

Lemma lt_le_trans x y z : ¬ y ⪯ x → y ⪯ z → ¬ z ⪯ x.
Proof. intros Hxy Hyz Hzx. apply Hxy. by apply le_trans with z. Qed.

Lemma le_lt_trans x y z : x ⪯ y → ¬ z ⪯ y → ¬ z ⪯ x.
Proof. intros Hxy Hyz Hzx. apply Hyz. by apply le_trans with x. Qed.

Lemma equivb_true x y : equivb x y = true ↔ x ⪯ y ∧ y ⪯ x.
Proof. unfold equivb, le. rewrite andb_true_iff. done. Qed.

Lemma equivb_refl x : equivb x x = true.
Proof. apply equivb_true. split; apply le_refl. Qed.

Lemma stable_refl (vec : list T) : stable vec vec.
Proof. by intros x. Qed.

Lemma stable_trans (vec1 vec2 vec3 : list T) :
  stable vec1 vec2 → stable vec2 vec3 → stable vec1 vec3.
Proof. intros H12 H23 x. by rewrite H23, H12. Qed.

(** Exchanging two neighbours with different keys is stable. *)
Lemma stable_exchange (l1 l2 : list T) x y :
  ¬ (x ⪯ y ∧ y ⪯ x) → stable (l1 ++ x :: y :: l2) (l1 ++ y :: x :: l2).
Proof.
  intros Hxy z. rewrite !filter_app, !filter_cons.
  destruct (decide (equivb z x)) as [Hx|Hx],
    (decide (equivb z y)) as [Hy|Hy]; try done.
  apply Is_true_true in Hx. apply Is_true_true in Hy.
  apply equivb_true in Hx. apply equivb_true in Hy.
  destruct Hx as [Hzx Hxz], Hy as [Hzy Hyz]. destruct Hxy.
  split; eapply le_trans; eassumption.
Qed.

Lemma sorted_nil : sorted ([] : list T).
Proof. intros i j x y _ Hx. by rewrite idx_None in Hx by (unfold len; simpl; lia). Qed.

Lemma sorted_short (vec : list T) : len vec ≤ 1 → sorted vec.
Proof.
  intros Hl i j x y Hij Hx%idx_Some Hy%idx_Some. lia.
Qed.
End Order.

(** Turn the tests of the program into facts about [⪯]. *)
Ltac order_norm :=
  repeat match goal with
  | H : ltb _ _ = true |- _ => apply ltb_true in H
  | H : ltb _ _ = false |- _ => apply ltb_false in H
  | H : gtb _ _ = true |- _ => apply gtb_true in H
  | H : gtb _ _ = false |- _ => apply gtb_false in H
  | H : leb _ _ = false |- _ => apply leb_false in H
  | H : leb _ _ = true |- _ => change (le _ _) in H
  end.

Ltac order :=
  order_norm;
  solve [eauto 5 using le_refl, le_trans, not_le].

(** * Elementary comparison sorts *)

(** Use an invariant about the elements at given positions: the
    positions are found from the hypotheses on [idx]. *)
Ltac by_inv H :=
  eapply H; [.. | eassumption | eassumption]; lia.

(** Read the positions of an exchanged slice. *)
Ltac after_swap Hk :=
  rewrite ?Hk; repeat case_bool_decide; subst; try lia; intros; simplify_eq.

Section Elementary.
Context {T : Type} `{TotalOrder T}.
Implicit Types (vec : list T) (x y : T).

Lemma sorted_from_below vec n : len vec = n → below vec (n - 1) n → sorted vec.
Proof.
  intros Hn Hb i j x y Hij Hx Hy.
  pose proof (idx_Some _ _ _ Hx). pose proof (idx_Some _ _ _ Hy). by_inv Hb.
Qed.

Lemma SimpleSort_correct vec :
  yields (SimpleSort vec) (λ vec', vec' ≡ₚ vec ∧ sorted vec').
Proof.
  destruct (decide (len vec ≤ 1)) as [Hs|Hl].
  { unfold SimpleSort. rewrite for_up_empty by lia.
    apply yields_Ok. split; [done|by apply sorted_short]. }
  set (n := len vec). unfold SimpleSort.
  apply (for_up_inv (λ i v, len v = n ∧ v ≡ₚ vec ∧ below v i n)).
  - lia.
  - repeat split; try done. intros a b x y ?; lia.
  - intros i v Hi (Hlen & Hp & Hb). rewrite Hlen.
    apply (for_up_inv (λ j v, len v = n ∧ v ≡ₚ vec ∧ below v i n ∧
       ∀ b x y, i < b < j → idx v i = Some x → idx v b = Some y → x ⪯ y)).
    + lia.
    + repeat split; try done. intros; lia.
    + clear v Hlen Hp Hb. intros j v Hj (Hlen & Hp & Hb & Hmin).
      apply yields_get_bind; [lia|intros vj Hvj].
      apply yields_get_bind; [lia|intros vi Hvi].
      destruct (ltb vj vi) eqn:Hlt.
      * apply (yields_swap _ _ _ _ _ _ Hvi Hvj). intros v' Hlen' Hp' Hk.
        split; [lia|]. split; [by rewrite Hp'|]. split.
        -- intros a b x y Ha Hb'. after_swap Hk; by_inv Hb.
        -- intros b x y Hb'. after_swap Hk; [order|].
           assert (vi ⪯ y) by by_inv Hmin. order.
      * apply yields_Ok. repeat split; try done.
        intros b x y Hb' Hx Hy. destruct (decide (b = j)) as [->|].
        -- simplify_eq. order.
        -- by_inv Hmin.
    + clear v Hlen Hp Hb. intros v (Hlen & Hp & Hb & Hmin).
      repeat split; try done.
      intros a b x y Ha Hb' Hx Hy. destruct (decide (a = i)) as [->|].
      * by_inv Hmin.
      * by_inv Hb.
  - intros v (Hlen & Hp & Hb). split; [done|].
    by apply (sorted_from_below _ n).
Qed.

Lemma SelectionSort_correct vec :
  yields (SelectionSort vec) (λ vec', vec' ≡ₚ vec ∧ sorted vec').
Proof.
  destruct (decide (len vec ≤ 1)) as [Hs|Hl].
  { unfold SelectionSort. rewrite for_up_empty by lia.
    apply yields_Ok. split; [done|by apply sorted_short]. }
  set (n := len vec). unfold SelectionSort.
  apply (for_up_inv (λ i v, len v = n ∧ v ≡ₚ vec ∧ below v i n)).
  - lia.
  - repeat split; try done. intros a b x y ?; lia.
  - intros i v Hi (Hlen & Hp & Hb). rewrite Hlen. simpl.
    eapply yields_bind.
    + apply (for_up_inv (λ j m, i ≤ m < j ∧
        ∀ b x y, i ≤ b < j → idx v m = Some x → idx v b = Some y → x ⪯ y)
        (λ m, i ≤ m < n ∧
        ∀ b x y, i ≤ b < n → idx v m = Some x → idx v b = Some y → x ⪯ y)).
      * lia.
      * split; [lia|]. intros b x y Hb' Hx Hy.
        assert (b = i) as -> by lia. simplify_eq. order.
      * intros j m Hj (Hm & Hmin).
        apply yields_get_bind; [lia|intros vj Hvj].
        apply yields_get_bind; [lia|intros vm Hvm].
        apply yields_Ok. destruct (ltb vj vm) eqn:Hlt.
        -- split; [lia|]. intros b x y Hb' Hx Hy. simplify_eq.
           destruct (decide (b = j)) as [->|]; [simplify_eq; order|].
           assert (vm ⪯ y) by by_inv Hmin. order.
        -- split; [lia|]. intros b x y Hb' Hx Hy. simplify_eq.
           destruct (decide (b = j)) as [->|]; [simplify_eq; order|].
           by_inv Hmin.
      * intros m [Hm Hmin]. split; [lia|done].
    + simpl. intros m [Hm Hmin]. case_bool_decide as Hne.
      * destruct (idx_is_Some v i) as [vi Hvi]; [lia|].
        destruct (idx_is_Some v m) as [vm Hvm]; [lia|].
        apply (yields_swap _ _ _ _ _ _ Hvi Hvm). intros v' Hlen' Hp' Hk.
        split; [lia|]. split; [by rewrite Hp'|].
        intros a b x y Ha Hb'. after_swap Hk; try by_inv Hb; by_inv Hmin.
      * apply yields_Ok. repeat split; try done.
        assert (m = i) as -> by (destruct (decide (m = i)); done).
        intros a b x y Ha Hb' Hx Hy.
        destruct (decide (a = i)) as [->|]; [by_inv Hmin|by_inv Hb].
  - intros v (Hlen & Hp & Hb). split; [done|].
    by apply (sorted_from_below _ n).
Qed.

(** Exchanging two neighbours; the exchange is stable when their keys
    differ. *)
Lemma yields_swap_neighbours vec i j x y (Post : list T → Prop) :
  j = i + 1 ∨ i = j + 1 →
  idx vec i = Some x → idx vec j = Some y →
  (∀ vec', len vec' = len vec → vec' ≡ₚ vec →
     (∀ k, idx vec' k =
        if bool_decide (k = j) then Some x
        else if bool_decide (k = i) then Some y else idx vec k) →
     (¬ (x ⪯ y ∧ y ⪯ x) → stable vec vec') →
     Post vec') →
  yields (swap vec i j) Post.
Proof.
  intros Hij Hx Hy HP.
  destruct (swap_Ok vec i j x y Hx Hy) as (vec' & Hrun & Hl & Hp & Hk).
  rewrite Hrun. apply yields_Ok. apply HP; try done.
  intros Hne. destruct Hij as [->| ->].
  - destruct (swap_adjacent vec i x y Hx Hy) as (l1 & l2 & -> & Hsw & _).
    rewrite Hsw in Hrun. injection Hrun as <-. by apply stable_exchange.
  - destruct (swap_adjacent vec j y x Hy Hx) as (l1 & l2 & -> & _ & Hsw).
    rewrite Hsw in Hrun. injection Hrun as <-. apply stable_exchange. tauto.
Qed.

Lemma BubbleSort_correct vec :
  yields (BubbleSort vec)
    (λ vec', vec' ≡ₚ vec ∧ sorted vec' ∧ stable vec vec').
Proof.
  set (n := len vec). unfold BubbleSort.
  destruct (decide (n ≤ 1)) as [Hs|Hl].
  { rewrite for_up_break_empty by (unfold n in Hs; lia). apply yields_Ok. split; [done|]. split; [by apply sorted_short|].
    apply stable_refl. }
  apply (for_up_break_inv
    (λ i v, len v = n ∧ v ≡ₚ vec ∧ stable vec v ∧ above v (n - i) n)).
  - lia.
  - split; [done|]. split; [done|]. split; [apply stable_refl|].
    intros a b x y ?; lia.
  - intros i v Hi (Hlen & Hp & Hst & Hab). rewrite Hlen. simpl.
    eapply yields_bind.
    + apply (for_up_inv (λ j '(v, sw), len v = n ∧ v ≡ₚ vec ∧ stable vec v ∧
          above v (n - i) n ∧
          (∀ a x y, 0 ≤ a < j → idx v a = Some x → idx v j = Some y → x ⪯ y) ∧
          (sw = false → sorted_range v 0 (j + 1)))
        (λ '(v, sw), len v = n ∧ v ≡ₚ vec ∧ stable vec v ∧
          above v (n - (i + 1)) n ∧ (sw = false → sorted v))).
      * lia.
      * do 4 (split; [done|]). split.
        -- intros a x y ?; lia.
        -- intros _ a b x y ? ?; lia.
      * clear v Hlen Hp Hst Hab.
        intros j [v sw] Hj (Hlen & Hp & Hst & Hab & Hmax & Hsr).
        apply yields_get_bind; [lia|intros vj Hvj].
        apply yields_get_bind; [lia|intros vj1 Hvj1].
        destruct (gtb vj vj1) eqn:Hgt.
        -- eapply yields_bind.
           ++ apply (yields_swap_neighbours _ _ _ _ _
                (λ v', len v' = n ∧ v' ≡ₚ vec ∧ stable vec v' ∧
                   above v' (n - i) n ∧
                   (∀ a x y, 0 ≤ a < j + 1 → idx v' a = Some x →
                      idx v' (j + 1) = Some y → x ⪯ y)) ltac:(by left) Hvj Hvj1).
              intros v' Hlen' Hp' Hk Hst'.
              split; [lia|]. split; [by rewrite Hp'|]. split; [|split].
              ** eapply stable_trans; [done|]. apply Hst'.
                 intros [? _]. order.
              ** intros a b x y Ha Hb'. after_swap Hk; by_inv Hab.
              ** intros a x y Ha. after_swap Hk; first [by_inv Hmax|order].
           ++ intros v' (? & ? & ? & ? & ?). apply yields_Ok.
              repeat split; try done.
        -- apply yields_Ok. repeat split; try done.
           ++ intros a x y Ha Hx Hy. simplify_eq.
              destruct (decide (a = j)) as [->|]; [simplify_eq; order|].
              assert (x ⪯ vj) by by_inv Hmax. order.
           ++ intros -> a b x y Ha Hb' Hx Hy.
              destruct (decide (b = j + 1)) as [->|]; [|by_inv Hsr].
              simplify_eq.
              destruct (decide (a = j)) as [->|]; [simplify_eq; order|].
              assert (x ⪯ vj) by by_inv Hmax. order.
      * clear v Hlen Hp Hst Hab.
        intros [v sw] (Hlen & Hp & Hst & Hab & Hmax & Hsr).
        repeat split; try done.
        -- intros a b x y Ha Hb' Hx Hy.
           destruct (decide (b = n - 1 - i)) as [->|]; [by_inv Hmax|by_inv Hab].
        -- intros -> a b x y Hlt Hx Hy.
           pose proof (idx_Some _ _ _ Hx). pose proof (idx_Some _ _ _ Hy).
           destruct (decide (b < n - i)); [by_inv Hsr|by_inv Hab].
    + intros [v' sw] (Hlen' & Hp' & Hst' & Hab' & Hsorted).
      apply yields_Ok. destruct sw; simpl; [done|]. auto.
  - intros v (Hlen & Hp & Hst & Hab). repeat split; try done.
    intros a b x y Hlt Hx Hy.
    pose proof (idx_Some _ _ _ Hx). pose proof (idx_Some _ _ _ Hy).
    by_inv Hab.
Qed.

Lemma InsertionSort_correct vec :
  yields (InsertionSort vec)
    (λ vec', vec' ≡ₚ vec ∧ sorted vec' ∧ stable vec vec').
Proof.
  set (n := len vec). unfold InsertionSort.
  destruct (decide (n ≤ 1)) as [Hs|Hl].
  { rewrite for_up_empty by done. apply yields_Ok.
    split; [done|]. split; [by apply sorted_short|]. apply stable_refl. }
  apply (for_up_inv
    (λ i v, len v = n ∧ v ≡ₚ vec ∧ stable vec v ∧ sorted_range v 0 i)).
  - lia.
  - do 2 (split; [done|]). split; [apply stable_refl|].
    intros a b x y ??; lia.
  - intros i v Hi (Hlen & Hp & Hst & Hsr).
    eapply yields_bind.
    + apply (while_inv
        (λ '(v, j), 0 ≤ j ≤ i ∧ len v = n ∧ v ≡ₚ vec ∧ stable vec v ∧
           (∀ a b x y, 0 ≤ a < b → b ≤ i → a ≠ j → b ≠ j →
              idx v a = Some x → idx v b = Some y → x ⪯ y) ∧
           (∀ b x y, j < b ≤ i → idx v j = Some x → idx v b = Some y → x ⪯ y))
        (λ '(v, j), len v = n ∧ v ≡ₚ vec ∧ stable vec v ∧
           sorted_range v 0 (i + 1))
        (λ '(v, j), Z.to_nat j)).
      * split; [lia|]. do 3 (split; [done|]). split.
        -- intros a b x y Ha Hb ????. by_inv Hsr.
        -- intros b x y ?; lia.
      * lia.
      * clear v Hlen Hp Hst Hsr.
        intros [v j] (Hj & Hlen & Hp & Hst & Hsr & Hins).
        case_bool_decide as Hj0.
        -- apply yields_get_bind; [lia|intros vj Hvj].
           apply yields_get_bind; [lia|intros vj1 Hvj1].
           apply yields_Ok. destruct (ltb vj vj1) eqn:Hlt.
           ++ eapply yields_bind.
              ** apply (yields_swap_neighbours v j (j - 1) vj vj1
                   (λ v', len v' = n ∧ v' ≡ₚ vec ∧ stable vec v' ∧
                      (∀ a b x y, 0 ≤ a < b → b ≤ i → a ≠ j - 1 → b ≠ j - 1 →
                         idx v' a = Some x → idx v' b = Some y → x ⪯ y) ∧
                      (∀ b x y, j - 1 < b ≤ i → idx v' (j - 1) = Some x →
                         idx v' b = Some y → x ⪯ y))
                   ltac:(right; lia) Hvj Hvj1).
                 intros v' Hlen' Hp' Hk Hst'.
                 split; [lia|]. split; [by rewrite Hp'|]. split; [|split].
                 --- eapply stable_trans; [done|]. apply Hst'.
                     intros [_ ?]. order.
                 --- intros a b x y Ha Hb ??. after_swap Hk; by_inv Hsr.
                 --- intros b x y Hb. after_swap Hk; first [by_inv Hins|order].
              ** intros v' (? & ? & ? & ? & ?). apply yields_Ok.
                 split; [|lia]. split; [lia|]. done.
           ++ do 3 (split; [done|]). intros a b x y Ha Hb Hx Hy.
              destruct (decide (a = j)) as [->|]; [by_inv Hins|].
              destruct (decide (b = j)) as [->|]; [|by_inv Hsr].
              simplify_eq.
              destruct (decide (a = j - 1)) as [->|]; [simplify_eq; order|].
              assert (x ⪯ vj1) by by_inv Hsr. order.
        -- apply yields_Ok. do 3 (split; [done|]).
           intros a b x y Ha Hb Hx Hy. assert (j = 0) as -> by lia.
           destruct (decide (a = 0)) as [->|]; [by_inv Hins|by_inv Hsr].
    + intros [v' j] (? & ? & ? & ?). apply yields_Ok.
      do 3 (split; [done|]). done.
  - intros v (Hlen & Hp & Hst & Hsr). split; [done|].
    split; [|done]. intros a b x y Hlt Hx Hy.
    pose proof (idx_Some _ _ _ Hx). pose proof (idx_Some _ _ _ Hy).
    by_inv Hsr.
Qed.
End Elementary.

(** * Ranges of a slice *)

Section Slice.
Context {A : Type}.
Implicit Types (vec : list A) (a b c k : Z) (x : A).

Lemma slice_empty vec a b : b ≤ a → slice vec a b = [].
Proof. intros Hab. unfold slice. by replace (Z.to_nat (b - a)) with O by lia. Qed.

Lemma slice_length vec a b :
  0 ≤ a → b ≤ len vec → length (slice vec a b) = Z.to_nat (b - a).
Proof.
  intros Ha Hb. unfold slice, len in *. rewrite length_take, length_drop. lia.
Qed.

Lemma slice_len vec a b :
  0 ≤ a ≤ b → b ≤ len vec → len (slice vec a b) = b - a.
Proof. intros Ha Hb. unfold len at 1. rewrite slice_length by lia. lia. Qed.

Lemma slice_full vec : slice vec 0 (len vec) = vec.
Proof.
  unfold slice, len. simpl. rewrite Z.sub_0_r, Nat2Z.id. apply firstn_all.
Qed.

Lemma slice_app vec a b c :
  0 ≤ a ≤ b → b ≤ c → slice vec a c = slice vec a b ++ slice vec b c.
Proof.
  intros Hab Hbc. unfold slice.
  replace (Z.to_nat (c - a)) with (Z.to_nat (b - a) + Z.to_nat (c - b))%nat by lia.
  rewrite <- take_take_drop, drop_drop. do 3 f_equal. lia.
Qed.

Lemma idx_slice vec a b k :
  0 ≤ a → b ≤ len vec → 0 ≤ k < b - a →
  idx (slice vec a b) k = idx vec (a + k).
Proof.
  intros Ha Hb Hk. rewrite !idx_lookup by lia. unfold slice.
  rewrite lookup_take_lt by lia. rewrite lookup_drop. f_equal. lia.
Qed.

Lemma slice_one vec a x : idx vec a = Some x → slice vec a (a + 1) = [x].
Proof.
  intros Hx. pose proof (idx_Some _ _ _ Hx) as Ha.
  rewrite idx_lookup in Hx by lia. unfold slice.
  replace (Z.to_nat (a + 1 - a)) with 1%nat by lia.
  apply take_drop_middle in Hx. rewrite <- Hx at 1.
  rewrite drop_app_length'; [done|]. rewrite length_take.
  unfold len in Ha. lia.
Qed.

Lemma slice_cons vec a b x :
  idx vec a = Some x → a < b → slice vec a b = x :: slice vec (a + 1) b.
Proof.
  intros Hx Hab. pose proof (idx_Some _ _ _ Hx).
  rewrite (slice_app vec a (a + 1) b) by lia. by rewrite (slice_one _ _ x).
Qed.

Lemma slice_snoc vec a b x :
  idx vec b = Some x → 0 ≤ a ≤ b → slice vec a (b + 1) = slice vec a b ++ [x].
Proof.
  intros Hx Hab. rewrite (slice_app vec a b (b + 1)) by lia.
  by rewrite (slice_one _ _ x).
Qed.

Lemma slice_decompose vec a b :
  0 ≤ a ≤ b → b ≤ len vec →
  vec = slice vec 0 a ++ slice vec a b ++ slice vec b (len vec).
Proof.
  intros Hab Hb. rewrite <- slice_app by lia. rewrite <- slice_app by lia.
  by rewrite slice_full.
Qed.

Lemma slice_ext vec1 vec2 a b :
  0 ≤ a → b ≤ len vec1 → b ≤ len vec2 →
  (∀ k, a ≤ k < b → idx vec1 k = idx vec2 k) →
  slice vec1 a b = slice vec2 a b.
Proof.
  intros Ha Hb1 Hb2 Hk. destruct (decide (a ≤ b)) as [Hab|Hab].
  - apply idx_ext. intros k.
    destruct (decide (0 ≤ k < b - a)) as [Hr|Hr].
    + rewrite !idx_slice by lia. apply Hk. lia.
    + rewrite !idx_None; [done| |]; rewrite slice_len by lia; done.
  - by rewrite !slice_empty by lia.
Qed.

Lemma elem_of_slice vec a b x :
  0 ≤ a → b ≤ len vec →
  x ∈ slice vec a b ↔ ∃ k, a ≤ k < b ∧ idx vec k = Some x.
Proof.
  intros Ha Hb. split.
  - intros [k Hk]%elem_of_idx. pose proof (idx_Some _ _ _ Hk) as Hr.
    destruct (decide (a ≤ b)); [|rewrite slice_empty in Hk by lia;
      rewrite idx_None in Hk; [done|unfold len; simpl; lia]].
    rewrite slice_len in Hr by lia.
    rewrite idx_slice in Hk by lia. exists (a + k). split; [lia|done].
  - intros (k & Hk & Hx). apply (idx_elem_of _ (k - a)).
    rewrite idx_slice by lia. by replace (a + (k - a)) with k by lia.
Qed.

(** A permutation of the whole that leaves the positions outside a
    range alone is a permutation of the range. *)
Lemma slice_Permutation vec1 vec2 a b :
  0 ≤ a ≤ b → b ≤ len vec1 → len vec2 = len vec1 →
  vec2 ≡ₚ vec1 →
  (∀ k, ¬ a ≤ k < b → idx vec2 k = idx vec1 k) →
  slice vec2 a b ≡ₚ slice vec1 a b.
Proof.
  intros Hab Hb Hlen Hp Hout.
  rewrite (slice_decompose vec1 a b), (slice_decompose vec2 a b) in Hp by lia.
  rewrite (slice_ext vec2 vec1 0 a) in Hp by (try lia; intros; apply Hout; lia).
  rewrite Hlen in Hp.
  rewrite (slice_ext vec2 vec1 b (len vec1)) in Hp
    by (try lia; intros; apply Hout; lia).
  apply (inj (app _)) in Hp. by apply (inj (λ l, l ++ _)) in Hp.
Qed.

(** Writing back a range *)
Lemma slice_replace vec1 vec2 a b :
  0 ≤ a ≤ b → b ≤ len vec1 → len vec2 = len vec1 →
  (∀ k, ¬ a ≤ k < b → idx vec2 k = idx vec1 k) →
  vec2 = slice vec1 0 a ++ slice vec2 a b ++ slice vec1 b (len vec1).
Proof.
  intros Hab Hb Hlen Hout.
  rewrite (slice_decompose vec2 a b) at 1 by lia.
  rewrite (slice_ext vec2 vec1 0 a) by (try lia; intros; apply Hout; lia).
  rewrite Hlen.
  by rewrite (slice_ext vec2 vec1 b (len vec1))
    by (try lia; intros; apply Hout; lia).
Qed.
(** A property of the elements of a range holds of the elements of
    a permutation of the range. *)
Lemma range_Forall_perm (P : A → Prop) vec vec' a b :
  frame vec vec' a b → vec' ≡ₚ vec → 0 ≤ a ≤ b → b ≤ len vec →
  (∀ k x, a ≤ k < b → idx vec k = Some x → P x) →
  ∀ k x, a ≤ k < b → idx vec' k = Some x → P x.
Proof.
  intros [Hlen Hfr] Hp Hab Hb HP k x Hk Hx.
  assert (x ∈ slice vec' a b) as Hin by (apply elem_of_slice; [lia..|eauto]).
  rewrite (slice_Permutation vec vec' a b) in Hin by (done || lia).
  apply elem_of_slice in Hin as (k' & Hk' & Hx'); [|lia..]. eauto.
Qed.
End Slice.

(** * Merge sort *)

Section SortedLists.
Context {T : Type} `{TotalOrder T}.
Implicit Types (vec l : list T) (x y : T).

#[export] Instance le_dec x y : Decision (x ⪯ y).
Proof. unfold le. apply _. Defined.

#[export] Instance le_Total : Total (le (T:=T)).
Proof. intros x y. apply le_total. Qed.

#[export] Instance le_Transitive : Transitive (le (T:=T)).
Proof. intros x y z. apply le_trans. Qed.

Lemma idx_cons_0 {A} (x : A) (l : list A) : idx (x :: l) 0 = Some x.
Proof. by rewrite idx_lookup. Qed.

Lemma idx_cons_succ {A} (x : A) (l : list A) k :
  0 ≤ k → idx (x :: l) (k + 1) = idx l k.
Proof.
  intros Hk. rewrite !idx_lookup by lia.
  by replace (Z.to_nat (k + 1)) with (Datatypes.S (Z.to_nat k)) by lia.
Qed.

Lemma StronglySorted_sorted l : StronglySorted le l ↔ sorted l.
Proof.
  split.
  - induction 1 as [|x l Hs IH Hall]; [apply sorted_nil|].
    intros i j a b Hij Ha Hb.
    pose proof (idx_Some _ _ _ Ha). pose proof (idx_Some _ _ _ Hb).
    replace j with (j - 1 + 1) in Hb by lia.
    rewrite idx_cons_succ in Hb by lia.
    destruct (decide (i = 0)) as [->|].
    + rewrite idx_cons_0 in Ha. simplify_eq.
      rewrite Forall_forall in Hall. apply Hall. by eapply idx_elem_of.
    + replace i with (i - 1 + 1) in Ha by lia.
      rewrite idx_cons_succ in Ha by lia.
      eapply (IH (i - 1) (j - 1)); [lia|done..].
  - induction l as [|x l IH]; intros Hs; constructor.
    + apply IH. intros i j a b Hij Ha Hb.
      pose proof (idx_Some _ _ _ Ha). pose proof (idx_Some _ _ _ Hb).
      apply (Hs (i + 1) (j + 1)); [lia|by rewrite idx_cons_succ by lia..].
    + apply Forall_forall. intros y [k Hk]%elem_of_idx.
      pose proof (idx_Some _ _ _ Hk).
      apply (Hs 0 (k + 1)); [lia|apply idx_cons_0|by rewrite idx_cons_succ by lia].
Qed.

Lemma Sorted_sorted l : Sorted le l ↔ sorted l.
Proof.
  rewrite <- StronglySorted_sorted. split.
  - apply Sorted_StronglySorted. apply _.
  - apply StronglySorted_Sorted.
Qed.

Lemma sorted_slice vec a b :
  0 ≤ a → b ≤ len vec → sorted (slice vec a b) ↔ sorted_range vec a b.
Proof.
  intros Ha Hb. split.
  - intros Hs i j x y Hi Hj Hx Hy.
    apply (Hs (i - a) (j - a)); [lia|rewrite idx_slice by lia; rewrite <- ?Hx, <- ?Hy; f_equal; lia..].
  - intros Hs i j x y Hij Hx Hy.
    pose proof (idx_Some _ _ _ Hx) as Hi. pose proof (idx_Some _ _ _ Hy) as Hj.
    destruct (decide (a ≤ b)); [|rewrite slice_empty in Hi by lia;
      unfold len in Hi; simpl in Hi; lia].
    rewrite slice_len in Hi, Hj by lia.
    rewrite idx_slice in Hx, Hy by lia.
    apply (Hs (a + i) (a + j)); [lia|lia|done..].
Qed.

(** Merging two sorted lists keeps the elements of each key in their
    order, those of the left list first. *)
Lemma list_merge_filter l1 l2 z :
  Sorted le l1 →
  filter (λ y, equivb z y) (list_merge le l1 l2)
    = filter (λ y, equivb z y) l1 ++ filter (λ y, equivb z y) l2.
Proof.
  intros Hs1%(Sorted_StronglySorted _). revert l2.
  induction Hs1 as [|x1 l1 Hs1 IH1 Hall]; intros l2.
  { by rewrite list_merge_nil_l. }
  induction l2 as [|x2 l2 IH2].
  { by rewrite list_merge_nil_r, app_nil_r. }
  rewrite list_merge_cons. case_decide as Hle.
  - rewrite !filter_cons, IH1. rewrite !filter_cons.
    by destruct (decide (equivb z x1)).
  - rewrite (filter_cons _ x2), IH2, (filter_cons _ x2 l2).
    destruct (decide (equivb z x2)) as [Hz|Hz]; [|done].
    apply Is_true_true, equivb_true in Hz as [Hz1 Hz2].
    assert (filter (λ y, equivb z y) (x1 :: l1) = []) as ->; [|done].
    apply filter_none.
    intros y Hy Hzy. apply Is_true_true, equivb_true in Hzy as [Hzy1 Hzy2].
    apply Hle. apply le_trans with y.
    + apply elem_of_cons in Hy as [->|Hy]; [apply le_refl|].
      rewrite Forall_forall in Hall. by apply Hall.
    + by apply le_trans with z.
Qed.
End SortedLists.

Section MergeSort.
Context {T : Type} `{TotalOrder T}.
Implicit Types (vec tmp l : list T) (x y : T).

Lemma slice_insert_snoc {A} (v : list A) a k (x : A) :
  0 ≤ a ≤ k → k < len v →
  slice (<[Z.to_nat k:=x]> v) a (k + 1) = slice v a k ++ [x].
Proof.
  intros Ha Hk. rewrite (slice_snoc _ a k x); [|
    by rewrite idx_insert, bool_decide_true by lia|lia].
  f_equal. apply slice_ext; rewrite ?len_insert; try lia.
  intros j Hj. rewrite idx_insert by lia. by rewrite bool_decide_false by lia.
Qed.

Lemma frame_refl {A} (v : list A) a b : frame v v a b.
Proof. by split. Qed.

Lemma merge_correct vec tmp start mid end_ :
  0 ≤ start ≤ mid + 1 → mid ≤ end_ → end_ < len vec → len tmp = len vec →
  yields (merge vec tmp start mid end_) (λ '(vec', tmp'),
    len tmp' = len tmp ∧ frame vec vec' start (end_ + 1) ∧
    slice vec' start (end_ + 1) =
      list_merge le (slice vec start (mid + 1)) (slice vec (mid + 1) (end_ + 1))).
Proof.
  intros Hstart Hmid Hend Htmp. unfold merge. cbv zeta.
  set (M := list_merge le _ _).
  eapply yields_bind.
  { apply (while_inv
      (λ '(tmp, i, j, k), start ≤ i ≤ mid + 1 ∧ mid + 1 ≤ j ≤ end_ + 1 ∧
         k = i + j - (mid + 1) ∧ len tmp = len vec ∧
         slice tmp start k ++
           list_merge le (slice vec i (mid + 1)) (slice vec j (end_ + 1)) = M)
      (λ '(tmp, i, j, k), (start ≤ i ≤ mid + 1 ∧ mid + 1 ≤ j ≤ end_ + 1 ∧
         k = i + j - (mid + 1) ∧ len tmp = len vec ∧
         slice tmp start k ++ slice vec i (mid + 1) ++ slice vec j (end_ + 1) = M))
      (λ '(tmp, i, j, k), Z.to_nat ((mid + 1 - i) + (end_ + 1 - j)))).
    - splits. by rewrite slice_empty by lia.
    - lia.
    - intros [[[tmp' i] j] k] (Hi & Hj & Hk & Hlen & HM).
      apply yields_Ok.
      destruct (bool_decide (i ≤ mid)) eqn:Hi'; simpl.
      2: { apply bool_decide_eq_false in Hi'. splits.
           rewrite <- HM. rewrite (slice_empty vec i) by lia.
           by rewrite list_merge_nil_l. }
      apply bool_decide_eq_true in Hi'.
      destruct (bool_decide (j ≤ end_)) eqn:Hj'; simpl.
      2: { apply bool_decide_eq_false in Hj'. splits.
           rewrite <- HM. rewrite (slice_empty vec j) by lia.
           by rewrite list_merge_nil_r, app_nil_r. }
      apply bool_decide_eq_true in Hj'.
      apply yields_get_bind; [lia|intros vi Hvi].
      apply yields_get_bind; [lia|intros vj Hvj].
      rewrite (slice_cons vec i _ vi), (slice_cons vec j _ vj) in HM by (done || lia).
      rewrite list_merge_cons in HM.
      destruct (leb vi vj) eqn:Hle.
      + apply yields_set_bind; [lia|]. apply yields_Ok.
        splits; [by rewrite len_insert|].
        rewrite decide_True in HM by done.
        rewrite slice_insert_snoc by lia. rewrite <- HM, <- app_assoc.
        by rewrite (slice_cons vec j _ vj) by (done || lia).
      + apply yields_set_bind; [lia|]. apply yields_Ok.
        splits; [by rewrite len_insert|].
        rewrite decide_False in HM by (unfold le; congruence).
        rewrite slice_insert_snoc by lia. rewrite <- HM, <- app_assoc.
        by rewrite (slice_cons vec i _ vi) by (done || lia). }
  intros [[[tmp1 i1] j1] k1] (Hi1 & Hj1 & Hk1 & Hlen1 & HM1).
  eapply yields_bind.
  { apply (while_inv
      (λ '(tmp, i, k), i1 ≤ i ≤ mid + 1 ∧ k = i + j1 - (mid + 1) ∧
         len tmp = len vec ∧
         slice tmp start k ++ slice vec i (mid + 1) ++ slice vec j1 (end_ + 1) = M)
      (λ '(tmp, i, k), k = j1 ∧ len tmp = len vec ∧
         slice tmp start k ++ slice vec j1 (end_ + 1) = M)
      (λ '(tmp, i, k), Z.to_nat (mid + 1 - i))).
    - by splits.
    - lia.
    - intros [[tmp' i] k] (Hi & Hk & Hlen & HM).
      apply yields_Ok. case_bool_decide as Hi'.
      + apply yields_get_bind; [lia|intros vi Hvi].
        apply yields_set_bind; [lia|]. apply yields_Ok.
        splits; [by rewrite len_insert|].
        rewrite slice_insert_snoc by lia. rewrite <- HM, <- app_assoc.
        by rewrite (slice_cons vec i _ vi) by (done || lia).
      + splits. rewrite <- HM.
        by rewrite (slice_empty vec i) by lia. }
  intros [[tmp2 i2] k2] (Hk2 & Hlen2 & HM2).
  eapply yields_bind.
  { apply (while_inv
      (λ '(tmp, j, k), j1 ≤ j ≤ end_ + 1 ∧ k = j ∧ len tmp = len vec ∧
         slice tmp start k ++ slice vec j (end_ + 1) = M)
      (λ '(tmp, j, k), len tmp = len vec ∧ slice tmp start (end_ + 1) = M)
      (λ '(tmp, j, k), Z.to_nat (end_ + 1 - j))).
    - by splits.
    - lia.
    - intros [[tmp' j] k] (Hj & Hk & Hlen & HM).
      apply yields_Ok. case_bool_decide as Hj'.
      + apply yields_get_bind; [lia|intros vj Hvj].
        apply yields_set_bind; [lia|]. apply yields_Ok.
        splits; [by rewrite len_insert|].
        rewrite slice_insert_snoc by lia. rewrite <- HM, <- app_assoc.
        by rewrite (slice_cons vec j _ vj) by (done || lia).
      + splits. rewrite <- HM.
        rewrite (slice_empty vec j), app_nil_r by lia.
        f_equal. lia. }
  intros [[tmp3 j3] k3] (Hlen3 & HM3).
  eapply yields_bind.
  { apply (for_up_inv
      (λ i v, frame vec v start i ∧
         ∀ k, start ≤ k < i → idx v k = idx tmp3 k)
      (λ v, frame vec v start (end_ + 1) ∧ slice v start (end_ + 1) = M)).
    - lia.
    - split; [apply frame_refl|]. intros; lia.
    - intros i v Hi ([Hlen Hfr] & Hcp).
      apply yields_get_bind; [lia|intros t Ht].
      apply yields_set; [lia|]. split; [split|].
      + by rewrite len_insert.
      + intros k Hk. rewrite idx_insert by lia.
        rewrite bool_decide_false by lia. apply Hfr. lia.
      + intros k Hk. rewrite idx_insert by lia. case_bool_decide; [by subst|].
        apply Hcp. lia.
    - intros v ([Hlen Hfr] & Hcp). split; [by split|].
      rewrite <- HM3. apply slice_ext; try lia. done. }
  intros vec' [Hfr Hsl]. apply yields_Ok. split; [lia|]. done.
Qed.

Lemma frame_trans {A} (v1 v2 v3 : list A) a b c d a' b' :
  frame v1 v2 a b → frame v2 v3 c d →
  a' ≤ a → a' ≤ c → b ≤ b' → d ≤ b' →
  frame v1 v3 a' b'.
Proof.
  intros [Hl1 Hf1] [Hl2 Hf2] ????. split; [lia|].
  intros k Hk. rewrite Hf2 by lia. apply Hf1. lia.
Qed.

Lemma frame_slice {A} (v1 v2 : list A) a b c d :
  frame v1 v2 a b → 0 ≤ c → d ≤ len v1 → d ≤ a ∨ b ≤ c →
  slice v2 c d = slice v1 c d.
Proof.
  intros [Hl Hf] Hc Hd Hout. apply slice_ext; try lia.
  intros k Hk. apply Hf. lia.
Qed.

Lemma Sorted_short l : (length l ≤ 1)%nat → Sorted le l.
Proof.
  destruct l as [|x [|y l]]; simpl; intros Hl; try lia; repeat constructor.
Qed.

Lemma mergeSortHelper_correct fuel : ∀ vec tmp start end_,
  0 ≤ start ≤ end_ → end_ < len vec → len tmp = len vec →
  end_ - start < Z.of_nat fuel →
  yields (mergeSortHelper fuel vec tmp start end_) (λ '(vec', tmp'),
    len tmp' = len tmp ∧ frame vec vec' start (end_ + 1) ∧
    slice vec' start (end_ + 1) ≡ₚ slice vec start (end_ + 1) ∧
    Sorted le (slice vec' start (end_ + 1)) ∧
    stable (slice vec start (end_ + 1)) (slice vec' start (end_ + 1))).
Proof.
  induction fuel as [|fuel IH]; intros vec tmp start end_ Hs He Ht Hf; [lia|].
  simpl. case_bool_decide as Hse.
  { apply yields_Ok. split; [done|]. split; [apply frame_refl|].
    split; [done|]. split; [|apply stable_refl].
    apply Sorted_short. rewrite slice_length by lia. lia. }
  set (mid := start + (end_ - start) ÷ 2).
  assert (start ≤ mid < end_) as Hmid.
  { unfold mid. rewrite Z.quot_div_nonneg by lia.
    Z.div_mod_to_equations. lia. }
  clearbody mid.
  eapply yields_bind; [apply IH; [lia..|done|lia]|].
  intros [v1 t1] (Ht1 & Hfr1 & Hp1 & Hs1 & Hst1).
  pose proof Hfr1 as [Hl1 _].
  eapply yields_bind; [apply IH; [lia..]|].
  intros [v2 t2] (Ht2 & Hfr2 & Hp2 & Hs2 & Hst2).
  pose proof Hfr2 as [Hl2 _].
  rewrite (frame_slice vec v1 start (mid + 1) (mid + 1) (end_ + 1))
    in Hp2, Hst2 by (done || lia).
  eapply yields_mono; [apply merge_correct; lia|].
  intros [v3 t3] (Ht3 & Hfr3 & Hsl3).
  rewrite (frame_slice v1 v2 (mid + 1) (end_ + 1) start (mid + 1))
    in Hsl3 by (done || lia).
  split; [lia|]. split.
  { assert (frame vec v2 start (end_ + 1)) as Hfr12
      by (eapply frame_trans; [exact Hfr1|exact Hfr2|lia..]).
    eapply frame_trans; [exact Hfr12|exact Hfr3|lia..]. }
  rewrite Hsl3. rewrite (slice_app vec start (mid + 1) (end_ + 1)) by lia.
  split; [|split].
  - by rewrite merge_Permutation, Hp1, Hp2.
  - apply Sorted_list_merge; [apply _|done|done].
  - intros z. rewrite list_merge_filter by done.
    by rewrite filter_app, (Hst1 z), (Hst2 z).
Qed.

Lemma MergeSort_correct vec :
  yields (MergeSort vec)
    (λ vec', vec' ≡ₚ vec ∧ sorted vec' ∧ stable vec vec').
Proof.
  unfold MergeSort. case_bool_decide as Hl.
  { apply yields_Ok. split; [done|]. split; [by apply sorted_short|].
    apply stable_refl. }
  cbv zeta. eapply yields_bind.
  { apply (mergeSortHelper_correct (length vec) vec (make_len zero vec) 0
      (len vec - 1)); unfold make_len, len in *;
      rewrite ?length_replicate; lia. }
  intros [vec' tmp'] (_ & [Hlen Hfr] & Hp & Hs & Hst).
  apply yields_Ok.
  replace (len vec - 1 + 1) with (len vec) in * by lia.
  rewrite !slice_full in Hp, Hst. rewrite <- Hlen, slice_full in Hp, Hs, Hst.
  split; [done|]. split; [|done]. by apply Sorted_sorted.
Qed.
End MergeSort.

(** * Quick sort *)

Section QuickSort.
Context {T : Type} `{TotalOrder T}.
Implicit Types (vec l : list T) (x y : T).

Lemma medianOfThree_index vec i j k :
  0 ≤ i < len vec → 0 ≤ j < len vec → 0 ≤ k < len vec →
  yields (medianOfThree vec i j k) (λ m, m = i ∨ m = j ∨ m = k).
Proof.
  intros Hi Hj Hk. unfold medianOfThree.
  apply yields_get_bind; [lia|intros vi Hvi].
  apply yields_get_bind; [lia|intros vj Hvj].
  apply yields_get_bind; [lia|intros vk Hvk].
  repeat case_match; apply yields_Ok; auto.
Qed.

Lemma partition_correct vec start end_ :
  0 ≤ start < end_ → end_ < len vec →
  yields (partition vec start end_) (λ '(vec', p),
    start ≤ p ≤ end_ ∧ frame vec vec' start (end_ + 1) ∧ vec' ≡ₚ vec ∧
    ∃ pv, idx vec' p = Some pv ∧
      (∀ k x, start ≤ k < p → idx vec' k = Some x → x ⪯ pv) ∧
      (∀ k x, p < k < end_ + 1 → idx vec' k = Some x → pv ⪯ x)).
Proof.
  intros Hs He. unfold partition. cbv zeta.
  set (mid := start + (end_ - start) ÷ 2).
  assert (start ≤ mid < end_) as Hmid.
  { unfold mid. rewrite Z.quot_div_nonneg by lia.
    Z.div_mod_to_equations. lia. }
  clearbody mid.
  eapply yields_bind. { apply medianOfThree_index; lia. }
  intros pi Hpi. simpl in Hpi.
  assert (start ≤ pi ≤ end_) as Hpir by lia. clear Hpi.
  destruct (idx_is_Some vec pi) as [vp Hvp]; [lia|].
  destruct (idx_is_Some vec end_) as [ve Hve]; [lia|].
  apply (yields_swap_bind _ _ _ _ _ _ _ Hvp Hve). intros v1 Hlen1 Hp1 Hk1.
  apply yields_get_bind; [lia|intros pivot Hpivot].
  eapply yields_bind.
  { apply (for_up_inv
      (λ j '(v, i), start - 1 ≤ i < j ∧ frame vec v start (end_ + 1) ∧
         v ≡ₚ vec ∧ idx v end_ = Some pivot ∧
         (∀ k x, start ≤ k ≤ i → idx v k = Some x → x ⪯ pivot) ∧
         (∀ k x, i < k < j → idx v k = Some x → pivot ⪯ x))
      (λ '(v, i), start - 1 ≤ i < end_ ∧ frame vec v start (end_ + 1) ∧
         v ≡ₚ vec ∧ idx v end_ = Some pivot ∧
         (∀ k x, start ≤ k ≤ i → idx v k = Some x → x ⪯ pivot) ∧
         (∀ k x, i < k < end_ → idx v k = Some x → pivot ⪯ x))).
    - lia.
    - splits; try (intros; lia).
      split; [done|]. intros k Hk. rewrite Hk1.
      by rewrite !bool_decide_false by lia.
    - intros j [v i] Hj (Hi & [Hlen Hfr] & Hp & Hpv & Hlo & Hhi).
      apply yields_get_bind; [lia|intros vj Hvj].
      destruct (leb vj pivot) eqn:Hle; cbv zeta.
      + destruct (idx_is_Some v (i + 1)) as [vi Hvi]; [lia|].
        apply (yields_swap_bind _ _ _ _ _ _ _ Hvi Hvj). intros v' Hlen' Hp' Hk.
        apply yields_Ok. splits.
        * split; [lia|]. intros k Hk'. rewrite Hk.
          rewrite !bool_decide_false by lia. by apply Hfr.
        * by rewrite Hp'.
        * rewrite Hk. by rewrite !bool_decide_false by lia.
        * intros k x Hk'. destruct (decide (j = i + 1)) as [->|];
            after_swap Hk; first [apply (Hlo k); [lia|done]|order].
        * intros k x Hk'. after_swap Hk;
            first [apply (Hhi k); [lia|done]|apply (Hhi (i + 1)); [lia|done]].
      + apply yields_Ok. splits.
        intros k x Hk' Hx. destruct (decide (k = j)) as [->|].
        * simplify_eq. order.
        * apply (Hhi k); [lia|done].
    - intros [v i]. done. }
  intros [v i] (Hi & [Hlen Hfr] & Hp & Hpv & Hlo & Hhi).
  destruct (idx_is_Some v (i + 1)) as [vi Hvi]; [lia|].
  apply (yields_swap_bind _ _ _ _ _ _ _ Hvi Hpv). intros v' Hlen' Hp' Hk.
  apply yields_Ok. splits.
  - split; [lia|]. intros k Hk'. rewrite Hk.
    rewrite !bool_decide_false by lia. by apply Hfr.
  - by rewrite Hp'.
  - exists pivot. split; [|split].
    + rewrite Hk. case_bool_decide; [|by rewrite bool_decide_true].
      subst. rewrite Hpv in Hvi. done.
    + intros k x Hk'. after_swap Hk. apply (Hlo k); [lia|done].
    + intros k x Hk'. after_swap Hk;
        first [apply (Hhi k); [lia|done]|apply (Hhi (i + 1)); [lia|done]].
Qed.

Lemma quickSortHelper_correct fuel : ∀ vec start end_,
  (start < end_ → 0 ≤ start ∧ end_ < len vec) →
  (0 < fuel)%nat → end_ - start < Z.of_nat fuel →
  yields (quickSortHelper fuel vec start end_) (λ vec',
    frame vec vec' start (end_ + 1) ∧ vec' ≡ₚ vec ∧
    sorted_range vec' start (end_ + 1)).
Proof.
  induction fuel as [|fuel IH]; intros vec start end_ Hr Hpos Hf; [lia|].
  simpl. case_bool_decide as Hse.
  { apply yields_Ok. split; [apply frame_refl|]. split; [done|].
    intros a b x y ??; lia. }
  destruct Hr as [Hs He]; [lia|].
  eapply yields_bind. { apply partition_correct; lia. }
  intros [v1 p] (Hp & Hfr1 & Hp1 & pv & Hpv & Hlo & Hhi).
  pose proof Hfr1 as [Hl1 Hf1].
  eapply yields_bind. { apply IH; lia. }
  intros v2 (Hfr2 & Hp2 & Hs2). replace (p - 1 + 1) with p in * by lia.
  pose proof Hfr2 as [Hl2 Hf2].
  eapply yields_mono. { apply IH; lia. }
  intros v3 (Hfr3 & Hp3 & Hs3). pose proof Hfr3 as [Hl3 Hf3].
  split; [|split].
  - assert (frame vec v2 start (end_ + 1)) as Hfr12
      by (eapply frame_trans; [exact Hfr1|exact Hfr2|lia..]).
    eapply frame_trans; [exact Hfr12|exact Hfr3|lia..].
  - by rewrite Hp3, Hp2.
  - assert (∀ k x, start ≤ k < p → idx v3 k = Some x → x ⪯ pv) as Hlo3.
    { intros k x Hk. rewrite Hf3 by lia. revert k x Hk.
      apply (range_Forall_perm _ v1 v2 start p); [done|done|lia..|done]. }
    assert (idx v3 p = Some pv) as Hpv3.
    { rewrite Hf3, Hf2 by lia. done. }
    assert (∀ k x, p + 1 ≤ k < end_ + 1 → idx v3 k = Some x → pv ⪯ x) as Hhi3.
    { apply (range_Forall_perm _ v2 v3 (p + 1) (end_ + 1)); [done|done|lia..|].
      intros k x Hk. rewrite Hf2 by lia. apply Hhi. lia. }
    intros a b x y Ha Hb Hx Hy.
    destruct (decide (b < p)) as [Hbp|Hbp].
    { rewrite Hf3 in Hx, Hy by lia. by_inv Hs2. }
    destruct (decide (p < a)) as [Hpa|Hpa]; [by_inv Hs3|].
    assert (x ⪯ pv).
    { destruct (decide (a = p)) as [->|]; [simplify_eq; apply le_refl|].
      apply (Hlo3 a); [lia|done]. }
    assert (pv ⪯ y).
    { destruct (decide (b = p)) as [->|]; [simplify_eq; apply le_refl|].
      apply (Hhi3 b); [lia|done]. }
    order.
Qed.

Lemma QuickSort_correct vec :
  yields (QuickSort vec) (λ vec', vec' ≡ₚ vec ∧ sorted vec').
Proof.
  unfold QuickSort. case_bool_decide as Hl.
  { apply yields_Ok. split; [done|by apply sorted_short]. }
  eapply yields_mono.
  { apply quickSortHelper_correct; unfold len in *; lia. }
  intros vec' ([Hlen Hfr] & Hp & Hs). split; [done|].
  intros i j x y Hij Hx Hy.
  pose proof (idx_Some _ _ _ Hx). pose proof (idx_Some _ _ _ Hy). by_inv Hs.
Qed.
End QuickSort.

(** * Heap sort *)

Section HeapSort.
Context {T : Type} `{TotalOrder T}.
Implicit Types (vec : list T) (x y : T).

(** The root of a heap is its greatest element. *)
Lemma heap_root_max vec n r :
  heap_from vec 0 n → n ≤ len vec → idx vec 0 = Some r →
  ∀ k x, 0 ≤ k < n → idx vec k = Some x → x ⪯ r.
Proof.
  intros Hheap Hn Hr k x Hk. remember (Z.to_nat k) as m eqn:Hm.
  revert k x Hk Hm. induction (lt_wf m) as [m _ IH]. intros k x Hk -> Hx.
  destruct (decide (k = 0)) as [->|Hk0]; [simplify_eq; apply le_refl|].
  set (p := (k - 1) / 2).
  assert (0 ≤ p < k ∧ (k = 2 * p + 1 ∨ k = 2 * p + 2)) as [Hp Hpk].
  { unfold p. Z.div_mod_to_equations. lia. }
  clearbody p.
  destruct (idx_is_Some vec p) as [xp Hxp]; [lia|].
  apply le_trans with xp.
  - apply (Hheap p ltac:(lia) k xp x); [done|lia|done..].
  - apply (IH (Z.to_nat p)) with p; [lia|lia|done..].
Qed.

Lemma heapify_correct fuel : ∀ vec lo i n,
  0 ≤ lo ≤ i → n ≤ len vec →
  (0 < fuel)%nat → n - i ≤ Z.of_nat fuel →
  (∀ k, lo ≤ k < n → k ≠ i → heap_at vec n k) →
  heap_parent vec lo n i →
  yields (heapify fuel vec i n) (λ vec',
    frame vec vec' i n ∧ vec' ≡ₚ vec ∧ heap_from vec' lo n).
Proof.
  induction fuel as [|fuel IH]; intros vec lo i n Hi Hn Hpos Hf Hex Hpar; [lia|].
  simpl.
  eapply (yields_bind _ _
    (λ l1, (l1 = i ∨ l1 = 2 * i + 1 ∧ 2 * i + 1 < n) ∧
      ∀ xi, idx vec i = Some xi → ∃ x1, idx vec l1 = Some x1 ∧ xi ⪯ x1 ∧
        ∀ y, 2 * i + 1 < n → idx vec (2 * i + 1) = Some y → y ⪯ x1)).
  { case_bool_decide as Hl.
    - apply yields_get_bind; [lia|intros vl Hvl].
      apply yields_get_bind; [lia|intros vm Hvm].
      apply yields_Ok. destruct (gtb vl vm) eqn:Hgt.
      + split; [right; lia|]. intros xi Hxi.
        assert (xi = vm) as -> by congruence.
        exists vl. split; [done|]. split; [order|].
        intros y _ Hy. assert (y = vl) as -> by congruence. apply le_refl.
      + split; [by left|]. intros xi Hxi.
        assert (xi = vm) as -> by congruence.
        exists vm. split; [done|]. split; [apply le_refl|].
        intros y _ Hy. assert (y = vl) as -> by congruence. order.
    - apply yields_Ok. split; [by left|]. intros xi Hxi.
      exists xi. split; [done|]. split; [apply le_refl|]. intros; lia. }
  intros l1 [Hl1 Hx1].
  eapply (yields_bind _ _
    (λ l2, (l2 = i ∨ (l2 = 2 * i + 1 ∨ l2 = 2 * i + 2) ∧ l2 < n) ∧
      ∀ xi, idx vec i = Some xi → ∃ x2, idx vec l2 = Some x2 ∧ xi ⪯ x2 ∧
        ∀ c y, c = 2 * i + 1 ∨ c = 2 * i + 2 → c < n →
          idx vec c = Some y → y ⪯ x2)).
  { case_bool_decide as Hr.
    - apply yields_get_bind; [lia|intros vr Hvr].
      apply yields_get_bind; [lia|intros vm Hvm].
      destruct (idx_is_Some vec i) as [xi Hxi]; [lia|].
      destruct (Hx1 xi Hxi) as (x1 & Hx1' & Hle1 & Hleft).
      assert (vm = x1) as -> by congruence.
      apply yields_Ok. destruct (gtb vr x1) eqn:Hgt.
      + split; [right; lia|]. intros xi' Hxi'.
        assert (xi' = xi) as -> by congruence.
        exists vr. split; [done|]. split; [order|].
        intros c y [->| ->] Hc Hy.
        * assert (y ⪯ x1) by (apply Hleft; [lia|done]). order.
        * assert (y = vr) as -> by congruence. apply le_refl.
      + split; [lia|]. intros xi' Hxi'.
        assert (xi' = xi) as -> by congruence.
        exists x1. split; [done|]. split; [done|].
        intros c y [->| ->] Hc Hy.
        * apply Hleft; [lia|done].
        * assert (y = vr) as -> by congruence. order.
    - apply yields_Ok. split; [lia|]. intros xi Hxi.
      destruct (Hx1 xi Hxi) as (x1 & Hx1' & Hle1 & Hleft).
      exists x1. split; [done|]. split; [done|].
      intros c y [->| ->] Hc Hy; [|lia]. apply Hleft; [lia|done]. }
  clear l1 Hl1 Hx1. intros l2 [Hl2 Hx2].
  case_bool_decide as Hne.
  - destruct Hl2 as [->|[Hl2 Hl2n]]; [done|].
    destruct (idx_is_Some vec i) as [xi Hxi]; [lia|].
    destruct (Hx2 xi Hxi) as (m & Hm & Hle & Hch).
    apply (yields_swap_bind _ _ _ _ _ _ _ Hxi Hm). intros v1 Hlen1 Hp1 Hk1.
    eapply yields_mono.
    { apply (IH v1 lo l2 n); [lia..| |].
      - intros k Hk Hkne c x y Hc Hcn. destruct (decide (k = i)) as [->|Hki].
        + rewrite !Hk1. rewrite (bool_decide_false (i = l2)) by lia.
          rewrite bool_decide_true by done. intros [= <-].
          case_bool_decide; [intros [= <-]; done|].
          rewrite bool_decide_false by lia. by apply Hch.
        + rewrite !Hk1. rewrite !(bool_decide_false (k = _)) by lia.
          rewrite (bool_decide_false (c = l2)) by lia.
          case_bool_decide as Hci.
          * subst c. intros Hx [= <-]. apply (Hpar k l2 x m); [lia..|done|done].
          * apply (Hex k); [lia|done|done|done].
      - intros p c x y Hp Hpi Hc Hcn. assert (p = i) as -> by lia.
        rewrite !Hk1. rewrite (bool_decide_false (i = l2)) by lia.
        rewrite bool_decide_true by done. intros [= <-].
        rewrite !bool_decide_false by lia.
        apply (Hex l2); [lia|lia|done|done|done]. }
    intros v2 ([Hlen2 Hfr2] & Hp2 & Hheap). splits.
    + split; [lia|]. intros k Hk. rewrite Hfr2 by lia. rewrite Hk1.
      by rewrite !bool_decide_false by lia.
    + by rewrite Hp2.
  - assert (l2 = i) as -> by (destruct (decide (l2 = i)); done).
    apply yields_Ok. split; [apply frame_refl|]. split; [done|].
    intros k Hk. destruct (decide (k = i)) as [->|]; [|by apply Hex].
    intros c x y Hc Hcn Hx Hy.
    destruct (Hx2 x Hx) as (x2 & Hx2' & _ & Hch).
    assert (x2 = x) as -> by congruence. by apply (Hch c).
Qed.

Lemma buildHeap_correct vec :
  yields (buildHeap vec) (λ vec',
    len vec' = len vec ∧ vec' ≡ₚ vec ∧ heap_from vec' 0 (len vec)).
Proof.
  unfold buildHeap. cbv zeta.
  assert (∃ n, n = len vec) as [n Hn] by eauto. rewrite <- !Hn.
  assert (0 ≤ n) as Hn0 by (rewrite Hn; apply len_nonneg).
  assert (0 ≤ n ÷ 2 ∧ n ≤ 2 * (n ÷ 2) + 1) as Hhalf.
  { rewrite Z.quot_div_nonneg by lia. Z.div_mod_to_equations. split; lia. }
  apply (for_down_inv
    (λ i v, len v = n ∧ v ≡ₚ vec ∧ heap_from v (i + 1) n)).
  - lia.
  - splits. intros k Hk c x y Hc Hcn. lia.
  - intros i v Hi (Hlen & Hp & Hheap).
    eapply yields_mono.
    { apply (heapify_correct _ v i i n); [lia|lia|lia|unfold len in *; lia| |].
      - intros k Hk Hne. apply Hheap. lia.
      - intros p c x y Hp' Hpi. lia. }
    intros v' ([Hlen' Hfr] & Hp' & Hheap'). splits; [by rewrite Hp'|].
    by replace (i - 1 + 1) with i by lia.
  - intros v (Hlen & Hp & Hheap). splits.
Qed.


Lemma HeapSort_correct vec :
  yields (HeapSort vec) (λ vec', vec' ≡ₚ vec ∧ sorted vec').
Proof.
  unfold HeapSort. cbv zeta.
  eapply yields_bind; [apply buildHeap_correct|].
  intros v0 (Hlen0 & Hp0 & Hheap0).
  assert (∃ n, n = len vec) as [n Hn] by eauto. rewrite <- !Hn in *.
  assert (0 ≤ n) as Hn0 by (rewrite Hn; apply len_nonneg).
  apply (for_down_inv
    (λ i v, len v = n ∧ v ≡ₚ vec ∧ heap_from v 0 (i + 1) ∧ above v (i + 1) n)).
  - lia.
  - splits; [by replace (n - 1 + 1) with n by lia|].
    intros a b x y ?; lia.
  - clear v0 Hlen0 Hp0 Hheap0. intros i v Hi (Hlen & Hp & Hheap & Hab).
    destruct (idx_is_Some v 0) as [r Hr]; [lia|].
    destruct (idx_is_Some v i) as [vi Hvi]; [lia|].
    pose proof (heap_root_max v (i + 1) r Hheap ltac:(lia) Hr) as Hmax.
    apply (yields_swap_bind _ _ _ _ _ _ _ Hr Hvi). intros v1 Hlen1 Hp1 Hk1.
    eapply yields_mono.
    { apply (heapify_correct _ v1 0 0 i); [lia|lia|lia|unfold len in *; lia| |].
      - intros k Hk Hne c x y Hc Hcn. rewrite !Hk1.
        rewrite !bool_decide_false by lia.
        apply (Hheap k); [lia|done|lia].
      - intros p c x y Hp' Hpi. lia. }
    intros v2 (Hfr2 & Hp2 & Hheap2). pose proof Hfr2 as [Hlen2 Hf2].
    splits; [by rewrite Hp2, Hp1|by replace (i - 1 + 1) with i by lia|].
    replace (i - 1 + 1) with i by lia.
    assert (∀ a b x y, i ≤ b < n → 0 ≤ a < b →
      idx v1 a = Some x → idx v1 b = Some y → x ⪯ y) as Hab1.
    { intros a b x y Hb Ha.
      after_swap Hk1; first [by_inv Hab|eapply Hmax; [|eassumption]; lia]. }
    intros a b x y Hb Ha Hx Hy. rewrite Hf2 in Hy by lia.
    destruct (decide (a < i)) as [Hai|Hai].
    + revert a x Ha Hai Hx.
      assert (∀ a x, 0 ≤ a < i → idx v2 a = Some x → x ⪯ y) as Hall.
      { apply (range_Forall_perm _ v1 v2 0 i); [done|done|lia..|].
        intros a x Ha Hx. by_inv Hab1. }
      intros a x Ha Hai Hx. apply (Hall a); [lia|done].
    + rewrite Hf2 in Hx by lia. by_inv Hab1.
  - intros v (Hlen & Hp & _ & Hab). split; [done|].
    intros a b x y Hlt Hx Hy.
    pose proof (idx_Some _ _ _ Hx). pose proof (idx_Some _ _ _ Hy).
    by_inv Hab.
Qed.
End HeapSort.

(** * Sorting into buckets *)

Section BucketSort.
Context {A : Type} (bkt : A → Z).
Implicit Types (vec l : list A) (b d nb : Z) (n : nat).

Lemma bucket_sort_0 vec : bucket_sort bkt 0 vec = [].
Proof. done. Qed.

Lemma bucket_sort_succ vec n :
  bucket_sort bkt (Z.of_nat (Datatypes.S n)) vec
    = bucket_sort bkt (Z.of_nat n) vec
        ++ filter (λ v, bkt v = Z.of_nat n) vec.
Proof.
  unfold bucket_sort. rewrite seqZ_S, fmap_app, concat_app. simpl.
  by rewrite app_nil_r.
Qed.

Lemma filter_filter_bucket (Q : A → Prop) `{∀ v, Decision (Q v)} vec b d :
  (∀ v, Q v → bkt v = b) →
  filter Q (filter (λ v, bkt v = d) vec)
    = if decide (d = b) then filter Q vec else [].
Proof.
  intros HQ. induction vec as [|v vec IH]; [by case_decide|].
  rewrite (filter_cons (λ v, bkt v = d)), (filter_cons Q v vec).
  destruct (decide (bkt v = d)) as [Hd|Hd].
  - rewrite filter_cons, IH. destruct (decide (Q v)) as [Hv|Hv]; [|done].
    pose proof (HQ v Hv). repeat case_decide; try done; congruence.
  - rewrite IH. destruct (decide (Q v)) as [Hv|Hv]; [|done].
    pose proof (HQ v Hv). repeat case_decide; try done; congruence.
Qed.

(** The elements that a predicate picks from one bucket keep their
    order. *)
Lemma bucket_sort_filter (Q : A → Prop) `{∀ v, Decision (Q v)} vec nb b :
  (∀ v, Q v → bkt v = b) → 0 ≤ b < nb →
  filter Q (bucket_sort bkt nb vec) = filter Q vec.
Proof.
  intros HQ Hb.
  assert (∀ n, filter Q (bucket_sort bkt (Z.of_nat n) vec)
    = if decide (b < Z.of_nat n) then filter Q vec else []) as Hn.
  { induction n as [|n IH]; [by rewrite decide_False by lia|].
    rewrite bucket_sort_succ, filter_app, IH.
    rewrite (filter_filter_bucket Q vec b) by done.
    repeat case_decide; try lia; by rewrite ?app_nil_r. }
  specialize (Hn (Z.to_nat nb)). rewrite Z2Nat.id in Hn by lia.
  by rewrite decide_True in Hn by lia.
Qed.

Lemma bucket_sort_Permutation vec nb :
  (∀ v, v ∈ vec → 0 ≤ bkt v < nb) → bucket_sort bkt nb vec ≡ₚ vec.
Proof.
  intros Hb.
  assert (∀ n, bucket_sort bkt (Z.of_nat n) vec
    ≡ₚ filter (λ v, 0 ≤ bkt v < Z.of_nat n) vec) as Hn.
  { induction n as [|n IH].
    - rewrite filter_none; [done|]. intros; lia.
    - rewrite bucket_sort_succ, IH.
      rewrite <- filter_disjoint_Permutation by (intros; lia).
      assert (∀ l1 l2 : list A, l1 = l2 → l1 ≡ₚ l2) as Heq by (by intros ?? ->).
      apply Heq, list_filter_iff. intros v. simpl. lia. }
  destruct (decide (0 ≤ nb)) as [Hnb|Hnb].
  - specialize (Hn (Z.to_nat nb)). rewrite Z2Nat.id in Hn by lia.
    rewrite Hn. by rewrite filter_all.
  - unfold bucket_sort. rewrite seqZ_nil by lia. simpl.
    destruct vec as [|v vec]; [done|].
    specialize (Hb v ltac:(left)). lia.
Qed.

Lemma elem_of_bucket_sort vec nb v :
  v ∈ bucket_sort bkt nb vec ↔ v ∈ vec ∧ 0 ≤ bkt v < nb.
Proof.
  assert (∀ n, v ∈ bucket_sort bkt (Z.of_nat n) vec
    ↔ v ∈ vec ∧ 0 ≤ bkt v < Z.of_nat n) as Hn.
  { induction n as [|n IH].
    - rewrite bucket_sort_0, elem_of_nil. lia.
    - rewrite bucket_sort_succ, elem_of_app, IH, list_elem_of_filter.
      split; [intros [[? ?]|[? ?]]; split; (done || lia)|].
      intros [? ?]. destruct (decide (bkt v = Z.of_nat n)); [by right|].
      left. split; [done|lia]. }
  destruct (decide (0 ≤ nb)) as [Hnb|Hnb].
  - specialize (Hn (Z.to_nat nb)). by rewrite Z2Nat.id in Hn by lia.
  - unfold bucket_sort. rewrite seqZ_nil by lia. simpl.
    rewrite elem_of_nil. lia.
Qed.

(** A pass of a radix sort: a list in order for [R], sorted into
    buckets, is in order for the buckets first and [R] then. *)
Lemma bucket_sort_StronglySorted (R R' : relation A) vec nb :
  StronglySorted R vec →
  (∀ v w, bkt v = bkt w → R v w → R' v w) →
  (∀ v w, bkt v < bkt w → R' v w) →
  StronglySorted R' (bucket_sort bkt nb vec).
Proof.
  intros Hs Hsame Hless.
  assert (∀ n, StronglySorted R' (bucket_sort bkt (Z.of_nat n) vec)) as Hn.
  { induction n as [|n IH]; [constructor|].
    rewrite bucket_sort_succ. apply StronglySorted_app_2; [|done|].
    - intros v w [_ Hv]%elem_of_bucket_sort [Hw _]%list_elem_of_filter.
      apply Hless. lia.
    - eapply StronglySorted_impl_elem_of.
      + by apply StronglySorted_filter.
      + intros v w [Hv _]%list_elem_of_filter [Hw _]%list_elem_of_filter.
        apply Hsame. congruence. }
  destruct (decide (0 ≤ nb)) as [Hnb|Hnb].
  - specialize (Hn (Z.to_nat nb)). by rewrite Z2Nat.id in Hn by lia.
  - unfold bucket_sort. rewrite seqZ_nil by lia. constructor.
Qed.
End BucketSort.

(** * The counting pass *)

Section Counts.
Context {A : Type} (bkt : A → Z).
Implicit Types (l : list A) (d : Z).

Lemma len_app {B} (l1 l2 : list B) : len (l1 ++ l2) = len l1 + len l2.
Proof. unfold len. rewrite length_app. lia. Qed.

Lemma len_filter_le {B} (P : B → Prop) `{∀ x, Decision (P x)} (l : list B) :
  len (filter P l) ≤ len l.
Proof. unfold len. pose proof (length_filter P l). lia. Qed.

Lemma count_in_nil d : count_in bkt [] d = 0.
Proof. done. Qed.

Lemma count_in_snoc l v d :
  count_in bkt (l ++ [v]) d
    = count_in bkt l d + (if decide (bkt v = d) then 1 else 0).
Proof.
  unfold count_in. rewrite filter_app, len_app, filter_cons, filter_nil.
  by case_decide.
Qed.

Lemma count_in_app l1 l2 d :
  count_in bkt (l1 ++ l2) d = count_in bkt l1 d + count_in bkt l2 d.
Proof. unfold count_in. by rewrite filter_app, len_app. Qed.

Lemma count_in_cons l v d :
  count_in bkt (v :: l) d
    = (if decide (bkt v = d) then 1 else 0) + count_in bkt l d.
Proof.
  unfold count_in. rewrite filter_cons. case_decide; [|lia].
  unfold len. simpl. lia.
Qed.

Lemma count_in_bounds l d : 0 ≤ count_in bkt l d ≤ len l.
Proof.
  unfold count_in. split; [apply len_nonneg|apply len_filter_le].
Qed.

Lemma below_in_bounds l d : 0 ≤ below_in bkt l d ≤ len l.
Proof.
  unfold below_in. split; [apply len_nonneg|apply len_filter_le].
Qed.

Lemma below_in_succ l d :
  below_in bkt l (d + 1) = below_in bkt l d + count_in bkt l d.
Proof.
  unfold below_in, count_in. rewrite <- len_app. unfold len. f_equal.
  assert (∀ v, bkt v < d → bkt v = d → False) as Hdis by (intros; lia).
  rewrite <- (Permutation_length
    (filter_disjoint_Permutation (λ v, bkt v < d) (λ v, bkt v = d) l Hdis)).
  f_equal. apply list_filter_iff. intros v. lia.
Qed.

Lemma below_in_0 l : (∀ v, v ∈ l → 0 ≤ bkt v) → below_in bkt l 0 = 0.
Proof.
  intros Hl. unfold below_in. rewrite filter_none; [done|].
  intros v Hv. specialize (Hl v Hv). lia.
Qed.

Lemma below_in_all l d : (∀ v, v ∈ l → bkt v < d) → below_in bkt l d = len l.
Proof. intros Hl. unfold below_in. by rewrite filter_all. Qed.

Lemma below_in_mono l d d' : d ≤ d' → below_in bkt l d ≤ below_in bkt l d'.
Proof.
  intros Hd. unfold below_in.
  assert (filter (λ v, bkt v < d) l
    = filter (λ v, bkt v < d) (filter (λ v, bkt v < d') l)) as ->.
  { rewrite list_filter_filter. apply list_filter_iff. intros v. lia. }
  apply len_filter_le.
Qed.

Lemma bucket_sort_len l d :
  0 ≤ d → (∀ v, v ∈ l → 0 ≤ bkt v) →
  len (bucket_sort bkt d l) = below_in bkt l d.
Proof.
  intros Hd Hl. rewrite <- (Z2Nat.id d) by lia.
  induction (Z.to_nat d) as [|n IH].
  - by rewrite bucket_sort_0, below_in_0.
  - rewrite bucket_sort_succ, len_app, IH.
    replace (Z.of_nat (Datatypes.S n)) with (Z.of_nat n + 1) by lia.
    by rewrite below_in_succ.
Qed.

Lemma idx_replicate {B} (n : nat) (x : B) i :
  0 ≤ i < Z.of_nat n → idx (replicate n x) i = Some x.
Proof.
  intros Hi. rewrite idx_lookup by lia. apply lookup_replicate_2. lia.
Qed.

Lemma wrap64_small z : 0 ≤ z < 2 ^ 64 → wrap64 z = z.
Proof. intros Hz. unfold wrap64. by apply Z.mod_small. Qed.

Lemma for_range_for_up {B S} (vec : list B) (f : B → S → result S) (s : S) :
  for_range vec f s = for_up 0 (len vec) (λ i s, v ← get vec i; f v s) s.
Proof.
  unfold for_up. rewrite Z.sub_0_r. unfold len. rewrite Nat2Z.id.
  assert (∀ pre, for_range vec f s
    = for_up_from (length vec) (Z.of_nat (length pre))
        (λ i s, v ← get (pre ++ vec) i; f v s) s) as Hgen.
  { revert s. induction vec as [|x vec IH]; intros s pre; [done|]. simpl.
    assert (get (pre ++ x :: vec) (Z.of_nat (length pre)) = Ok x) as ->.
    { apply get_Ok. rewrite idx_of_nat. by apply list_lookup_middle. }
    simpl.
    destruct (f x s) as [s'| |]; simpl; try done.
    rewrite (IH s' (pre ++ [x])). rewrite length_app, <- app_assoc. simpl.
    f_equal. lia. }
  apply (Hgen []).
Qed.
End Counts.

Section CountingPass.
Context {A : Type} (bkt : A → Z) (nb : Z) (vec : list A).
Hypothesis Hnb : 0 ≤ nb.
Hypothesis Hbkt : ∀ v, v ∈ vec → 0 ≤ bkt v < nb.
Hypothesis Hlen : len vec < 2 ^ 64.

Lemma idx_bkt i v : idx vec i = Some v → 0 ≤ bkt v < nb.
Proof. intros Hv. apply Hbkt. by eapply idx_elem_of. Qed.

(** The first loop counts the elements of each bucket. *)
Lemma count_loop_correct (body : Z → list Z → result (list Z)) :
  (∀ i v c, idx vec i = Some v → body i c = incr c (bkt v)) →
  yields (for_up 0 (len vec) body (replicate (Z.to_nat nb) 0)) (λ counts,
    len counts = nb ∧
    ∀ d, 0 ≤ d < nb → idx counts d = Some (count_in bkt vec d)).
Proof using Hnb Hbkt Hlen.
  intros Hbody.
  apply (for_up_inv (λ i counts, len counts = nb ∧
    ∀ d, 0 ≤ d < nb → idx counts d = Some (count_in bkt (slice vec 0 i) d))).
  - apply len_nonneg.
  - split; [rewrite len_replicate; lia|].
    intros d Hd. rewrite slice_empty by lia. apply idx_replicate. lia.
  - intros i counts Hi [Hlc Hc].
    destruct (idx_is_Some vec i Hi) as [v Hv]. rewrite (Hbody i v) by done.
    pose proof (idx_bkt i v Hv) as Hbv. unfold incr.
    rewrite (get_Ok _ _ _ (Hc (bkt v) Hbv)). simpl.
    apply yields_set; [lia|]. split; [by rewrite len_insert|].
    intros d Hd. rewrite idx_insert by lia.
    rewrite (slice_snoc vec 0 i v) by (done || lia).
    rewrite count_in_snoc.
    pose proof (count_in_bounds bkt (slice vec 0 i) (bkt v)) as Hcb.
    rewrite slice_len in Hcb by lia.
    case_bool_decide as Hdv.
    + subst d. rewrite decide_True by done. f_equal.
      apply wrap64_small. lia.
    + rewrite decide_False by done. rewrite Hc by done. f_equal. lia.
  - intros counts [Hlc Hc]. split; [done|]. intros d Hd.
    rewrite Hc by done. by rewrite slice_full.
Qed.

(** The second loop turns the counts into the position where each
    bucket ends. *)
Lemma prefix_loop_correct (counts : list Z) :
  len counts = nb →
  (∀ d, 0 ≤ d < nb → idx counts d = Some (count_in bkt vec d)) →
  yields (for_up 1 nb (λ i counts,
      ci ← get counts i;
      cp ← get counts (i - 1);
      set counts i (wrap64 (ci + cp))) counts) (λ counts',
    len counts' = nb ∧
    ∀ d, 0 ≤ d < nb → idx counts' d = Some (below_in bkt vec (d + 1))).
Proof using Hnb Hbkt Hlen.
  intros Hlc Hc.
  assert (∀ v, v ∈ vec → 0 ≤ bkt v) as Hpos by (intros v ?%Hbkt; lia).
  destruct (decide (nb ≤ 1)) as [Hsmall|Hbig].
  { rewrite for_up_empty by lia. apply yields_Ok. split; [done|].
    intros d Hd. assert (d = 0) as -> by lia.
    rewrite Hc by lia. f_equal.
    by rewrite below_in_succ, below_in_0. }
  apply (for_up_inv (λ i c, len c = nb ∧
    (∀ d, 0 ≤ d < i → idx c d = Some (below_in bkt vec (d + 1))) ∧
    (∀ d, i ≤ d < nb → idx c d = Some (count_in bkt vec d)))).
  - lia.
  - split; [done|]. split.
    + intros d Hd. assert (d = 0) as -> by lia.
      rewrite Hc by lia. f_equal. by rewrite below_in_succ, below_in_0.
    + intros d Hd. apply Hc. lia.
  - intros i c Hi (Hl & Hlo & Hhi).
    rewrite (get_Ok _ _ _ (Hhi i ltac:(lia))). simpl.
    rewrite (get_Ok _ _ _ (Hlo (i - 1) ltac:(lia))). simpl.
    apply yields_set; [lia|]. split; [by rewrite len_insert|].
    replace (i - 1 + 1) with i by lia.
    pose proof (below_in_succ bkt vec i) as Hsucc.
    pose proof (below_in_bounds bkt vec (i + 1)).
    pose proof (below_in_bounds bkt vec i).
    pose proof (count_in_bounds bkt vec i).
    split.
    + intros d Hd. rewrite idx_insert by lia. case_bool_decide as Hdi.
      * subst d. f_equal. rewrite wrap64_small by lia. lia.
      * apply Hlo. lia.
    + intros d Hd. rewrite idx_insert by lia.
      rewrite bool_decide_false by lia. apply Hhi. lia.
  - intros c (Hl & Hlo & _). split; [done|]. done.
Qed.

(** The third loop puts the elements, last first, at the end of
    their buckets. *)
Lemma place_loop_correct
    (body : Z → list A * list Z → result (list A * list Z))
    (output : list A) (counts : list Z) :
  (∀ i v out c, idx vec i = Some v →
     body i (out, c) =
       (cv ← get c (bkt v);
        out ← set out (wrap64 (cv - 1)) v;
        c ← decr c (bkt v);
        Ok (out, c))) →
  len output = len vec → len counts = nb →
  (∀ d, 0 ≤ d < nb → idx counts d = Some (below_in bkt vec (d + 1))) →
  yields (for_down (len vec - 1) 0 body (output, counts))
    (λ '(out, _), out = bucket_sort bkt nb vec).
Proof using Hnb Hbkt Hlen.
  intros Hbody Hlo Hlc Hc.
  assert (∀ v, v ∈ vec → 0 ≤ bkt v) as Hpos by (intros v ?%Hbkt; lia).
  pose proof (len_nonneg vec) as Hn0.
  apply (for_down_inv (λ i '(out, c), len out = len vec ∧ len c = nb ∧
    ∀ d, 0 ≤ d < nb →
      idx c d = Some (below_in bkt vec d + count_in bkt (slice vec 0 (i + 1)) d) ∧
      slice out (below_in bkt vec d + count_in bkt (slice vec 0 (i + 1)) d)
        (below_in bkt vec (d + 1))
        = filter (λ v, bkt v = d) (slice vec (i + 1) (len vec)))).
  - lia.
  - split; [done|]. split; [done|]. intros d Hd.
    replace (len vec - 1 + 1) with (len vec) by lia. rewrite slice_full.
    rewrite <- below_in_succ. split; [by apply Hc|].
    by rewrite !slice_empty by lia.
  - intros i [out c] Hi (Hlo' & Hlc' & Hinv).
    destruct (idx_is_Some vec i ltac:(lia)) as [v Hv].
    rewrite (Hbody i v) by done.
    pose proof (idx_bkt i v Hv) as Hbv.
    destruct (Hinv (bkt v) Hbv) as [Hcv Hsl].
    rewrite (slice_snoc vec 0 i v) in Hcv, Hsl by (done || lia).
    rewrite count_in_snoc, decide_True in Hcv, Hsl by done.
    pose proof (count_in_bounds bkt (slice vec 0 i) (bkt v)) as Hcb.
    rewrite slice_len in Hcb by lia.
    pose proof (below_in_bounds bkt vec (bkt v)) as Hbb.
    pose proof (below_in_bounds bkt vec (bkt v + 1)) as Hbb1.
    set (p := below_in bkt vec (bkt v) + count_in bkt (slice vec 0 i) (bkt v)) in *.
    assert (p + 1 ≤ below_in bkt vec (bkt v + 1)) as Hp.
    { rewrite below_in_succ. unfold p.
      assert (count_in bkt vec (bkt v)
        = count_in bkt (slice vec 0 i) (bkt v) + 1
          + count_in bkt (slice vec (i + 1) (len vec)) (bkt v)) as ->.
      { rewrite <- (slice_full vec) at 1.
        rewrite (slice_app vec 0 (i + 1) (len vec)) by lia.
        rewrite (slice_snoc vec 0 i v) by (done || lia).
        by rewrite count_in_app, count_in_snoc, decide_True. }
      pose proof (count_in_bounds bkt (slice vec (i + 1) (len vec)) (bkt v)).
      lia. }
    replace (below_in bkt vec (bkt v)
      + (count_in bkt (slice vec 0 i) (bkt v) + 1)) with (p + 1)
      in Hcv, Hsl by (unfold p; lia).
    assert (0 ≤ p) as Hp0 by (unfold p; lia). clearbody p.
    rewrite (get_Ok _ _ _ Hcv). simpl.
    replace (p + 1 - 1) with p by lia.
    rewrite wrap64_small by lia.
    rewrite set_Ok by lia. simpl.
    unfold decr. rewrite (get_Ok _ _ _ Hcv). simpl.
    replace (p + 1 - 1) with p by lia.
    rewrite wrap64_small by lia.
    apply yields_set_bind; [lia|]. apply yields_Ok.
    split; [by rewrite len_insert|]. split; [by rewrite len_insert|].
    intros d Hd. replace (i - 1 + 1) with i by lia.
    rewrite idx_insert by lia.
    rewrite (slice_cons vec i (len vec) v) by (done || lia).
    rewrite filter_cons.
    case_bool_decide as Hdv.
    + subst d. rewrite decide_True by done.
      assert (below_in bkt vec (bkt v)
        + count_in bkt (slice vec 0 i) (bkt v) = p) as Hpeq.
      { destruct (Hinv (bkt v) Hbv) as [Hcv' _].
        rewrite (slice_snoc vec 0 i v) in Hcv' by (done || lia).
        rewrite count_in_snoc, decide_True in Hcv' by done.
        rewrite Hcv in Hcv'. injection Hcv' as Hcv'. lia. }
      rewrite Hpeq. split; [done|].
      rewrite (slice_cons _ p _ v);
        [|by rewrite idx_insert, bool_decide_true by lia|lia].
      f_equal. rewrite <- Hsl.
      apply slice_ext; rewrite ?len_insert; try lia.
      intros k Hk. rewrite idx_insert by lia.
      by rewrite bool_decide_false by lia.
    + destruct (Hinv d Hd) as [Hcd Hsld].
      rewrite (slice_snoc vec 0 i v) in Hcd, Hsld by (done || lia).
      rewrite count_in_snoc, decide_False, Z.add_0_r in Hcd, Hsld by done.
      split; [done|]. rewrite decide_False by done. rewrite <- Hsld.
      pose proof (count_in_bounds bkt (slice vec 0 i) d) as Hcd'.
      pose proof (below_in_bounds bkt vec (d + 1)) as Hbd1.
      pose proof (below_in_bounds bkt vec d) as Hbd.
      assert (below_in bkt vec (bkt v) ≤ p
        ∧ p + 1 ≤ below_in bkt vec (bkt v + 1)) as Hpr.
      { destruct (Hinv (bkt v) Hbv) as [Hcv' _].
        rewrite (slice_snoc vec 0 i v) in Hcv' by (done || lia).
        rewrite count_in_snoc, decide_True in Hcv' by done.
        rewrite Hcv in Hcv'. injection Hcv' as Hcv'. lia. }
      apply slice_ext; rewrite ?len_insert; try lia.
      intros k Hk. rewrite idx_insert by lia.
      rewrite bool_decide_false; [done|].
      destruct (decide (d < bkt v)).
      * pose proof (below_in_mono bkt vec (d + 1) (bkt v) ltac:(lia)). lia.
      * pose proof (below_in_mono bkt vec (bkt v + 1) d ltac:(lia)). lia.
  - intros [out c] (Hlo' & Hlc' & Hinv).
    replace (0 - 1 + 1) with 0 in Hinv by lia.
    rewrite slice_empty in Hinv by lia.
    assert (∀ n, Z.of_nat n ≤ nb →
      slice out 0 (below_in bkt vec (Z.of_nat n))
        = bucket_sort bkt (Z.of_nat n) vec) as Hn.
    { induction n as [|n IH]; intros Hle.
      - by rewrite below_in_0, bucket_sort_0, slice_empty by (done || lia).
      - rewrite bucket_sort_succ, <- IH by lia.
        pose proof (below_in_bounds bkt vec (Z.of_nat n)).
        pose proof (below_in_mono bkt vec (Z.of_nat n) (Z.of_nat (Datatypes.S n))
          ltac:(lia)).
        rewrite (slice_app out 0 (below_in bkt vec (Z.of_nat n))) by lia.
        f_equal. destruct (Hinv (Z.of_nat n) ltac:(lia)) as [_ Hsl].
        rewrite count_in_nil, Z.add_0_r, slice_full in Hsl.
        rewrite <- Hsl. do 2 f_equal. lia. }
    specialize (Hn (Z.to_nat nb)). rewrite Z2Nat.id in Hn by lia.
    rewrite <- Hn by lia. rewrite below_in_all by (intros v ?%Hbkt; lia).
    rewrite <- Hlo'. by rewrite slice_full.
Qed.
End CountingPass.

(** * Counting sorts *)

Lemma foldl_max_spec (l : list Z) (x : Z) :
  x ≤ foldl Z.max x l ∧ (∀ y, y ∈ l → y ≤ foldl Z.max x l) ∧
  (foldl Z.max x l = x ∨ foldl Z.max x l ∈ l).
Proof.
  revert x. induction l as [|y l IH]; intros x; simpl.
  - split; [lia|]. split; [by intros ? ?%elem_of_nil|by left].
  - destruct (IH (Z.max x y)) as (H1 & H2 & H3). split; [lia|]. split.
    + intros z [->|Hz]%elem_of_cons; [lia|by apply H2].
    + destruct H3 as [->|H3]; [|right; by right].
      destruct (Z.max_spec x y) as [[_ ->]|[_ ->]]; [right; by left|by left].
Qed.

Lemma slices_Max_correct (l : list Z) :
  l ≠ [] →
  ∃ m, slices_Max l = Ok m ∧ m ∈ l ∧ ∀ y, y ∈ l → y ≤ m.
Proof.
  destruct l as [|x l]; [done|]. intros _. simpl.
  destruct (foldl_max_spec l x) as (H1 & H2 & H3).
  eexists. split; [done|]. split.
  - destruct H3 as [->|H3]; [by left|by right].
  - intros y [->|Hy]%elem_of_cons; [done|by apply H2].
Qed.

Section CountingSorts.
Context {A : Type} (key : A → Z) (zeroA : A).
Implicit Types (vec : list A).

Lemma length_bucket_sort (bkt : A → Z) nb vec :
  (∀ v, v ∈ vec → 0 ≤ bkt v < nb) →
  length (bucket_sort bkt nb vec) = length vec.
Proof. intros Hb. by rewrite bucket_sort_Permutation. Qed.

(** [GeneralCountingSort] sorts the elements into the buckets of
    their keys, when the keys are [uint]s and one more than the
    greatest is a length that [make] accepts: at most [2^45]
    counters of eight bytes. *)
Lemma GeneralCountingSortBy_correct vec max :
  1 < len vec < 2 ^ 64 →
  (∀ v, v ∈ vec → 0 ≤ key v ≤ max) →
  max + 1 ≤ 2 ^ 45 →
  slices_Max (key <$> vec) = Ok max →
  GeneralCountingSortBy key zeroA vec = Ok (bucket_sort key (max + 1) vec).
Proof.
  intros Hlen Hkey Hmax HM. unfold GeneralCountingSortBy.
  rewrite bool_decide_false by lia. rewrite HM. simpl.
  assert (0 ≤ max) as Hmax0.
  { destruct vec as [|v vec]; [unfold len in Hlen; simpl in Hlen; lia|].
    specialize (Hkey v ltac:(left)). lia. }
  rewrite wrap64_small by lia.
  rewrite make_Ok by (unfold maxInt, maxAlloc, sizeof_uint; lia). simpl.
  cbv zeta. rewrite for_range_for_up.
  assert (∀ v, v ∈ vec → 0 ≤ key v < max + 1) as Hb
    by (intros v ?%Hkey; lia).
  assert (0 ≤ max + 1) as Hnb by lia. destruct Hlen as [Hlen1 Hlen2].
  destruct (count_loop_correct key (max + 1) vec Hnb Hb Hlen2
    (λ i s, v ← get vec i; incr s (key v))) as (c1 & -> & Hl1 & Hc1).
  { intros i v c Hv. by rewrite (get_Ok _ _ _ Hv). }
  simpl. rewrite Hl1.
  destruct (prefix_loop_correct key (max + 1) vec Hnb Hb Hlen2
    c1 Hl1 Hc1) as (c2 & -> & Hl2 & Hc2).
  simpl.
  destruct (place_loop_correct key (max + 1) vec Hnb Hb Hlen2
    (λ i '(sorted, counts),
      vi ← get vec i;
      c ← get counts (key vi);
      sorted ← set sorted (wrap64 (c - 1)) vi;
      counts ← decr counts (key vi);
      Ok (sorted, counts))
    (make_len zeroA vec) c2) as ([out c3] & -> & ->).
  { intros i v out c Hv. by rewrite (get_Ok _ _ _ Hv). }
  { unfold make_len. by rewrite len_replicate. }
  { done. }
  { done. }
  simpl. by rewrite copy_same_length by (by rewrite length_bucket_sort).
Qed.
End CountingSorts.

Lemma filter_eq_replicate (l : list Z) (d : Z) :
  filter (λ v, v = d) l = replicate (Z.to_nat (count_in (λ v, v) l d)) d.
Proof.
  symmetry. apply replicate_as_Forall. split.
  - unfold count_in, len. by rewrite Nat2Z.id.
  - apply Forall_forall. by intros v [-> _]%list_elem_of_filter.
Qed.

Lemma slice_insert_replicate (l : list Z) (a : Z) (k : nat) (x : Z) (pre : list Z) :
  0 ≤ a → a + Z.of_nat k < len l →
  slice l 0 (a + Z.of_nat k) = pre ++ replicate k x →
  slice (<[Z.to_nat (a + Z.of_nat k):=x]> l) 0 (a + Z.of_nat k + 1)
    = pre ++ replicate (Datatypes.S k) x.
Proof.
  intros Ha Hk Hsl.
  rewrite slice_insert_snoc by lia. rewrite Hsl, <- app_assoc. f_equal.
  change (replicate k x ++ [x]) with (replicate k x ++ replicate 1 x).
  rewrite <- replicate_add. f_equal. lia.
Qed.

Lemma yields_eq {A} (r : result A) (a : A) :
  yields r (λ x, x = a) ↔ r = Ok a.
Proof.
  split; [by intros (x & -> & ->)|intros ->; by apply yields_Ok].
Qed.

Lemma IntegerCountingSort_correct (vec : list Z) (max : Z) :
  1 < len vec < 2 ^ 64 →
  (∀ v, v ∈ vec → 0 ≤ v ≤ max) →
  max + 1 ≤ 2 ^ 45 →
  slices_Max vec = Ok max →
  IntegerCountingSort vec = Ok (bucket_sort (λ v, v) (max + 1) vec).
Proof.
  intros [Hlen1 Hlen2] Hkey Hmax HM. apply yields_eq.
  unfold IntegerCountingSort.
  rewrite bool_decide_false by lia. rewrite HM. simpl.
  assert (0 ≤ max) as Hmax0.
  { destruct vec as [|v vec]; [unfold len in Hlen1; simpl in Hlen1; lia|].
    specialize (Hkey v ltac:(left)). lia. }
  rewrite wrap64_small by lia.
  rewrite make_Ok by (unfold maxInt, maxAlloc, sizeof_uint; lia). simpl.
  cbv zeta. rewrite for_range_for_up.
  set (key := λ v : Z, v).
  assert (∀ v, v ∈ vec → 0 ≤ key v < max + 1) as Hb
    by (intros v ?%Hkey; unfold key; lia).
  assert (∀ v, v ∈ vec → 0 ≤ key v) as Hpos by (intros v ?%Hb; lia).
  assert (0 ≤ max + 1) as Hnb by lia.
  eapply yields_bind.
  { apply (count_loop_correct key (max + 1) vec Hnb Hb Hlen2).
    intros i v c Hv. by rewrite (get_Ok _ _ _ Hv). }
  intros c1 [Hl1 Hc1]. rewrite Hl1.
  eapply (yields_bind _ _ (λ '(vec', _, _), vec' = bucket_sort key (max + 1) vec)).
  { apply (for_up_inv (λ i '(v, c, index),
      len v = len vec ∧ len c = max + 1 ∧ index = below_in key vec i ∧
      slice v 0 index = bucket_sort key i vec ∧
      ∀ d, i ≤ d < max + 1 → idx c d = Some (count_in key vec d))).
    - lia.
    - splits. by rewrite below_in_0.
    - intros i [[v c] index] Hi (Hlv & Hlc & Hindex & Hsl & Hc).
      pose proof (count_in_bounds key vec i) as Hcb.
      pose proof (below_in_bounds key vec i) as Hbb.
      pose proof (below_in_bounds key vec (i + 1)) as Hbb1.
      pose proof (below_in_succ key vec i) as Hsucc.
      cbv beta match.
      apply (while_inv
        (λ '(v, c, index), ∃ k : nat, Z.of_nat k ≤ count_in key vec i ∧
           len v = len vec ∧ len c = max + 1 ∧
           index = below_in key vec i + Z.of_nat k ∧
           slice v 0 index = bucket_sort key i vec ++ replicate k i ∧
           idx c i = Some (count_in key vec i - Z.of_nat k) ∧
           ∀ d, i + 1 ≤ d < max + 1 → idx c d = Some (count_in key vec d))
        _
        (λ '(v, c, index),
           match idx c i with Some x => Z.to_nat x | None => O end)).
      + exists O. simpl. rewrite Z.add_0_r, Z.sub_0_r, app_nil_r.
        splits; [apply Hc; lia|]. intros d Hd. apply Hc. lia.
      + rewrite (Hc i) by lia. unfold len in *. lia.
      + clear v c index Hlv Hlc Hindex Hsl Hc.
        intros [[v c] index] (k & Hk & Hlv & Hlc & Hindex & Hsl & Hci & Hc).
        rewrite (get_Ok _ _ _ Hci). simpl. apply yields_Ok.
        case_bool_decide as Hpos'.
        * apply yields_set_bind; [lia|]. unfold decr.
          rewrite (get_Ok _ _ _ Hci). simpl.
          apply yields_set_bind; [lia|]. apply yields_Ok.
          rewrite idx_insert, bool_decide_true by lia.
          rewrite Hci. split; [|rewrite wrap64_small by lia; lia].
          exists (Datatypes.S k). rewrite !len_insert.
          splits.
          -- subst index. apply slice_insert_replicate; [lia|lia|done].
          -- f_equal. rewrite wrap64_small by lia. lia.
          -- intros d Hd. rewrite idx_insert by lia.
             rewrite bool_decide_false by lia. by apply Hc.
        * assert (Z.of_nat k = count_in key vec i) as Hkeq by lia.
          splits.
          replace (i + 1) with (Z.of_nat (Datatypes.S (Z.to_nat i))) by lia.
          rewrite bucket_sort_succ, Z2Nat.id by lia.
          rewrite Hsl. f_equal.
          unfold key at 2. rewrite filter_eq_replicate. fold key.
          by rewrite <- Hkeq, Nat2Z.id.
    - intros [[v c] index] (Hlv & Hlc & Hindex & Hsl & Hc).
      rewrite below_in_all in Hindex by (intros w ?%Hb; lia).
      rewrite <- Hsl. subst index. rewrite <- Hlv. by rewrite slice_full. }
  intros [[v c] index] ->. by apply yields_Ok.
Qed.

(** * Radix sorts on integers *)

Section RadixPass.
Context {A : Type} (key : A → Z) (zeroA : A).
Implicit Types (vec : list A) (exp : Z).

Local Abbreviation digit := (digit key).
Local Abbreviation lessEfficientPass := (lessEfficientPass key).

Lemma digit_range exp v : 0 ≤ digit exp v < 10.
Proof. unfold digit. apply Z.mod_pos_bound. lia. Qed.

Lemma udiv_Ok a b : b ≠ 0 → udiv a b = Ok (a / b).
Proof. intros Hb. unfold udiv. by rewrite bool_decide_false. Qed.

Lemma radixIntCountSortBy_correct vec exp :
  exp ≠ 0 → len vec < 2 ^ 64 →
  radixIntCountSortBy key zeroA vec exp = Ok (bucket_sort (digit exp) 10 vec).
Proof.
  intros Hexp Hlen. apply yields_eq. unfold radixIntCountSortBy. cbv zeta.
  assert (0 ≤ 10) as Hnb by lia.
  assert (∀ v, v ∈ vec → 0 ≤ digit exp v < 10) as Hb
    by (intros; apply digit_range).
  eapply yields_bind.
  { apply (count_loop_correct (digit exp) 10 vec Hnb Hb Hlen).
    intros i v c Hv. rewrite (get_Ok _ _ _ Hv). simpl.
    by rewrite udiv_Ok by done. }
  intros c1 [Hl1 Hc1].
  eapply yields_bind.
  { by apply (prefix_loop_correct (digit exp) 10 vec Hnb Hb Hlen c1). }
  intros c2 [Hl2 Hc2].
  eapply yields_bind.
  { apply (place_loop_correct (digit exp) 10 vec Hnb Hb Hlen); [|
      unfold make_len; by rewrite len_replicate|done|done].
    intros i v out c Hv. rewrite (get_Ok _ _ _ Hv). simpl.
    by rewrite udiv_Ok by done. }
  intros [out c3] ->. apply yields_Ok.
  rewrite copy_same_length; [done|].
  by rewrite length_bucket_sort.
Qed.

Lemma lessEfficientPass_correct vec divisor :
  divisor ≠ 0 →
  lessEfficientPass vec divisor = Ok (bucket_sort (digit divisor) 10 vec).
Proof.
  intros Hdiv. apply yields_eq. unfold lessEfficientPass. cbv zeta.
  set (bkt := digit divisor).
  assert (∀ v, 0 ≤ bkt v < 10) as Hb by (intros; apply digit_range).
  eapply yields_bind.
  { apply (for_up_inv (λ i ra, len ra = 10 ∧
      ∀ d, 0 ≤ d < 10 →
        idx ra d = Some (filter (λ v, bkt v = d) (slice vec 0 i)))).
    - apply len_nonneg.
    - split; [done|]. intros d Hd. rewrite slice_empty by lia.
      by apply (idx_replicate 10).
    - intros i ra Hi [Hl Hra].
      apply yields_get_bind; [lia|intros v Hv].
      rewrite udiv_Ok by done. simpl.
      change ((key v / divisor) mod NumDigits) with (bkt v).
      rewrite (get_Ok _ _ _ (Hra (bkt v) (Hb v))). simpl.
      apply yields_set; [specialize (Hb v); lia|].
      split; [by rewrite len_insert|]. intros d Hd.
      rewrite idx_insert by (specialize (Hb v); lia).
      rewrite (slice_snoc vec 0 i v) by (done || lia).
      rewrite filter_app, filter_cons, filter_nil.
      case_bool_decide as Hdv.
      + subst d. by rewrite decide_True.
      + rewrite decide_False, app_nil_r by done. by apply Hra.
    - intros ra Hra. rewrite slice_full in Hra. exact Hra. }
  intros ra [Hl Hra]. rewrite Hl.
  eapply (yields_bind _ _ (λ '(v, _, _), v = bucket_sort bkt 10 vec)).
  { apply (for_up_inv (λ i '(v, k, ra'), len v = len vec ∧ len ra' = 10 ∧
      k = below_in bkt vec i ∧ slice v 0 k = bucket_sort bkt i vec ∧
      ∀ d, i ≤ d < 10 → idx ra' d = Some (filter (λ v, bkt v = d) vec))).
    - lia.
    - splits. by rewrite below_in_0 by (intros w _; specialize (Hb w); lia).
    - clear ra Hl Hra. intros i [[v k] ra] Hi (Hlv & Hlra & Hk & Hsl & Hra).
      set (bucket := filter (λ w, bkt w = i) vec).
      assert (len bucket = count_in bkt vec i) as Hlb by done.
      pose proof (below_in_succ bkt vec i) as Hsucc.
      pose proof (below_in_bounds bkt vec (i + 1)) as Hbb1.
      pose proof (below_in_bounds bkt vec i) as Hbb.
      pose proof (count_in_bounds bkt vec i) as Hcb.
      rewrite (get_Ok _ _ _ (Hra i ltac:(lia))). simpl. fold bucket.
      eapply yields_bind.
      { apply (for_up_inv (λ j '(v, k'), len v = len vec ∧ k' = k + j ∧
          slice v 0 k' = bucket_sort bkt i vec ++ slice bucket 0 j)).
        - apply len_nonneg.
        - splits. by rewrite (slice_empty bucket), app_nil_r by lia.
        - intros j [v' k'] Hj (Hlv' & Hk' & Hsl').
          apply yields_get_bind; [lia|intros x Hx].
          apply yields_set_bind; [lia|]. apply yields_Ok.
          rewrite len_insert. splits.
          rewrite slice_insert_snoc by lia.
          rewrite (slice_snoc bucket 0 j x) by (done || lia).
          by rewrite Hsl', <- app_assoc.
        - intros s Hs. exact Hs. }
      intros [v' k'] (Hlv' & Hk' & Hsl').
      apply yields_set_bind; [lia|]. apply yields_Ok.
      rewrite len_insert. splits.
      + rewrite Hsl', slice_full.
        replace (i + 1) with (Z.of_nat (Datatypes.S (Z.to_nat i))) by lia.
        by rewrite bucket_sort_succ, Z2Nat.id by lia.
      + intros d Hd. rewrite idx_insert by lia.
        rewrite bool_decide_false by lia. apply Hra. lia.
    - intros [[v k] ra'] (Hlv & _ & Hk & Hsl & _).
      rewrite below_in_all in Hk by (intros w _; specialize (Hb w); lia).
      rewrite <- Hsl, Hk, <- Hlv. by rewrite slice_full. }
  intros [[v k] ra'] ->. by apply yields_Ok.
Qed.
End RadixPass.

(** * The digit loop of the radix sorts *)

Section WhileFacts.
Context {S : Type}.

Lemma while_unfold fuel (cond : S → result bool) (body : S → result S) s :
  while (Datatypes.S fuel) cond body s =
    (b ← cond s;
     if b : bool then s' ← body s; while fuel cond body s' else Ok s).
Proof. done. Qed.

(** Two loops whose bodies agree on the states they reach agree. *)
Lemma while_ext (Inv : S → Prop) fuel (cond : S → result bool)
    (body1 body2 : S → result S) s :
  Inv s →
  (∀ s, Inv s → cond s = Ok true → body1 s = body2 s) →
  (∀ s s', Inv s → cond s = Ok true → body1 s = Ok s' → Inv s') →
  while fuel cond body1 s = while fuel cond body2 s.
Proof.
  intros Hs Heq Hinv. revert s Hs.
  induction fuel as [|fuel IH]; intros s Hs; [done|].
  rewrite !while_unfold.
  destruct (cond s) as [[]| |] eqn:Hc; simpl; try done.
  rewrite <- (Heq s Hs Hc).
  destruct (body1 s) as [s'| |] eqn:Hb; simpl; try done.
  apply IH. by eapply Hinv.
Qed.

(** What holds of the first state and is kept by the body holds of
    the result. *)
Lemma while_Ok_inv (Inv : S → Prop) fuel (cond : S → result bool)
    (body : S → result S) s r :
  while fuel cond body s = Ok r →
  Inv s →
  (∀ s s', Inv s → cond s = Ok true → body s = Ok s' → Inv s') →
  Inv r.
Proof.
  intros Hrun Hs Hinv. revert s Hs Hrun.
  induction fuel as [|fuel IH]; intros s Hs; [done|].
  rewrite while_unfold.
  destruct (cond s) as [[]| |] eqn:Hc; simpl; try done.
  - destruct (body s) as [s'| |] eqn:Hb; simpl; try done.
    apply IH. by eapply Hinv.
  - by intros [= <-].
Qed.
End WhileFacts.

Lemma pow10_pos (k : nat) : 0 < 10 ^ Z.of_nat k.
Proof. apply Z.pow_pos_nonneg; lia. Qed.

Lemma pow10_succ (k : nat) : 10 ^ Z.of_nat (Datatypes.S k) = 10 ^ Z.of_nat k * 10.
Proof. rewrite Nat2Z.inj_succ, Z.pow_succ_r by lia. lia. Qed.

Lemma pow10_le (j k : nat) : (j ≤ k)%nat → 10 ^ Z.of_nat j ≤ 10 ^ Z.of_nat k.
Proof. intros Hjk. apply Z.pow_le_mono_r; lia. Qed.

(** The next digit of a number, and the order of two numbers by their
    last digits *)
Lemma mod_next_digit (x e : Z) :
  0 < e → x mod (e * 10) = x mod e + e * ((x / e) mod 10).
Proof. intros He. apply Z.rem_mul_r; lia. Qed.

Lemma mod_digit_le (x y e : Z) :
  0 < e →
  (x / e) mod 10 = (y / e) mod 10 → x mod e ≤ y mod e →
  x mod (e * 10) ≤ y mod (e * 10).
Proof. intros He Hd Hr. rewrite !mod_next_digit by done. rewrite Hd. lia. Qed.

Lemma mod_digit_lt (x y e : Z) :
  0 < e →
  (x / e) mod 10 < (y / e) mod 10 →
  x mod (e * 10) ≤ y mod (e * 10).
Proof.
  intros He Hd. rewrite !mod_next_digit by done.
  pose proof (Z.mod_pos_bound x e He). pose proof (Z.mod_pos_bound y e He).
  nia.
Qed.

Section RadixLoop.
Context {A : Type} (key : A → Z) (zeroA : A).
Implicit Types (vec : list A) (exp : Z).

Local Abbreviation digit := (digit key).

(** One pass keeps the elements of each key in their order. *)
Lemma radix_pass_filter vec exp (q : Z) :
  filter (λ v, key v = q) (bucket_sort (digit exp) 10 vec)
    = filter (λ v, key v = q) vec.
Proof.
  apply (bucket_sort_filter _ _ _ _ ((q / exp) mod 10)).
  - intros v <-. done.
  - apply Z.mod_pos_bound. lia.
Qed.

Lemma radix_pass_Permutation vec exp :
  bucket_sort (digit exp) 10 vec ≡ₚ vec.
Proof. apply bucket_sort_Permutation. intros v _. apply digit_range. Qed.

(** A pass on the digit of weight [10^k] of a list that is in order
    for the last [k] digits puts it in order for the last [k + 1]. *)
Lemma radix_pass_sorted vec (k : nat) :
  StronglySorted (λ x y, key x mod 10 ^ Z.of_nat k ≤ key y mod 10 ^ Z.of_nat k) vec →
  StronglySorted
    (λ x y, key x mod 10 ^ Z.of_nat (Datatypes.S k)
              ≤ key y mod 10 ^ Z.of_nat (Datatypes.S k))
    (bucket_sort (digit (10 ^ Z.of_nat k)) 10 vec).
Proof.
  intros Hs. pose proof (pow10_pos k) as Hpos.
  eapply bucket_sort_StronglySorted; [exact Hs| |].
  - intros v w Hd Hr. rewrite pow10_succ. by apply mod_digit_le.
  - intros v w Hd. rewrite pow10_succ. by apply mod_digit_lt.
Qed.

Lemma StronglySorted_True vec : StronglySorted (λ _ _ : A, True) vec.
Proof.
  induction vec as [|v vec IH]; constructor; [done|].
  by apply Forall_forall.
Qed.
End RadixLoop.

Section RadixSorts.
Context {A : Type} (key : A → Z) (zeroA : A).
Implicit Types (vec : list A) (exp : Z).

Local Abbreviation digit := (digit key).

Lemma radix_cond_true (max exp : Z) :
  (q ← udiv max exp; Ok (bool_decide (q > 0))) = Ok true →
  exp ≠ 0 ∧ max / exp > 0.
Proof.
  unfold udiv. case_bool_decide; [done|]. simpl. intros [= Hq].
  by apply bool_decide_eq_true in Hq.
Qed.

(** The two radix sorts return the same result. *)
Lemma radix_sorts_agree vec :
  len vec < 2 ^ 64 →
  IntRadixSortBy key zeroA vec = LessEfficientRadixSortBy key vec.
Proof.
  intros Hlen. unfold IntRadixSortBy, LessEfficientRadixSortBy.
  case_bool_decide; [done|].
  destruct (slices_Max (key <$> vec)) as [max| |]; simpl; try done.
  f_equal.
  apply (while_ext (λ '(v, e), len v = len vec)); [done| |].
  - intros [v e] Hv [He _]%radix_cond_true.
    rewrite radixIntCountSortBy_correct by (done || lia). simpl.
    transitivity (v' ← lessEfficientPass key v e; Ok (v', wrap64 (e * 10))).
    + by rewrite lessEfficientPass_correct.
    + unfold lessEfficientPass. cbv zeta.
      destruct (for_up 0 (len v) _ _) as [ra| |]; simpl; try done.
      by destruct (for_up 0 (len ra) _ _) as [[[v' k] ra']| |].
  - intros [v e] [v' e'] Hv [He _]%radix_cond_true.
    rewrite radixIntCountSortBy_correct by (done || lia). simpl.
    intros [= <- <-]. unfold len in *.
    rewrite length_bucket_sort; [done|]. intros w _. apply digit_range.
Qed.

(** Whatever [IntRadixSort] returns is a stable permutation. *)
Lemma IntRadixSortBy_stable vec out :
  len vec < 2 ^ 64 →
  IntRadixSortBy key zeroA vec = Ok out →
  out ≡ₚ vec ∧ ∀ q, filter (λ v, key v = q) out = filter (λ v, key v = q) vec.
Proof.
  intros Hlen. unfold IntRadixSortBy.
  case_bool_decide; [by intros [= <-]|].
  destruct (slices_Max (key <$> vec)) as [max| |]; simpl; try done.
  destruct (while 65 _ _ _) as [[v e]| |] eqn:Hrun; simpl; try done.
  intros [= <-].
  apply (while_Ok_inv (λ '(v, e), len v = len vec ∧ v ≡ₚ vec ∧
    ∀ q, filter (λ w, key w = q) v = filter (λ w, key w = q) vec)) in Hrun.
  - by destruct Hrun as (_ & ? & ?).
  - done.
  - intros [v1 e1] [v2 e2] (Hl1 & Hp1 & Hf1) [He _]%radix_cond_true.
    rewrite radixIntCountSortBy_correct by (done || lia). simpl.
    intros [= <- <-]. split; [|split].
    + unfold len in *. rewrite length_bucket_sort; [done|].
      intros w _. apply digit_range.
    + by rewrite radix_pass_Permutation.
    + intros q. by rewrite radix_pass_filter.
Qed.

(** The digit loop, from the weight [10^k] on, on keys below
    [10^19]. *)
Lemma radix_loop_correct vec (max : Z) (j : nat) : ∀ (k : nat) v fuel,
  (∀ w, w ∈ vec → 0 ≤ key w ≤ max) → max < 10 ^ 19 →
  len vec < 2 ^ 64 →
  (k + j = 19)%nat → (j < fuel)%nat →
  len v = len vec → v ≡ₚ vec →
  (∀ q, filter (λ w, key w = q) v = filter (λ w, key w = q) vec) →
  StronglySorted (λ x y, key x mod 10 ^ Z.of_nat k ≤ key y mod 10 ^ Z.of_nat k) v →
  yields (while fuel
      (λ '(vec, exp), q ← udiv max exp; Ok (bool_decide (q > 0)))
      (λ '(vec, exp),
        vec ← radixIntCountSortBy key zeroA vec exp;
        Ok (vec, wrap64 (exp * 10))) (v, 10 ^ Z.of_nat k))
    (λ '(out, _), out ≡ₚ vec ∧
       (∀ q, filter (λ w, key w = q) out = filter (λ w, key w = q) vec) ∧
       StronglySorted (λ x y, key x ≤ key y) out).
Proof.
  induction j as [|j IH]; intros k v fuel Hkey Hmax Hlen Hkj Hfuel Hlv Hp Hf Hs;
    (destruct fuel as [|fuel]; [lia|]); rewrite while_unfold;
    pose proof (pow10_pos k) as Hpos;
    rewrite udiv_Ok by lia; simpl.
  - assert (k = 19%nat) as -> by lia.
    assert (max / 10 ^ Z.of_nat 19 ≤ 0) as Hq.
    { destruct (decide (0 ≤ max)); [rewrite Z.div_small; lia|].
      apply Z.div_le_upper_bound; lia. }
    rewrite bool_decide_false by lia. apply yields_Ok.
    split; [done|]. split; [done|].
    eapply StronglySorted_impl_elem_of; [exact Hs|].
    intros x y Hx Hy. rewrite Hp in Hx, Hy.
    apply Hkey in Hx, Hy. rewrite !Z.mod_small; lia.
  - case_bool_decide as Hq.
    + rewrite radixIntCountSortBy_correct by lia. simpl.
      assert (wrap64 (10 ^ Z.of_nat k * 10) = 10 ^ Z.of_nat (Datatypes.S k)) as ->.
      { rewrite pow10_succ. apply wrap64_small.
        pose proof (pow10_le (Datatypes.S k) 19 ltac:(lia)) as Hle.
        rewrite pow10_succ in Hle. change (Z.of_nat 19) with 19 in Hle. lia. }
      apply IH; try done; try lia.
      * unfold len in *. rewrite length_bucket_sort; [done|].
        intros w _. apply digit_range.
      * by rewrite radix_pass_Permutation.
      * intros q. by rewrite radix_pass_filter.
      * by apply radix_pass_sorted.
    + apply yields_Ok. split; [done|]. split; [done|].
      eapply StronglySorted_impl_elem_of; [exact Hs|].
      intros x y Hx Hy. rewrite Hp in Hx, Hy.
      apply Hkey in Hx, Hy.
      assert (max < 10 ^ Z.of_nat k) as Hlt.
      { destruct (decide (max < 10 ^ Z.of_nat k)) as [|Hge]; [done|].
        assert (1 ≤ max / 10 ^ Z.of_nat k); [|lia].
        apply Z.div_le_lower_bound; lia. }
      rewrite !Z.mod_small; lia.
Qed.

(** [IntRadixSort] sorts slices of keys below [10^19]: the weight of
    the digit does not wrap. *)
Lemma IntRadixSortBy_correct vec :
  len vec < 2 ^ 64 →
  (∀ w, w ∈ vec → 0 ≤ key w < 10 ^ 19) →
  yields (IntRadixSortBy key zeroA vec) (λ out, out ≡ₚ vec ∧
    (∀ q, filter (λ w, key w = q) out = filter (λ w, key w = q) vec) ∧
    StronglySorted (λ x y, key x ≤ key y) out).
Proof.
  intros Hlen Hkey. unfold IntRadixSortBy. case_bool_decide as Hshort.
  { apply yields_Ok. split; [done|]. split; [done|].
    destruct vec as [|x [|y vec]]; [constructor| |unfold len in Hshort; simpl in Hshort; lia].
    repeat constructor. }
  destruct (slices_Max_correct (key <$> vec)) as (max & -> & Hin & Hmax).
  { destruct vec; [unfold len in Hshort; simpl in Hshort; lia|done]. }
  simpl.
  apply list_elem_of_fmap in Hin as (wm & -> & Hwm).
  eapply yields_bind.
  { apply (radix_loop_correct vec (key wm) 19 0 vec 65); try done; try lia.
    - intros w Hw. split; [apply Hkey in Hw; lia|].
      apply Hmax. apply list_elem_of_fmap. eauto.
    - apply Hkey in Hwm. lia.
    - simpl. eapply StronglySorted_impl_elem_of; [apply StronglySorted_True|].
      intros x y _ _ _. rewrite !Z.mod_1_r. lia. }
  intros [out e] Hout. by apply yields_Ok.
Qed.
End RadixSorts.

(** * The integer sorts as sorts by key *)

Section KeyedSorts.
Context {A : Type} (key : A → Z) (zeroA : A).
Implicit Types (vec out : list A).

Lemma keyed_TotalOrder : @TotalOrder A (keyed_Ordered key zeroA).
Proof.
  split; simpl.
  - intros x y. destruct (Z.leb_spec (key x) (key y)); [by left|right].
    apply Z.leb_le. lia.
  - intros x y z ?%Z.leb_le ?%Z.leb_le. apply Z.leb_le. lia.
  - intros x y. destruct (Z.ltb_spec (key x) (key y)), (Z.leb_spec (key y) (key x));
      simpl; (done || lia).
  - intros x y. by rewrite Z.gtb_ltb.
Qed.

Lemma sorted_by_key_refl vec : len vec ≤ 1 → sorted_by_key key vec vec.
Proof.
  intros Hlen. split; [done|]. split; [done|].
  destruct vec as [|x [|y vec]]; [constructor|repeat constructor|].
  unfold len in Hlen. simpl in Hlen. lia.
Qed.

(** Sorted by key is sorted and stable for the order of the keys. *)
Lemma sorted_by_key_sorted vec out :
  sorted_by_key key vec out →
  out ≡ₚ vec ∧ @sorted A (keyed_Ordered key zeroA) out
  ∧ @stable A (keyed_Ordered key zeroA) vec out.
Proof.
  intros (Hp & Hf & Hs). split; [done|]. split.
  - apply (proj1 (@StronglySorted_sorted A (keyed_Ordered key zeroA) out)).
    eapply StronglySorted_impl_elem_of; [exact Hs|].
    intros x y _ _ Hxy. by apply Z.leb_le.
  - intros x. specialize (Hf (key x)).
    rewrite (list_filter_iff _ (λ v, key v = key x) out),
      (list_filter_iff _ (λ v, key v = key x) vec); [done| |];
      intros v; unfold equivb; simpl;
      rewrite andb_True, !Is_true_true, !Z.leb_le; lia.
Qed.

Lemma bucket_sort_by_key vec nb :
  (∀ v, v ∈ vec → 0 ≤ key v < nb) →
  sorted_by_key key vec (bucket_sort key nb vec).
Proof.
  intros Hkey. split; [by apply bucket_sort_Permutation|]. split.
  - intros q. destruct (decide (0 ≤ q < nb)) as [Hq|Hq].
    + apply (bucket_sort_filter _ _ _ _ q); [by intros v <-|done].
    + rewrite !filter_none; [done| |].
      * intros v Hv Heq. subst q. by apply Hq, Hkey.
      * intros v [Hv _]%elem_of_bucket_sort Heq. subst q. by apply Hq, Hkey.
  - eapply (bucket_sort_StronglySorted _ (λ _ _, True)).
    + apply StronglySorted_True.
    + intros v w Hvw _. lia.
    + intros v w Hvw. lia.
Qed.

Lemma keys_max vec max :
  1 < len vec → slices_Max (key <$> vec) = Ok max →
  ∀ v, v ∈ vec → key v ≤ max.
Proof.
  intros Hlen HM v Hv.
  destruct (slices_Max_correct (key <$> vec)) as (m & Hm & _ & Hmax).
  { destruct vec; [by apply elem_of_nil in Hv|done]. }
  assert (m = max) as -> by congruence.
  apply Hmax, list_elem_of_fmap. eauto.
Qed.

Lemma keys_max_elem vec :
  1 < len vec →
  ∃ w, w ∈ vec ∧ slices_Max (key <$> vec) = Ok (key w).
Proof.
  intros Hlen.
  destruct (slices_Max_correct (key <$> vec)) as (m & Hm & Hin & _).
  { destruct vec; [unfold len in Hlen; simpl in Hlen; lia|done]. }
  apply list_elem_of_fmap in Hin as (w & -> & Hw). eauto.
Qed.

(** [GeneralCountingSort] sorts by key, stably, when the keys are
    [uint]s below [2^45]. *)
Lemma GeneralCountingSortBy_sorts vec :
  len vec < 2 ^ 64 →
  (∀ v, v ∈ vec → 0 ≤ key v < 2 ^ 45) →
  yields (GeneralCountingSortBy key zeroA vec) (sorted_by_key key vec).
Proof.
  intros Hlen Hkey. destruct (decide (len vec ≤ 1)) as [Hshort|Hlong].
  { unfold GeneralCountingSortBy. rewrite bool_decide_true by done.
    apply yields_Ok. by apply sorted_by_key_refl. }
  destruct (keys_max_elem vec) as (w & Hw & HM); [lia|].
  pose proof (keys_max vec _ ltac:(lia) HM) as Hmax.
  rewrite (GeneralCountingSortBy_correct key zeroA vec (key w)).
  - apply yields_Ok. apply bucket_sort_by_key.
    intros v Hv. specialize (Hmax v Hv). apply Hkey in Hv. lia.
  - lia.
  - intros v Hv. specialize (Hmax v Hv). apply Hkey in Hv. lia.
  - apply Hkey in Hw. lia.
  - done.
Qed.

(** [IntRadixSort] sorts by key, stably, when the keys are [uint]s
    below [10^19]. *)
Lemma IntRadixSortBy_sorts vec :
  len vec < 2 ^ 64 →
  (∀ v, v ∈ vec → 0 ≤ key v < 10 ^ 19) →
  yields (IntRadixSortBy key zeroA vec) (sorted_by_key key vec).
Proof. apply IntRadixSortBy_correct. Qed.

Lemma LessEfficientRadixSortBy_sorts vec :
  len vec < 2 ^ 64 →
  (∀ v, v ∈ vec → 0 ≤ key v < 10 ^ 19) →
  yields (LessEfficientRadixSortBy key vec) (sorted_by_key key vec).
Proof.
  intros Hlen Hkey. rewrite <- (radix_sorts_agree key zeroA) by done.
  by apply IntRadixSortBy_correct.
Qed.

(** The digit loop makes at most 65 tests of its condition: [exp] is
    [10^j mod 2^64] at the test number [j], which is [0] at [j = 64],
    where the test panics. *)
Lemma radix_loop_halts vec (max : Z) (fuel : nat) : ∀ (j : nat) v,
  len vec < 2 ^ 64 → len v = len vec → (fuel + j = 64)%nat →
  while (Datatypes.S fuel)
    (λ '(vec, exp), q ← udiv max exp; Ok (bool_decide (q > 0)))
    (λ '(vec, exp),
      vec ← radixIntCountSortBy key zeroA vec exp;
      Ok (vec, wrap64 (exp * 10))) (v, wrap64 (10 ^ Z.of_nat j)) ≠ OutOfFuel.
Proof.
  induction fuel as [|fuel IH]; intros j v Hlen Hv Hj; rewrite while_unfold.
  - assert (j = 64%nat) as -> by lia.
    replace (wrap64 (10 ^ Z.of_nat 64)) with 0 by (vm_compute; reflexivity).
    unfold udiv. simpl. discriminate.
  - destruct (decide (wrap64 (10 ^ Z.of_nat j) = 0)) as [He|He].
    { unfold udiv. rewrite bool_decide_true by done. simpl. discriminate. }
    rewrite udiv_Ok by done. simpl.
    destruct (bool_decide _); [|done].
    rewrite radixIntCountSortBy_correct by (done || lia). simpl.
    replace (wrap64 (wrap64 (10 ^ Z.of_nat j) * 10))
      with (wrap64 (10 ^ Z.of_nat (Datatypes.S j))).
    + apply IH; [done| |lia]. unfold len in *.
      rewrite length_bucket_sort; [done|]. intros w _. apply digit_range.
    + unfold wrap64. rewrite Z.mul_mod_idemp_l by lia.
      by rewrite pow10_succ.
Qed.

Lemma IntRadixSortBy_halts vec :
  len vec < 2 ^ 64 → IntRadixSortBy key zeroA vec ≠ OutOfFuel.
Proof.
  intros Hlen. unfold IntRadixSortBy. case_bool_decide; [done|].
  destruct (slices_Max (key <$> vec)) as [max| |] eqn:HM; simpl; try done.
  2: { by destruct vec. }
  pose proof (radix_loop_halts vec max 64 0 vec Hlen eq_refl eq_refl) as Hh.
  change (wrap64 (10 ^ Z.of_nat 0)) with 1 in Hh.
  by destruct (while 65 _ _ _) as [[v e]| |].
Qed.
End KeyedSorts.

(** [IntegerCountingSort] gives what [GeneralCountingSort] gives. *)
Lemma IntegerCountingSort_sorts (vec : list Z) :
  len vec < 2 ^ 64 →
  (∀ v, v ∈ vec → 0 ≤ v < 2 ^ 45) →
  yields (IntegerCountingSort vec) (sorted_by_key (λ v, v) vec).
Proof.
  intros Hlen Hkey. destruct (decide (len vec ≤ 1)) as [Hshort|Hlong].
  { unfold IntegerCountingSort. rewrite bool_decide_true by done.
    apply yields_Ok. by apply sorted_by_key_refl. }
  destruct (keys_max_elem (λ v, v) vec) as (w & Hw & HM); [lia|].
  pose proof (keys_max (λ v, v) vec _ ltac:(lia) HM) as Hmax.
  rewrite list_fmap_id in HM.
  rewrite (IntegerCountingSort_correct vec w).
  - apply yields_Ok. apply bucket_sort_by_key.
    intros v Hv. specialize (Hmax v Hv). apply Hkey in Hv. simpl in *. lia.
  - lia.
  - intros v Hv. specialize (Hmax v Hv). apply Hkey in Hv. simpl in *. lia.
  - apply Hkey in Hw. simpl in *. lia.
  - done.
Qed.

(** * String radix sort *)

(** ** The order of strings *)

Lemma byte_val_range (c : Byte.byte) : 0 ≤ byte_val c < 256.
Proof.
  unfold byte_val. pose proof (Byte.to_N_bounded c) as Hc. lia.
Qed.

Lemma byte_val_inj (a b : Byte.byte) : byte_val a = byte_val b → a = b.
Proof.
  unfold byte_val. intros Hab. apply N2Z.inj in Hab.
  apply (f_equal Byte.of_N) in Hab. rewrite !Byte.of_to_N in Hab.
  congruence.
Qed.

Lemma string_leb_refl (s : gostring) : string_leb s s = true.
Proof.
  induction s as [|a s IH]; [done|]. simpl.
  rewrite Z.ltb_irrefl, Z.eqb_refl. done.
Qed.

Lemma string_leb_cons (a b : Byte.byte) (s t : gostring) :
  string_leb (a :: s) (b :: t) = true ↔
  byte_val a < byte_val b ∨ (a = b ∧ string_leb s t = true).
Proof.
  simpl. destruct (Z.ltb_spec (byte_val a) (byte_val b)).
  { split; [by left|done]. }
  destruct (Z.eqb_spec (byte_val a) (byte_val b)) as [Heq|Hne].
  - apply byte_val_inj in Heq as ->. split; [by right|].
    intros [?|[_ ?]]; [lia|done].
  - split; [done|]. intros [?|[-> _]]; [lia|done].
Qed.

Lemma string_leb_total (s t : gostring) :
  string_leb s t = true ∨ string_leb t s = true.
Proof.
  revert t. induction s as [|a s IH]; intros [|b t]; [by left..|by right|].
  rewrite !string_leb_cons.
  destruct (Z.lt_trichotomy (byte_val a) (byte_val b)) as [?|[Heq|?]];
    [left; by left| |right; by left].
  apply byte_val_inj in Heq as ->. destruct (IH t); [left|right]; by right.
Qed.

Lemma string_leb_trans (s t u : gostring) :
  string_leb s t = true → string_leb t u = true → string_leb s u = true.
Proof.
  revert t u. induction s as [|a s IH]; intros [|b t] [|c u]; try done.
  rewrite !string_leb_cons.
  intros [?|[-> ?]] [?|[-> ?]]; [left; lia|by left|by left|].
  right. split; [done|]. by eapply IH.
Qed.

Lemma string_leb_antisym (s t : gostring) :
  string_leb s t = true → string_leb t s = true → s = t.
Proof.
  revert t. induction s as [|a s IH]; intros [|b t]; try done.
  rewrite !string_leb_cons.
  intros [?|[-> ?]] [?|[? ?]]; [lia|subst; lia|lia|].
  f_equal. by apply IH.
Qed.

(** A string is before each of its extensions. *)
Lemma string_leb_prefix (s t : gostring) : string_leb s (s ++ t) = true.
Proof.
  induction s as [|a s IH]; [done|]. simpl.
  by rewrite Z.ltb_irrefl, Z.eqb_refl.
Qed.

Section StringKeys.
Context {A : Type} (key : A → gostring) (zeroA : A).
Implicit Types (vec out : list A).

Lemma string_keyed_TotalOrder : @TotalOrder A (string_keyed_Ordered key zeroA).
Proof.
  split; simpl.
  - intros x y. apply string_leb_total.
  - intros x y z. apply string_leb_trans.
  - done.
  - done.
Qed.

Lemma sorted_by_string_refl vec : len vec ≤ 1 → sorted_by_string key vec vec.
Proof.
  intros Hlen. split; [done|]. split; [done|].
  destruct vec as [|x [|y vec]]; [constructor|repeat constructor|].
  unfold len in Hlen. simpl in Hlen. lia.
Qed.

(** Sorted by string key is sorted and stable for the order of the
    keys. *)
Lemma sorted_by_string_sorted vec out :
  sorted_by_string key vec out →
  out ≡ₚ vec ∧ @sorted A (string_keyed_Ordered key zeroA) out
  ∧ @stable A (string_keyed_Ordered key zeroA) vec out.
Proof.
  intros (Hp & Hf & Hs). split; [done|]. split.
  - by apply (proj1 (@StronglySorted_sorted A (string_keyed_Ordered key zeroA) out)).
  - intros x. specialize (Hf (key x)).
    rewrite (list_filter_iff _ (λ v, key v = key x) out),
      (list_filter_iff _ (λ v, key v = key x) vec); [done| |];
      intros v; unfold equivb; simpl;
      rewrite andb_True, !Is_true_true;
      (split; [intros [? ?]; by apply string_leb_antisym|
               intros ->; by rewrite string_leb_refl]).
Qed.
End StringKeys.

(** ** Loops that panic *)

Section Panics.
Context {S : Type}.

(** A loop panics when one of its iterations does, whatever the
    iterations before it do short of running out of fuel. *)
Lemma for_up_from_panic (Inv : S → Prop) (p : panic)
    (body : Z → S → result S) n lo s k :
  Inv s →
  (∀ j s, lo ≤ j < lo + Z.of_nat n → Inv s →
     body j s = Panic p ∨ ∃ s', body j s = Ok s' ∧ Inv s') →
  lo ≤ k < lo + Z.of_nat n →
  (∀ s, Inv s → body k s = Panic p) →
  for_up_from n lo body s = Panic p.
Proof.
  intros Hs Hbody Hk Hpanic. revert lo s Hs Hk Hbody.
  induction n as [|n IH]; intros lo s Hs Hk Hbody; [lia|]. simpl.
  destruct (Hbody lo s ltac:(lia) Hs) as [->|(s' & Hok & Hs')]; [done|].
  rewrite Hok. simpl.
  destruct (decide (k = lo)) as [->|Hne].
  - rewrite Hpanic in Hok by done. done.
  - apply IH; [done|lia|]. intros j s0 Hj. apply Hbody. lia.
Qed.

Lemma for_up_panic (Inv : S → Prop) (p : panic)
    (body : Z → S → result S) lo hi s k :
  Inv s →
  (∀ j s, lo ≤ j < hi → Inv s →
     body j s = Panic p ∨ ∃ s', body j s = Ok s' ∧ Inv s') →
  lo ≤ k < hi →
  (∀ s, Inv s → body k s = Panic p) →
  for_up lo hi body s = Panic p.
Proof.
  intros Hs Hbody Hk Hpanic. unfold for_up.
  eapply for_up_from_panic; [done| | |done]; [|lia].
  intros j s0 Hj. apply Hbody. lia.
Qed.

Lemma for_down_from_panic (Inv : S → Prop) (p : panic)
    (body : Z → S → result S) n hi s k :
  Inv s →
  (∀ j s, hi - Z.of_nat n < j ≤ hi → Inv s →
     body j s = Panic p ∨ ∃ s', body j s = Ok s' ∧ Inv s') →
  hi - Z.of_nat n < k ≤ hi →
  (∀ s, Inv s → body k s = Panic p) →
  for_down_from n hi body s = Panic p.
Proof.
  intros Hs Hbody Hk Hpanic. revert hi s Hs Hk Hbody.
  induction n as [|n IH]; intros hi s Hs Hk Hbody; [lia|]. simpl.
  destruct (Hbody hi s ltac:(lia) Hs) as [->|(s' & Hok & Hs')]; [done|].
  rewrite Hok. simpl.
  destruct (decide (k = hi)) as [->|Hne].
  - rewrite Hpanic in Hok by done. done.
  - apply IH; [done|lia|]. intros j s0 Hj. apply Hbody. lia.
Qed.

Lemma for_down_panic (Inv : S → Prop) (p : panic)
    (body : Z → S → result S) hi lo s k :
  Inv s →
  (∀ j s, lo ≤ j ≤ hi → Inv s →
     body j s = Panic p ∨ ∃ s', body j s = Ok s' ∧ Inv s') →
  lo ≤ k ≤ hi →
  (∀ s, Inv s → body k s = Panic p) →
  for_down hi lo body s = Panic p.
Proof.
  intros Hs Hbody Hk Hpanic. unfold for_down.
  eapply for_down_from_panic; [done| | |done]; [|lia].
  intros j s0 Hj. apply Hbody. lia.
Qed.
End Panics.

(** ** One pass of the string radix sort *)

Lemma drop_idx_Some {B} (s : list B) (i : Z) (c : B) :
  idx s i = Some c →
  drop (Z.to_nat i) s = c :: drop (Z.to_nat (i + 1)) s.
Proof.
  intros Hc. pose proof (idx_Some _ _ _ Hc) as Hi.
  rewrite idx_lookup in Hc by lia.
  replace (Z.to_nat (i + 1)) with (Datatypes.S (Z.to_nat i)) by lia.
  by apply drop_S.
Qed.

Lemma drop_idx_None {B} (s : list B) (i : Z) :
  0 ≤ i → idx s i = None → drop (Z.to_nat i) s = [].
Proof.
  intros Hi Hc. rewrite idx_lookup in Hc by done.
  apply lookup_ge_None in Hc. by apply drop_ge.
Qed.

Lemma sbkt_range i (s : gostring) : 0 ≤ sbkt i s < 256.
Proof.
  unfold sbkt. destruct (idx s i); [|lia].
  unfold wrap8. apply Z.mod_pos_bound. lia.
Qed.

Lemma sbkt_Some i (s : gostring) c :
  idx s i = Some c → byte_val c < 128 → sbkt i s = byte_val c + 1.
Proof.
  intros Hc Hlt. unfold sbkt. rewrite Hc. unfold wrap8.
  pose proof (byte_val_range c). apply Z.mod_small. lia.
Qed.

Lemma sbkt_ascii i (s : gostring) : is_ascii s → 0 ≤ sbkt i s < 129.
Proof.
  intros Hs. destruct (idx s i) as [c|] eqn:Hc.
  - pose proof (Hs c (idx_elem_of _ _ _ Hc)) as Hlt.
    rewrite (sbkt_Some i s c) by done. pose proof (byte_val_range c). lia.
  - unfold sbkt. rewrite Hc. lia.
Qed.

Lemma bucketOf_Ok (i : Z) (s : gostring) :
  0 ≤ i → bucketOf i s = Ok (sbkt i s).
Proof.
  intros Hi. unfold bucketOf, sbkt. case_bool_decide.
  - destruct (idx_is_Some s i) as [c Hc]; [lia|].
    by rewrite (get_Ok _ _ _ Hc), Hc.
  - by rewrite idx_None by lia.
Qed.

Section StringPass.
Context {A : Type} (key : A → gostring) (zeroA : A).
Implicit Types (vec : list A).

(** A pass puts the elements into the 129 buckets, when the bucket of
    each element is one of them. *)
Lemma radixStringCountSortBy_correct vec i :
  0 ≤ i → len vec < 2 ^ 64 →
  (∀ v, v ∈ vec → sbkt i (key v) < 129) →
  radixStringCountSortBy key zeroA vec i
    = Ok (bucket_sort (λ v, sbkt i (key v)) 129 vec).
Proof.
  intros Hi Hlen Hbkt. apply yields_eq.
  unfold radixStringCountSortBy. cbv zeta.
  assert (0 ≤ 129) as Hnb by lia.
  assert (∀ v, v ∈ vec → 0 ≤ sbkt i (key v) < 129) as Hb.
  { intros v Hv. pose proof (sbkt_range i (key v)). specialize (Hbkt v Hv). lia. }
  eapply yields_bind.
  { apply (count_loop_correct (λ v, sbkt i (key v)) 129 vec Hnb Hb Hlen).
    intros k v c Hv. rewrite (get_Ok _ _ _ Hv). simpl.
    by rewrite bucketOf_Ok by done. }
  intros c1 [Hl1 Hc1]. rewrite Hl1.
  eapply yields_bind.
  { by apply (prefix_loop_correct (λ v, sbkt i (key v)) 129 vec Hnb Hb Hlen c1). }
  intros c2 [Hl2 Hc2].
  eapply yields_bind.
  { apply (place_loop_correct (λ v, sbkt i (key v)) 129 vec Hnb Hb Hlen); [|
      unfold make_len; by rewrite len_replicate|done|done].
    intros k v out c Hv. rewrite (get_Ok _ _ _ Hv). simpl.
    by rewrite bucketOf_Ok by done. }
  intros [out c3] ->. apply yields_Ok.
  rewrite copy_same_length; [done|].
  by rewrite length_bucket_sort.
Qed.

(** A pass panics when the bucket of an element is none of the 129. *)
Lemma radixStringCountSortBy_panic vec i w :
  0 ≤ i → w ∈ vec → 129 ≤ sbkt i (key w) →
  radixStringCountSortBy key zeroA vec i = Panic IndexOutOfRange.
Proof.
  intros Hi Hw Hbig. unfold radixStringCountSortBy. cbv zeta.
  destruct (elem_of_idx _ _ Hw) as [k Hk].
  rewrite (for_up_panic (λ c, len c = 129) IndexOutOfRange _ 0 (len vec) _ k).
  - done.
  - done.
  - intros j c _ Hc. destruct (idx vec j) as [v|] eqn:Hv.
    + rewrite (get_Ok _ _ _ Hv). simpl. rewrite bucketOf_Ok by done. simpl.
      unfold incr. pose proof (sbkt_range i (key v)) as Hr.
      destruct (decide (sbkt i (key v) < 129)) as [Hlt|Hge].
      * right. destruct (idx_is_Some c (sbkt i (key v))) as [n Hn]; [lia|].
        rewrite (get_Ok _ _ _ Hn). simpl. rewrite set_Ok by lia.
        eexists. split; [done|]. by rewrite len_insert.
      * left. by rewrite get_Panic by lia.
    + left. unfold get. by rewrite Hv.
  - by apply idx_Some in Hk.
  - intros c Hc. rewrite (get_Ok _ _ _ Hk). simpl.
    rewrite bucketOf_Ok by done. simpl. unfold incr.
    by rewrite get_Panic by lia.
Qed.
End StringPass.

(** ** The passes from the last position to the first *)

Section StringRadixSort.
Context {A : Type} (key : A → gostring) (zeroA : A).
Implicit Types (vec : list A).

(** The order of the strings from position [p] on *)
Local Abbreviation suffix_le p := (λ x y : A,
  string_leb (drop (Z.to_nat p) (key x)) (drop (Z.to_nat p) (key y)) = true).

Lemma maxLen_loop vec v0 :
  idx vec 0 = Some v0 →
  yields (for_up 1 (len vec) (λ i maxLen,
      vi ← get vec i;
      Ok (if bool_decide (len (key vi) > maxLen) then len (key vi)
          else maxLen)) (len (key v0)))
    (λ m, 0 ≤ m ∧ ∀ w, w ∈ vec → len (key w) ≤ m).
Proof.
  intros H0. pose proof (idx_Some _ _ _ H0) as Hlen.
  apply (for_up_inv (λ i m, 0 ≤ m ∧
    ∀ k w, 0 ≤ k < i → idx vec k = Some w → len (key w) ≤ m)).
  - lia.
  - split; [apply len_nonneg|]. intros k w Hk Hw.
    assert (k = 0) as -> by lia. assert (w = v0) as -> by congruence. lia.
  - intros i m Hi [Hm Hinv]. apply yields_get_bind; [lia|].
    intros x Hx. apply yields_Ok. split; [case_bool_decide; lia|].
    intros k w Hk Hw. destruct (decide (k = i)) as [->|Hne].
    + assert (w = x) as -> by congruence. case_bool_decide; lia.
    + pose proof (Hinv k w ltac:(lia) Hw). case_bool_decide; lia.
  - intros m [Hm Hinv]. split; [done|]. intros w [k Hk]%elem_of_idx.
    apply (Hinv k); [|done]. by apply idx_Some in Hk.
Qed.

(** A pass over position [i] of a list in order from position [i + 1]
    on puts it in order from position [i] on. *)
Lemma string_pass_sorted (v : list A) i :
  0 ≤ i →
  (∀ w, w ∈ v → is_ascii (key w)) →
  StronglySorted (suffix_le (i + 1)) v →
  StronglySorted (suffix_le i) (bucket_sort (λ w, sbkt i (key w)) 129 v).
Proof.
  intros Hi Hascii Hs.
  apply (StronglySorted_impl_elem_of
    (λ x y, is_ascii (key x) → is_ascii (key y) → suffix_le i x y)).
  2: { intros x y [Hx _]%elem_of_bucket_sort [Hy _]%elem_of_bucket_sort Hxy.
       apply Hxy; by apply Hascii. }
  eapply bucket_sort_StronglySorted; [exact Hs| |].
  - intros x y Hb Hxy Hx Hy.
    destruct (idx (key x) i) as [c|] eqn:Hc, (idx (key y) i) as [d|] eqn:Hd.
    + pose proof (Hx c (idx_elem_of _ _ _ Hc)).
      pose proof (Hy d (idx_elem_of _ _ _ Hd)).
      rewrite (sbkt_Some i _ c), (sbkt_Some i _ d) in Hb by done.
      assert (c = d) as -> by (apply byte_val_inj; lia).
      rewrite (drop_idx_Some _ _ _ Hc), (drop_idx_Some _ _ _ Hd).
      apply string_leb_cons. by right.
    + pose proof (Hx c (idx_elem_of _ _ _ Hc)).
      rewrite (sbkt_Some i _ c) in Hb by done. unfold sbkt in Hb.
      rewrite Hd in Hb. pose proof (byte_val_range c). lia.
    + by rewrite (drop_idx_None _ _ Hi Hc).
    + by rewrite (drop_idx_None _ _ Hi Hc).
  - intros x y Hb Hx Hy.
    destruct (idx (key x) i) as [c|] eqn:Hc, (idx (key y) i) as [d|] eqn:Hd.
    + pose proof (Hx c (idx_elem_of _ _ _ Hc)).
      pose proof (Hy d (idx_elem_of _ _ _ Hd)).
      rewrite (sbkt_Some i _ c), (sbkt_Some i _ d) in Hb by done.
      rewrite (drop_idx_Some _ _ _ Hc), (drop_idx_Some _ _ _ Hd).
      apply string_leb_cons. left. lia.
    + pose proof (Hx c (idx_elem_of _ _ _ Hc)).
      rewrite (sbkt_Some i _ c) in Hb by done. unfold sbkt in Hb.
      rewrite Hd in Hb. pose proof (byte_val_range c). lia.
    + by rewrite (drop_idx_None _ _ Hi Hc).
    + by rewrite (drop_idx_None _ _ Hi Hc).
Qed.

Lemma string_pass_filter (v : list A) i (q : gostring) :
  (∀ w, w ∈ v → is_ascii (key w)) →
  filter (λ w, key w = q) (bucket_sort (λ w, sbkt i (key w)) 129 v)
    = filter (λ w, key w = q) v.
Proof.
  intros Hascii. pose proof (sbkt_range i q) as Hr.
  destruct (decide (sbkt i q < 129)) as [Hq|Hq].
  - apply (bucket_sort_filter _ _ _ _ (sbkt i q)); [by intros w <-|lia].
  - rewrite !filter_none; [done| |].
    + intros w Hw Heq. subst q.
      pose proof (sbkt_ascii i (key w) (Hascii w Hw)). lia.
    + intros w [Hw _]%elem_of_bucket_sort Heq. subst q.
      pose proof (sbkt_ascii i (key w) (Hascii w Hw)). lia.
Qed.

(** [StringRadixSort] sorts ASCII strings, stably. *)
Lemma StringRadixSortBy_sorts vec :
  len vec < 2 ^ 64 →
  (∀ w, w ∈ vec → is_ascii (key w)) →
  yields (StringRadixSortBy key zeroA vec) (sorted_by_string key vec).
Proof.
  intros Hlen Hascii. unfold StringRadixSortBy.
  case_bool_decide as Hshort.
  { apply yields_Ok. by apply sorted_by_string_refl. }
  apply yields_get_bind; [lia|]. intros v0 Hv0. cbv zeta.
  eapply yields_bind; [by apply maxLen_loop|].
  intros m [Hm Hmax].
  apply (for_down_inv (λ i v, v ≡ₚ vec ∧
    (∀ q, filter (λ w, key w = q) v = filter (λ w, key w = q) vec) ∧
    StronglySorted (suffix_le (i + 1)) v)).
  - lia.
  - split; [done|]. split; [done|].
    eapply StronglySorted_impl_elem_of; [apply StronglySorted_True|].
    intros x y Hx Hy _. simpl.
    rewrite drop_ge; [done|]. specialize (Hmax x Hx). unfold len in Hmax. lia.
  - intros i v Hi (Hp & Hf & Hs).
    assert (∀ w, w ∈ v → is_ascii (key w)) as Hav.
    { intros w Hw. apply Hascii. by rewrite <- Hp. }
    rewrite radixStringCountSortBy_correct.
    + apply yields_Ok. split; [|split].
      * rewrite bucket_sort_Permutation; [done|].
        intros w Hw. apply sbkt_ascii. by apply Hav.
      * intros q. rewrite string_pass_filter by done. apply Hf.
      * replace (i - 1 + 1) with i by lia. apply string_pass_sorted; [lia|done|done].
    + lia.
    + unfold len in *. by rewrite Hp.
    + intros w Hw. pose proof (sbkt_ascii i (key w) (Hav w Hw)). lia.
  - intros v (Hp & Hf & Hs). split; [done|]. split; [done|].
    by replace (0 - 1 + 1) with 0 in Hs by lia.
Qed.

(** [StringRadixSort] panics on a slice of two or more strings of which
    one has, at some position, a byte whose bucket is none of the
    129. *)
Lemma StringRadixSortBy_panic vec w p :
  1 < len vec < 2 ^ 64 →
  w ∈ vec → 0 ≤ p → 129 ≤ sbkt p (key w) →
  StringRadixSortBy key zeroA vec = Panic IndexOutOfRange.
Proof.
  intros Hlen Hw Hp Hbig. unfold StringRadixSortBy.
  rewrite bool_decide_false by lia.
  destruct (idx_is_Some vec 0) as [v0 Hv0]; [lia|].
  rewrite (get_Ok _ _ _ Hv0). simpl.
  destruct (maxLen_loop vec v0 Hv0) as (m & -> & Hm & Hmax). simpl.
  assert (p < len (key w)) as Hpw.
  { destruct (decide (p < len (key w))) as [|Hge]; [done|].
    unfold sbkt in Hbig. rewrite idx_None in Hbig by lia. lia. }
  apply (for_down_panic (λ v, v ≡ₚ vec) IndexOutOfRange _ _ _ _ p).
  - done.
  - intros j v Hj Hv.
    destruct (decide (Forall (λ x, sbkt j (key x) < 129) v)) as [Hok|Hbad].
    + rewrite Forall_forall in Hok. right. eexists. split.
      * apply radixStringCountSortBy_correct; [lia| |done].
        unfold len in *. rewrite Hv. lia.
      * rewrite bucket_sort_Permutation; [done|].
        intros x Hx. pose proof (sbkt_range j (key x)). specialize (Hok x Hx). lia.
    + left. apply not_Forall_Exists in Hbad; [|apply _].
      apply Exists_exists in Hbad as (x & Hx & Hbx). simpl in Hbx.
      apply (radixStringCountSortBy_panic _ _ _ _ x); [lia|done|lia].
  - specialize (Hmax w Hw). lia.
  - intros v Hv. apply (radixStringCountSortBy_panic _ _ _ _ w); [done| |done].
    by rewrite Hv.
Qed.
End StringRadixSort.

(** * Floating-point numbers *)

(** ** The order of the numbers that are not NaN *)

Lemma lex_leb_spec (a b : Z * Z * Z) :
  lex_leb a b = true ↔
  a.1.1 < b.1.1 ∨ (a.1.1 = b.1.1 ∧ (a.1.2 < b.1.2 ∨ (a.1.2 = b.1.2 ∧ a.2 ≤ b.2))).
Proof.
  destruct a as [[a1 a2] a3], b as [[b1 b2] b3]. simpl.
  rewrite !orb_true_iff, !andb_true_iff, orb_true_iff, andb_true_iff.
  rewrite !Z.ltb_lt, !Z.eqb_eq, Z.leb_le. done.
Qed.

Lemma lex_leb_false (a b : Z * Z * Z) :
  lex_leb a b = false → lex_leb b a = true.
Proof.
  intros Hab. apply lex_leb_spec.
  destruct (lex_leb a b) eqn:Hab'; [done|].
  assert (¬ lex_leb a b = true) as Hn by (rewrite Hab'; done).
  rewrite lex_leb_spec in Hn. lia.
Qed.

Lemma fkey_TotalOrder : @TotalOrder float64 fkey_Ordered.
Proof.
  split; simpl.
  - intros x y. destruct (lex_leb (fkey x) (fkey y)) eqn:Hxy; [by left|].
    right. by apply lex_leb_false.
  - intros x y z. rewrite !lex_leb_spec. lia.
  - done.
  - done.
Qed.

Ltac lex_cases :=
  repeat match goal with
  | |- context [Z.ltb ?a ?b] => destruct (Z.ltb_spec a b)
  | |- context [Z.eqb ?a ?b] => destruct (Z.eqb_spec a b)
  | |- context [Z.leb ?a ?b] => destruct (Z.leb_spec a b)
  end; simpl; try done; try lia.

(** The comparison of two numbers is the comparison of their places. *)
Lemma SFcompare_fkey (x y : float64) :
  is_nan x = false → is_nan y = false →
  SFcompare x y = Some
    (if lex_leb (fkey x) (fkey y)
     then if lex_leb (fkey y) (fkey x) then Eq else Lt
     else Gt).
Proof.
  intros Hx Hy.
  destruct x as [sx|[]| |[] mx ex], y as [sy|[]| |[] my ey]; try done;
    unfold SFcompare, fkey, lex_leb;
    change (Pos.compare_cont Eq mx my) with (Pos.compare mx my);
    f_equal.
  - destruct (Z.compare_spec ex ey), (Pos.compare_spec mx my); lex_cases.
  - destruct (Z.compare_spec ex ey), (Pos.compare_spec mx my); lex_cases.
Qed.

Lemma SFleb_fkey (x y : float64) :
  is_nan x = false → is_nan y = false →
  SFleb x y = lex_leb (fkey x) (fkey y).
Proof.
  intros Hx Hy. unfold SFleb. rewrite SFcompare_fkey by done.
  destruct (lex_leb (fkey x) (fkey y)) eqn:Hxy; [|done].
  by destruct (lex_leb (fkey y) (fkey x)).
Qed.

Lemma SFltb_fkey (x y : float64) :
  is_nan x = false → is_nan y = false →
  SFltb x y = negb (lex_leb (fkey y) (fkey x)).
Proof.
  intros Hx Hy. unfold SFltb. rewrite SFcompare_fkey by done.
  destruct (lex_leb (fkey x) (fkey y)) eqn:Hxy.
  - by destruct (lex_leb (fkey y) (fkey x)).
  - by rewrite (lex_leb_false _ _ Hxy).
Qed.

Lemma f64_gtb_fkey (x y : float64) :
  is_nan x = false → is_nan y = false →
  f64_gtb x y = negb (lex_leb (fkey x) (fkey y)).
Proof.
  intros Hx Hy. unfold f64_gtb. rewrite SFcompare_fkey by done.
  destruct (lex_leb (fkey x) (fkey y)) eqn:Hxy; [|done].
  by destruct (lex_leb (fkey y) (fkey x)).
Qed.

Lemma SFeqb_fkey (x y : float64) :
  is_nan x = false → is_nan y = false →
  SFeqb x y = lex_leb (fkey x) (fkey y) && lex_leb (fkey y) (fkey x).
Proof.
  intros Hx Hy. unfold SFeqb. rewrite SFcompare_fkey by done.
  destruct (lex_leb (fkey x) (fkey y)) eqn:Hxy; [|done].
  by destruct (lex_leb (fkey y) (fkey x)).
Qed.

(** * Sorting with two orders that agree on the elements *)

Section Agree.
Context {S : Type}.

Lemma agree_refl (r : result S) (Q : S → Prop) :
  (∀ a, r = Ok a → Q a) → agree r r Q.
Proof. by split. Qed.

Lemma agree_Ok (a : S) (Q : S → Prop) : Q a → agree (Ok a) (Ok a) Q.
Proof. intros Ha. apply agree_refl. by intros ? [= <-]. Qed.

Lemma agree_bind {B} (r1 r2 : result B) (k1 k2 : B → result S)
    (Q : B → Prop) (Q' : S → Prop) :
  agree r1 r2 Q → (∀ b, Q b → agree (k1 b) (k2 b) Q') →
  agree (r1 ≫= k1) (r2 ≫= k2) Q'.
Proof.
  intros [<- HQ] Hk. destruct r1 as [b| |]; simpl; [|by split..].
  apply Hk. by apply HQ.
Qed.

Lemma agree_for_up_from (Inv : S → Prop) (body1 body2 : Z → S → result S) n lo s :
  Inv s →
  (∀ i s, lo ≤ i < lo + Z.of_nat n → Inv s → agree (body1 i s) (body2 i s) Inv) →
  agree (for_up_from n lo body1 s) (for_up_from n lo body2 s) Inv.
Proof.
  revert lo s. induction n as [|n IH]; intros lo s Hs Hbody; simpl.
  - by apply agree_Ok.
  - eapply agree_bind; [apply Hbody; [lia|done]|].
    intros s' Hs'. apply IH; [done|]. intros i s0 Hi. apply Hbody. lia.
Qed.

Lemma agree_for_up (Inv : S → Prop) (body1 body2 : Z → S → result S) lo hi s :
  Inv s →
  (∀ i s, lo ≤ i < hi → Inv s → agree (body1 i s) (body2 i s) Inv) →
  agree (for_up lo hi body1 s) (for_up lo hi body2 s) Inv.
Proof.
  intros Hs Hbody. apply agree_for_up_from; [done|].
  intros i s0 Hi. apply Hbody. lia.
Qed.
End Agree.

Section QuickSortAgree.
Context {T : Type} (O1 O2 : Ordered T) (P : T → Prop).
Hypothesis Hleb : ∀ x y, P x → P y → @leb T O1 x y = @leb T O2 x y.
Hypothesis Hgtb : ∀ x y, P x → P y → @gtb T O1 x y = @gtb T O2 x y.
Implicit Types (vec : list T).

Lemma get_Forall vec i x : Forall P vec → get vec i = Ok x → P x.
Proof.
  intros HP Hx%get_Ok_inv%idx_elem_of. by eapply Forall_forall in HP.
Qed.

Lemma swap_Forall vec i j vec' :
  Forall P vec → swap vec i j = Ok vec' → Forall P vec'.
Proof.
  intros HP Hsw.
  destruct (idx vec i) as [x|] eqn:Hx, (idx vec j) as [y|] eqn:Hy.
  - destruct (swap_Ok vec i j x y Hx Hy) as (v & Hv & _ & Hp & _).
    assert (v = vec') as -> by congruence. by rewrite Hp.
  - unfold swap, get in Hsw. by rewrite Hy in Hsw.
  - unfold swap, get in Hsw. rewrite Hx in Hsw. by destruct (idx vec j).
  - unfold swap, get in Hsw. by rewrite Hy in Hsw.
Qed.

Lemma medianOfThree_agree vec i j k :
  Forall P vec →
  @medianOfThree T O1 vec i j k = @medianOfThree T O2 vec i j k.
Proof using Hgtb.
  intros HP. unfold medianOfThree.
  destruct (get vec i) as [vi| |] eqn:Hi; simpl; try done.
  destruct (get vec j) as [vj| |] eqn:Hj; simpl; try done.
  destruct (get vec k) as [vk| |] eqn:Hk; simpl; try done.
  pose proof (get_Forall _ _ _ HP Hi). pose proof (get_Forall _ _ _ HP Hj).
  pose proof (get_Forall _ _ _ HP Hk).
  by rewrite !Hgtb by done.
Qed.

Lemma partition_agree vec start end_ :
  Forall P vec →
  agree (@partition T O1 vec start end_) (@partition T O2 vec start end_)
    (λ '(v, _), Forall P v).
Proof using Hleb Hgtb.
  intros HP. unfold partition. cbv zeta.
  rewrite medianOfThree_agree by done.
  eapply agree_bind; [by apply (agree_refl _ (λ _, True))|]. intros pivotIndex _.
  eapply agree_bind.
  { apply (agree_refl _ (Forall P)). intros v. by apply swap_Forall. }
  intros v Hv.
  eapply agree_bind.
  { apply (agree_refl _ P). intros x. by apply get_Forall. }
  intros pivot Hpivot.
  eapply (agree_bind _ _ _ _ (λ '(v, _), Forall P v)).
  { apply (agree_for_up (λ '(v, _), Forall P v)); [done|].
    intros j [v' i] _ Hv'.
    eapply agree_bind.
    { apply (agree_refl _ P). intros x. by apply get_Forall. }
    intros vj Hvj. rewrite Hleb by done.
    destruct (@leb T O2 vj pivot); [|by apply agree_Ok].
    eapply agree_bind.
    { apply (agree_refl _ (Forall P)). intros v''. by apply swap_Forall. }
    intros v'' Hv''. by apply agree_Ok. }
  intros [v' i] Hv'.
  eapply agree_bind.
  { apply (agree_refl _ (Forall P)). intros v''. by apply swap_Forall. }
  intros v'' Hv''. by apply agree_Ok.
Qed.

Lemma quickSortHelper_agree fuel : ∀ vec start end_,
  Forall P vec →
  agree (@quickSortHelper T O1 fuel vec start end_)
    (@quickSortHelper T O2 fuel vec start end_) (Forall P).
Proof using Hleb Hgtb.
  induction fuel as [|fuel IH]; intros vec start end_ HP; simpl.
  { by split. }
  case_bool_decide; [by apply agree_Ok|].
  eapply agree_bind; [by apply partition_agree|].
  intros [v pivot] Hv.
  eapply agree_bind; [by apply IH|].
  intros v' Hv'. by apply IH.
Qed.

(** [QuickSort] with one order is [QuickSort] with the other. *)
Lemma QuickSort_agree vec :
  Forall P vec → @QuickSort T O1 vec = @QuickSort T O2 vec.
Proof using Hleb Hgtb.
  intros HP. unfold QuickSort. case_bool_decide; [done|].
  by apply quickSortHelper_agree.
Qed.
End QuickSortAgree.

(** * [QuickSort] on elements that are all equal, and on numbers *)

Section QuickSortEqual.
Context {T : Type} `{Ordered T}.
Implicit Types (vec : list T).

(** On elements of which none is above another, [partition] takes the
    last as the pivot and moves nothing. *)
Lemma partition_equal vec start end_ :
  (∀ x y, x ∈ vec → y ∈ vec → leb x y = true ∧ gtb x y = false) →
  0 ≤ start < end_ → end_ < len vec →
  partition vec start end_ = Ok (vec, end_).
Proof.
  intros Heq Hs He. unfold partition. cbv zeta.
  set (mid := start + (end_ - start) ÷ 2).
  assert (start ≤ mid < end_) as Hmid.
  { unfold mid. rewrite Z.quot_div_nonneg by lia.
    Z.div_mod_to_equations. lia. }
  clearbody mid.
  destruct (idx_is_Some vec start) as [vs Hvs]; [lia|].
  destruct (idx_is_Some vec mid) as [vm Hvm]; [lia|].
  destruct (idx_is_Some vec end_) as [ve Hve]; [lia|].
  pose proof (idx_elem_of _ _ _ Hvs) as Hs_in.
  pose proof (idx_elem_of _ _ _ Hvm) as Hm_in.
  pose proof (idx_elem_of _ _ _ Hve) as He_in.
  unfold medianOfThree.
  rewrite (get_Ok _ _ _ Hvs), (get_Ok _ _ _ Hvm), (get_Ok _ _ _ Hve). simpl.
  rewrite (proj2 (Heq vs vm Hs_in Hm_in)), (proj2 (Heq vs ve Hs_in He_in)),
    (proj2 (Heq vm vs Hm_in Hs_in)), (proj2 (Heq vm ve Hm_in He_in)). simpl.
  rewrite (swap_self _ _ _ Hve). simpl.
  rewrite (get_Ok _ _ _ Hve). simpl.
  assert (for_up start end_ (λ j '(vec0, i),
      vj ← get vec0 j;
      if leb vj ve then vec1 ← swap vec0 (i + 1) j; Ok (vec1, i + 1)
      else Ok (vec0, i)) (vec, start - 1) = Ok (vec, end_ - 1)) as ->.
  { apply yields_eq.
    apply (for_up_inv (λ j s, s = (vec, j - 1))); [lia|done| |done].
    intros j s Hj ->. apply yields_get_bind; [lia|]. intros vj Hvj.
    rewrite (proj1 (Heq vj ve (idx_elem_of _ _ _ Hvj) He_in)).
    replace (j - 1 + 1) with j by lia.
    rewrite (swap_self _ _ _ Hvj). simpl. apply yields_Ok.
    by replace (j + 1 - 1) with j by lia. }
  simpl. replace (end_ - 1 + 1) with end_ by lia.
  by rewrite (swap_self _ _ _ Hve).
Qed.

Lemma quickSortHelper_equal vec fuel : ∀ start end_,
  (∀ x y, x ∈ vec → y ∈ vec → leb x y = true ∧ gtb x y = false) →
  0 ≤ start → end_ < len vec →
  (Z.to_nat (end_ - start) < fuel)%nat →
  quickSortHelper fuel vec start end_ = Ok vec.
Proof.
  induction fuel as [|fuel IH]; intros start end_ Heq Hs He Hfuel; [lia|].
  simpl. case_bool_decide as Hse; [done|].
  rewrite partition_equal by (done || lia). simpl.
  rewrite IH by (done || lia). simpl.
  apply IH; [done|lia|lia|lia].
Qed.

(** [QuickSort] leaves a slice of equal elements as it is. *)
Lemma QuickSort_equal vec :
  (∀ x y, x ∈ vec → y ∈ vec → leb x y = true ∧ gtb x y = false) →
  QuickSort vec = Ok vec.
Proof.
  intros Heq. unfold QuickSort. case_bool_decide; [done|].
  apply quickSortHelper_equal; [done|lia| |]; unfold len in *; lia.
Qed.
End QuickSortEqual.

(** ** Numbers that are equal *)

Lemma lex_leb_refl (a : Z * Z * Z) : lex_leb a a = true.
Proof. apply lex_leb_spec. lia. Qed.

Lemma lex_leb_antisym (a b : Z * Z * Z) :
  lex_leb a b = true → lex_leb b a = true → a = b.
Proof.
  rewrite !lex_leb_spec. destruct a as [[a1 a2] a3], b as [[b1 b2] b3].
  simpl. intros Hab Hba. repeat f_equal; lia.
Qed.

Lemma SFeqb_true (x y : float64) :
  SFeqb x y = true ↔ is_nan x = false ∧ is_nan y = false ∧ fkey x = fkey y.
Proof.
  split.
  - intros Hxy.
    assert (is_nan x = false ∧ is_nan y = false) as [Hx Hy].
    { by destruct x, y. }
    rewrite SFeqb_fkey in Hxy by done.
    apply andb_true_iff in Hxy as [Hxy Hyx].
    split; [done|]. split; [done|]. by apply lex_leb_antisym.
  - intros (Hx & Hy & Hk). rewrite SFeqb_fkey by done.
    by rewrite Hk, lex_leb_refl.
Qed.

Lemma SFeqb_compare (x y : float64) :
  SFeqb x y = true →
  SFleb x y = true ∧ f64_gtb x y = false ∧ SFltb x y = false.
Proof.
  intros (Hx & Hy & Hk)%SFeqb_true.
  rewrite SFleb_fkey, f64_gtb_fkey, SFltb_fkey by done.
  by rewrite Hk, lex_leb_refl.
Qed.

(** ** [QuickSort] on numbers *)

Lemma QuickSort_float64 (vec : list float64) :
  (∀ x, x ∈ vec → is_nan x = false) →
  yields (QuickSort vec) (λ out, out ≡ₚ vec ∧ sorted out).
Proof.
  intros Hnan.
  rewrite (QuickSort_agree float64_Ordered fkey_Ordered (λ x, is_nan x = false)).
  - eapply yields_mono; [apply (@QuickSort_correct _ _ fkey_TotalOrder)|].
    intros out [Hp Hs]. split; [done|].
    intros i j x y Hij Hx Hy. specialize (Hs i j x y Hij Hx Hy).
    unfold le in *. simpl in *. rewrite SFleb_fkey; [done| |].
    + apply Hnan. rewrite <- Hp. by eapply idx_elem_of.
    + apply Hnan. rewrite <- Hp. by eapply idx_elem_of.
  - intros x y Hx Hy. simpl. by apply SFleb_fkey.
  - intros x y Hx Hy. simpl. by apply f64_gtb_fkey.
  - by apply Forall_forall.
Qed.

(** * Bucket sort *)

Lemma wrapInt_range (z : Z) : minInt ≤ wrapInt z ≤ maxInt.
Proof.
  unfold wrapInt, minInt, maxInt.
  pose proof (Z.mod_pos_bound (z + 2 ^ 63) (2 ^ 64) ltac:(lia)). lia.
Qed.

Lemma min_max_loop (vec : list float64) (mn mx : float64) :
  for_range vec (λ val '(min, max),
      let min := if ltb val min then val else min in
      let max := if gtb val max then val else max in
      Ok (min, max)) (mn, mx)
  = Ok (foldl (λ '(min, max) val,
      (if ltb val min then val else min, if gtb val max then val else max))
    (mn, mx) vec).
Proof.
  revert mn mx. induction vec as [|x vec IH]; intros mn mx; [done|].
  simpl. by rewrite IH.
Qed.

(** The least and the greatest of numbers that are all equal are
    equal. *)
Lemma min_max_equal (vec : list float64) :
  vec ≠ [] →
  (∀ x y, x ∈ vec → y ∈ vec → SFeqb x y = true) →
  SFeqb (min_max vec).2 (min_max vec).1 = true.
Proof.
  destruct vec as [|x0 vec]; [done|]. intros _ Heq.
  assert (∀ l mn mx, SFeqb mn x0 = true → SFeqb mx x0 = true →
    (∀ y, y ∈ l → SFeqb y x0 = true) →
    foldl (λ '(min, max) val,
      (if ltb val min then val else min, if gtb val max then val else max))
      (mn, mx) l = (mn, mx)) as Hfold.
  { induction l as [|y l IH]; intros mn mx Hmn Hmx Hl; [done|]. simpl.
    pose proof (Hl y ltac:(left)) as Hy.
    apply SFeqb_true in Hmn as Hmn'. apply SFeqb_true in Hmx as Hmx'.
    apply SFeqb_true in Hy as Hy'.
    destruct Hmn' as (? & ? & Kmn), Hmx' as (? & ? & Kmx), Hy' as (? & _ & Ky).
    rewrite SFltb_fkey, f64_gtb_fkey by done.
    rewrite Kmn, Kmx, Ky, lex_leb_refl. simpl.
    apply IH; [done|done|]. intros z Hz. apply Hl. by right. }
  pose proof (Heq x0 x0 ltac:(left) ltac:(left)) as H0.
  unfold min_max. simpl.
  assert (∀ mn mx, SFeqb mn x0 = true → SFeqb mx x0 = true →
    SFeqb mx mn = true) as Hfin.
  { intros mn mx (? & ? & Kmn)%SFeqb_true (? & ? & Kmx)%SFeqb_true.
    apply SFeqb_true. by rewrite Kmn, Kmx. }
  assert (∀ y, y ∈ vec → SFeqb y x0 = true) as Hvec.
  { intros y Hy. apply Heq; [by right|by left]. }
  destruct x0 as [s|[]| |[] m e]; try done; simpl;
    rewrite Hfold by done; simpl; by apply Hfin.
Qed.

(** The distribution into buckets and the collection of the sorted
    buckets, for a bucket function [bidx] that puts no smaller element
    into a greater bucket *)
Lemma bucket_phases (vec : list float64) (nb : Z) (bidx : float64 → Z) :
  (∀ x, x ∈ vec → is_nan x = false) →
  (∀ x, x ∈ vec → 0 ≤ bidx x < nb) →
  0 ≤ nb → nb * sizeof_slice ≤ maxAlloc →
  (∀ x y, x ∈ vec → y ∈ vec → bidx x < bidx y → SFleb x y = true) →
  yields
    (buckets ← make sizeof_slice ([] : list float64) nb;
     buckets ← for_range vec (λ val buckets,
       bucket ← get buckets (bidx val);
       set buckets (bidx val) (bucket ++ [val])) buckets;
     '(output, k, buckets) ← for_up 0 (len buckets)
       (λ i '(output, k, buckets),
         bucket ← get buckets i;
         bucket ← QuickSort bucket;
         buckets ← set buckets i bucket;
         '(output, k) ← for_range bucket (λ val '(output, k),
           output ← set output k val;
           Ok (output, k + 1)) (output, k);
         Ok (output, k, buckets))
       (make_len (zero : float64) vec, 0, buckets);
     Ok (copy vec output))
    (λ out, out ≡ₚ vec ∧ sorted out).
Proof.
  intros Hnan Hb Hnb Hsize Hmono.
  rewrite make_Ok by (unfold maxInt, maxAlloc, sizeof_slice in *; lia). simpl.
  rewrite for_range_for_up.
  eapply yields_bind.
  { apply (for_up_inv (λ i ra, len ra = nb ∧
      ∀ d, 0 ≤ d < nb →
        idx ra d = Some (filter (λ v, bidx v = d) (slice vec 0 i)))).
    - apply len_nonneg.
    - split; [rewrite len_replicate; lia|]. intros d Hd.
      rewrite slice_empty by lia. apply idx_replicate. lia.
    - intros i ra Hi [Hl Hra].
      apply yields_get_bind; [lia|intros v Hv].
      pose proof (Hb v (idx_elem_of _ _ _ Hv)) as Hbv.
      rewrite (get_Ok _ _ _ (Hra (bidx v) Hbv)). simpl.
      apply yields_set; [lia|].
      split; [by rewrite len_insert|]. intros d Hd.
      rewrite idx_insert by lia.
      rewrite (slice_snoc vec 0 i v) by (done || lia).
      rewrite filter_app, filter_cons, filter_nil.
      case_bool_decide as Hdv.
      + subst d. by rewrite decide_True.
      + rewrite decide_False, app_nil_r by done. by apply Hra.
    - intros ra Hra. rewrite slice_full in Hra. exact Hra. }
  intros ra [Hl Hra]. rewrite Hl.
  assert (∀ v, v ∈ vec → 0 ≤ bidx v) as Hpos by (intros v ?%Hb; lia).
  eapply (yields_bind _ _ (λ '(v, _, _), v ≡ₚ vec ∧ sorted v)).
  { apply (for_up_inv (λ i '(v, k, ra'), len v = len vec ∧ len ra' = nb ∧
      k = below_in bidx vec i ∧ slice v 0 k ≡ₚ bucket_sort bidx i vec ∧
      StronglySorted le (slice v 0 k) ∧
      ∀ d, i ≤ d < nb → idx ra' d = Some (filter (λ v, bidx v = d) vec))).
    - lia.
    - splits.
      + unfold make_len. by rewrite len_replicate.
      + by rewrite below_in_0.
      + rewrite slice_empty by lia. constructor.
    - clear ra Hl Hra. intros i [[v k] ra] Hi (Hlv & Hlra & Hk & Hsl & Hso & Hra).
      set (bucket := filter (λ w, bidx w = i) vec).
      assert (len bucket = count_in bidx vec i) as Hlb by done.
      pose proof (below_in_succ bidx vec i) as Hsucc.
      pose proof (below_in_bounds bidx vec (i + 1)) as Hbb1.
      pose proof (below_in_bounds bidx vec i) as Hbb.
      pose proof (count_in_bounds bidx vec i) as Hcb.
      rewrite (get_Ok _ _ _ (Hra i ltac:(lia))). simpl. fold bucket.
      eapply yields_bind.
      { apply QuickSort_float64. intros x [_ Hx]%list_elem_of_filter.
        by apply Hnan. }
      intros sb [Hpb Hsb].
      assert (len sb = len bucket) as Hlsb by (unfold len; by rewrite Hpb).
      apply yields_set_bind; [lia|].
      eapply (yields_bind _ _ (λ '(v', k'), len v' = len vec ∧
        k' = k + len sb ∧ slice v' 0 k' = slice v 0 k ++ sb)).
      { apply (for_range_inv (λ pre '(v', k'), len v' = len vec ∧
          k' = k + len pre ∧ slice v' 0 k' = slice v 0 k ++ pre)).
        - splits; [unfold len; simpl; lia|by rewrite app_nil_r].
        - intros pre x post [v' k'] Hsb_eq (Hlv' & Hk' & Hsl').
          assert (len sb = len pre + 1 + len post) as Hlen_sb.
          { rewrite Hsb_eq. unfold len. rewrite length_app. simpl. lia. }
          pose proof (len_nonneg pre). pose proof (len_nonneg post).
          apply yields_set_bind; [lia|]. apply yields_Ok.
          rewrite len_insert. splits.
          + unfold len. rewrite length_app. simpl. unfold len in Hk'. lia.
          + rewrite slice_insert_snoc by lia.
            by rewrite Hsl', <- app_assoc.
        - intros [v' k'] Hs. exact Hs. }
      intros [v' k'] (Hlv' & Hk' & Hsl'). apply yields_Ok.
      rewrite len_insert. splits.
      + rewrite Hsl', Hsl, Hpb.
        replace (i + 1) with (Z.of_nat (Datatypes.S (Z.to_nat i))) by lia.
        by rewrite bucket_sort_succ, Z2Nat.id by lia.
      + rewrite Hsl'. apply StronglySorted_app. splits.
        * intros x1 x2 Hx1 Hx2. rewrite Hsl in Hx1.
          apply elem_of_bucket_sort in Hx1 as [Hx1 Hb1].
          rewrite Hpb in Hx2. apply list_elem_of_filter in Hx2 as [Hb2 Hx2].
          apply Hmono; [done|done|lia].
        * by apply (proj2 (StronglySorted_sorted sb)).
      + intros d Hd. rewrite idx_insert by lia.
        rewrite bool_decide_false by lia. apply Hra. lia.
    - intros [[v k] ra'] (Hlv & _ & Hk & Hsl & Hso & _).
      rewrite below_in_all in Hk by (intros w ?%Hb; lia).
      rewrite Hk, <- Hlv, slice_full in Hsl, Hso.
      split.
      + rewrite Hsl. apply bucket_sort_Permutation. done.
      + by apply (proj1 (StronglySorted_sorted v)). }
  intros [[v k] ra'] [Hp Hs]. apply yields_Ok.
  rewrite copy_same_length; [done|]. by rewrite Hp.
Qed.

Section BucketSortCorrect.
Variable int_overflow : float64 → Z.
Implicit Types (vec : list float64).

(** [BucketSort] leaves a slice of equal numbers as it is. *)
Lemma BucketSort_equal vec :
  (∀ x y, x ∈ vec → y ∈ vec → SFeqb x y = true) →
  BucketSort int_overflow vec = Ok vec.
Proof.
  intros Heq. unfold BucketSort.
  case_bool_decide as Hlen; [done|]. cbv zeta.
  assert (vec ≠ []) as Hne.
  { intros ->. unfold len in Hlen. simpl in Hlen. lia. }
  rewrite min_max_loop. fold (min_max vec).
  pose proof (min_max_equal vec Hne Heq) as Hmm.
  destruct (min_max vec) as [mn mx]. simpl in Hmm. simpl.
  rewrite Hmm.
  apply QuickSort_equal. intros x y Hx Hy. simpl.
  destruct (SFeqb_compare x y (Heq x y Hx Hy)) as (? & ? & ?). done.
Qed.
(** [BucketSort] sorts numbers of which none is NaN, when [make]
    accepts the number of buckets and the buckets it computes are in
    order. *)
Lemma BucketSort_buckets_ok vec :
  (∀ x, x ∈ vec → is_nan x = false) →
  numBuckets int_overflow vec * sizeof_slice ≤ maxAlloc →
  buckets_ok int_overflow vec →
  yields (BucketSort int_overflow vec) (λ out, out ≡ₚ vec ∧ sorted out).
Proof.
  intros Hnan Hsize Hok. unfold BucketSort.
  case_bool_decide as Hlen.
  { apply yields_Ok. split; [done|]. by apply sorted_short. }
  cbv zeta. rewrite min_max_loop. fold (min_max vec).
  unfold buckets_ok, bucket_index, numBuckets in Hok, Hsize.
  revert Hok Hsize. destruct (min_max vec) as [mn mx]. simpl. intros Hok Hsize.
  destruct (SFeqb mx mn) eqn:Heq; [by apply QuickSort_float64|].
  destruct Hok as [?|[Hb Hmono]]; [done|].
  apply (bucket_phases vec _ (λ val, int_of_float64 int_overflow
    (f64_mul (f64_div (f64_sub val mn) (f64_sub mx mn))
       (float64_of_int (wrapInt (wrapInt (int_of_float64 int_overflow
          (f64_div (f64_sub mx mn) (math_Sqrt (float64_of_int (len vec)))) + 1)
          - 1)))))); [done|done| |done|done].
  destruct vec as [|x vec]; [unfold len in Hlen; simpl in Hlen; lia|].
  specialize (Hb x ltac:(left)). lia.
Qed.
End BucketSortCorrect.

(** * The comparison sorts return, whatever the comparisons answer

    The results of this part use no law of the order: the loops and
    the recursions end, and no index leaves the slice, for every
    answer of [<], [<=] and [>]. *)

Section Returns.
Context {T : Type} `{Ordered T}.
Implicit Types (vec : list T).

Lemma yields_swap_perm {C} vec i j (k : list T → result C) (Post : C → Prop) :
  0 ≤ i < len vec → 0 ≤ j < len vec →
  (∀ vec', len vec' = len vec → vec' ≡ₚ vec → yields (k vec') Post) →
  yields (swap vec i j ≫= k) Post.
Proof.
  intros Hi Hj Hk.
  destruct (idx_is_Some vec i Hi) as [x Hx], (idx_is_Some vec j Hj) as [y Hy].
  apply (yields_swap_bind _ _ _ _ _ _ _ Hx Hy). auto.
Qed.

Lemma yields_swap_perm' vec i j :
  0 ≤ i < len vec → 0 ≤ j < len vec →
  yields (swap vec i j) (λ vec', len vec' = len vec ∧ vec' ≡ₚ vec).
Proof.
  intros Hi Hj.
  destruct (idx_is_Some vec i Hi) as [x Hx], (idx_is_Some vec j Hj) as [y Hy].
  apply (yields_swap _ _ _ _ _ _ Hx Hy). auto.
Qed.

Lemma SimpleSort_returns vec :
  yields (SimpleSort vec) (λ out, out ≡ₚ vec).
Proof.
  unfold SimpleSort. destruct (decide (len vec - 1 ≤ 0)) as [Hs|Hl].
  { rewrite for_up_empty by done. by apply yields_Ok. }
  apply (for_up_inv (λ _ v, len v = len vec ∧ v ≡ₚ vec)); [lia|done| |by intros v [_ ?]].
  intros i v Hi [Hlv Hp].
  apply (for_up_inv (λ _ v', len v' = len vec ∧ v' ≡ₚ vec)); [lia|done| |done].
  intros j v' Hj [Hlv' Hp'].
  apply yields_get_bind; [lia|intros vj _].
  apply yields_get_bind; [lia|intros vi _].
  destruct (ltb vj vi); [|by apply yields_Ok].
  eapply yields_mono; [apply yields_swap_perm'; lia|].
  intros v'' [Hl'' Hp'']. split; [lia|by rewrite Hp''].
Qed.

Lemma SelectionSort_returns vec :
  yields (SelectionSort vec) (λ out, out ≡ₚ vec).
Proof.
  unfold SelectionSort. destruct (decide (len vec - 1 ≤ 0)) as [Hs|Hl].
  { rewrite for_up_empty by done. by apply yields_Ok. }
  apply (for_up_inv (λ _ v, len v = len vec ∧ v ≡ₚ vec)); [lia|done| |by intros v [_ ?]].
  intros i v Hi [Hlv Hp]. cbv zeta.
  eapply (yields_bind _ _ (λ m, i ≤ m < len v)).
  { apply (for_up_inv (λ j m, i ≤ m < len v)); [lia|lia| |done].
    intros j m Hj Hm.
    apply yields_get_bind; [lia|intros vj _].
    apply yields_get_bind; [lia|intros vm _].
    apply yields_Ok. destruct (ltb vj vm); lia. }
  intros m Hm. case_bool_decide; [|by apply yields_Ok].
  eapply yields_mono; [apply yields_swap_perm'; lia|].
  intros v'' [Hl'' Hp'']. split; [lia|by rewrite Hp''].
Qed.

Lemma BubbleSort_returns vec :
  yields (BubbleSort vec) (λ out, out ≡ₚ vec).
Proof.
  unfold BubbleSort. destruct (decide (len vec - 1 ≤ 0)) as [Hs|Hl].
  { rewrite for_up_break_empty by done. by apply yields_Ok. }
  apply (for_up_break_inv (λ _ v, len v = len vec ∧ v ≡ₚ vec)); [lia|done| |by intros v [_ ?]].
  intros i v Hi [Hlv Hp]. cbv zeta.
  eapply (yields_bind _ _ (λ '(v', _), len v' = len vec ∧ v' ≡ₚ vec)).
  { apply (for_up_inv (λ _ '(v', _), len v' = len vec ∧ v' ≡ₚ vec)); [lia|done| |done].
    intros j [v' sw] Hj [Hlv' Hp'].
    apply yields_get_bind; [lia|intros vj _].
    apply yields_get_bind; [lia|intros vj1 _].
    destruct (gtb vj vj1); [|by apply yields_Ok].
    apply yields_swap_perm; [lia|lia|]. intros v'' Hl'' Hp''.
    apply yields_Ok. split; [lia|by rewrite Hp'']. }
  intros [v' sw] [Hlv' Hp']. apply yields_Ok.
  destruct (negb sw); [done|by split].
Qed.

Lemma InsertionSort_returns vec :
  yields (InsertionSort vec) (λ out, out ≡ₚ vec).
Proof.
  unfold InsertionSort. destruct (decide (len vec ≤ 1)) as [Hs|Hl].
  { rewrite for_up_empty by done. by apply yields_Ok. }
  apply (for_up_inv (λ _ v, len v = len vec ∧ v ≡ₚ vec)); [lia|done| |by intros v [_ ?]].
  intros i v Hi [Hlv Hp].
  eapply (yields_bind _ _ (λ '(v', _), len v' = len vec ∧ v' ≡ₚ vec)).
  { apply (while_inv (λ '(v', j), len v' = len vec ∧ v' ≡ₚ vec ∧ 0 ≤ j ≤ i)
      _ (λ '(_, j), Z.to_nat j)); [splits|lia|].
    intros [v' j] (Hlv' & Hp' & Hj).
    case_bool_decide as Hj0.
    - apply yields_get_bind; [lia|intros vj _].
      apply yields_get_bind; [lia|intros vj1 _].
      apply yields_Ok. destruct (ltb vj vj1); [|done].
      apply yields_swap_perm; [lia|lia|]. intros v'' Hl'' Hp''.
      apply yields_Ok. split; [|lia]. split; [lia|]. split; [by rewrite Hp''|lia].
    - by apply yields_Ok. }
  intros [v' j] Hv'. by apply yields_Ok.
Qed.

Lemma mergeSortHelper_returns fuel : ∀ vec tmp start end_,
  0 ≤ start ≤ end_ → end_ < len vec → len tmp = len vec →
  end_ - start < Z.of_nat fuel →
  yields (mergeSortHelper fuel vec tmp start end_) (λ '(vec', tmp'),
    len tmp' = len tmp ∧ frame vec vec' start (end_ + 1) ∧
    slice vec' start (end_ + 1) ≡ₚ slice vec start (end_ + 1)).
Proof.
  induction fuel as [|fuel IH]; intros vec tmp start end_ Hs He Ht Hf; [lia|].
  simpl. case_bool_decide as Hse.
  { apply yields_Ok. split; [done|]. split; [apply frame_refl|done]. }
  set (mid := start + (end_ - start) ÷ 2).
  assert (start ≤ mid < end_) as Hmid.
  { unfold mid. rewrite Z.quot_div_nonneg by lia.
    Z.div_mod_to_equations. lia. }
  clearbody mid.
  eapply yields_bind; [apply IH; [lia..|done|lia]|].
  intros [v1 t1] (Ht1 & Hfr1 & Hp1).
  pose proof Hfr1 as [Hl1 _].
  eapply yields_bind; [apply IH; [lia..]|].
  intros [v2 t2] (Ht2 & Hfr2 & Hp2).
  pose proof Hfr2 as [Hl2 _].
  rewrite (frame_slice vec v1 start (mid + 1) (mid + 1) (end_ + 1))
    in Hp2 by (done || lia).
  eapply yields_mono; [apply merge_correct; lia|].
  intros [v3 t3] (Ht3 & Hfr3 & Hsl3).
  rewrite (frame_slice v1 v2 (mid + 1) (end_ + 1) start (mid + 1))
    in Hsl3 by (done || lia).
  split; [lia|]. split.
  { assert (frame vec v2 start (end_ + 1)) as Hfr12
      by (eapply frame_trans; [exact Hfr1|exact Hfr2|lia..]).
    eapply frame_trans; [exact Hfr12|exact Hfr3|lia..]. }
  rewrite Hsl3. rewrite (slice_app vec start (mid + 1) (end_ + 1)) by lia.
  by rewrite merge_Permutation, Hp1, Hp2.
Qed.

Lemma MergeSort_returns vec :
  yields (MergeSort vec) (λ out, out ≡ₚ vec).
Proof.
  unfold MergeSort. case_bool_decide as Hl; [by apply yields_Ok|].
  cbv zeta. eapply yields_bind.
  { apply (mergeSortHelper_returns (length vec) vec (make_len zero vec) 0
      (len vec - 1)); unfold make_len, len in *;
      rewrite ?length_replicate; lia. }
  intros [vec' tmp'] (_ & [Hlen Hfr] & Hp).
  apply yields_Ok.
  replace (len vec - 1 + 1) with (len vec) in * by lia.
  rewrite slice_full in Hp. by rewrite <- Hlen, slice_full in Hp.
Qed.

Lemma partition_returns vec start end_ :
  0 ≤ start < end_ → end_ < len vec →
  yields (partition vec start end_) (λ '(vec', p),
    start ≤ p ≤ end_ ∧ len vec' = len vec ∧ vec' ≡ₚ vec).
Proof.
  intros Hs He. unfold partition. cbv zeta.
  set (mid := start + (end_ - start) ÷ 2).
  assert (start ≤ mid < end_) as Hmid.
  { unfold mid. rewrite Z.quot_div_nonneg by lia.
    Z.div_mod_to_equations. lia. }
  clearbody mid.
  eapply yields_bind. { apply medianOfThree_index; lia. }
  intros pi Hpi. simpl in Hpi.
  apply yields_swap_perm; [lia|lia|]. intros v1 Hl1 Hp1.
  apply yields_get_bind; [lia|intros pivot _].
  eapply (yields_bind _ _ (λ '(v, i), start - 1 ≤ i < end_ ∧
    len v = len vec ∧ v ≡ₚ vec)).
  { apply (for_up_inv (λ j '(v, i), start - 1 ≤ i < j ∧
      len v = len vec ∧ v ≡ₚ vec)); [lia|splits| |by intros [v i]].
    intros j [v i] Hj (Hi & Hlv & Hpv).
    apply yields_get_bind; [lia|intros vj _].
    destruct (leb vj pivot); [|apply yields_Ok; splits].
    apply yields_swap_perm; [lia|lia|]. intros v' Hl' Hp'.
    apply yields_Ok. splits. by rewrite Hp'. }
  intros [v i] (Hi & Hlv & Hpv).
  apply yields_swap_perm; [lia|lia|]. intros v' Hl' Hp'.
  apply yields_Ok. splits. by rewrite Hp'.
Qed.

Lemma quickSortHelper_returns fuel : ∀ vec start end_,
  (start < end_ → 0 ≤ start ∧ end_ < len vec) →
  (0 < fuel)%nat → end_ - start < Z.of_nat fuel →
  yields (quickSortHelper fuel vec start end_) (λ vec',
    len vec' = len vec ∧ vec' ≡ₚ vec).
Proof.
  induction fuel as [|fuel IH]; intros vec start end_ Hr Hpos Hf; [lia|].
  simpl. case_bool_decide as Hse; [by apply yields_Ok|].
  destruct Hr as [Hs He]; [lia|].
  eapply yields_bind. { apply partition_returns; lia. }
  intros [v1 p] (Hp & Hl1 & Hp1).
  eapply yields_bind. { apply IH; lia. }
  intros v2 (Hl2 & Hp2).
  eapply yields_mono. { apply IH; lia. }
  intros v3 (Hl3 & Hp3). split; [lia|]. by rewrite Hp3, Hp2.
Qed.

Lemma QuickSort_returns vec :
  yields (QuickSort vec) (λ out, out ≡ₚ vec).
Proof.
  unfold QuickSort. case_bool_decide as Hl; [by apply yields_Ok|].
  eapply yields_mono.
  { apply quickSortHelper_returns; unfold len in *; lia. }
  by intros vec' [_ ?].
Qed.

Lemma heapify_returns fuel : ∀ vec i n,
  0 ≤ i → n ≤ len vec → (0 < fuel)%nat → n - i ≤ Z.of_nat fuel →
  yields (heapify fuel vec i n) (λ vec', len vec' = len vec ∧ vec' ≡ₚ vec).
Proof.
  induction fuel as [|fuel IH]; intros vec i n Hi Hn Hpos Hf; [lia|].
  simpl.
  eapply (yields_bind _ _ (λ l1, l1 = i ∨ l1 = 2 * i + 1 ∧ 2 * i + 1 < n)).
  { case_bool_decide as Hl; [|apply yields_Ok; by left].
    apply yields_get_bind; [lia|intros vl _].
    apply yields_get_bind; [lia|intros vm _].
    apply yields_Ok. destruct (gtb vl vm); [right; lia|by left]. }
  intros l1 Hl1.
  eapply (yields_bind _ _
    (λ l2, l2 = i ∨ (l2 = 2 * i + 1 ∨ l2 = 2 * i + 2) ∧ l2 < n)).
  { case_bool_decide as Hr; [|apply yields_Ok; lia].
    apply yields_get_bind; [lia|intros vr _].
    apply yields_get_bind; [lia|intros vm _].
    apply yields_Ok. destruct (gtb vr vm); lia. }
  intros l2 Hl2.
  case_bool_decide as Hne; [|by apply yields_Ok].
  apply yields_swap_perm; [lia|lia|]. intros v' Hl' Hp'.
  eapply yields_mono. { apply IH; lia. }
  intros v'' [Hl'' Hp'']. split; [lia|]. by rewrite Hp''.
Qed.

Lemma buildHeap_returns vec :
  yields (buildHeap vec) (λ vec', len vec' = len vec ∧ vec' ≡ₚ vec).
Proof.
  unfold buildHeap. cbv zeta.
  pose proof (len_nonneg vec) as Hn.
  assert (0 ≤ len vec ÷ 2 ∧ len vec ÷ 2 ≤ len vec) as Hq.
  { rewrite Z.quot_div_nonneg by lia. Z.div_mod_to_equations. lia. }
  apply (for_down_inv (λ _ v, len v = len vec ∧ v ≡ₚ vec)); [lia|done| |done].
  intros i v Hi [Hlv Hpv].
  eapply yields_mono.
  { apply heapify_returns; [lia|lia|lia|]. unfold len in *. lia. }
  intros v' [Hl' Hp']. split; [lia|]. by rewrite Hp'.
Qed.

Lemma HeapSort_returns vec :
  yields (HeapSort vec) (λ out, out ≡ₚ vec).
Proof.
  unfold HeapSort. cbv zeta.
  pose proof (len_nonneg vec) as Hn.
  eapply yields_bind; [apply buildHeap_returns|].
  intros v0 [Hl0 Hp0].
  apply (for_down_inv (λ _ v, len v = len vec ∧ v ≡ₚ vec));
    [lia|done| |by intros v [_ ?]].
  intros i v Hi [Hlv Hpv].
  apply yields_swap_perm; [lia|lia|]. intros v' Hl' Hp'.
  eapply yields_mono.
  { apply heapify_returns; [lia|lia|lia|]. unfold len in *. lia. }
  intros v'' [Hl'' Hp'']. split; [lia|]. by rewrite Hp'', Hp'.
Qed.
End Returns.

(** * What the linear sorts return, when they return *)



Section LinearSortsReturn.
Context {A : Type}.

(** [GeneralCountingSort] panics when the greatest key is no length
    that [make] accepts, so what it returns is sorted by key. *)
Lemma GeneralCountingSortBy_Ok_inv (key : A → Z) (zeroA : A) (vec out : list A) :
  len vec < 2 ^ 64 →
  (∀ v, v ∈ vec → 0 ≤ key v < 2 ^ 64) →
  GeneralCountingSortBy key zeroA vec = Ok out →
  sorted_by_key key vec out.
Proof.
  intros Hlen Hkey Hrun.
  destruct (decide (len vec ≤ 1)) as [Hshort|Hlong].
  { unfold GeneralCountingSortBy in Hrun.
    rewrite bool_decide_true in Hrun by done. injection Hrun as <-.
    by apply sorted_by_key_refl. }
  destruct (keys_max_elem key vec) as (w & Hw & HM); [lia|].
  pose proof (keys_max key vec _ ltac:(lia) HM) as Hmax.
  destruct (decide (key w < 2 ^ 45)) as [Hsmall|Hbig].
  - destruct (GeneralCountingSortBy_sorts key zeroA vec Hlen) as (o & Ho & Hs).
    { intros v Hv. specialize (Hmax v Hv). apply Hkey in Hv. lia. }
    by assert (o = out) as <- by congruence.
  - exfalso. unfold GeneralCountingSortBy in Hrun.
    rewrite bool_decide_false in Hrun by done. rewrite HM in Hrun.
    simpl in Hrun. pose proof (Hkey w Hw) as Hkw.
    destruct (decide (key w + 1 = 2 ^ 64)) as [Hwrap|Hno].
    + replace (wrap64 (key w + 1)) with 0 in Hrun
        by (unfold wrap64; rewrite Hwrap; done).
      destruct vec as [|x vec]; [unfold len in Hlong; simpl in Hlong; lia|].
      simpl in Hrun. unfold incr, get, idx in Hrun. simpl in Hrun.
      rewrite bool_decide_false in Hrun by (unfold len; simpl; lia).
      done.
    + rewrite wrap64_small in Hrun by lia.
      rewrite make_Panic in Hrun; [done|].
      unfold maxAlloc, sizeof_uint. lia.
Qed.


End LinearSortsReturn.

(** ** Slices of at most one element *)

Section Short.
Context {T : Type} `{Ordered T}.

Lemma comparison_sorts_short (vec : list T) :
  len vec ≤ 1 →
  SimpleSort vec = Ok vec ∧ SelectionSort vec = Ok vec ∧
  BubbleSort vec = Ok vec ∧ InsertionSort vec = Ok vec ∧
  MergeSort vec = Ok vec ∧ QuickSort vec = Ok vec ∧ HeapSort vec = Ok vec.
Proof.
  intros Hlen.
  destruct vec as [|x [|y vec]]; [| |unfold len in Hlen; simpl in Hlen; lia];
    repeat split; reflexivity.
Qed.
End Short.

Lemma linear_sorts_short (ints : list Z) (strs : list gostring)
    (floats : list float64) (int_overflow : float64 → Z) :
  len ints ≤ 1 → len strs ≤ 1 → len floats ≤ 1 →
  GeneralCountingSort ints = Ok ints ∧ IntegerCountingSort ints = Ok ints ∧
  IntRadixSort ints = Ok ints ∧ LessEfficientRadixSort ints = Ok ints ∧
  StringRadixSort strs = Ok strs ∧ BucketSort int_overflow floats = Ok floats.
Proof.
  intros Hi Hs Hf.
  unfold GeneralCountingSort, GeneralCountingSortBy, IntegerCountingSort,
    IntRadixSort, IntRadixSortBy, LessEfficientRadixSort,
    LessEfficientRadixSortBy, StringRadixSort, StringRadixSortBy, BucketSort.
  by rewrite !bool_decide_true by done.
Qed.
(** * The comparison sorts with two orders that agree on the elements *)

Section AgreeLoops.
Context {S : Type}.

Lemma agree_mono (r1 r2 : result S) (Q Q' : S → Prop) :
  agree r1 r2 Q → (∀ a, Q a → Q' a) → agree r1 r2 Q'.
Proof. intros [Heq HQ] Himp. split; [done|]. intros a Ha. by apply Himp, HQ. Qed.

Lemma agree_eq (r1 r2 : result S) (Q : S → Prop) : agree r1 r2 Q → r1 = r2.
Proof. by intros [? _]. Qed.

Lemma agree_for_down_from (Inv : S → Prop) (body1 body2 : Z → S → result S)
    n hi s :
  Inv s →
  (∀ i s, hi - Z.of_nat n < i ≤ hi → Inv s →
     agree (body1 i s) (body2 i s) Inv) →
  agree (for_down_from n hi body1 s) (for_down_from n hi body2 s) Inv.
Proof.
  revert hi s. induction n as [|n IH]; intros hi s Hs Hbody; simpl.
  - by apply agree_Ok.
  - eapply agree_bind; [apply Hbody; [lia|done]|].
    intros s' Hs'. apply IH; [done|]. intros i s0 Hi. apply Hbody. lia.
Qed.

Lemma agree_for_down (Inv : S → Prop) (body1 body2 : Z → S → result S)
    hi lo s :
  Inv s →
  (∀ i s, lo ≤ i ≤ hi → Inv s → agree (body1 i s) (body2 i s) Inv) →
  agree (for_down hi lo body1 s) (for_down hi lo body2 s) Inv.
Proof.
  intros Hs Hbody. apply agree_for_down_from; [done|].
  intros i s0 Hi. apply Hbody. lia.
Qed.

Lemma agree_for_up_break_from (Inv : S → Prop)
    (body1 body2 : Z → S → result (S * bool)) n lo s :
  Inv s →
  (∀ i s, lo ≤ i < lo + Z.of_nat n → Inv s →
     agree (body1 i s) (body2 i s) (λ '(s', _), Inv s')) →
  agree (for_up_break_from n lo body1 s) (for_up_break_from n lo body2 s) Inv.
Proof.
  revert lo s. induction n as [|n IH]; intros lo s Hs Hbody; simpl.
  - by apply agree_Ok.
  - eapply agree_bind; [apply Hbody; [lia|done]|].
    intros [s' broke] Hs'. destruct broke; [by apply agree_Ok|].
    apply IH; [done|]. intros i s0 Hi. apply Hbody. lia.
Qed.

Lemma agree_for_up_break (Inv : S → Prop)
    (body1 body2 : Z → S → result (S * bool)) lo hi s :
  Inv s →
  (∀ i s, lo ≤ i < hi → Inv s →
     agree (body1 i s) (body2 i s) (λ '(s', _), Inv s')) →
  agree (for_up_break lo hi body1 s) (for_up_break lo hi body2 s) Inv.
Proof.
  intros Hs Hbody. apply agree_for_up_break_from; [done|].
  intros i s0 Hi. apply Hbody. lia.
Qed.

Lemma agree_while (Inv : S → Prop) (cond1 cond2 : S → result bool)
    (body1 body2 : S → result S) fuel s :
  Inv s →
  (∀ s, Inv s → cond1 s = cond2 s) →
  (∀ s, Inv s → agree (body1 s) (body2 s) Inv) →
  agree (while fuel cond1 body1 s) (while fuel cond2 body2 s) Inv.
Proof.
  intros Hs Hcond Hbody. revert s Hs.
  induction fuel as [|fuel IH]; intros s Hs; [by split|].
  rewrite !while_unfold, <- (Hcond s Hs).
  destruct (cond1 s) as [[]| |]; simpl; [|by apply agree_Ok|by split..].
  eapply agree_bind; [by apply Hbody|]. intros s' Hs'. by apply IH.
Qed.
End AgreeLoops.

Section SortsAgree.
Context {T : Type} (O1 O2 : Ordered T) (P : T → Prop).
Hypothesis Hltb : ∀ x y, P x → P y → @ltb T O1 x y = @ltb T O2 x y.
Hypothesis Hleb : ∀ x y, P x → P y → @leb T O1 x y = @leb T O2 x y.
Hypothesis Hgtb : ∀ x y, P x → P y → @gtb T O1 x y = @gtb T O2 x y.
Hypothesis Hzero : @zero T O1 = @zero T O2.
Implicit Types (vec tmp : list T).

Lemma agree_get vec i :
  Forall P vec → agree (get vec i) (get vec i) P.
Proof. intros HP. apply agree_refl. intros x. by apply get_Forall. Qed.

Lemma agree_swap vec i j :
  Forall P vec → agree (swap vec i j) (swap vec i j) (Forall P).
Proof. intros HP. apply agree_refl. intros v. by apply swap_Forall. Qed.

Lemma set_Forall vec i x vec' :
  Forall P vec → P x → set vec i x = Ok vec' → Forall P vec'.
Proof.
  intros HP Hx. unfold set. case_bool_decide; [|done]. intros [= <-].
  by apply Forall_insert.
Qed.

Lemma agree_set vec i x :
  Forall P vec → P x → agree (set vec i x) (set vec i x) (Forall P).
Proof. intros HP Hx. apply agree_refl. intros v. by apply set_Forall. Qed.

Lemma SimpleSort_agree vec :
  Forall P vec → @SimpleSort T O1 vec = @SimpleSort T O2 vec.
Proof using Hltb.
  intros HP. unfold SimpleSort. apply (agree_eq _ _ (Forall P)).
  apply agree_for_up; [done|]. intros i v _ Hv.
  apply agree_for_up; [done|]. intros j v' _ Hv'.
  eapply agree_bind; [by apply agree_get|]. intros vj Hvj.
  eapply agree_bind; [by apply agree_get|]. intros vi Hvi.
  rewrite Hltb by done.
  destruct (@ltb T O2 vj vi); [by apply agree_swap|by apply agree_Ok].
Qed.

Lemma SelectionSort_agree vec :
  Forall P vec → @SelectionSort T O1 vec = @SelectionSort T O2 vec.
Proof using Hltb.
  intros HP. unfold SelectionSort. apply (agree_eq _ _ (Forall P)).
  apply agree_for_up; [done|]. intros i v _ Hv. cbv zeta.
  eapply (agree_bind _ _ _ _ (λ _, True)).
  { apply agree_for_up; [done|]. intros j m _ _.
    eapply agree_bind; [by apply agree_get|]. intros vj Hvj.
    eapply agree_bind; [by apply agree_get|]. intros vm Hvm.
    rewrite Hltb by done. by apply agree_Ok. }
  intros m _. case_bool_decide; [by apply agree_swap|by apply agree_Ok].
Qed.

Lemma BubbleSort_agree vec :
  Forall P vec → @BubbleSort T O1 vec = @BubbleSort T O2 vec.
Proof using Hgtb.
  intros HP. unfold BubbleSort. apply (agree_eq _ _ (Forall P)).
  apply agree_for_up_break; [done|]. intros i v _ Hv. cbv zeta.
  eapply (agree_bind _ _ _ _ (λ '(v', _), Forall P v')).
  { apply (agree_for_up (λ '(v', _), Forall P v')); [done|].
    intros j [v' sw] _ Hv'.
    eapply agree_bind; [by apply agree_get|]. intros vj Hvj.
    eapply agree_bind; [by apply agree_get|]. intros vj1 Hvj1.
    rewrite Hgtb by done.
    destruct (@gtb T O2 vj vj1); [|by apply agree_Ok].
    eapply agree_bind; [by apply agree_swap|]. intros v'' Hv''.
    by apply agree_Ok. }
  intros [v' sw] Hv'. by apply agree_Ok.
Qed.

Lemma InsertionSort_agree vec :
  Forall P vec → @InsertionSort T O1 vec = @InsertionSort T O2 vec.
Proof using Hltb.
  intros HP. unfold InsertionSort. apply (agree_eq _ _ (Forall P)).
  apply agree_for_up; [done|]. intros i v _ Hv.
  eapply (agree_bind _ _ _ _ (λ '(v', _), Forall P v')).
  { apply (agree_while (λ '(v', _), Forall P v')); [done| |].
    - intros [v' j] Hv'. case_bool_decide; [|done].
      destruct (get v' j) as [vj| |] eqn:Hj; simpl; try done.
      destruct (get v' (j - 1)) as [vj1| |] eqn:Hj1; simpl; try done.
      rewrite Hltb; [done|by eapply get_Forall..].
    - intros [v' j] Hv'.
      eapply agree_bind; [by apply agree_swap|]. intros v'' Hv''.
      by apply agree_Ok. }
  intros [v' j] Hv'. by apply agree_Ok.
Qed.

Lemma merge_agree vec tmp start mid end_ :
  Forall P vec →
  @merge T O1 vec tmp start mid end_ = @merge T O2 vec tmp start mid end_.
Proof using Hleb.
  intros HP. unfold merge. cbv zeta. f_equal.
  apply (agree_eq _ _ (λ _, True)).
  apply agree_while; [done|by intros [[[??]?]?]|].
  intros [[[t i] j] k] _.
  eapply agree_bind; [by apply agree_get|]. intros vi Hvi.
  eapply agree_bind; [by apply agree_get|]. intros vj Hvj.
  rewrite Hleb by done. by apply agree_refl.
Qed.

Lemma frame_Permutation vec vec' a b :
  0 ≤ a ≤ b → b ≤ len vec → frame vec vec' a b →
  slice vec' a b ≡ₚ slice vec a b → vec' ≡ₚ vec.
Proof.
  intros Hab Hb [Hlen Hfr] Hp.
  rewrite (slice_replace vec vec' a b), Hp by done.
  by rewrite <- slice_decompose by lia.
Qed.

Lemma mergeSortHelper_agree fuel : ∀ vec tmp start end_,
  0 ≤ start → end_ < len vec → len tmp = len vec →
  end_ - start < Z.of_nat fuel →
  Forall P vec →
  @mergeSortHelper T O1 fuel vec tmp start end_
  = @mergeSortHelper T O2 fuel vec tmp start end_.
Proof using Hleb.
  induction fuel as [|fuel IH]; intros vec tmp start end_ Hs He Ht Hf HP;
    [done|].
  simpl. case_bool_decide as Hse; [done|].
  set (mid := start + (end_ - start) ÷ 2).
  assert (start ≤ mid < end_) as Hmid.
  { unfold mid. rewrite Z.quot_div_nonneg by lia.
    Z.div_mod_to_equations. lia. }
  clearbody mid.
  rewrite (IH vec tmp start mid) by (done || lia).
  destruct (@mergeSortHelper_returns T O2 fuel vec tmp start mid)
    as ([v1 t1] & -> & Ht1 & Hfr1 & Hp1); [lia..|]. simpl.
  assert (len v1 = len vec) as Hl1 by apply Hfr1.
  assert (Forall P v1) as HP1.
  { rewrite (frame_Permutation vec v1 start (mid + 1)); [done|lia|lia|done..]. }
  rewrite (IH v1 t1 (mid + 1) end_) by (done || lia).
  destruct (@mergeSortHelper_returns T O2 fuel v1 t1 (mid + 1) end_)
    as ([v2 t2] & -> & Ht2 & Hfr2 & Hp2); [lia..|]. simpl.
  assert (len v2 = len v1) as Hl2 by apply Hfr2.
  apply merge_agree.
  rewrite (frame_Permutation v1 v2 (mid + 1) (end_ + 1)); [done|lia|lia|done..].
Qed.

Lemma MergeSort_agree vec :
  Forall P vec → @MergeSort T O1 vec = @MergeSort T O2 vec.
Proof using Hleb Hzero.
  intros HP. unfold MergeSort. case_bool_decide; [done|]. rewrite Hzero.
  rewrite mergeSortHelper_agree; [done|lia|lia| |unfold len; lia|done].
  unfold make_len, len. by rewrite length_replicate.
Qed.

Lemma heapify_agree fuel : ∀ vec i n,
  Forall P vec →
  agree (@heapify T O1 fuel vec i n) (@heapify T O2 fuel vec i n) (Forall P).
Proof using Hgtb.
  induction fuel as [|fuel IH]; intros vec i n HP; simpl; [by split|].
  eapply (agree_bind _ _ _ _ (λ _, True)).
  { case_bool_decide; [|by apply agree_Ok].
    eapply agree_bind; [by apply agree_get|]. intros vl Hvl.
    eapply agree_bind; [by apply agree_get|]. intros vm Hvm.
    rewrite Hgtb by done. by apply agree_Ok. }
  intros largest _.
  eapply (agree_bind _ _ _ _ (λ _, True)).
  { case_bool_decide; [|by apply agree_Ok].
    eapply agree_bind; [by apply agree_get|]. intros vr Hvr.
    eapply agree_bind; [by apply agree_get|]. intros vm Hvm.
    rewrite Hgtb by done. by apply agree_Ok. }
  intros largest' _. case_bool_decide; [|by apply agree_Ok].
  eapply agree_bind; [by apply agree_swap|]. intros v Hv. by apply IH.
Qed.

Lemma buildHeap_agree vec :
  Forall P vec →
  agree (@buildHeap T O1 vec) (@buildHeap T O2 vec) (Forall P).
Proof using Hgtb.
  intros HP. unfold buildHeap. cbv zeta.
  apply agree_for_down; [done|]. intros i v _ Hv. by apply heapify_agree.
Qed.

Lemma HeapSort_agree vec :
  Forall P vec → @HeapSort T O1 vec = @HeapSort T O2 vec.
Proof using Hgtb.
  intros HP. unfold HeapSort. cbv zeta. apply (agree_eq _ _ (Forall P)).
  eapply agree_bind; [by apply buildHeap_agree|]. intros v Hv.
  apply agree_for_down; [done|]. intros i v' _ Hv'.
  eapply agree_bind; [by apply agree_swap|]. intros v'' Hv''.
  by apply heapify_agree.
Qed.
End SortsAgree.
(** * The comparison sorts on the elements that the comparisons order *)

(** ** The parts of the sorts, for a total order *)

Section PartsTotal.
Context {T : Type} `{TotalOrder T}.
Implicit Types (vec : list T).

Lemma merge_runs vec (tmp : list T) (start mid end_ : Z) :
  0 ≤ start ≤ mid + 1 → mid ≤ end_ → end_ < len vec → len tmp = len vec →
  sorted (slice vec start (mid + 1)) →
  sorted (slice vec (mid + 1) (end_ + 1)) →
  yields (merge vec tmp start mid end_) (λ '(vec', _),
    frame vec vec' start (end_ + 1) ∧
    slice vec' start (end_ + 1) ≡ₚ slice vec start (end_ + 1) ∧
    sorted (slice vec' start (end_ + 1)) ∧
    stable (slice vec start (end_ + 1)) (slice vec' start (end_ + 1))).
Proof.
  intros Hs Hm He Ht Hs1%Sorted_sorted Hs2%Sorted_sorted.
  eapply yields_mono; [by apply merge_correct|].
  intros [vec' tmp'] (_ & Hfr & Hsl). split; [done|].
  rewrite Hsl, (slice_app vec start (mid + 1) (end_ + 1)) by lia.
  split; [by rewrite merge_Permutation|]. split.
  - apply Sorted_sorted. apply Sorted_list_merge; [apply _|done|done].
  - intros z. rewrite list_merge_filter by done. by rewrite filter_app.
Qed.

Lemma medianOfThree_median vec (i j k : Z) (vi vj vk : T) :
  idx vec i = Some vi → idx vec j = Some vj → idx vec k = Some vk →
  (equivb vi vj = false ∨ vk ⪯ vi →
     medianOfThree vec i j k = Ok i ∧ is_between vi vj vk ∨
     medianOfThree vec i j k = Ok j ∧ is_between vj vi vk ∨
     medianOfThree vec i j k = Ok k ∧ is_between vk vi vj) ∧
  (equivb vi vj = true → ltb vi vk = true → medianOfThree vec i j k = Ok k).
Proof.
  intros Hi Hj Hk. unfold medianOfThree, is_between.
  rewrite (get_Ok _ _ _ Hi), (get_Ok _ _ _ Hj), (get_Ok _ _ _ Hk). simpl.
  assert (equivb vi vj = false → ¬ (vi ⪯ vj ∧ vj ⪯ vi)) as Hequiv.
  { unfold equivb, le. intros Hf [H1 H2]. by rewrite H1, H2 in Hf. }
  split.
  - intros Hne.
    destruct (gtb vi vj) eqn:Hij, (gtb vi vk) eqn:Hik,
      (gtb vj vi) eqn:Hji, (gtb vj vk) eqn:Hjk; simpl; order_norm;
      first [ solve [left; split; [done|]; (left + right); split; order]
            | solve [right; left; split; [done|]; (left + right); split; order]
            | solve [right; right; split; [done|]; (left + right); split; order]
            | solve [exfalso; order]
            | idtac ].
    all: destruct Hne as [Hne|Hne];
      [exfalso; apply (Hequiv Hne); split; order|].
    all: right; right; split; [done|]; left; split; order.
  - intros [Hij Hji]%equivb_true Hik%ltb_true.
    rewrite (proj2 (gtb_false vi vj)), (proj2 (gtb_false vj vi)) by done.
    rewrite (proj2 (gtb_false vi vk)) by order.
    rewrite (proj2 (gtb_false vj vk)); [done|].
    apply not_le. intros Hkj. apply Hik. order.
Qed.

Lemma heapify_sift vec (i n : Z) :
  0 ≤ i → n ≤ len vec →
  (∀ k, i < k < n → heap_at vec n k) →
  yields (heapify (Datatypes.S (length vec)) vec i n) (λ vec',
    frame vec vec' i n ∧ vec' ≡ₚ vec ∧ heap_from vec' i n).
Proof.
  intros Hi Hn Hheap.
  apply (heapify_correct _ vec i i n); [lia|lia|lia|unfold len in *; lia| |].
  - intros k Hk Hne. apply Hheap. lia.
  - intros p c x y Hp Hpi. lia.
Qed.

Lemma buildHeap_root vec :
  yields (buildHeap vec) (λ vec',
    vec' ≡ₚ vec ∧ heap_from vec' 0 (len vec') ∧
    ∀ r x, idx vec' 0 = Some r → x ∈ vec' → x ⪯ r).
Proof.
  eapply yields_mono; [apply buildHeap_correct|].
  intros vec' (Hl & Hp & Hheap). rewrite Hl. split; [done|]. split; [done|].
  intros r x Hr [k Hk]%elem_of_idx.
  apply (heap_root_max vec' (len vec) r Hheap ltac:(lia) Hr k x); [|done].
  apply idx_Some in Hk. lia.
Qed.
End PartsTotal.

(** ** From a total order on the elements that satisfy [P] *)

Lemma filter_ext_elem_of {A} (P1 P2 : A → Prop) `{∀ x, Decision (P1 x)}
    `{∀ x, Decision (P2 x)} (l : list A) :
  (∀ x, x ∈ l → P1 x ↔ P2 x) → filter P1 l = filter P2 l.
Proof.
  induction l as [|a l IH]; intros Hl; [done|].
  rewrite !filter_cons. rewrite IH by (intros x Hx; apply Hl; by right).
  pose proof (Hl a ltac:(left)) as Ha.
  destruct (decide (P1 a)), (decide (P2 a)); tauto.
Qed.

Section OrderOn.
Context {T : Type} {O : Ordered T} (P : T → Prop) `{∀ x, Decision (P x)}.
Context {HT : TotalOrderOn P}.
Implicit Types (vec : list T) (x y : T).

Local Abbreviation O' := (extend_Ordered O P).

Lemma extend_leb_on x y : P x → P y → extend_leb P x y = leb x y.
Proof. intros Hx Hy. unfold extend_leb. by rewrite !decide_True by done. Qed.

Lemma extend_ltb x y : P x → P y → @ltb T O x y = @ltb T O' x y.
Proof. intros Hx Hy. simpl. by rewrite extend_leb_on, ltb_leb_on. Qed.

Lemma extend_leb_eq x y : P x → P y → @leb T O x y = @leb T O' x y.
Proof. intros Hx Hy. simpl. by rewrite extend_leb_on. Qed.

Lemma extend_gtb x y : P x → P y → @gtb T O x y = @gtb T O' x y.
Proof.
  intros Hx Hy. simpl. by rewrite extend_leb_on, gtb_ltb_on, ltb_leb_on.
Qed.

Lemma extend_TotalOrder : @TotalOrder T O'.
Proof.
  split; simpl.
  - intros x y. unfold extend_leb.
    destruct (decide (P x)), (decide (P y)); auto. by apply leb_total_on.
  - intros x y z. unfold extend_leb.
    destruct (decide (P x)), (decide (P y)), (decide (P z)); try done.
    by apply leb_trans_on.
  - done.
  - done.
Qed.

Lemma extend_le x y : P x → P y → @le T O' x y ↔ @le T O x y.
Proof. intros Hx Hy. unfold le. by rewrite <- extend_leb_eq. Qed.

Lemma extend_sorted vec : Forall P vec → @sorted T O' vec ↔ @sorted T O vec.
Proof.
  intros HP. rewrite Forall_forall in HP.
  split; intros Hs i j x y Hij Hx Hy;
    apply extend_le; eauto using idx_elem_of.
Qed.

Lemma extend_stable vec vec' :
  Forall P vec → Forall P vec' →
  @stable T O' vec vec' → stable_on P vec vec'.
Proof.
  intros HP HP' Hst x Hx. rewrite Forall_forall in HP, HP'.
  specialize (Hst x).
  rewrite (filter_ext_elem_of (λ y, @equivb T O x y) (λ y, @equivb T O' x y) vec'),
    (filter_ext_elem_of (λ y, @equivb T O x y) (λ y, @equivb T O' x y) vec);
    [done| |]; intros y Hy; unfold equivb;
    rewrite !extend_leb_eq by auto; done.
Qed.

Lemma extend_sorted_range vec lo hi :
  Forall P vec → @sorted_range T O' vec lo hi ↔ @sorted_range T O vec lo hi.
Proof.
  intros HP. rewrite Forall_forall in HP.
  split; intros Hs a b x y Hab Hb Hx Hy;
    apply extend_le; eauto using idx_elem_of.
Qed.

Lemma extend_heap_at vec n k :
  Forall P vec → @heap_at T O' vec n k ↔ @heap_at T O vec n k.
Proof.
  intros HP. rewrite Forall_forall in HP.
  split; intros Hs c x y Hc Hn Hx Hy;
    apply extend_le; eauto using idx_elem_of.
Qed.

Lemma extend_heap_from vec lo n :
  Forall P vec → @heap_from T O' vec lo n ↔ @heap_from T O vec lo n.
Proof.
  intros HP. split; intros Hh k Hk; apply extend_heap_at; auto;
    apply Hh; auto.
Qed.

Lemma Forall_slice vec a b : Forall P vec → Forall P (slice vec a b).
Proof. intros HP. unfold slice. by apply Forall_take, Forall_drop. Qed.

(** *** The seven sorts *)

Lemma SimpleSort_on vec :
  Forall P vec → yields (SimpleSort vec) (λ out, out ≡ₚ vec ∧ sorted out).
Proof.
  intros HP. rewrite (SimpleSort_agree O O' P extend_ltb vec HP).
  eapply yields_mono; [apply (@SimpleSort_correct T O' extend_TotalOrder)|].
  intros out [Hp Hs]. split; [done|]. apply extend_sorted; [|done].
  by rewrite Hp.
Qed.

Lemma SelectionSort_on vec :
  Forall P vec → yields (SelectionSort vec) (λ out, out ≡ₚ vec ∧ sorted out).
Proof.
  intros HP. rewrite (SelectionSort_agree O O' P extend_ltb vec HP).
  eapply yields_mono; [apply (@SelectionSort_correct T O' extend_TotalOrder)|].
  intros out [Hp Hs]. split; [done|]. apply extend_sorted; [|done].
  by rewrite Hp.
Qed.

Lemma BubbleSort_on vec :
  Forall P vec →
  yields (BubbleSort vec)
    (λ out, out ≡ₚ vec ∧ sorted out ∧ stable_on P vec out).
Proof.
  intros HP. rewrite (BubbleSort_agree O O' P extend_gtb vec HP).
  eapply yields_mono; [apply (@BubbleSort_correct T O' extend_TotalOrder)|].
  intros out (Hp & Hs & Hst). assert (Forall P out) by (by rewrite Hp).
  split; [done|]. split; [by apply extend_sorted|by apply extend_stable].
Qed.

Lemma InsertionSort_on vec :
  Forall P vec →
  yields (InsertionSort vec)
    (λ out, out ≡ₚ vec ∧ sorted out ∧ stable_on P vec out).
Proof.
  intros HP. rewrite (InsertionSort_agree O O' P extend_ltb vec HP).
  eapply yields_mono; [apply (@InsertionSort_correct T O' extend_TotalOrder)|].
  intros out (Hp & Hs & Hst). assert (Forall P out) by (by rewrite Hp).
  split; [done|]. split; [by apply extend_sorted|by apply extend_stable].
Qed.

Lemma MergeSort_on vec :
  Forall P vec →
  yields (MergeSort vec)
    (λ out, out ≡ₚ vec ∧ sorted out ∧ stable_on P vec out).
Proof.
  intros HP. rewrite (MergeSort_agree O O' P extend_leb_eq eq_refl vec HP).
  eapply yields_mono; [apply (@MergeSort_correct T O' extend_TotalOrder)|].
  intros out (Hp & Hs & Hst). assert (Forall P out) by (by rewrite Hp).
  split; [done|]. split; [by apply extend_sorted|by apply extend_stable].
Qed.

Lemma QuickSort_on vec :
  Forall P vec → yields (QuickSort vec) (λ out, out ≡ₚ vec ∧ sorted out).
Proof.
  intros HP. rewrite (QuickSort_agree O O' P extend_leb_eq extend_gtb vec HP).
  eapply yields_mono; [apply (@QuickSort_correct T O' extend_TotalOrder)|].
  intros out [Hp Hs]. split; [done|]. apply extend_sorted; [|done].
  by rewrite Hp.
Qed.

Lemma HeapSort_on vec :
  Forall P vec → yields (HeapSort vec) (λ out, out ≡ₚ vec ∧ sorted out).
Proof.
  intros HP. rewrite (HeapSort_agree O O' P extend_gtb vec HP).
  eapply yields_mono; [apply (@HeapSort_correct T O' extend_TotalOrder)|].
  intros out [Hp Hs]. split; [done|]. apply extend_sorted; [|done].
  by rewrite Hp.
Qed.

(** *** Their parts *)

Lemma merge_on vec (tmp : list T) (start mid end_ : Z) :
  Forall P vec →
  0 ≤ start ≤ mid + 1 → mid ≤ end_ → end_ < len vec → len tmp = len vec →
  sorted (slice vec start (mid + 1)) →
  sorted (slice vec (mid + 1) (end_ + 1)) →
  yields (merge vec tmp start mid end_) (λ '(vec', _),
    frame vec vec' start (end_ + 1) ∧
    slice vec' start (end_ + 1) ≡ₚ slice vec start (end_ + 1) ∧
    sorted (slice vec' start (end_ + 1)) ∧
    stable_on P (slice vec start (end_ + 1)) (slice vec' start (end_ + 1))).
Proof.
  intros HP Hs Hm He Ht Hs1 Hs2.
  rewrite (merge_agree O O' P extend_leb_eq vec tmp start mid end_ HP).
  eapply yields_mono.
  { apply (@merge_runs T O' extend_TotalOrder); try done;
      apply extend_sorted; try done; by apply Forall_slice. }
  intros [vec' tmp'] (Hfr & Hp & Hso & Hst).
  assert (Forall P (slice vec' start (end_ + 1))) as HP'.
  { rewrite Hp. by apply Forall_slice. }
  split; [done|]. split; [done|].
  split; [by apply extend_sorted|].
  apply extend_stable; [by apply Forall_slice|done..].
Qed.

Lemma partition_on vec (start end_ : Z) :
  Forall P vec → 0 ≤ start < end_ → end_ < len vec →
  yields (partition vec start end_) (λ '(vec', p),
    start ≤ p ≤ end_ ∧ frame vec vec' start (end_ + 1) ∧ vec' ≡ₚ vec ∧
    ∃ pv, idx vec' p = Some pv ∧
      (∀ k x, start ≤ k < p → idx vec' k = Some x → x ⪯ pv) ∧
      (∀ k x, p < k < end_ + 1 → idx vec' k = Some x → pv ⪯ x)).
Proof.
  intros HP Hs He.
  rewrite (agree_eq _ _ _
    (partition_agree O O' P extend_leb_eq extend_gtb vec start end_ HP)).
  eapply yields_mono;
    [by apply (@partition_correct T O' extend_TotalOrder)|].
  intros [vec' p] (Hp & Hfr & Hperm & pv & Hpv & Hle & Hge).
  assert (Forall P vec') as HP' by (by rewrite Hperm).
  rewrite Forall_forall in HP'.
  split; [done|]. split; [done|]. split; [done|].
  exists pv. split; [done|].
  split; intros k x Hk Hx; apply extend_le; eauto using idx_elem_of.
Qed.

Lemma medianOfThree_on vec (i j k : Z) (vi vj vk : T) :
  P vi → P vj → P vk →
  idx vec i = Some vi → idx vec j = Some vj → idx vec k = Some vk →
  (equivb vi vj = false ∨ vk ⪯ vi →
     medianOfThree vec i j k = Ok i ∧ is_between vi vj vk ∨
     medianOfThree vec i j k = Ok j ∧ is_between vj vi vk ∨
     medianOfThree vec i j k = Ok k ∧ is_between vk vi vj) ∧
  (equivb vi vj = true → ltb vi vk = true → medianOfThree vec i j k = Ok k).
Proof.
  intros Pi Pj Pk Hi Hj Hk.
  assert (@medianOfThree T O vec i j k = @medianOfThree T O' vec i j k) as ->.
  { unfold medianOfThree.
    rewrite (get_Ok _ _ _ Hi), (get_Ok _ _ _ Hj), (get_Ok _ _ _ Hk).
    cbn [mbind result_bind]. by rewrite !extend_gtb by done. }
  destruct (@medianOfThree_median T O' extend_TotalOrder vec i j k vi vj vk
    Hi Hj Hk) as [Hmed Htie].
  unfold is_between, equivb in *.
  rewrite !extend_leb_eq, extend_ltb by done.
  split; [|done].
  intros Hne. rewrite <- (extend_le vk vi) in Hne by done.
  rewrite <- !(extend_le vi vj), <- !(extend_le vj vi),
    <- !(extend_le vi vk), <- !(extend_le vk vi),
    <- !(extend_le vj vk), <- !(extend_le vk vj) by done.
  by apply Hmed.
Qed.

Lemma heapify_on vec (i n : Z) :
  Forall P vec → 0 ≤ i → n ≤ len vec →
  (∀ k, i < k < n → heap_at vec n k) →
  yields (heapify (Datatypes.S (length vec)) vec i n) (λ vec',
    frame vec vec' i n ∧ vec' ≡ₚ vec ∧ heap_from vec' i n).
Proof.
  intros HP Hi Hn Hheap.
  rewrite (agree_eq _ _ _ (heapify_agree O O' P extend_gtb _ vec i n HP)).
  eapply yields_mono.
  { apply (@heapify_sift T O' extend_TotalOrder); [done|done|].
    intros k Hk. apply extend_heap_at; auto. }
  intros vec' (Hfr & Hp & Hh). split; [done|]. split; [done|].
  apply extend_heap_from; [by rewrite Hp|done].
Qed.

Lemma buildHeap_on vec :
  Forall P vec →
  yields (buildHeap vec) (λ vec',
    vec' ≡ₚ vec ∧ heap_from vec' 0 (len vec') ∧
    ∀ r x, idx vec' 0 = Some r → x ∈ vec' → x ⪯ r).
Proof.
  intros HP.
  rewrite (agree_eq _ _ _ (buildHeap_agree O O' P extend_gtb vec HP)).
  eapply yields_mono; [apply (@buildHeap_root T O' extend_TotalOrder)|].
  intros vec' (Hp & Hh & Hroot).
  assert (Forall P vec') as HP' by (by rewrite Hp).
  split; [done|]. split; [by apply extend_heap_from|].
  intros r x Hr Hx. rewrite Forall_forall in HP'.
  apply extend_le; eauto using idx_elem_of.
Qed.

Lemma quickSortHelper_on (fuel : nat) vec (start end_ : Z) :
  Forall P vec →
  (length vec < fuel)%nat → 0 ≤ start → end_ < len vec →
  yields (quickSortHelper fuel vec start end_) (λ vec',
    frame vec vec' start (end_ + 1) ∧ vec' ≡ₚ vec ∧
    sorted_range vec' start (end_ + 1)).
Proof.
  intros HP Hf Hs He.
  rewrite (agree_eq _ _ _ (quickSortHelper_agree O O' P extend_leb_eq
    extend_gtb fuel vec start end_ HP)).
  eapply yields_mono.
  { apply (@quickSortHelper_correct T O' extend_TotalOrder);
      unfold len in *; lia. }
  intros vec' (Hfr & Hp & Hso). split; [done|]. split; [done|].
  apply extend_sorted_range; [by rewrite Hp|done].
Qed.

Lemma mergeSortHelper_on (fuel : nat) vec (tmp : list T) (start end_ : Z) :
  Forall P vec →
  (length vec ≤ fuel)%nat →
  0 ≤ start ≤ end_ → end_ < len vec → len tmp = len vec →
  yields (mergeSortHelper fuel vec tmp start end_) (λ '(vec', _),
    frame vec vec' start (end_ + 1) ∧
    slice vec' start (end_ + 1) ≡ₚ slice vec start (end_ + 1) ∧
    sorted (slice vec' start (end_ + 1)) ∧
    stable_on P (slice vec start (end_ + 1)) (slice vec' start (end_ + 1))).
Proof.
  intros HP Hf Hs He Ht.
  rewrite (mergeSortHelper_agree O O' P extend_leb_eq fuel vec tmp start end_)
    by (done || unfold len in *; lia).
  eapply yields_mono.
  { apply (@mergeSortHelper_correct T O' extend_TotalOrder);
      [done|done|done|]. unfold len in *. lia. }
  intros [vec' tmp'] (_ & Hfr & Hp & Hso & Hst).
  assert (Forall P (slice vec' start (end_ + 1))) as HP'.
  { rewrite Hp. by apply Forall_slice. }
  split; [done|]. split; [done|]. split.
  - apply extend_sorted; [done|].
    by apply (@Sorted_sorted T O' extend_TotalOrder).
  - apply extend_stable; [by apply Forall_slice|done..].
Qed.
End OrderOn.

(** ** The orders of the element types *)


(** The comparisons of the floats are a total order on the numbers. *)
Lemma float64_TotalOrderOn :
  @TotalOrderOn float64 float64_Ordered (λ x, is_nan x = false).
Proof.
  pose proof fkey_TotalOrder as HT.
  split; simpl.
  - intros x y Hx Hy. rewrite !SFleb_fkey by done.
    apply (@leb_total _ fkey_Ordered HT).
  - intros x y z Hx Hy Hz. rewrite !SFleb_fkey by done.
    apply (@leb_trans _ fkey_Ordered HT).
  - intros x y Hx Hy. rewrite SFltb_fkey, SFleb_fkey by done. done.
  - intros x y Hx Hy. rewrite f64_gtb_fkey, SFltb_fkey by done. done.
Qed.
(** * The radix sorts on every slice of [uint]s *)

Section WhileExit.
Context {S : Type}.

(** The condition is false of the state that a loop returns. *)
Lemma while_Ok_exit fuel (cond : S → result bool) (body : S → result S) s r :
  while fuel cond body s = Ok r → cond r = Ok false.
Proof.
  revert s. induction fuel as [|fuel IH]; intros s; [done|].
  rewrite while_unfold.
  destruct (cond s) as [[]| |] eqn:Hc; simpl; try done.
  - destruct (body s) as [s'| |] eqn:Hb; simpl; try done. apply IH.
  - by intros [= <-].
Qed.
End WhileExit.

(** The weights of the digit loop *)
Lemma radix_weight_nonzero (j : nat) :
  (j < 64)%nat → wrap64 (10 ^ Z.of_nat j) ≠ 0.
Proof.
  intros Hj.
  assert (forallb (λ i, negb (wrap64 (10 ^ Z.of_nat i) =? 0)) (seq 0 64) = true)
    as Hall by (vm_compute; reflexivity).
  rewrite forallb_forall in Hall. specialize (Hall j).
  rewrite in_seq in Hall. specialize (Hall ltac:(lia)).
  apply negb_true_iff, Z.eqb_neq in Hall. done.
Qed.

Lemma radix_weight_limit (j : nat) :
  (j < 64)%nat → wrap64 (10 ^ Z.of_nat j) ≤ radix_limit.
Proof.
  intros Hj.
  assert (forallb (λ i, wrap64 (10 ^ Z.of_nat i) <=? radix_limit) (seq 0 64) = true)
    as Hall by (vm_compute; reflexivity).
  rewrite forallb_forall in Hall. specialize (Hall j).
  rewrite in_seq in Hall. specialize (Hall ltac:(lia)).
  by apply Z.leb_le in Hall.
Qed.

Lemma radix_weight_49 : wrap64 (10 ^ Z.of_nat 49) = radix_limit.
Proof. by vm_compute. Qed.

Section RadixGroups.
Context {A : Type} (key : A → Z) (zeroA : A).
Implicit Types (vec : list A) (exp : Z).

Local Abbreviation digit := (digit key).
Local Abbreviation group_le := (group_le key).

(** Before the first pass *)
Lemma group_le_start vec : StronglySorted (group_le 1 0 true) vec.
Proof.
  eapply StronglySorted_impl_elem_of; [apply StronglySorted_True|].
  intros x y _ _ _. right. simpl. rewrite !Z.mod_1_r. done.
Qed.

(** A group of passes that starts on a list in the order of its keys *)
Lemma group_le_restart vec e0 :
  StronglySorted (λ x y, key x ≤ key y) vec →
  StronglySorted (group_le e0 0 false) vec.
Proof.
  intros Hs. eapply StronglySorted_impl_elem_of; [exact Hs|].
  intros x y _ _ Hxy. right. simpl. rewrite !Z.mod_1_r. done.
Qed.

(** One more pass of a group *)
Lemma group_le_pass vec e0 (t : nat) first :
  0 < e0 →
  StronglySorted (group_le e0 t first) vec →
  StronglySorted (group_le e0 (Datatypes.S t) first)
    (bucket_sort (digit (e0 * 10 ^ Z.of_nat t)) 10 vec).
Proof.
  intros He0 Hs. pose proof (pow10_pos t) as Hpos.
  assert (∀ v, digit (e0 * 10 ^ Z.of_nat t) v
    = (key v / e0 / 10 ^ Z.of_nat t) mod 10) as Hd.
  { intros v. unfold digit. by rewrite Z.div_div by lia. }
  eapply bucket_sort_StronglySorted; [exact Hs| |].
  - intros v w. rewrite !Hd. intros Hvw Hle. unfold group_le in *.
    rewrite pow10_succ, !mod_next_digit by done. rewrite Hvw.
    destruct Hle as [Hlt|[Heq Hk]]; [left; lia|right; split; [lia|done]].
  - intros v w. rewrite !Hd. intros Hvw. left.
    rewrite pow10_succ, !mod_next_digit by done.
    pose proof (Z.mod_pos_bound (key v / e0) _ Hpos).
    pose proof (Z.mod_pos_bound (key w / e0) _ Hpos).
    nia.
Qed.

(** The digits of a group that reach above the keys put them in
    order. *)
Lemma group_le_sorted vec e0 (t : nat) first (B : Z) :
  0 < e0 → (first = true → e0 = 1) →
  B ≤ e0 * 10 ^ Z.of_nat t →
  (∀ v, v ∈ vec → 0 ≤ key v < B) →
  StronglySorted (group_le e0 t first) vec →
  StronglySorted (λ x y, key x ≤ key y) vec.
Proof.
  intros He0 Hfirst HB Hkey Hs.
  eapply StronglySorted_impl_elem_of; [exact Hs|].
  intros x y Hx Hy. apply Hkey in Hx, Hy. unfold group_le.
  pose proof (pow10_pos t) as Hpos.
  assert (∀ k, 0 ≤ k < B → 0 ≤ k / e0 < 10 ^ Z.of_nat t) as Hq.
  { intros k Hk. split; [apply Z.div_pos; lia|].
    apply Z.div_lt_upper_bound; lia. }
  rewrite !Z.mod_small by auto.
  destruct first.
  - rewrite (Hfirst eq_refl), !Z.div_1_r. lia.
  - intros [Hlt|[_ Hle]]; [|auto].
    destruct (decide (key x ≤ key y)) as [|Hgt]; [done|].
    assert (key y / e0 ≤ key x / e0); [|lia].
    apply Z.div_le_mono; lia.
Qed.

Lemma radix_cond_false (max exp : Z) :
  0 ≤ max → 0 ≤ exp →
  (q ← udiv max exp; Ok (bool_decide (q > 0))) = Ok false →
  0 < exp ∧ max < exp.
Proof.
  intros Hmax Hexp. unfold udiv. case_bool_decide as He; [done|]. simpl.
  intros [= Hq]. apply bool_decide_eq_false in Hq.
  split; [lia|]. destruct (decide (max < exp)) as [|Hge]; [done|].
  pose proof (Z.div_str_pos max exp ltac:(lia)). lia.
Qed.

(** What the digit loop keeps: the weight is [0], or the weight of
    the next pass of a group. *)
Lemma radix_loop_sorted vec (max : Z) fuel out e :
  len vec < 2 ^ 64 →
  (∀ w, w ∈ vec → 0 ≤ key w ≤ max) → max < 2 ^ 64 → 0 ≤ max →
  while fuel
    (λ '(vec, exp), q ← udiv max exp; Ok (bool_decide (q > 0)))
    (λ '(vec, exp),
      vec ← radixIntCountSortBy key zeroA vec exp;
      Ok (vec, wrap64 (exp * 10))) (vec, 1) = Ok (out, e) →
  StronglySorted (λ x y, key x ≤ key y) out.
Proof.
  intros Hlen Hkey Hmax Hmax0 Hrun.
  pose proof (while_Ok_exit _ _ _ _ _ Hrun) as Hexit.
  apply (while_Ok_inv (λ '(v, exp), len v = len vec ∧ v ≡ₚ vec ∧
    0 ≤ exp < 2 ^ 64 ∧
    (exp = 0 ∨ ∃ e0 (t : nat) first, exp = e0 * 10 ^ Z.of_nat t ∧ 0 < e0 ∧
       (first = true → e0 = 1) ∧ StronglySorted (group_le e0 t first) v)))
    in Hrun.
  - destruct Hrun as (_ & Hp & Hrange & Hgroup).
    apply radix_cond_false in Hexit as [He Hlt]; [|done|lia].
    destruct Hgroup as [?|(e0 & t & first & -> & He0 & Hfirst & Hs)]; [lia|].
    apply (group_le_sorted out e0 t first (max + 1)); try done; [lia|].
    intros v Hv. rewrite Hp in Hv. apply Hkey in Hv. lia.
  - split; [done|]. split; [done|]. split; [lia|]. right.
    exists 1, 0%nat, true. split; [done|]. split; [lia|]. split; [done|].
    apply group_le_start.
  - intros [v1 e1] [v2 e2] (Hl1 & Hp1 & Hr1 & Hg1) [He _]%radix_cond_true.
    rewrite radixIntCountSortBy_correct by (done || lia). simpl.
    intros [= <- <-].
    destruct Hg1 as [?|(e0 & t & first & -> & He0 & Hfirst & Hs)]; [done|].
    pose proof (group_le_pass v1 e0 t first He0 Hs) as Hs'.
    split; [|split; [|split]].
    + unfold len in *. rewrite length_bucket_sort; [done|].
      intros w _. apply digit_range.
    + by rewrite radix_pass_Permutation.
    + unfold wrap64. apply Z.mod_pos_bound. lia.
    + destruct (decide (wrap64 (e0 * 10 ^ Z.of_nat t * 10) = 0)) as [|Hw];
        [by left|right].
      destruct (decide (e0 * 10 ^ Z.of_nat t * 10 < 2 ^ 64)) as [Hsmall|Hbig].
      * exists e0, (Datatypes.S t), first.
        rewrite wrap64_small, pow10_succ by lia.
        split; [lia|]. done.
      * exists (wrap64 (e0 * 10 ^ Z.of_nat t * 10)), 0%nat, false.
        split; [simpl; lia|]. split.
        { pose proof (Z.mod_pos_bound (e0 * 10 ^ Z.of_nat t * 10) (2 ^ 64)
            ltac:(lia)). unfold wrap64 in *. lia. }
        split; [done|]. apply group_le_restart.
        apply (group_le_sorted _ e0 (Datatypes.S t) first (2 ^ 64)); try done.
        { rewrite pow10_succ. lia. }
        intros w Hw'. rewrite radix_pass_Permutation, Hp1 in Hw'.
        apply Hkey in Hw'. lia.
Qed.

(** Whatever [IntRadixSort] returns for a slice of [uint] keys is the
    slice sorted by key. *)
Lemma IntRadixSortBy_Ok_sorted vec out :
  len vec < 2 ^ 64 →
  (∀ w, w ∈ vec → 0 ≤ key w < 2 ^ 64) →
  IntRadixSortBy key zeroA vec = Ok out →
  sorted_by_key key vec out.
Proof.
  intros Hlen Hkey Hrun.
  destruct (IntRadixSortBy_stable key zeroA vec out Hlen Hrun) as [Hp Hf].
  split; [done|]. split; [done|].
  revert Hrun. unfold IntRadixSortBy. case_bool_decide as Hshort.
  { intros [= <-].
    destruct vec as [|x [|y vec]];
      [constructor| |unfold len in Hshort; simpl in Hshort; lia].
    repeat constructor. }
  destruct (keys_max_elem key vec) as (wm & Hwm & HM); [lia|].
  pose proof (keys_max key vec (key wm) ltac:(lia) HM) as Hmax.
  rewrite HM. simpl.
  destruct (while 65 _ _ _) as [[v e]| |] eqn:Hloop; simpl; try done.
  intros [= <-].
  apply (radix_loop_sorted vec (key wm) 65 v e); try done.
  - intros w Hw. split; [apply Hkey in Hw; lia|]. by apply Hmax.
  - apply Hkey in Hwm. lia.
  - apply Hkey in Hwm. lia.
Qed.

(** The digit loop from its test number [j] on: it returns when one
    of the weights to come is above [max], and panics when none is. *)
Lemma radix_loop_outcome vec (max : Z) (fuel : nat) : ∀ (j : nat) v,
  len vec < 2 ^ 64 → len v = len vec → 0 ≤ max → (fuel + j = 64)%nat →
  (Exists (λ i, max < wrap64 (10 ^ Z.of_nat i)) (seq j fuel) →
   ∃ r, while (Datatypes.S fuel)
     (λ '(vec, exp), q ← udiv max exp; Ok (bool_decide (q > 0)))
     (λ '(vec, exp),
       vec ← radixIntCountSortBy key zeroA vec exp;
       Ok (vec, wrap64 (exp * 10))) (v, wrap64 (10 ^ Z.of_nat j)) = Ok r) ∧
  (Forall (λ i, wrap64 (10 ^ Z.of_nat i) ≤ max) (seq j fuel) →
   while (Datatypes.S fuel)
     (λ '(vec, exp), q ← udiv max exp; Ok (bool_decide (q > 0)))
     (λ '(vec, exp),
       vec ← radixIntCountSortBy key zeroA vec exp;
       Ok (vec, wrap64 (exp * 10))) (v, wrap64 (10 ^ Z.of_nat j))
     = Panic DivideByZero).
Proof.
  induction fuel as [|fuel IH]; intros j v Hlen Hv Hmax Hj; rewrite while_unfold.
  - assert (j = 64%nat) as -> by lia.
    replace (wrap64 (10 ^ Z.of_nat 64)) with 0 by (vm_compute; reflexivity).
    split; [by intros ?%Exists_nil|]. intros _. unfold udiv. simpl. done.
  - pose proof (radix_weight_nonzero j ltac:(lia)) as He.
    assert (0 < wrap64 (10 ^ Z.of_nat j)) as Hpos.
    { pose proof (Z.mod_pos_bound (10 ^ Z.of_nat j) (2 ^ 64) ltac:(lia)).
      unfold wrap64 in *. lia. }
    rewrite udiv_Ok by done. simpl.
    replace (seq j (Datatypes.S fuel)) with (j :: seq (Datatypes.S j) fuel) by done.
    destruct (decide (max < wrap64 (10 ^ Z.of_nat j))) as [Hlt|Hge].
    + rewrite Z.div_small by lia. rewrite bool_decide_false by lia.
      split; [eauto|]. intros [Hh _]%Forall_cons. lia.
    + pose proof (Z.div_str_pos max (wrap64 (10 ^ Z.of_nat j)) ltac:(lia)).
      rewrite bool_decide_true by lia.
      rewrite radixIntCountSortBy_correct by (done || lia). simpl.
      replace (wrap64 (wrap64 (10 ^ Z.of_nat j) * 10))
        with (wrap64 (10 ^ Z.of_nat (Datatypes.S j))).
      2: { unfold wrap64. rewrite Z.mul_mod_idemp_l by lia.
           by rewrite pow10_succ. }
      destruct (IH (Datatypes.S j) (bucket_sort (digit (wrap64 (10 ^ Z.of_nat j))) 10 v))
        as [IH1 IH2]; [done| |done|lia|].
      { unfold len in *. rewrite length_bucket_sort; [done|].
        intros w _. apply digit_range. }
      split.
      * intros [?|?]%Exists_cons; [lia|auto].
      * intros [_ ?]%Forall_cons. auto.
Qed.

(** [IntRadixSort] returns for the slices whose greatest key is below
    the greatest weight, and panics for the others. *)
Lemma IntRadixSortBy_outcome vec (max : Z) :
  1 < len vec < 2 ^ 64 → slices_Max (key <$> vec) = Ok max → 0 ≤ max →
  (max < radix_limit → ∃ out, IntRadixSortBy key zeroA vec = Ok out) ∧
  (radix_limit ≤ max → IntRadixSortBy key zeroA vec = Panic DivideByZero).
Proof.
  intros Hlen HM Hmax. unfold IntRadixSortBy.
  rewrite bool_decide_false by lia. rewrite HM. simpl.
  destruct (radix_loop_outcome vec max 64 0 vec) as [H1 H2]; try done; [lia|].
  change (wrap64 (10 ^ Z.of_nat 0)) with 1 in H1, H2.
  split.
  - intros Hlt. destruct H1 as [[v e] ->]; [|simpl; eauto].
    apply Exists_exists. exists 49%nat. split.
    + apply elem_of_seq. lia.
    + by rewrite radix_weight_49.
  - intros Hge. rewrite H2; [done|].
    apply Forall_forall. intros i Hi%elem_of_seq.
    pose proof (radix_weight_limit i ltac:(lia)). lia.
Qed.
End RadixGroups.
(** * Bucket sort returns *)

(** The distribution into buckets and the collection of the buckets
    return a permutation for every bucket function [bidx] into the
    buckets, whatever the comparisons of [QuickSort] answer. *)
Lemma bucket_phases_returns (vec : list float64) (nb : Z) (bidx : float64 → Z) :
  (∀ x, x ∈ vec → 0 ≤ bidx x < nb) →
  0 ≤ nb → nb * sizeof_slice ≤ maxAlloc →
  yields
    (buckets ← make sizeof_slice ([] : list float64) nb;
     buckets ← for_range vec (λ val buckets,
       bucket ← get buckets (bidx val);
       set buckets (bidx val) (bucket ++ [val])) buckets;
     '(output, k, buckets) ← for_up 0 (len buckets)
       (λ i '(output, k, buckets),
         bucket ← get buckets i;
         bucket ← QuickSort bucket;
         buckets ← set buckets i bucket;
         '(output, k) ← for_range bucket (λ val '(output, k),
           output ← set output k val;
           Ok (output, k + 1)) (output, k);
         Ok (output, k, buckets))
       (make_len (zero : float64) vec, 0, buckets);
     Ok (copy vec output))
    (λ out, out ≡ₚ vec).
Proof.
  intros Hb Hnb Hsize.
  rewrite make_Ok by (unfold maxInt, maxAlloc, sizeof_slice in *; lia). simpl.
  rewrite for_range_for_up.
  eapply yields_bind.
  { apply (for_up_inv (λ i ra, len ra = nb ∧
      ∀ d, 0 ≤ d < nb →
        idx ra d = Some (filter (λ v, bidx v = d) (slice vec 0 i)))).
    - apply len_nonneg.
    - split; [rewrite len_replicate; lia|]. intros d Hd.
      rewrite slice_empty by lia. apply idx_replicate. lia.
    - intros i ra Hi [Hl Hra].
      apply yields_get_bind; [lia|intros v Hv].
      pose proof (Hb v (idx_elem_of _ _ _ Hv)) as Hbv.
      rewrite (get_Ok _ _ _ (Hra (bidx v) Hbv)). simpl.
      apply yields_set; [lia|].
      split; [by rewrite len_insert|]. intros d Hd.
      rewrite idx_insert by lia.
      rewrite (slice_snoc vec 0 i v) by (done || lia).
      rewrite filter_app, filter_cons, filter_nil.
      case_bool_decide as Hdv.
      + subst d. by rewrite decide_True.
      + rewrite decide_False, app_nil_r by done. by apply Hra.
    - intros ra Hra. rewrite slice_full in Hra. exact Hra. }
  intros ra [Hl Hra]. rewrite Hl.
  assert (∀ v, v ∈ vec → 0 ≤ bidx v) as Hpos by (intros v ?%Hb; lia).
  eapply (yields_bind _ _ (λ '(v, _, _), v ≡ₚ vec)).
  { apply (for_up_inv (λ i '(v, k, ra'), len v = len vec ∧ len ra' = nb ∧
      k = below_in bidx vec i ∧ slice v 0 k ≡ₚ bucket_sort bidx i vec ∧
      ∀ d, i ≤ d < nb → idx ra' d = Some (filter (λ v, bidx v = d) vec))).
    - lia.
    - split; [unfold make_len; by rewrite len_replicate|].
      split; [done|]. split; [by rewrite below_in_0|].
      split; [by rewrite slice_empty by lia|done].
    - clear ra Hl Hra. intros i [[v k] ra] Hi (Hlv & Hlra & Hk & Hsl & Hra).
      set (bucket := filter (λ w, bidx w = i) vec).
      assert (len bucket = count_in bidx vec i) as Hlb by done.
      pose proof (below_in_succ bidx vec i) as Hsucc.
      pose proof (below_in_bounds bidx vec (i + 1)) as Hbb1.
      pose proof (below_in_bounds bidx vec i) as Hbb.
      pose proof (count_in_bounds bidx vec i) as Hcb.
      rewrite (get_Ok _ _ _ (Hra i ltac:(lia))). simpl. fold bucket.
      eapply yields_bind; [apply QuickSort_returns|].
      intros sb Hpb.
      assert (len sb = len bucket) as Hlsb by (unfold len; by rewrite Hpb).
      apply yields_set_bind; [lia|].
      eapply (yields_bind _ _ (λ '(v', k'), len v' = len vec ∧
        k' = k + len sb ∧ slice v' 0 k' = slice v 0 k ++ sb)).
      { apply (for_range_inv (λ pre '(v', k'), len v' = len vec ∧
          k' = k + len pre ∧ slice v' 0 k' = slice v 0 k ++ pre)).
        - splits; [unfold len; simpl; lia|by rewrite app_nil_r].
        - intros pre x post [v' k'] Hsb_eq (Hlv' & Hk' & Hsl').
          assert (len sb = len pre + 1 + len post) as Hlen_sb.
          { rewrite Hsb_eq. unfold len. rewrite length_app. simpl. lia. }
          pose proof (len_nonneg pre). pose proof (len_nonneg post).
          apply yields_set_bind; [lia|]. apply yields_Ok.
          rewrite len_insert. splits.
          + unfold len. rewrite length_app. simpl. unfold len in Hk'. lia.
          + rewrite slice_insert_snoc by lia.
            by rewrite Hsl', <- app_assoc.
        - intros [v' k'] Hs. exact Hs. }
      intros [v' k'] (Hlv' & Hk' & Hsl'). apply yields_Ok.
      rewrite len_insert.
      split; [done|]. split; [done|]. split; [lia|]. split.
      + rewrite Hsl', Hsl, Hpb.
        replace (i + 1) with (Z.of_nat (Datatypes.S (Z.to_nat i))) by lia.
        by rewrite bucket_sort_succ, Z2Nat.id by lia.
      + intros d Hd. rewrite idx_insert by lia.
        rewrite bool_decide_false by lia. apply Hra. lia.
    - intros [[v k] ra'] (Hlv & _ & Hk & Hsl & _).
      rewrite below_in_all in Hk by (intros w ?%Hb; lia).
      rewrite Hk, <- Hlv, slice_full in Hsl.
      rewrite Hsl. apply bucket_sort_Permutation. done. }
  intros [[v k] ra'] Hp. apply yields_Ok.
  rewrite copy_same_length; [done|]. by rewrite Hp.
Qed.

(** [BucketSort] returns a permutation when the greatest and the least
    are equal, and when [make] accepts the number of buckets and the
    bucket computed for each element is one of them. *)
Lemma BucketSort_returns (int_overflow : float64 → Z) (vec : list float64) :
  SFeqb (min_max vec).2 (min_max vec).1 = true ∨
  (numBuckets int_overflow vec * sizeof_slice ≤ maxAlloc ∧
   ∀ x, x ∈ vec → 0 ≤ bucket_index int_overflow vec x < numBuckets int_overflow vec) →
  yields (BucketSort int_overflow vec) (λ out, out ≡ₚ vec).
Proof.
  intros Hok. unfold BucketSort.
  case_bool_decide as Hlen; [by apply yields_Ok|].
  cbv zeta. rewrite min_max_loop. fold (min_max vec).
  unfold bucket_index, numBuckets in Hok.
  revert Hok. destruct (min_max vec) as [mn mx]. simpl. intros Hok.
  destruct (SFeqb mx mn) eqn:Heq; [by apply QuickSort_returns|].
  destruct Hok as [?|[Hsize Hb]]; [done|].
  apply (bucket_phases_returns vec _ (λ val, int_of_float64 int_overflow
    (f64_mul (f64_div (f64_sub val mn) (f64_sub mx mn))
       (float64_of_int (wrapInt (wrapInt (int_of_float64 int_overflow
          (f64_div (f64_sub mx mn) (math_Sqrt (float64_of_int (len vec)))) + 1)
          - 1)))))); [done| |done].
  destruct vec as [|x vec]; [unfold len in Hlen; simpl in Hlen; lia|].
  specialize (Hb x ltac:(left)). lia.
Qed.
(** * The arithmetic of the floats *)

(** ** Rounding a quotient of integers *)

Lemma round_half_even_bounds (n d : Z) :
  0 < d → n / d ≤ round_half_even n d ≤ n / d + 1.
Proof.
  intros Hd. unfold round_half_even. cbv zeta.
  destruct (2 * (n mod d) <? d), (d <? 2 * (n mod d)), (Z.even (n / d)); lia.
Qed.

Lemma round_half_even_mono (n1 n2 d : Z) :
  0 < d → n1 ≤ n2 → round_half_even n1 d ≤ round_half_even n2 d.
Proof.
  intros Hd Hn.
  pose proof (Z.div_le_mono n1 n2 d Hd Hn) as Hq.
  destruct (decide (n1 / d = n2 / d)) as [Heq|Hne].
  - assert (n1 mod d ≤ n2 mod d) as Hr.
    { rewrite !Z.mod_eq by lia. rewrite Heq. lia. }
    unfold round_half_even. cbv zeta. rewrite Heq.
    destruct (Z.ltb_spec (2 * (n1 mod d)) d), (Z.ltb_spec d (2 * (n1 mod d))),
      (Z.ltb_spec (2 * (n2 mod d)) d), (Z.ltb_spec d (2 * (n2 mod d))),
      (Z.even (n2 / d)); lia.
  - pose proof (round_half_even_bounds n1 d Hd).
    pose proof (round_half_even_bounds n2 d Hd). lia.
Qed.

Lemma round_half_even_exact (q d : Z) :
  0 < d → round_half_even (q * d) d = q.
Proof.
  intros Hd. unfold round_half_even. cbv zeta.
  rewrite Z.div_mul, Z.mod_mul by lia.
  by rewrite (proj2 (Z.ltb_lt (2 * 0) d)) by lia.
Qed.

Lemma round_half_even_scale (n d c : Z) :
  0 < d → 0 < c → round_half_even (n * c) (d * c) = round_half_even n d.
Proof.
  intros Hd Hc. unfold round_half_even. cbv zeta.
  rewrite Z.div_mul_cancel_r by lia.
  rewrite Z.mul_mod_distr_r by lia.
  destruct (Z.ltb_spec (2 * (n mod d)) d), (Z.ltb_spec d (2 * (n mod d))),
    (Z.ltb_spec (2 * (n mod d * c)) (d * c)),
    (Z.ltb_spec (d * c) (2 * (n mod d * c))); try done; nia.
Qed.

(** ** The number of bits of an integer *)

Lemma digits2_pos_size (p : positive) : digits2_pos p = Pos.size p.
Proof. induction p as [p IH|p IH|]; simpl; by rewrite ?IH. Qed.

Lemma Zdigits2_pos (p : positive) :
  2 ^ (Zdigits2 (Z.pos p) - 1) ≤ Z.pos p < 2 ^ Zdigits2 (Z.pos p).
Proof.
  simpl. rewrite digits2_pos_size.
  pose proof (Pos.size_gt p) as Hgt. pose proof (Pos.size_le p) as Hle.
  assert (Z.pos (2 ^ Pos.size p) = 2 ^ Z.pos (Pos.size p)) as Hpow
    by (by rewrite Pos2Z.inj_pow).
  split.
  - assert (2 ^ Z.pos (Pos.size p) ≤ 2 * Z.pos p) as H2.
    { rewrite <- Hpow. change (2 * Z.pos p) with (Z.pos p~0). lia. }
    replace (Z.pos (Pos.size p)) with (Z.pos (Pos.size p) - 1 + 1) in H2 by lia.
    rewrite Z.pow_add_r in H2 by lia. lia.
  - rewrite <- Hpow. lia.
Qed.

Lemma Zdigits2_nonneg (q : Z) : 0 ≤ Zdigits2 q.
Proof. destruct q; simpl; lia. Qed.

Lemma Zdigits2_bounds (q : Z) :
  0 < q → 2 ^ (Zdigits2 q - 1) ≤ q < 2 ^ Zdigits2 q.
Proof. destruct q as [|p|p]; try lia. intros _. apply Zdigits2_pos. Qed.

Lemma Zdigits2_unique (q b : Z) :
  0 < b → 2 ^ (b - 1) ≤ q < 2 ^ b → Zdigits2 q = b.
Proof.
  intros Hb [Hlo Hhi].
  assert (0 < q) as Hq by (pose proof (Z.pow_pos_nonneg 2 (b - 1)); lia).
  pose proof (Zdigits2_bounds q Hq) as [Hlo' Hhi'].
  pose proof (Zdigits2_nonneg q).
  destruct (Z.lt_trichotomy (Zdigits2 q) b) as [Hlt|[Heq|Hgt]]; [|done|].
  - pose proof (Z.pow_le_mono_r 2 (Zdigits2 q) (b - 1) ltac:(lia) ltac:(lia)). lia.
  - pose proof (Z.pow_le_mono_r 2 b (Zdigits2 q - 1) ltac:(lia) ltac:(lia)). lia.
Qed.

Lemma Zdigits2_lt (q b : Z) : 0 ≤ q → 0 ≤ b → q < 2 ^ b → Zdigits2 q ≤ b.
Proof.
  intros Hq Hb Hlt. destruct (decide (q = 0)) as [->|Hne]; [done|].
  pose proof (Zdigits2_bounds q ltac:(lia)) as [Hlo _].
  destruct (decide (Zdigits2 q ≤ b)) as [|Hgt]; [done|].
  pose proof (Z.pow_le_mono_r 2 b (Zdigits2 q - 1) ltac:(lia) ltac:(lia)). lia.
Qed.

Lemma Zdigits2_ge (q b : Z) : 0 < b → 2 ^ (b - 1) ≤ q → b ≤ Zdigits2 q.
Proof.
  intros Hb Hle.
  assert (0 < q) as Hq by (pose proof (Z.pow_pos_nonneg 2 (b - 1)); lia).
  pose proof (Zdigits2_bounds q Hq) as [_ Hhi].
  destruct (decide (b ≤ Zdigits2 q)) as [|Hgt]; [done|].
  pose proof (Zdigits2_nonneg q).
  pose proof (Z.pow_le_mono_r 2 (Zdigits2 q) (b - 1) ltac:(lia) ltac:(lia)). lia.
Qed.

Lemma Zdigits2_mono (q1 q2 : Z) : 0 ≤ q1 ≤ q2 → Zdigits2 q1 ≤ Zdigits2 q2.
Proof.
  intros [H1 H2]. destruct (decide (q1 = 0)) as [->|Hne].
  { apply Zdigits2_nonneg. }
  pose proof (Zdigits2_bounds q1 ltac:(lia)) as [Hlo _].
  apply Zdigits2_ge; [|lia].
  destruct q1; simpl; lia.
Qed.

(** The bits of a number shifted to the left and to the right *)
Lemma Zdigits2_shiftl (q j : Z) :
  0 < q → 0 ≤ j → Zdigits2 (q * 2 ^ j) = Zdigits2 q + j.
Proof.
  intros Hq Hj. pose proof (Zdigits2_bounds q Hq) as [Hlo Hhi].
  pose proof (Zdigits2_ge q 1 ltac:(lia) ltac:(simpl; lia)) as Hd.
  pose proof (Z.pow_pos_nonneg 2 j ltac:(lia) Hj) as Hpos.
  apply Zdigits2_unique; [lia|].
  replace (Zdigits2 q + j - 1) with (Zdigits2 q - 1 + j) by lia.
  rewrite !Z.pow_add_r by lia. nia.
Qed.

Lemma Zdigits2_shiftr (q j : Z) :
  0 ≤ q → 0 ≤ j → Zdigits2 (q / 2 ^ j) = Z.max 0 (Zdigits2 q - j).
Proof.
  intros Hq Hj. pose proof (Z.pow_pos_nonneg 2 j ltac:(lia) Hj) as Hpos.
  destruct (decide (q = 0)) as [->|Hne].
  { rewrite Z.div_0_l by lia. simpl. lia. }
  pose proof (Zdigits2_bounds q ltac:(lia)) as [Hlo Hhi].
  pose proof (Zdigits2_ge q 1 ltac:(lia) ltac:(simpl; lia)) as Hd.
  destruct (decide (Zdigits2 q ≤ j)) as [Hle|Hgt].
  - rewrite Z.div_small; [simpl; lia|].
    pose proof (Z.pow_le_mono_r 2 (Zdigits2 q) j ltac:(lia) ltac:(lia)). lia.
  - rewrite Z.max_r by lia. apply Zdigits2_unique; [lia|].
    replace (Zdigits2 q) with (Zdigits2 q - j + j) in Hhi by lia.
    replace (Zdigits2 q - 1) with (Zdigits2 q - j - 1 + j) in Hlo by lia.
    rewrite Z.pow_add_r in Hlo, Hhi by lia.
    split.
    + apply Z.div_le_lower_bound; lia.
    + apply Z.div_lt_upper_bound; lia.
Qed.

(** ** Rounding to a number of 53 bits *)

Lemma round_exp_nonneg (n d : Z) : 0 ≤ round_exp n d.
Proof. unfold round_exp. lia. Qed.

Lemma round_exp_mono (n1 n2 d : Z) :
  0 < d → 0 ≤ n1 ≤ n2 → round_exp n1 d ≤ round_exp n2 d.
Proof.
  intros Hd Hn. unfold round_exp.
  assert (0 ≤ n1 / d ≤ n2 / d) as Hq.
  { split; [apply Z.div_pos; lia|apply Z.div_le_mono; lia]. }
  pose proof (Zdigits2_mono (n1 / d) (n2 / d) Hq). lia.
Qed.

(** The mantissa of the rounded quotient has at most 53 bits, and 53
    bits above the least exponent. *)
Lemma round_mantissa_upper (n d : Z) :
  0 < d → 0 ≤ n →
  round_half_even n (d * 2 ^ round_exp n d) ≤ 2 ^ 53.
Proof.
  intros Hd Hn. pose proof (round_exp_nonneg n d) as Hk.
  pose proof (Z.pow_pos_nonneg 2 (round_exp n d) ltac:(lia) Hk) as Hpos.
  pose proof (round_half_even_bounds n (d * 2 ^ round_exp n d) ltac:(nia)) as [_ Hup].
  assert (n / (d * 2 ^ round_exp n d) < 2 ^ 53); [|lia].
  rewrite <- Z.div_div by lia.
  assert (Zdigits2 (n / d / 2 ^ round_exp n d) ≤ 53) as Hdig.
  { rewrite Zdigits2_shiftr by (done || apply Z.div_pos; lia).
    unfold round_exp. lia. }
  assert (0 ≤ n / d / 2 ^ round_exp n d) as Hq.
  { apply Z.div_pos; [apply Z.div_pos; lia|lia]. }
  set (q := n / d / 2 ^ round_exp n d) in *.
  destruct (decide (q = 0)) as [->|Hne]; [lia|].
  pose proof (Zdigits2_bounds q ltac:(lia)) as [_ Hhi].
  pose proof (Z.pow_le_mono_r 2 (Zdigits2 q) 53 ltac:(lia) Hdig). lia.
Qed.

Lemma round_mantissa_lower (n d : Z) :
  0 < d → 0 ≤ n → 0 < round_exp n d →
  2 ^ 52 ≤ round_half_even n (d * 2 ^ round_exp n d).
Proof.
  intros Hd Hn Hk.
  pose proof (Z.pow_pos_nonneg 2 (round_exp n d) ltac:(lia) ltac:(lia)) as Hpos.
  pose proof (round_half_even_bounds n (d * 2 ^ round_exp n d) ltac:(nia)) as [Hlo _].
  assert (2 ^ 52 ≤ n / (d * 2 ^ round_exp n d)); [|lia].
  rewrite <- Z.div_div by lia.
  assert (0 ≤ n / d) as Hq by (apply Z.div_pos; lia).
  assert (Zdigits2 (n / d / 2 ^ round_exp n d) = 53) as Hdig.
  { rewrite Zdigits2_shiftr by (done || lia). unfold round_exp in *. lia. }
  assert (0 < n / d / 2 ^ round_exp n d) as Hq'.
  { destruct (decide (n / d / 2 ^ round_exp n d = 0)) as [Hz|Hnz].
    - rewrite Hz in Hdig. done.
    - pose proof (Z.div_pos (n / d) (2 ^ round_exp n d)). lia. }
  pose proof (Zdigits2_bounds _ Hq') as [Hlo' _]. rewrite Hdig in Hlo'.
  exact Hlo'.
Qed.

(** Rounding keeps the order. *)
Lemma round_float_mono (n1 n2 d : Z) :
  0 < d → 0 ≤ n1 ≤ n2 → round_float n1 d ≤ round_float n2 d.
Proof.
  intros Hd Hn. unfold round_float.
  pose proof (round_exp_mono n1 n2 d Hd Hn) as Hk.
  pose proof (round_exp_nonneg n1 d) as Hk1.
  pose proof (Z.pow_pos_nonneg 2 (round_exp n1 d) ltac:(lia) ltac:(lia)) as Hp1.
  destruct (decide (round_exp n1 d = round_exp n2 d)) as [Heq|Hne].
  - rewrite <- Heq. apply Z.mul_le_mono_nonneg_l; [lia|].
    apply round_half_even_mono; [nia|lia].
  - pose proof (round_mantissa_upper n1 d Hd ltac:(lia)) as Hup.
    pose proof (round_mantissa_lower n2 d Hd ltac:(lia) ltac:(lia)) as Hlo.
    pose proof (Z.pow_pos_nonneg 2 (round_exp n2 d) ltac:(lia) ltac:(lia)) as Hp2.
    assert (2 ^ round_exp n1 d * 2 ≤ 2 ^ round_exp n2 d) as Hpow.
    { replace (round_exp n2 d)
        with (round_exp n1 d + 1 + (round_exp n2 d - round_exp n1 d - 1)) by lia.
      rewrite !Z.pow_add_r by lia.
      pose proof (Z.pow_pos_nonneg 2 (round_exp n2 d - round_exp n1 d - 1)
        ltac:(lia) ltac:(lia)).
      change (2 ^ 1) with 2. nia. }
    change (2 ^ 53) with (2 * 2 ^ 52) in Hup. nia.
Qed.

Lemma round_float_nonneg (n d : Z) : 0 < d → 0 ≤ n → 0 ≤ round_float n d.
Proof.
  intros Hd Hn. unfold round_float.
  pose proof (round_exp_nonneg n d) as Hk.
  pose proof (Z.pow_pos_nonneg 2 (round_exp n d) ltac:(lia) Hk) as Hpos.
  pose proof (round_half_even_bounds n (d * 2 ^ round_exp n d) ltac:(nia)) as [Hlo _].
  pose proof (Z.div_pos n (d * 2 ^ round_exp n d) Hn ltac:(nia)). nia.
Qed.

(** A quotient that is a number of 53 bits is not changed. *)
Lemma round_float_exact (x d : Z) :
  0 < d → 0 ≤ x → (2 ^ Z.max 0 (Zdigits2 x - 53) | x) →
  round_float (x * d) d = x.
Proof.
  intros Hd Hx [c Hc]. unfold round_float, round_exp.
  rewrite Z.div_mul by lia.
  set (k := Z.max 0 (Zdigits2 x - 53)) in *.
  assert (0 < 2 ^ k) by (apply Z.pow_pos_nonneg; lia).
  assert (x * d = c * (d * 2 ^ k)) as -> by (rewrite Hc at 1; lia).
  rewrite round_half_even_exact by nia. lia.
Qed.

(** The same quotient, of a multiple of the two numbers *)
Lemma round_float_scale (n d c : Z) :
  0 < d → 0 < c → round_float (n * c) (d * c) = round_float n d.
Proof.
  intros Hd Hc. unfold round_float, round_exp.
  rewrite Z.div_mul_cancel_r by lia.
  set (k := Z.max 0 (Zdigits2 (n / d) - 53)).
  assert (0 < 2 ^ k) by (apply Z.pow_pos_nonneg; lia).
  replace (d * c * 2 ^ k) with (d * 2 ^ k * c) by lia.
  by rewrite round_half_even_scale by nia.
Qed.

(** A quotient that is not [0] is not rounded to [0]: the least
    positive numbers are one unit apart. *)
Lemma round_float_pos (n d : Z) : 0 < d → d ≤ n → 0 < round_float n d.
Proof.
  intros Hd Hn.
  pose proof (round_float_mono d n d Hd ltac:(lia)) as Hm.
  replace d with (1 * d) in Hm at 1 by lia.
  rewrite (round_float_exact 1 d) in Hm; [lia|done|lia|].
  exists 1. done.
Qed.

(** ** The shifts of the rounding *)

Lemma fexp_eq (x : Z) : fexp 53 1024 x = Z.max (x - 53) (- 1074).
Proof. reflexivity. Qed.

Lemma shr_1_of (a b : Z) :
  0 ≤ a → 0 < b → shr_1 (shr_of a b) = shr_of a (b * 2).
Proof.
  intros Ha Hb. unfold shr_of.
  pose proof (Z.div_mod a b ltac:(lia)) as Hdm.
  pose proof (Z.mod_pos_bound a b Hb) as Hr.
  assert (0 ≤ a / b) as Hq by (apply Z.div_pos; lia).
  rewrite <- (Z.div_div a b 2) by lia.
  rewrite (Z.rem_mul_r a b 2) by lia.
  set (q := a / b) in *. set (r := a mod b) in *. clearbody q r.
  pose proof (Z.div_mod q 2 ltac:(lia)) as Hq2.
  pose proof (Z.mod_pos_bound q 2 ltac:(lia)) as Hr2.
  assert (shr_1 {| shr_m := q; shr_r := b <=? 2 * r;
                   shr_s := negb ((r =? 0) || (2 * r =? b)) |}
    = {| shr_m := q / 2; shr_r := Z.odd q;
         shr_s := (b <=? 2 * r) || negb ((r =? 0) || (2 * r =? b)) |}) as ->.
  { destruct q as [|[p|p|]|p]; try lia; simpl; f_equal.
    - rewrite Pos2Z.inj_xI. apply Z.div_unique with 1; lia.
    - rewrite Pos2Z.inj_xO. apply Z.div_unique with 0; lia. }
  f_equal.
  - rewrite Zmod_odd. destruct (Z.odd q); symmetry.
    + apply Z.leb_le. lia.
    + apply Z.leb_gt. lia.
  - assert (q mod 2 = 0 ∨ q mod 2 = 1) as [E|E] by lia; rewrite E;
      destruct (Z.leb_spec b (2 * r)), (Z.eqb_spec r 0), (Z.eqb_spec (2 * r) b);
      simpl; first [ symmetry; apply negb_true_iff, orb_false_iff;
                     split; apply Z.eqb_neq; lia
                   | symmetry; apply negb_false_iff, orb_true_iff;
                     rewrite !Z.eqb_eq; lia ].
Qed.

Lemma iter_pos_shr_of (p : positive) : ∀ a b,
  0 ≤ a → 0 < b →
  SpecFloat.iter_pos shr_1 p (shr_of a b) = shr_of a (b * 2 ^ Z.pos p).
Proof.
  induction p as [p IH|p IH|]; intros a b Ha Hb; cbn [SpecFloat.iter_pos].
  - assert (0 < 2 ^ Z.pos p) as Hp by (apply Z.pow_pos_nonneg; lia).
    assert (2 ^ Z.pos p~1 = 2 * 2 ^ Z.pos p * 2 ^ Z.pos p) as ->.
    { rewrite <- !Z.pow_succ_r, <- Z.pow_add_r by lia. f_equal. lia. }
    rewrite shr_1_of, IH, IH by (done || nia). f_equal. lia.
  - assert (0 < 2 ^ Z.pos p) as Hp by (apply Z.pow_pos_nonneg; lia).
    assert (2 ^ Z.pos p~0 = 2 ^ Z.pos p * 2 ^ Z.pos p) as ->.
    { rewrite <- Z.pow_add_r by lia. f_equal. lia. }
    rewrite IH, IH by (done || nia). f_equal. lia.
  - by rewrite shr_1_of.
Qed.

Lemma shr_shr_of (a b e n : Z) :
  0 ≤ a → 0 < b → 0 ≤ n →
  shr (shr_of a b) e n = (shr_of a (b * 2 ^ n), e + n).
Proof.
  intros Ha Hb Hn. unfold shr. destruct n as [|p|p]; try lia.
  - by rewrite Z.mul_1_r, Z.add_0_r.
  - by rewrite iter_pos_shr_of.
Qed.

Lemma round_nearest_even_shr_of (a b : Z) :
  0 < b →
  round_nearest_even (shr_m (shr_of a b)) (loc_of_shr_record (shr_of a b))
  = round_half_even a b.
Proof.
  intros Hb. unfold shr_of, round_half_even. cbv zeta. simpl.
  pose proof (Z.mod_pos_bound a b Hb) as Hr.
  destruct (Z.leb_spec b (2 * (a mod b))), (Z.eqb_spec (a mod b) 0),
    (Z.eqb_spec (2 * (a mod b)) b), (Z.ltb_spec (2 * (a mod b)) b),
    (Z.ltb_spec b (2 * (a mod b))); simpl; try done; lia.
Qed.

Lemma shr_record_of_loc_Exact (m : Z) :
  shr_record_of_loc m loc_Exact = shr_of m 1.
Proof.
  unfold shr_of. rewrite Z.div_1_r, Z.mod_1_r. done.
Qed.

(** ** The rounding of the operations *)

(** The exponent and the mantissa of the number nearest to
    [a / b * 2^e], as [binary_round_aux] finds them: the exponent [t]
    from the bits of [a / b], the mantissa by a shift to [t]. *)
Lemma round_at_shift (a b e : Z) :
  0 ≤ a → 0 < b →
  e ≤ Z.max (Zdigits2 (a / b) + e - 53) (- 1074) →
  round_at a b e
  = 2 ^ (Z.max (Zdigits2 (a / b) + e - 53) (- 1074) + 1074)
    * round_half_even a
        (b * 2 ^ (Z.max (Zdigits2 (a / b) + e - 53) (- 1074) - e)).
Proof.
  intros Ha Hb. set (m := a / b). set (t := Z.max _ _). intros Het.
  assert (0 ≤ m) as Hm by (apply Z.div_pos; lia).
  pose proof (Zdigits2_nonneg m) as Hdm.
  unfold round_at, round_float.
  destruct (decide (- 1074 ≤ e)) as [He|He].
  - rewrite (Z.max_r 0 (e + 1074)), (Z.max_l 0 (- 1074 - e)) by lia.
    rewrite Z.pow_0_r, Z.mul_1_r.
    set (j := e + 1074).
    assert (0 < 2 ^ j) as Hj by (apply Z.pow_pos_nonneg; lia).
    assert (round_exp (a * 2 ^ j) b = t + 1074) as ->.
    { unfold round_exp. destruct (decide (m = 0)) as [Hm0|Hm0].
      - assert (e = - 1074) as He' by (unfold t in Het; rewrite Hm0 in Het;
          simpl in Het; lia).
        unfold j. rewrite He'. simpl (2 ^ _). rewrite Z.mul_1_r. fold m.
        rewrite Hm0. unfold t. rewrite Hm0. simpl. lia.
      - assert (Zdigits2 (a * 2 ^ j / b) = Zdigits2 m + j) as ->.
        { pose proof (Zdigits2_bounds m ltac:(lia)) as [Hlo Hhi].
          pose proof (Zdigits2_ge m 1 ltac:(lia) ltac:(simpl; lia)).
          pose proof (Z.mul_div_le a b Hb) as Hmul.
          pose proof (Z.mul_succ_div_gt a b Hb) as Hmul'. fold m in Hmul, Hmul'.
          apply Zdigits2_unique; [lia|]. split.
          - apply Z.div_le_lower_bound; [lia|].
            replace (Zdigits2 m + j - 1) with (Zdigits2 m - 1 + j) by lia.
            rewrite Z.pow_add_r by lia.
            assert (b * 2 ^ (Zdigits2 m - 1) ≤ a) as Hba by nia.
            rewrite Z.mul_assoc. by apply Z.mul_le_mono_nonneg_r; [lia|].
          - apply Z.div_lt_upper_bound; [lia|].
            rewrite Z.pow_add_r by lia.
            assert (a < b * 2 ^ Zdigits2 m) as Hba by nia.
            rewrite Z.mul_assoc. by apply Z.mul_lt_mono_pos_r. }
        unfold t, j. lia. }
    f_equal.
    replace (t + 1074) with (t - e + j) by (unfold j; lia).
    rewrite (Z.pow_add_r 2 (t - e) j) by lia. rewrite Z.mul_assoc.
    assert (0 < 2 ^ (t - e)) by (apply Z.pow_pos_nonneg; lia).
    apply round_half_even_scale; nia.
  - rewrite (Z.max_l 0 (e + 1074)), (Z.max_r 0 (- 1074 - e)) by lia.
    rewrite Z.pow_0_r, Z.mul_1_r.
    set (j := - 1074 - e).
    assert (0 < 2 ^ j) as Hj by (apply Z.pow_pos_nonneg; lia).
    assert (round_exp a (b * 2 ^ j) = t + 1074) as ->.
    { unfold round_exp. rewrite <- Z.div_div by lia. fold m.
      rewrite Zdigits2_shiftr by lia. unfold t, j. lia. }
    f_equal. f_equal.
    replace (t - e) with (j + (t + 1074)) by (unfold j; lia).
    rewrite (Z.pow_add_r 2 j (t + 1074)) by (unfold j, t; lia). lia.
Qed.

Lemma canonical_53 (p : positive) (t : Z) :
  - 1074 ≤ t → Zdigits2 (Z.pos p) ≤ 53 →
  (- 1074 < t → Zdigits2 (Z.pos p) = 53) →
  canonical_mantissa 53 1024 p t = true.
Proof.
  intros Ht Hle Heq. unfold canonical_mantissa. apply Z.eqb_eq.
  rewrite fexp_eq. change (Z.pos (digits2_pos p)) with (Zdigits2 (Z.pos p)).
  destruct (decide (- 1074 < t)); [rewrite Heq by done|]; lia.
Qed.

(** [binary_round_aux] on a quotient [a / b] of which it is given the
    integer part [m] and the place of the rest [l], at an exponent [e]
    not above the one [t] of the result *)
Lemma binary_round_aux_spec (m e : Z) (l : location) (a b : Z) :
  0 ≤ a → 0 < b →
  shr_record_of_loc m l = shr_of a b →
  e ≤ fexp 53 1024 (Zdigits2 m + e) →
  rounds_to (round_at a b e) (binary_round_aux 53 1024 false m e l).
Proof.
  intros Ha Hb Hloc. rewrite fexp_eq.
  assert (m = a / b) as Hm.
  { apply (f_equal shr_m) in Hloc. by destruct l as [|[]]. }
  intros Het. rewrite Hm in Het.
  rewrite (round_at_shift a b e Ha Hb Het).
  unfold binary_round_aux, shr_fexp. rewrite fexp_eq, Hloc, Hm.
  set (t := Z.max _ _) in *.
  rewrite shr_shr_of by lia.
  replace (e + (t - e)) with t by lia.
  rewrite round_nearest_even_shr_of
    by (apply Z.mul_pos_pos; [lia|apply Z.pow_pos_nonneg; lia]).
  assert (0 < 2 ^ (t - e)) as Hpn by (apply Z.pow_pos_nonneg; lia).
  set (B := b * 2 ^ (t - e)) in *. assert (0 < B) as HB by (unfold B; nia).
  set (M := round_half_even a B).
  assert (0 ≤ a / B) as Hq by (apply Z.div_pos; lia).
  assert (Zdigits2 (a / B) = Z.max 0 (Zdigits2 (a / b) - (t - e))) as Hdq.
  { unfold B. rewrite <- Z.div_div by lia.
    apply Zdigits2_shiftr; [apply Z.div_pos|]; lia. }
  pose proof (Zdigits2_nonneg (a / b)) as Hdm.
  assert (a / B < 2 ^ 53) as Hq53.
  { destruct (decide (a / B = 0)) as [->|Hne]; [lia|].
    pose proof (Zdigits2_bounds (a / B) ltac:(lia)) as [_ Hhi].
    pose proof (Z.pow_le_mono_r 2 (Zdigits2 (a / B)) 53 ltac:(lia)
      ltac:(unfold t in *; lia)). lia. }
  pose proof (round_half_even_bounds a B HB) as [HMlo HMhi]. fold M in HMlo, HMhi.
  assert (- 1074 < t → 2 ^ 52 ≤ M) as HM52.
  { intros Ht.
    assert (Zdigits2 (a / B) = 53) as Hd53 by (unfold t in *; lia).
    assert (0 < a / B) as Hpos.
    { destruct (decide (a / B = 0)) as [Hz|]; [by rewrite Hz in Hd53|lia]. }
    pose proof (Zdigits2_bounds (a / B) Hpos) as [Hlo _].
    rewrite Hd53 in Hlo. simpl (53 - 1) in Hlo. lia. }
  assert (0 < 2 ^ (t + 1074)) as Hpk
    by (apply Z.pow_pos_nonneg; unfold t; lia).
  assert (t ≤ 971 → 2 ^ (t + 1074) * 2 ^ 53 ≤ 2 ^ 2098) as Hsmall.
  { intros Ht. rewrite <- Z.pow_add_r by (unfold t in *; lia).
    apply Z.pow_le_mono_r; lia. }
  assert (971 < t → 2 ^ 2098 ≤ 2 ^ (t + 1074) * 2 ^ 52) as Hbig.
  { intros Ht. rewrite <- Z.pow_add_r by lia.
    apply Z.pow_le_mono_r; lia. }
  destruct (decide (M = 2 ^ 53)) as [HM|HM].
  - rewrite HM. rewrite shr_record_of_loc_Exact, fexp_eq.
    change (Zdigits2 (2 ^ 53)) with 54.
    replace (Z.max (54 + t - 53) (- 1074) - t) with 1 by (unfold t; lia).
    rewrite shr_shr_of by lia. cbn [shr_m shr_of].
    change (2 ^ 53 / (1 * 2 ^ 1)) with (Z.pos (2 ^ 52)).
    change (1024 - 53) with 971.
    destruct (Z.leb_spec (t + 1) 971) as [Hle|Hgt].
    + right; left. split; [|split; [|split]].
      * split; [lia|].
        assert (2 ^ (t + 1074) * 2 ^ 53 < 2 ^ 2098); [|lia].
        rewrite <- Z.pow_add_r by (unfold t in *; lia).
        apply Z.pow_lt_mono_r; lia.
      * unfold is_float64. simpl. apply andb_true_intro. split.
        -- apply canonical_53; [unfold t; lia|done|done].
        -- apply Z.leb_le. lia.
      * simpl. replace (t + 1 + 1074) with (1 + (t + 1074)) by lia.
        rewrite Z.pow_add_r by (unfold t; lia).
        change (Z.pos (2 ^ 52) * (2 ^ 1 * 2 ^ (t + 1074)))
          with (2 ^ 52 * (2 * 2 ^ (t + 1074))).
        change (2 ^ 53) with (2 ^ 52 * 2). lia.
      * eauto.
    + right; right. split; [|done].
      assert (2 ^ 2098 ≤ 2 ^ (t + 1074) * 2 ^ 53); [|lia].
      rewrite <- Z.pow_add_r by lia. apply Z.pow_le_mono_r; lia.
  - assert (M < 2 ^ 53) as HMlt by lia.
    assert (0 ≤ M) as HM0 by lia.
    assert (Zdigits2 M ≤ 53) as HdM by (apply Zdigits2_lt; lia).
    rewrite shr_record_of_loc_Exact, fexp_eq.
    assert (shr (shr_of M 1) t (Z.max (Zdigits2 M + t - 53) (- 1074) - t)
      = (shr_of M 1, t)) as ->.
    { unfold shr.
      destruct (Z.max (Zdigits2 M + t - 53) (- 1074) - t) as [|p|p] eqn:E;
        try done. unfold t in *; lia. }
    cbn [shr_m shr_of]. rewrite Z.div_1_r.
    destruct M as [|p|p] eqn:EM; [|clear HM0|lia].
    + left. split; [lia|eauto].
    + change (1024 - 53) with 971.
      destruct (Z.leb_spec t 971) as [Hle|Hgt].
      * right; left. split; [|split; [|split]].
        -- split; [lia|]. specialize (Hsmall Hle). nia.
        -- unfold is_float64. simpl. apply andb_true_intro. split.
           ++ apply canonical_53; [unfold t; lia|done|].
              intros Ht. specialize (HM52 Ht).
              pose proof (Zdigits2_ge (Z.pos p) 53 ltac:(lia) HM52). lia.
           ++ by apply Z.leb_le.
        -- simpl. lia.
        -- eauto.
      * right; right. split; [|done].
        specialize (Hbig Hgt). specialize (HM52 ltac:(lia)). nia.
Qed.

(** The same quotient, written with other numbers *)
Lemma round_float_eq (n1 d1 n2 d2 : Z) :
  0 < d1 → 0 < d2 → n1 * d2 = n2 * d1 →
  round_float n1 d1 = round_float n2 d2.
Proof.
  intros H1 H2 Heq.
  rewrite <- (round_float_scale n1 d1 d2), <- (round_float_scale n2 d2 d1)
    by done.
  rewrite Heq. f_equal. lia.
Qed.

Lemma round_float_0 (d : Z) : 0 < d → round_float 0 d = 0.
Proof.
  intros Hd. replace 0 with (0 * d) at 1 by lia.
  apply round_float_exact; [done|lia|]. exists 0. done.
Qed.

Lemma round_at_units (a b e : Z) :
  0 < b → - 1074 ≤ e → round_at a b e = round_float (a * 2 ^ (e + 1074)) b.
Proof.
  intros Hb He. unfold round_at.
  rewrite (Z.max_r 0 (e + 1074)), (Z.max_l 0 (- 1074 - e)) by lia.
  by rewrite Z.pow_0_r, Z.mul_1_r.
Qed.

(** ** The numbers of the type *)

Lemma is_float64_finite (s : bool) (m : positive) (e : Z) :
  is_float64 (S754_finite s m e) →
  - 1074 ≤ e ≤ 971 ∧ Zdigits2 (Z.pos m) ≤ 53 ∧
  (- 1074 < e → Zdigits2 (Z.pos m) = 53).
Proof.
  unfold is_float64. simpl. unfold bounded, canonical_mantissa.
  intros [Hc He]%andb_prop. apply Z.eqb_eq in Hc. apply Z.leb_le in He.
  rewrite fexp_eq in Hc.
  change (Z.pos (digits2_pos m)) with (Zdigits2 (Z.pos m)) in *.
  change (1024 - 53) with 971 in He.
  pose proof (Zdigits2_nonneg (Z.pos m)).
  split; [lia|]. split; [lia|]. intros. lia.
Qed.

Lemma fval_finite (s : bool) (m : positive) (e : Z) :
  fval (S754_finite s m e)
  = (if s then - 1 else 1) * (Z.pos m * 2 ^ (e + 1074)).
Proof. simpl. destruct s; lia. Qed.

Lemma fval_pos (m : positive) (e : Z) :
  - 1074 ≤ e → 0 < fval (S754_finite false m e).
Proof.
  intros He. simpl.
  pose proof (Z.pow_pos_nonneg 2 (e + 1074) ltac:(lia) ltac:(lia)). lia.
Qed.

(** A number of the type is its own nearest number. *)
Lemma round_float_float64 (m : positive) (e : Z) :
  is_float64 (S754_finite false m e) →
  round_float (fval (S754_finite false m e)) 1 = fval (S754_finite false m e).
Proof.
  intros (He & Hd & _)%is_float64_finite.
  pose proof (fval_pos m e ltac:(lia)) as Hpos.
  rewrite <- (Z.mul_1_r (fval _)) at 1.
  apply round_float_exact; [lia|lia|]. simpl.
  rewrite Zdigits2_shiftl by lia.
  set (k := Z.max 0 _).
  exists (Z.pos m * 2 ^ (e + 1074 - k)).
  rewrite <- Z.mul_assoc, <- Z.pow_add_r by (unfold k; lia).
  do 2 f_equal. lia.
Qed.

Lemma rounds_to_float64 (m : positive) (e : Z) :
  is_float64 (S754_finite false m e) →
  rounds_to (fval (S754_finite false m e)) (S754_finite false m e).
Proof.
  intros Hv. pose proof (is_float64_finite _ _ _ Hv) as (He & Hd & _).
  right; left. split; [|split; [done|split; [done|eauto]]].
  split; [apply fval_pos; lia|]. simpl.
  pose proof (Zdigits2_bounds (Z.pos m) ltac:(lia)) as [_ Hhi].
  pose proof (Z.pow_le_mono_r 2 (Zdigits2 (Z.pos m)) 53 ltac:(lia) Hd).
  pose proof (Z.pow_le_mono_r 2 (e + 1074) 2045 ltac:(lia) ltac:(lia)).
  pose proof (Z.pow_pos_nonneg 2 (e + 1074) ltac:(lia) ltac:(lia)).
  change (2 ^ 2098) with (2 ^ 53 * 2 ^ 2045). nia.
Qed.

(** ** [binary_round] and [binary_normalize] *)

Lemma iter_xO (m : positive) (d : positive) :
  Z.pos (Pos.iter xO m d) = Z.pos m * 2 ^ Z.pos d.
Proof.
  induction d as [|d IH] using Pos.peano_ind.
  - simpl. lia.
  - rewrite Pos.iter_succ, Pos2Z.inj_xO, IH, Pos2Z.inj_succ.
    rewrite Z.pow_succ_r by lia. lia.
Qed.

Lemma shl_align_spec (m : positive) (e e' : Z) :
  ∃ j, 0 ≤ j ∧ shl_align m e e' = (Z.to_pos (Z.pos m * 2 ^ j), e - j) ∧
    (e' < e → j = e - e') ∧ (e ≤ e' → j = 0).
Proof.
  unfold shl_align. destruct (e' - e) as [|d|d] eqn:Hd.
  - exists 0. rewrite Z.mul_1_r, Z.sub_0_r. simpl. repeat split; lia.
  - exists 0. rewrite Z.mul_1_r, Z.sub_0_r. simpl. repeat split; lia.
  - exists (Z.pos d). split; [lia|]. split.
    + rewrite <- iter_xO. simpl. f_equal. lia.
    + split; lia.
Qed.

Lemma binary_round_spec (m : positive) (e : Z) :
  rounds_to (round_at (Z.pos m) 1 e) (binary_round 53 1024 false m e).
Proof.
  unfold binary_round.
  change (Z.pos (digits2_pos m)) with (Zdigits2 (Z.pos m)).
  destruct (shl_align_spec m e (fexp 53 1024 (Zdigits2 (Z.pos m) + e)))
    as (j & Hj & -> & Hlt & Hge).
  assert (0 < 2 ^ j) as Hpj by (apply Z.pow_pos_nonneg; lia).
  assert (Z.pos (Z.to_pos (Z.pos m * 2 ^ j)) = Z.pos m * 2 ^ j) as Hz
    by (apply Z2Pos.id; lia).
  assert (round_at (Z.pos m) 1 e = round_at (Z.pos m * 2 ^ j) 1 (e - j)) as ->.
  { unfold round_at. apply round_float_eq.
    - apply Z.mul_pos_pos; [lia|apply Z.pow_pos_nonneg; lia].
    - apply Z.mul_pos_pos; [lia|apply Z.pow_pos_nonneg; lia].
    - rewrite !Z.mul_1_l, <- !Z.mul_assoc, <- !Z.pow_add_r by lia.
      do 2 f_equal. lia. }
  apply binary_round_aux_spec.
  - lia.
  - lia.
  - by rewrite Hz, shr_record_of_loc_Exact.
  - rewrite Hz, Zdigits2_shiftl by lia. rewrite fexp_eq in *. lia.
Qed.

Lemma rounds_to_finite (r : Z) (f : float64) :
  rounds_to r f → r < 2 ^ 2098 →
  is_float64 f ∧ is_finite f = true ∧ fval f = r.
Proof.
  intros [[-> [s ->]]|[(Hr & Hv & Hf & m & e & ->)|[Hr _]]] Hlt; [done|done|lia].
Qed.

Lemma pow2_1074 (e : Z) (j : Z) :
  0 ≤ j → - 1074 ≤ e - j → 2 ^ (e + 1074) = 2 ^ j * 2 ^ (e - j + 1074).
Proof. intros Hj He. rewrite <- Z.pow_add_r by lia. f_equal. lia. Qed.

(** ** Subtraction *)

Lemma fst_shl_align (m : positive) (e e' : Z) :
  e' ≤ e → Z.pos (fst (shl_align m e e')) = Z.pos m * 2 ^ (e - e').
Proof.
  intros He. destruct (shl_align_spec m e e') as (j & Hj & -> & Hlt & Hge).
  simpl. assert (0 < 2 ^ j) by (apply Z.pow_pos_nonneg; lia).
  rewrite Z2Pos.id by lia. f_equal. f_equal.
  destruct (decide (e' < e)); [by apply Hlt|]. rewrite Hge by lia. lia.
Qed.

(** The difference of two numbers, of which the first is not the
    smaller, is the number nearest to their difference. *)
Lemma f64_sub_spec (x y : float64) :
  is_float64 x → is_float64 y → is_finite x = true → is_finite y = true →
  fval y ≤ fval x →
  rounds_to (round_float (fval x - fval y) 1) (f64_sub x y).
Proof.
  intros Hx Hy Hfx Hfy Hle.
  destruct x as [sx|sx| |sx mx ex], y as [sy|sy| |sy my ey]; try done.
  - left. rewrite round_float_0 by lia. split; [done|].
    simpl. destruct sx, sy; eauto.
  - pose proof (is_float64_finite _ _ _ Hy) as (He & _).
    destruct sy; [|pose proof (fval_pos my ey ltac:(lia)); simpl in *; lia].
    change (f64_sub _ _) with (S754_finite false my ey).
    replace (fval (S754_zero sx) - fval (S754_finite true my ey))
      with (fval (S754_finite false my ey)) by (simpl; lia).
    rewrite round_float_float64 by done. by apply rounds_to_float64.
  - pose proof (is_float64_finite _ _ _ Hx) as (He & _).
    destruct sx.
    { pose proof (fval_pos mx ex ltac:(lia)). simpl in *. lia. }
    change (f64_sub _ _) with (S754_finite false mx ex).
    replace (fval (S754_finite false mx ex) - fval (S754_zero sy))
      with (fval (S754_finite false mx ex)) by (simpl; lia).
    rewrite round_float_float64 by done. by apply rounds_to_float64.
  - pose proof (is_float64_finite _ _ _ Hx) as (Hex & _).
    pose proof (is_float64_finite _ _ _ Hy) as (Hey & _).
    unfold f64_sub, SFsub. cbv zeta.
    set (ez := Z.min ex ey).
    set (n := cond_Zopp sx _ - cond_Zopp sy _).
    assert (fval (S754_finite sx mx ex) - fval (S754_finite sy my ey)
      = n * 2 ^ (ez + 1074)) as Hn.
    { unfold n. rewrite !fst_shl_align by (unfold ez; lia).
      rewrite !fval_finite.
      rewrite (pow2_1074 ex (ex - ez)), (pow2_1074 ey (ey - ez))
        by (unfold ez; lia).
      replace (ex - (ex - ez)) with ez by lia.
      replace (ey - (ey - ez)) with ez by lia.
      destruct sx, sy; simpl cond_Zopp; lia. }
    rewrite Hn in *.
    assert (0 < 2 ^ (ez + 1074)) as Hp
      by (apply Z.pow_pos_nonneg; unfold ez; lia).
    clearbody n. destruct n as [|p|p]; [| |nia].
    + left. rewrite Z.mul_0_l, round_float_0 by lia. split; [done|]. simpl. eauto.
    + simpl binary_normalize.
      rewrite <- round_at_units by (unfold ez; lia).
      apply binary_round_spec.
Qed.

(** ** Division *)

Lemma new_location_spec (m2 r : Z) (q : Z) :
  0 < m2 → 0 ≤ r < m2 →
  shr_record_of_loc q (new_location m2 r)
  = {| shr_m := q; shr_r := m2 <=? 2 * r;
       shr_s := negb ((r =? 0) || (2 * r =? m2)) |}.
Proof.
  intros Hm Hr. unfold new_location, new_location_even, new_location_odd.
  destruct (Z.even m2) eqn:Hev.
  - destruct (Z.eqb_spec r 0) as [->|Hr0].
    + simpl. f_equal. symmetry. apply Z.leb_gt. lia.
    + destruct (Z.compare_spec (2 * r) m2) as [Heq|Hlt|Hgt]; simpl; f_equal.
      * symmetry. apply Z.leb_le. lia.
      * by rewrite (proj2 (Z.eqb_eq _ _) Heq).
      * symmetry. apply Z.leb_gt. lia.
      * by rewrite (proj2 (Z.eqb_neq (2 * r) m2)) by lia.
      * symmetry. apply Z.leb_le. lia.
      * by rewrite (proj2 (Z.eqb_neq (2 * r) m2)) by lia.
  - assert (2 * r ≠ m2) as Hodd.
    { intros <-. rewrite Z.even_mul in Hev. done. }
    destruct (Z.eqb_spec r 0) as [->|Hr0].
    + simpl. f_equal. symmetry. apply Z.leb_gt. lia.
    + rewrite (proj2 (Z.eqb_neq (2 * r) m2)) by lia.
      destruct (Z.compare_spec (2 * r + 1) m2) as [Heq|Hlt|Hgt]; simpl; f_equal;
        symmetry; first [apply Z.leb_gt; lia|apply Z.leb_le; lia].
Qed.

Lemma SFdiv_core_binary_spec (mx my : positive) (ex ey : Z) :
  ∃ q e l s, SFdiv_core_binary 53 1024 (Z.pos mx) ex (Z.pos my) ey = (q, e, l) ∧
    0 ≤ s ∧ e = ex - ey - s ∧
    shr_record_of_loc q l = shr_of (Z.pos mx * 2 ^ s) (Z.pos my) ∧
    e ≤ fexp 53 1024 (Zdigits2 q + e).
Proof.
  unfold SFdiv_core_binary. cbv zeta.
  set (d1 := Zdigits2 (Z.pos mx)). set (d2 := Zdigits2 (Z.pos my)).
  set (e' := Z.min _ _). set (s := ex - ey - e').
  assert (0 ≤ s) as Hs by (unfold s, e'; lia).
  assert (0 < 2 ^ s) as Hps by (apply Z.pow_pos_nonneg; lia).
  assert ((match s with
           | 0 => Z.pos mx
           | Z.pos _ => Z.shiftl (Z.pos mx) s
           | Z.neg _ => 0
           end) = Z.pos mx * 2 ^ s) as ->.
  { destruct s as [|p|p] eqn:Es; [lia| |lia].
    by rewrite Z.shiftl_mul_pow2 by lia. }
  set (a := Z.pos mx * 2 ^ s).
  pose proof (Z.mod_pos_bound a (Z.pos my) ltac:(lia)) as Hr.
  assert (Z.div_eucl a (Z.pos my) = (a / Z.pos my, a mod Z.pos my)) as ->.
  { unfold Z.div, Z.modulo. by destruct (Z.div_eucl a (Z.pos my)). }
  exists (a / Z.pos my), e', (new_location (Z.pos my) (a mod Z.pos my)), s.
  split; [done|]. split; [done|]. split; [unfold s; lia|]. split.
  { by rewrite new_location_spec by lia. }
  rewrite fexp_eq. destruct (decide (e' ≤ - 1074)) as [|Hbig]; [lia|].
  assert (53 ≤ Zdigits2 (a / Z.pos my)); [|lia].
  assert (e' ≤ d1 + ex - (d2 + ey) - 53) as He'.
  { unfold e' in *. rewrite fexp_eq in *. lia. }
  pose proof (Zdigits2_bounds (Z.pos mx) ltac:(lia)) as [Hlo1 _].
  pose proof (Zdigits2_bounds (Z.pos my) ltac:(lia)) as [_ Hhi2].
  fold d1 in Hlo1. fold d2 in Hhi2.
  pose proof (Zdigits2_ge (Z.pos mx) 1 ltac:(lia) ltac:(simpl; lia)) as Hd1.
  pose proof (Zdigits2_nonneg (Z.pos my)) as Hd2. fold d1 in Hd1. fold d2 in Hd2.
  apply Zdigits2_ge; [lia|]. simpl (53 - 1).
  apply Z.div_le_lower_bound; [lia|].
  assert (2 ^ d2 * 2 ^ 52 ≤ 2 ^ (d1 - 1) * 2 ^ s) as Hpow.
  { rewrite <- !Z.pow_add_r by lia. apply Z.pow_le_mono_r; [lia|].
    unfold s. lia. }
  unfold a. nia.
Qed.

Lemma round_at_div (mx my : positive) (ex ey s : Z) :
  0 ≤ s → - 1074 ≤ ex → - 1074 ≤ ey →
  round_at (Z.pos mx * 2 ^ s) (Z.pos my) (ex - ey - s)
  = round_float (fval (S754_finite false mx ex) * 2 ^ 1074)
      (fval (S754_finite false my ey)).
Proof.
  intros Hs Hex Hey. unfold round_at. simpl fval.
  set (e := ex - ey - s).
  assert (0 < 2 ^ Z.max 0 (- 1074 - e)) by (apply Z.pow_pos_nonneg; lia).
  assert (0 < 2 ^ (ey + 1074)) by (apply Z.pow_pos_nonneg; lia).
  apply round_float_eq; [nia|nia|].
  transitivity (Z.pos mx * Z.pos my
    * (2 ^ s * 2 ^ Z.max 0 (e + 1074) * 2 ^ (ey + 1074))); [lia|].
  transitivity (Z.pos mx * Z.pos my
    * (2 ^ (ex + 1074) * 2 ^ 1074 * 2 ^ Z.max 0 (- 1074 - e))); [|lia].
  f_equal. rewrite <- !Z.pow_add_r by lia. f_equal. unfold e. lia.
Qed.

(** The quotient of a number that is not negative by a positive
    number is the number nearest to their quotient. *)
Lemma f64_div_spec (x y : float64) :
  is_float64 x → is_float64 y → is_finite x = true → is_finite y = true →
  0 ≤ fval x → 0 < fval y →
  rounds_to (round_float (fval x * 2 ^ 1074) (fval y)) (f64_div x y).
Proof.
  intros Hx Hy Hfx Hfy Hx0 Hy0.
  destruct y as [sy|sy| |sy my ey]; try done; try (simpl in Hy0; lia).
  pose proof (is_float64_finite _ _ _ Hy) as (Hey & _).
  destruct sy.
  { pose proof (fval_pos my ey ltac:(lia)). simpl in *. lia. }
  destruct x as [sx|sx| |sx mx ex]; try done.
  - left. rewrite Z.mul_0_l, round_float_0 by done. split; [done|].
    simpl. eauto.
  - pose proof (is_float64_finite _ _ _ Hx) as (Hex & _).
    destruct sx.
    { pose proof (fval_pos mx ex ltac:(lia)). simpl in *. lia. }
    unfold f64_div, SFdiv.
    destruct (SFdiv_core_binary_spec mx my ex ey)
      as (q & e & l & s & -> & Hs & -> & Hloc & Hfexp).
    rewrite <- (round_at_div mx my ex ey s) by lia.
    apply binary_round_aux_spec; [|lia|done|done].
    pose proof (Z.pow_pos_nonneg 2 s ltac:(lia) Hs). lia.
Qed.

(** ** Multiplication *)

(** The product of two numbers that are not negative is the number
    nearest to their product. *)
Lemma f64_mul_spec (x y : float64) :
  is_float64 x → is_float64 y → is_finite x = true → is_finite y = true →
  0 ≤ fval x → 0 ≤ fval y →
  rounds_to (round_float (fval x * fval y) (2 ^ 1074)) (f64_mul x y).
Proof.
  intros Hx Hy Hfx Hfy Hx0 Hy0.
  destruct x as [sx|sx| |sx mx ex], y as [sy|sy| |sy my ey]; try done.
  - left. rewrite round_float_0 by done. split; [done|]. simpl. eauto.
  - left. rewrite round_float_0 by done. split; [done|]. simpl. eauto.
  - left. rewrite Z.mul_0_r, round_float_0 by done. split; [done|].
    simpl. eauto.
  - pose proof (is_float64_finite _ _ _ Hx) as (Hex & Hdx & Hnx).
    pose proof (is_float64_finite _ _ _ Hy) as (Hey & Hdy & Hny).
    destruct sx.
    { pose proof (fval_pos mx ex ltac:(lia)). simpl in *. lia. }
    destruct sy.
    { pose proof (fval_pos my ey ltac:(lia)). simpl in *. lia. }
    unfold f64_mul, SFmul. simpl xorb.
    assert (round_float (fval (S754_finite false mx ex)
                         * fval (S754_finite false my ey)) (2 ^ 1074)
      = round_at (Z.pos (mx * my)) 1 (ex + ey)) as ->.
    { unfold round_at. simpl fval. set (e := ex + ey).
      assert (0 < 2 ^ Z.max 0 (- 1074 - e)) by (apply Z.pow_pos_nonneg; lia).
      apply round_float_eq; [done|lia|].
      rewrite Pos2Z.inj_mul.
      transitivity (Z.pos mx * Z.pos my
        * (2 ^ (ex + 1074) * 2 ^ (ey + 1074) * 2 ^ Z.max 0 (- 1074 - e)));
        [lia|].
      transitivity (Z.pos mx * Z.pos my
        * (2 ^ Z.max 0 (e + 1074) * 2 ^ 1074)); [|lia].
      f_equal. rewrite <- !Z.pow_add_r by lia. f_equal. unfold e. lia. }
    apply binary_round_aux_spec; [lia|lia|apply shr_record_of_loc_Exact|].
    rewrite fexp_eq, Pos2Z.inj_mul.
    destruct (decide (ex = - 1074 ∧ ey = - 1074)) as [[-> ->]|Hn]; [lia|].
    assert (53 ≤ Zdigits2 (Z.pos mx * Z.pos my)); [|lia].
    apply Zdigits2_ge; [lia|]. simpl (53 - 1).
    destruct (decide (- 1074 < ex)) as [Hbx|Hbx].
    + pose proof (Zdigits2_bounds (Z.pos mx) ltac:(lia)) as [Hlo _].
      rewrite (Hnx Hbx) in Hlo. simpl (53 - 1) in Hlo. nia.
    + pose proof (Zdigits2_bounds (Z.pos my) ltac:(lia)) as [Hlo _].
      rewrite (Hny ltac:(lia)) in Hlo. simpl (53 - 1) in Hlo. nia.
Qed.

(** ** Conversions *)

Lemma float64_of_int_spec (n : Z) :
  0 ≤ n < 2 ^ 53 →
  is_float64 (float64_of_int n) ∧ is_finite (float64_of_int n) = true ∧
  fval (float64_of_int n) = n * 2 ^ 1074.
Proof.
  intros Hn. unfold float64_of_int. destruct n as [|p|p]; [done| |lia].
  simpl binary_normalize.
  pose proof (binary_round_spec p 0) as Hr.
  rewrite round_at_units in Hr by lia. change (0 + 1074) with 1074 in Hr.
  rewrite <- (Z.mul_1_r (Z.pos p * 2 ^ 1074)) in Hr.
  assert (Zdigits2 (Z.pos p) ≤ 53) as Hd by (apply Zdigits2_lt; lia).
  rewrite round_float_exact in Hr; [|lia|lia|].
  - apply rounds_to_finite; [done|].
    change (2 ^ 2098) with (2 ^ 53 * 2 ^ 1024 * 2 ^ 1021). lia.
  - rewrite Zdigits2_shiftl by lia. set (k := Z.max 0 _).
    exists (Z.pos p * 2 ^ (1074 - k)).
    rewrite <- Z.mul_assoc, <- Z.pow_add_r by (unfold k; lia).
    do 2 f_equal. lia.
Qed.

Lemma trunc_spec (f : float64) :
  is_float64 f → is_finite f = true → 0 ≤ fval f →
  trunc f = Some (fval f / 2 ^ 1074).
Proof.
  intros Hv Hf H0. destruct f as [s|s| |s m e]; try done.
  pose proof (is_float64_finite _ _ _ Hv) as (He & _).
  destruct s; [pose proof (fval_pos m e ltac:(lia)); simpl in *; lia|].
  simpl. f_equal. case_bool_decide as Hpos.
  - replace (e + 1074) with (1074 + e) by lia.
    rewrite Z.pow_add_r by lia.
    replace (Z.pos m * (2 ^ 1074 * 2 ^ e)) with (Z.pos m * 2 ^ e * 2 ^ 1074)
      by lia.
    by rewrite Z.div_mul.
  - replace 1074 with (- e + (e + 1074)) at 2 by lia.
    rewrite (Z.pow_add_r 2 (- e) (e + 1074)) by lia.
    rewrite Z.div_mul_cancel_r; [done| |];
      apply Z.pow_nonzero; lia.
Qed.

Lemma int_of_float64_spec (int_overflow : float64 → Z) (f : float64) :
  is_float64 f → is_finite f = true → 0 ≤ fval f → fval f / 2 ^ 1074 ≤ maxInt →
  int_of_float64 int_overflow f = fval f / 2 ^ 1074.
Proof.
  intros Hv Hf H0 Hmax. unfold int_of_float64.
  rewrite trunc_spec by done. rewrite bool_decide_true; [done|].
  split; [|done]. pose proof (Z.div_pos (fval f) (2 ^ 1074) H0 ltac:(lia)).
  unfold minInt. lia.
Qed.

(** ** The comparisons *)

Lemma canonical_lt (m1 m2 : positive) (e1 e2 : Z) :
  is_float64 (S754_finite false m1 e1) → is_float64 (S754_finite false m2 e2) →
  e1 < e2 →
  Z.pos m1 * 2 ^ (e1 + 1074) < Z.pos m2 * 2 ^ (e2 + 1074).
Proof.
  intros (He1 & Hd1 & _)%is_float64_finite (He2 & _ & Hn2)%is_float64_finite He.
  pose proof (Zdigits2_bounds (Z.pos m1) ltac:(lia)) as [_ Hhi].
  pose proof (Zdigits2_bounds (Z.pos m2) ltac:(lia)) as [Hlo _].
  rewrite Hn2 in Hlo by lia. change (53 - 1) with 52 in Hlo.
  pose proof (Z.pow_le_mono_r 2 (Zdigits2 (Z.pos m1)) 53 ltac:(lia) Hd1) as Hp.
  assert (0 < 2 ^ (e1 + 1074)) as HY by (apply Z.pow_pos_nonneg; lia).
  assert (2 ^ (e2 + 1074) = 2 ^ (e2 - e1 - 1) * 2 * 2 ^ (e1 + 1074)) as ->.
  { replace (e2 + 1074) with (e2 - e1 - 1 + 1 + (e1 + 1074)) by lia.
    rewrite (Z.pow_add_r 2 (e2 - e1 - 1 + 1) (e1 + 1074)) by lia.
    rewrite (Z.pow_add_r 2 (e2 - e1 - 1) 1) by lia. done. }
  assert (0 < 2 ^ (e2 - e1 - 1)) as HX by (apply Z.pow_pos_nonneg; lia).
  change (2 ^ 53) with (2 * 2 ^ 52) in *.
  set (X := 2 ^ (e2 - e1 - 1)) in *. set (Y := 2 ^ (e1 + 1074)) in *.
  set (C := 2 ^ 52) in *.
  assert (Z.pos m1 < 2 * C) as Hm1 by lia.
  clearbody X Y C. clear -Hm1 Hlo HX HY.
  assert (Z.pos m1 * Y < 2 * C * Y) by nia.
  assert (C ≤ Z.pos m2 * X) by nia.
  assert (C * (2 * Y) ≤ Z.pos m2 * X * (2 * Y)) by nia. lia.
Qed.

Lemma compare_finite (m1 m2 : positive) (e1 e2 : Z) :
  is_float64 (S754_finite false m1 e1) → is_float64 (S754_finite false m2 e2) →
  match e1 ?= e2 with
  | Lt => Lt
  | Gt => Gt
  | Eq => Pos.compare_cont Eq m1 m2
  end = (Z.pos m1 * 2 ^ (e1 + 1074) ?= Z.pos m2 * 2 ^ (e2 + 1074)).
Proof.
  intros H1 H2. symmetry.
  destruct (Z.compare_spec e1 e2) as [->|Hlt|Hgt].
  - pose proof (is_float64_finite _ _ _ H2) as (He & _).
    assert (0 < 2 ^ (e2 + 1074)) by (apply Z.pow_pos_nonneg; lia).
    change (Pos.compare_cont Eq m1 m2) with (Z.pos m1 ?= Z.pos m2).
    destruct (Z.compare_spec (Z.pos m1) (Z.pos m2)) as [->|Hlt|Hgt].
    + apply Z.compare_refl.
    + apply Z.compare_lt_iff. nia.
    + apply Z.compare_gt_iff. nia.
  - apply Z.compare_lt_iff. by apply canonical_lt.
  - apply Z.compare_gt_iff. by apply canonical_lt.
Qed.

Lemma valid_sign (s s' : bool) (m : positive) (e : Z) :
  is_float64 (S754_finite s m e) → is_float64 (S754_finite s' m e).
Proof. done. Qed.

(** The comparison of two finite numbers is the comparison of their
    values. *)
Lemma SFcompare_fval (x y : float64) :
  is_float64 x → is_float64 y → is_finite x = true → is_finite y = true →
  SFcompare x y = Some (fval x ?= fval y).
Proof.
  intros Hx Hy Hfx Hfy.
  destruct x as [sx|sx| |sx mx ex], y as [sy|sy| |sy my ey]; try done.
  - pose proof (is_float64_finite _ _ _ Hy) as (He & _).
    pose proof (fval_pos my ey ltac:(lia)) as Hp.
    rewrite fval_finite in *. change (fval (S754_zero sx)) with 0.
    cbn [SFcompare]. destruct sy; f_equal; symmetry;
      [apply Z.compare_gt_iff|apply Z.compare_lt_iff]; lia.
  - pose proof (is_float64_finite _ _ _ Hx) as (He & _).
    pose proof (fval_pos mx ex ltac:(lia)) as Hp.
    rewrite fval_finite in *. change (fval (S754_zero sy)) with 0.
    cbn [SFcompare]. destruct sx; f_equal; symmetry;
      [apply Z.compare_lt_iff|apply Z.compare_gt_iff]; lia.
  - pose proof (is_float64_finite _ _ _ Hx) as (Hex & _).
    pose proof (is_float64_finite _ _ _ Hy) as (Hey & _).
    pose proof (fval_pos mx ex ltac:(lia)) as Hpx.
    pose proof (fval_pos my ey ltac:(lia)) as Hpy.
    pose proof (compare_finite mx my ex ey (valid_sign _ false _ _ Hx)
      (valid_sign _ false _ _ Hy)) as Hc.
    pose proof (compare_finite my mx ey ex (valid_sign _ false _ _ Hy)
      (valid_sign _ false _ _ Hx)) as Hc'.
    rewrite !fval_finite in *. cbn [SFcompare]. f_equal.
    set (X := Z.pos mx * 2 ^ (ex + 1074)) in *.
    set (Y := Z.pos my * 2 ^ (ey + 1074)) in *.
    destruct sx, sy.
    + replace (-1 * X) with (- X) by lia. replace (-1 * Y) with (- Y) by lia.
      rewrite Z.compare_opp.
      rewrite <- Hc', (Z.compare_antisym ex ey).
      destruct (ex ?= ey); simpl; try done.
      by rewrite Pos.compare_cont_antisym.
    + symmetry. apply Z.compare_lt_iff. lia.
    + symmetry. apply Z.compare_gt_iff. lia.
    + rewrite !Z.mul_1_l. exact Hc.
Qed.

Lemma SFleb_fval (x y : float64) :
  is_float64 x → is_float64 y → is_finite x = true → is_finite y = true →
  SFleb x y = (fval x <=? fval y).
Proof.
  intros Hx Hy Hfx Hfy. unfold SFleb. rewrite SFcompare_fval by done.
  unfold Z.leb. by destruct (fval x ?= fval y).
Qed.

Lemma SFeqb_fval (x y : float64) :
  is_float64 x → is_float64 y → is_finite x = true → is_finite y = true →
  SFeqb x y = (fval x =? fval y).
Proof.
  intros Hx Hy Hfx Hfy. unfold SFeqb. rewrite SFcompare_fval by done.
  rewrite Z.eqb_compare. by destruct (fval x ?= fval y).
Qed.

(** ** The greatest and the least number *)

Lemma lex_leb_trans (a b c : Z * Z * Z) :
  lex_leb a b = true → lex_leb b c = true → lex_leb a c = true.
Proof.
  rewrite !lex_leb_spec. destruct a as [[a1 a2] a3], b as [[b1 b2] b3],
    c as [[c1 c2] c3]. simpl. lia.
Qed.

Lemma min_max_fold (P : float64 → Prop) (l : list float64) :
  (∀ x, P x → is_nan x = false) → ∀ mn0 mx0,
  Forall P l → P mn0 → P mx0 →
  P (foldl (λ '(min, max) val,
      (if ltb val min then val else min, if gtb val max then val else max))
    (mn0, mx0) l).1 ∧
  P (foldl (λ '(min, max) val,
      (if ltb val min then val else min, if gtb val max then val else max))
    (mn0, mx0) l).2 ∧
  lex_leb (fkey (foldl (λ '(min, max) val,
      (if ltb val min then val else min, if gtb val max then val else max))
    (mn0, mx0) l).1) (fkey mn0) = true ∧
  lex_leb (fkey mx0) (fkey (foldl (λ '(min, max) val,
      (if ltb val min then val else min, if gtb val max then val else max))
    (mn0, mx0) l).2) = true ∧
  ∀ v, v ∈ l →
    lex_leb (fkey (foldl (λ '(min, max) val,
      (if ltb val min then val else min, if gtb val max then val else max))
    (mn0, mx0) l).1) (fkey v) = true ∧
    lex_leb (fkey v) (fkey (foldl (λ '(min, max) val,
      (if ltb val min then val else min, if gtb val max then val else max))
    (mn0, mx0) l).2) = true.
Proof.
  intros HP. induction l as [|x l IH]; intros mn0 mx0 Hl Hmn Hmx.
  - simpl. rewrite !lex_leb_refl. split; [done|]. split; [done|].
    split; [done|]. split; [done|]. intros v Hv. by apply elem_of_nil in Hv.
  - apply Forall_cons in Hl as [Hx Hl]. cbn [foldl].
    set (mn1 := if ltb x mn0 then x else mn0).
    set (mx1 := if gtb x mx0 then x else mx0).
    assert (P mn1) as Hmn1 by (unfold mn1; by destruct (ltb x mn0)).
    assert (P mx1) as Hmx1 by (unfold mx1; by destruct (gtb x mx0)).
    assert (lex_leb (fkey mn1) (fkey mn0) = true ∧
            lex_leb (fkey mn1) (fkey x) = true) as [Hmn10 Hmn1x].
    { unfold mn1. simpl ltb. rewrite SFltb_fkey by auto.
      destruct (lex_leb (fkey mn0) (fkey x)) eqn:E; simpl.
      - by rewrite lex_leb_refl.
      - rewrite lex_leb_refl. split; [|done]. by apply lex_leb_false. }
    assert (lex_leb (fkey mx0) (fkey mx1) = true ∧
            lex_leb (fkey x) (fkey mx1) = true) as [Hmx10 Hmx1x].
    { unfold mx1. simpl gtb. rewrite f64_gtb_fkey by auto.
      destruct (lex_leb (fkey x) (fkey mx0)) eqn:E; simpl.
      - by rewrite lex_leb_refl.
      - rewrite lex_leb_refl. split; [|done]. by apply lex_leb_false. }
    destruct (IH mn1 mx1 Hl Hmn1 Hmx1) as (H1 & H2 & H3 & H4 & H5).
    split; [done|]. split; [done|].
    split; [by eapply lex_leb_trans|]. split; [by eapply lex_leb_trans|].
    intros v [->|Hv]%elem_of_cons; [|by apply H5].
    split; by eapply lex_leb_trans.
Qed.

(** The least and the greatest number of a slice without NaN are
    numbers of the type, below and above every element. *)
Lemma min_max_spec (vec : list float64) :
  Forall (λ x, is_float64 x ∧ is_nan x = false) vec →
  (is_float64 (min_max vec).1 ∧ is_nan (min_max vec).1 = false) ∧
  (is_float64 (min_max vec).2 ∧ is_nan (min_max vec).2 = false) ∧
  ∀ v, v ∈ vec →
    SFleb (min_max vec).1 v = true ∧ SFleb v (min_max vec).2 = true.
Proof.
  intros HP.
  destruct (min_max_fold (λ x, is_float64 x ∧ is_nan x = false) vec
    ltac:(by intros x [_ ?]) (math_Inf 1) (math_Inf (-1)))
    as (H1 & H2 & _ & _ & H5); [done|done|done|].
  fold (min_max vec) in *.
  split; [done|]. split; [done|]. intros v Hv.
  rewrite Forall_forall in HP. destruct (HP v Hv) as [_ Hn].
  rewrite !SFleb_fkey by (done || apply H1 || apply H2). by apply H5.
Qed.

Lemma f64_sub_finite (x y : float64) :
  is_nan x = false → is_nan y = false → is_finite (f64_sub x y) = true →
  is_finite x = true ∧ is_finite y = true.
Proof.
  destruct x as [sx|sx| |sx mx ex], y as [sy|sy| |sy my ey]; try done;
    destruct sx; try done; destruct sy; done.
Qed.

Lemma between_finite (mn mx v : float64) :
  is_finite mn = true → is_finite mx = true →
  SFleb mn v = true → SFleb v mx = true → is_finite v = true.
Proof.
  destruct v as [s|s| |s m e]; try done.
  destruct mn as [?|?| |[] ? ?], mx as [?|?| |[] ? ?], s; done.
Qed.

(** ** The buckets of [BucketSort] *)

Lemma rounds_to_lt (r : Z) (f : float64) :
  rounds_to r f → is_finite f = true → r < 2 ^ 2098.
Proof.
  intros [[-> _]|[(Hr & _)|[_ ->]]] Hf; [done|lia|done].
Qed.

Lemma round_float_one (d : Z) : 0 < d → round_float (2 ^ 1074 * d) d = 2 ^ 1074.
Proof.
  intros Hd. apply round_float_exact; [done|lia|].
  assert (Zdigits2 (2 ^ 1074) = 1075) as ->.
  { apply Zdigits2_unique; [lia|]. split; [done|].
    apply Z.pow_lt_mono_r; lia. }
  exists (2 ^ 52). rewrite <- Z.pow_add_r by lia. done.
Qed.

Lemma round_float_int (n d : Z) :
  0 < d → 0 ≤ n < 2 ^ 53 →
  round_float (n * 2 ^ 1074 * d) d = n * 2 ^ 1074.
Proof.
  intros Hd Hn. apply round_float_exact; [done|lia|].
  destruct (decide (n = 0)) as [->|Hne].
  { exists 0. done. }
  rewrite Zdigits2_shiftl by lia.
  assert (Zdigits2 n ≤ 53) as Hdn by (apply Zdigits2_lt; lia).
  pose proof (Zdigits2_nonneg n).
  set (k := Z.max 0 _). exists (n * 2 ^ (1074 - k)).
  rewrite <- Z.mul_assoc, <- Z.pow_add_r by (unfold k; lia).
  do 2 f_equal. lia.
Qed.

Section Buckets.
Context (mn d f : Z).
Hypothesis Hd : 0 < d.
Hypothesis Hf : 0 ≤ f.
Hypothesis Hfint : ∃ n, 0 ≤ n < 2 ^ 53 ∧ f = n * 2 ^ 1074.

Lemma bucket_of_mono (t1 t2 : Z) :
  mn ≤ t1 ≤ t2 → bucket_of mn d f t1 ≤ bucket_of mn d f t2.
Proof using Hd Hf.
  intros Ht. unfold bucket_of.
  apply Z.div_le_mono; [lia|].
  apply round_float_mono; [lia|].
  assert (0 ≤ round_float (round_float (t1 - mn) 1 * 2 ^ 1074) d
          ≤ round_float (round_float (t2 - mn) 1 * 2 ^ 1074) d) as Hq.
  { assert (0 ≤ round_float (t1 - mn) 1 ≤ round_float (t2 - mn) 1) as Ha.
    { split; [apply round_float_nonneg; lia|apply round_float_mono; lia]. }
    split; [apply round_float_nonneg; lia|].
    apply round_float_mono; [done|lia]. }
  nia.
Qed.

Lemma bucket_of_nonneg (t : Z) : mn ≤ t → 0 ≤ bucket_of mn d f t.
Proof using Hd Hf.
  intros Ht. unfold bucket_of. apply Z.div_pos; [|lia].
  apply round_float_nonneg; [lia|].
  assert (0 ≤ round_float (t - mn) 1) by (apply round_float_nonneg; lia).
  assert (0 ≤ round_float (round_float (t - mn) 1 * 2 ^ 1074) d)
    by (apply round_float_nonneg; lia).
  nia.
Qed.

(** The greatest number is in the last bucket. *)
Lemma bucket_of_max (t : Z) :
  mn ≤ t → round_float (t - mn) 1 = d →
  bucket_of mn d f t = f / 2 ^ 1074.
Proof using Hd Hf Hfint.
  intros Ht Hsub. unfold bucket_of. rewrite Hsub.
  rewrite (Z.mul_comm d), round_float_one by done.
  destruct Hfint as (n & Hn & ->).
  rewrite (Z.mul_comm (2 ^ 1074)), round_float_int by lia. done.
Qed.
End Buckets.

(** ** The buckets of [BucketSort] *)

Lemma wrapInt_small (z : Z) : minInt ≤ z ≤ maxInt → wrapInt z = z.
Proof.
  unfold wrapInt, minInt, maxInt. intros Hz.
  rewrite Z.mod_small by lia. lia.
Qed.

(** The difference of the greatest and the least number *)
Lemma range_spec (mn mx : float64) :
  is_float64 mn → is_float64 mx →
  is_finite mn = true → is_finite mx = true → fval mn < fval mx →
  is_finite (f64_sub mx mn) = true →
  is_float64 (f64_sub mx mn) ∧
  fval (f64_sub mx mn) = round_float (fval mx - fval mn) 1 ∧
  0 < fval (f64_sub mx mn) < 2 ^ 2098.
Proof.
  intros Hvn Hvx Hfn Hfx Hlt Hfd.
  pose proof (f64_sub_spec mx mn Hvx Hvn Hfx Hfn ltac:(lia)) as Hr.
  pose proof (rounds_to_lt _ _ Hr Hfd) as Hsmall.
  destruct (rounds_to_finite _ _ Hr Hsmall) as (Hv & _ & Hval).
  split; [done|]. split; [done|]. rewrite Hval. split; [|done].
  apply round_float_pos; lia.
Qed.

(** The bucket that [BucketSort] computes for a number between the
    least and the greatest *)
Lemma index_spec (int_overflow : float64 → Z) (mn mx v ff : float64) (n : Z) :
  is_float64 mn → is_float64 mx → is_float64 v →
  is_finite mn = true → is_finite mx = true → is_finite v = true →
  fval mn ≤ fval v ≤ fval mx → fval mn < fval mx →
  is_finite (f64_sub mx mn) = true →
  is_float64 ff → is_finite ff = true →
  0 ≤ n < 2 ^ 53 → fval ff = n * 2 ^ 1074 →
  int_of_float64 int_overflow
    (f64_mul (f64_div (f64_sub v mn) (f64_sub mx mn)) ff)
  = bucket_of (fval mn) (fval (f64_sub mx mn)) (fval ff) (fval v).
Proof.
  intros Hvn Hvx Hvv Hfn Hfx Hfv Hbetween Hlt Hfd Hvf Hff Hn Hfval.
  destruct (range_spec mn mx) as (Hvd & Hd & Hd0); try done.
  set (d := f64_sub mx mn) in *.
  (* the difference *)
  pose proof (f64_sub_spec v mn Hvv Hvn Hfv Hfn ltac:(lia)) as Ha.
  assert (0 ≤ round_float (fval v - fval mn) 1 ≤ fval d) as Hab.
  { split; [apply round_float_nonneg; lia|].
    rewrite Hd. apply round_float_mono; lia. }
  destruct (rounds_to_finite _ _ Ha ltac:(lia)) as (Hva & Hfa & Hval_a).
  set (a := f64_sub v mn) in *.
  (* the quotient *)
  pose proof (f64_div_spec a d Hva Hvd Hfa Hfd ltac:(lia) ltac:(lia)) as Hq.
  assert (0 ≤ round_float (fval a * 2 ^ 1074) (fval d) ≤ 2 ^ 1074) as Hqb.
  { split; [apply round_float_nonneg; lia|].
    rewrite <- (round_float_one (fval d)) at 2 by lia.
    apply round_float_mono; [lia|]. nia. }
  destruct (rounds_to_finite _ _ Hq) as (Hvq & Hfq & Hval_q).
  { assert (2 ^ 1074 < 2 ^ 2098) by (apply Z.pow_lt_mono_r; lia). lia. }
  set (q := f64_div a d) in *.
  (* the product *)
  pose proof (f64_mul_spec q ff Hvq Hvf Hfq Hff ltac:(lia) ltac:(lia)) as Hp.
  assert (0 ≤ round_float (fval q * fval ff) (2 ^ 1074) ≤ fval ff) as Hpb.
  { split; [apply round_float_nonneg; [lia|nia]|].
    assert (fval ff = round_float (n * 2 ^ 1074 * 2 ^ 1074) (2 ^ 1074))
      as Hfr by (rewrite round_float_int; lia).
    rewrite Hfr at 2.
    apply round_float_mono; [lia|]. rewrite Hfval in *. nia. }
  assert (fval ff < 2 ^ 2098) as Hfsmall.
  { rewrite Hfval.
    change (2 ^ 2098) with (2 ^ 53 * 2 ^ 1074 * 2 ^ 971). nia. }
  destruct (rounds_to_finite _ _ Hp ltac:(lia)) as (Hvp & Hfp & Hval_p).
  set (p := f64_mul q ff) in *.
  rewrite int_of_float64_spec; [|done|done|lia|].
  - unfold bucket_of. by rewrite Hval_p, Hval_q, Hval_a.
  - rewrite Hval_p.
    set (r := round_float (fval q * fval ff) (2 ^ 1074)) in *.
    assert (r / 2 ^ 1074 ≤ fval ff / 2 ^ 1074) as Hle
      by (apply Z.div_le_mono; lia).
    rewrite Hfval, Z.div_mul in Hle by lia. unfold maxInt. lia.
Qed.

Section BucketSortFloat.
Variable int_overflow : float64 → Z.
Implicit Types (vec : list float64).

(** The buckets of a slice of numbers whose range is finite, when the
    number of buckets is one that [make] accepts: the bucket of each
    number is one of the buckets, and a greater bucket holds no
    smaller number. *)
Lemma buckets_in_order vec :
  Forall (λ x, is_float64 x ∧ is_nan x = false) vec →
  SFeqb (min_max vec).2 (min_max vec).1 = false →
  is_finite (f64_sub (min_max vec).2 (min_max vec).1) = true →
  0 < numBuckets int_overflow vec →
  numBuckets int_overflow vec * sizeof_slice ≤ maxAlloc →
  buckets_ok int_overflow vec.
Proof.
  intros HP Hne Hfd Hnb Hsize. right.
  assert (∃ x, x ∈ vec) as [x0 Hx0].
  { destruct vec as [|x vec]; [by vm_compute in Hfd|]. exists x. left. }
  destruct (min_max_spec vec HP) as ((Hvn & Hnn) & (Hvx & Hnx) & Hbetween).
  unfold bucket_index. set (nb := numBuckets int_overflow vec) in *.
  clearbody nb. revert Hne Hfd Hvn Hnn Hvx Hnx Hbetween.
  destruct (min_max vec) as [mn mx]. simpl. intros.
  destruct (f64_sub_finite mx mn Hnx Hnn Hfd) as [Hfx Hfn].
  assert (∀ v, v ∈ vec → is_float64 v ∧ is_finite v = true ∧
    fval mn ≤ fval v ≤ fval mx) as Hv.
  { intros v Hin. rewrite Forall_forall in HP.
    destruct (HP v Hin) as [Hvv _]. destruct (Hbetween v Hin) as [H1 H2].
    pose proof (between_finite mn mx v Hfn Hfx H1 H2) as Hfv.
    rewrite SFleb_fval in H1, H2 by done.
    apply Z.leb_le in H1, H2. done. }
  assert (fval mn < fval mx) as Hlt.
  { rewrite SFeqb_fval in Hne by done. apply Z.eqb_neq in Hne.
    destruct (Hv x0 Hx0) as (_ & _ & ?). lia. }
  assert (0 ≤ nb - 1 < 2 ^ 53) as Hn.
  { unfold sizeof_slice, maxAlloc in Hsize. lia. }
  rewrite wrapInt_small by (unfold minInt, maxInt; lia).
  destruct (float64_of_int_spec (nb - 1) Hn) as (Hvf & Hff & Hfval).
  destruct (range_spec mn mx) as (Hvd & Hd & Hd0); try done.
  assert (∀ v, v ∈ vec →
    int_of_float64 int_overflow
      (f64_mul (f64_div (f64_sub v mn) (f64_sub mx mn))
         (float64_of_int (nb - 1)))
    = bucket_of (fval mn) (fval (f64_sub mx mn))
        (fval (float64_of_int (nb - 1))) (fval v)) as Hidx.
  { intros v Hin. destruct (Hv v Hin) as (Hvv & Hfv & Hb).
    by apply (index_spec int_overflow mn mx v _ (nb - 1)). }
  assert (∃ n, 0 ≤ n < 2 ^ 53 ∧ fval (float64_of_int (nb - 1)) = n * 2 ^ 1074)
    as Hfint by eauto.
  assert (0 ≤ fval (float64_of_int (nb - 1))) as Hf0 by (rewrite Hfval; lia).
  assert (0 < fval (f64_sub mx mn)) as Hdpos by lia.
  assert (fval (float64_of_int (nb - 1)) / 2 ^ 1074 = nb - 1) as Hfdiv
    by (rewrite Hfval, Z.div_mul; lia).
  set (d := fval (f64_sub mx mn)) in *.
  set (f := fval (float64_of_int (nb - 1))) in *.
  split.
  - intros x Hx. rewrite Hidx by done.
    destruct (Hv x Hx) as (Hvv & Hfv & Hb). split.
    + apply bucket_of_nonneg; lia.
    + pose proof (bucket_of_mono (fval mn) d f Hdpos Hf0 (fval x) (fval mx)
        ltac:(lia)) as Hle.
      rewrite (bucket_of_max (fval mn) d f Hdpos Hf0 Hfint (fval mx)) in Hle
        by (done || lia).
      lia.
  - intros x y Hx Hy Hxy. rewrite !Hidx in Hxy by done.
    destruct (Hv x Hx) as (Hvx' & Hfx' & Hbx).
    destruct (Hv y Hy) as (Hvy' & Hfy' & Hby).
    rewrite SFleb_fval by done. apply Z.leb_le.
    destruct (decide (fval x ≤ fval y)) as [|Hgt]; [done|].
    pose proof (bucket_of_mono (fval mn) d f Hdpos Hf0 (fval y) (fval x)
      ltac:(lia)). lia.
Qed.

(** [BucketSort] sorts a slice of numbers: when they are all equal,
    and when the difference of the greatest and the least is finite
    and [make] accepts the number of buckets. *)
Lemma BucketSort_sorts vec :
  Forall (λ x, is_float64 x ∧ is_nan x = false) vec →
  len vec ≤ 1 ∨
  SFeqb (min_max vec).2 (min_max vec).1 = true ∨
  (is_finite (f64_sub (min_max vec).2 (min_max vec).1) = true ∧
   0 < numBuckets int_overflow vec ∧
   numBuckets int_overflow vec * sizeof_slice ≤ maxAlloc) →
  yields (BucketSort int_overflow vec) (λ out, out ≡ₚ vec ∧ sorted out).
Proof.
  intros HP Hok.
  assert (∀ x, x ∈ vec → is_nan x = false) as Hnan.
  { intros x Hx. rewrite Forall_forall in HP. by apply HP. }
  destruct (decide (len vec ≤ 1)) as [Hshort|Hlong].
  { unfold BucketSort. rewrite bool_decide_true by done.
    apply yields_Ok. split; [done|]. by apply sorted_short. }
  destruct Hok as [?|Hok]; [done|].
  destruct (SFeqb (min_max vec).2 (min_max vec).1) eqn:Heq.
  - unfold BucketSort. case_bool_decide as Hlen.
    { apply yields_Ok. split; [done|]. by apply sorted_short. }
    cbv zeta. rewrite min_max_loop. fold (min_max vec).
    revert Heq. destruct (min_max vec) as [mn mx]. simpl. intros ->.
    by apply QuickSort_float64.
  - destruct Hok as [?|(Hfd & Hnb & Hsize)]; [done|].
    apply BucketSort_buckets_ok; [done|done|].
    by apply buckets_in_order.
Qed.
End BucketSortFloat.
(** * The claims of the specification *)


(** ** C1: the comparison sorts *)

(** C1, as the code has it.  On a slice whose elements are totally
    ordered by [<=] (the elements satisfy a [P] on which the
    comparisons are a total order: all elements for the integers and
    the strings, the numbers that are not NaN for the floats), each of
    [SimpleSort], [SelectionSort], [BubbleSort], [InsertionSort],
    [MergeSort], [QuickSort] and [HeapSort] returns, and the slice then
    holds a permutation of what it held, in non-decreasing order. *)
Theorem comparison_sorts_correct {T : Type} `{Ordered T} (P : T → Prop)
    `{∀ x, Decision (P x)} (vec : list T) :
  TotalOrderOn P → Forall P vec →
  yields (SimpleSort vec) (λ out, out ≡ₚ vec ∧ sorted out) ∧
  yields (SelectionSort vec) (λ out, out ≡ₚ vec ∧ sorted out) ∧
  yields (BubbleSort vec) (λ out, out ≡ₚ vec ∧ sorted out) ∧
  yields (InsertionSort vec) (λ out, out ≡ₚ vec ∧ sorted out) ∧
  yields (MergeSort vec) (λ out, out ≡ₚ vec ∧ sorted out) ∧
  yields (QuickSort vec) (λ out, out ≡ₚ vec ∧ sorted out) ∧
  yields (HeapSort vec) (λ out, out ≡ₚ vec ∧ sorted out).
Proof.
  intros HT HP.
  split; [by apply (SimpleSort_on P)|].
  split; [by apply (SelectionSort_on P)|].
  split.
  { eapply yields_mono; [by apply (BubbleSort_on P)|].
    by intros out (? & ? & _). }
  split.
  { eapply yields_mono; [by apply (InsertionSort_on P)|].
    by intros out (? & ? & _). }
  split.
  { eapply yields_mono; [by apply (MergeSort_on P)|].
    by intros out (? & ? & _). }
  split; [by apply (QuickSort_on P)|by apply (HeapSort_on P)].
Qed.

Lemma comparison_sorts_correct_witness :
  yields (SimpleSort fractions) (λ out, out ≡ₚ fractions ∧ sorted out) ∧
  yields (SelectionSort fractions) (λ out, out ≡ₚ fractions ∧ sorted out) ∧
  yields (BubbleSort fractions) (λ out, out ≡ₚ fractions ∧ sorted out) ∧
  yields (InsertionSort fractions) (λ out, out ≡ₚ fractions ∧ sorted out) ∧
  yields (MergeSort fractions) (λ out, out ≡ₚ fractions ∧ sorted out) ∧
  yields (QuickSort fractions) (λ out, out ≡ₚ fractions ∧ sorted out) ∧
  yields (HeapSort fractions) (λ out, out ≡ₚ fractions ∧ sorted out).
Proof.
  apply (@comparison_sorts_correct float64 float64_Ordered
    (λ x, is_nan x = false) _ fractions float64_TotalOrderOn).
  repeat constructor.
Defined.

(** On the slice of [2], NaN and [1], [BubbleSort] makes no swap, as
    no [>] holds of NaN, and returns the slice as it is, [2] before
    [1]. *)
Lemma comparison_sorts_counterexample :
  BubbleSort [f64 2 1; S754_nan; f64 1 1] = Ok [f64 2 1; S754_nan; f64 1 1] ∧
  leb (f64 2 1) (f64 1 1) = false ∧
  ¬ sorted [f64 2 1; S754_nan; f64 1 1].
Proof.
  split; [by vm_compute|]. split; [by vm_compute|].
  intros Hs. specialize (Hs 0 2 (f64 2 1) (f64 1 1)).
  by discriminate Hs.
Qed.
(** ** C2: the counting and radix sorts on integers *)

Lemma sorted_by_key_Z (vec out : list Z) :
  sorted_by_key (λ v, v) vec out → out ≡ₚ vec ∧ sorted out.
Proof.
  intros Hs. destruct (sorted_by_key_sorted (λ v, v) 0 vec out Hs) as (? & ? & _).
  done.
Qed.

(** C2, as the code has it.  On a slice of [uint]s,
    [GeneralCountingSort] and [IntegerCountingSort] return a sorted
    permutation when every value is below [2^45], so that [make]
    accepts the [max + 1] counters, of eight bytes each, within its
    [2^48] bytes; [IntRadixSort] and
    [LessEfficientRadixSort] do when every value is below [10^19], so
    that the weight [exp] of the digit does not wrap around. *)
Theorem integer_sorts_correct (vec : list Z) :
  len vec ≤ maxInt →
  Forall is_uint vec →
  (Forall (λ v, v < 2 ^ 45) vec →
     yields (GeneralCountingSort vec) (λ out, out ≡ₚ vec ∧ sorted out) ∧
     yields (IntegerCountingSort vec) (λ out, out ≡ₚ vec ∧ sorted out)) ∧
  (Forall (λ v, v < 10 ^ 19) vec →
     yields (IntRadixSort vec) (λ out, out ≡ₚ vec ∧ sorted out) ∧
     yields (LessEfficientRadixSort vec) (λ out, out ≡ₚ vec ∧ sorted out)).
Proof.
  intros Hlen Huint. rewrite Forall_forall in Huint.
  assert (len vec < 2 ^ 64) as Hlen' by (unfold maxInt in Hlen; lia).
  split; intros Hsmall; rewrite Forall_forall in Hsmall.
  - assert (∀ v, v ∈ vec → 0 ≤ v < 2 ^ 45) as Hkey.
    { intros v Hv. pose proof (Huint v Hv) as [? _]. specialize (Hsmall v Hv).
      simpl in Hsmall. lia. }
    split; (eapply yields_mono; [|apply sorted_by_key_Z]).
    + by apply GeneralCountingSortBy_sorts.
    + by apply IntegerCountingSort_sorts.
  - assert (∀ v, v ∈ vec → 0 ≤ v < 10 ^ 19) as Hkey.
    { intros v Hv. pose proof (Huint v Hv) as [? _]. specialize (Hsmall v Hv).
      simpl in Hsmall. lia. }
    split; (eapply yields_mono; [|apply sorted_by_key_Z]).
    + by apply IntRadixSortBy_sorts.
    + by apply (LessEfficientRadixSortBy_sorts (λ v, v) 0).
Qed.

Lemma integer_sorts_correct_witness :
  yields (GeneralCountingSort [170; 45; 75; 90; 802; 24; 2; 66])
    (λ out, out ≡ₚ [170; 45; 75; 90; 802; 24; 2; 66] ∧ sorted out) ∧
  yields (IntegerCountingSort [170; 45; 75; 90; 802; 24; 2; 66])
    (λ out, out ≡ₚ [170; 45; 75; 90; 802; 24; 2; 66] ∧ sorted out) ∧
  yields (IntRadixSort [170; 45; 75; 90; 802; 24; 2; 66])
    (λ out, out ≡ₚ [170; 45; 75; 90; 802; 24; 2; 66] ∧ sorted out) ∧
  yields (LessEfficientRadixSort [170; 45; 75; 90; 802; 24; 2; 66])
    (λ out, out ≡ₚ [170; 45; 75; 90; 802; 24; 2; 66] ∧ sorted out).
Proof.
  assert (len [170; 45; 75; 90; 802; 24; 2; 66] ≤ maxInt) as Hlen
    by (vm_compute; discriminate).
  assert (Forall is_uint [170; 45; 75; 90; 802; 24; 2; 66]) as Huint
    by (repeat constructor; unfold is_uint; lia).
  destruct (integer_sorts_correct _ Hlen Huint) as [Hcount Hradix].
  destruct Hcount as [Hgeneral Hinteger]; [repeat constructor; lia|].
  destruct Hradix as [Hradix Hless]; [repeat constructor; lia|].
  exact (conj Hgeneral (conj Hinteger (conj Hradix Hless))).
Defined.

(** The sorts panic on the two [uint]s [2^64 - 1] and [0]: [max + 1]
    wraps around to an empty slice of counters, and [exp] to [0].  On
    [2^45] and [0] the counting sorts panic in [make]: the [2^45 + 1]
    counters take more than [2^48] bytes. *)
Lemma integer_sorts_counterexample :
  Forall is_uint [2 ^ 64 - 1; 0] ∧
  GeneralCountingSort [2 ^ 64 - 1; 0] = Panic IndexOutOfRange ∧
  IntegerCountingSort [2 ^ 64 - 1; 0] = Panic IndexOutOfRange ∧
  IntRadixSort [2 ^ 64 - 1; 0] = Panic DivideByZero ∧
  LessEfficientRadixSort [2 ^ 64 - 1; 0] = Panic DivideByZero ∧
  Forall is_uint [2 ^ 45; 0] ∧
  GeneralCountingSort [2 ^ 45; 0] = Panic MakeLenOutOfRange ∧
  IntegerCountingSort [2 ^ 45; 0] = Panic MakeLenOutOfRange.
Proof.
  split; [repeat constructor; unfold is_uint; lia|].
  split; [by vm_compute|]. split; [by vm_compute|].
  split; [by vm_compute|]. split; [by vm_compute|].
  split; [repeat constructor; unfold is_uint; lia|].
  split; by vm_compute.
Qed.

(** ** C3: the radix sort on strings *)

Lemma is_ascii_str_dec (s : gostring) :
  forallb (λ c, byte_val c <? 128) s = true → is_ascii s.
Proof.
  intros Hs c Hc. rewrite forallb_forall in Hs.
  apply Z.ltb_lt, Hs. by apply list_elem_of_In.
Qed.

(** C3.  On a slice of ASCII strings [StringRadixSort] returns, and
    the slice then holds a permutation of what it held, in the order of
    the bytes: a string is before the strings it is a proper prefix
    of.  The four strings of the example come out as the specification
    says. *)
Theorem StringRadixSort_correct (vec : list gostring) :
  len vec ≤ maxInt →
  Forall is_ascii vec →
  yields (StringRadixSort vec) (λ out, out ≡ₚ vec ∧ sorted out) ∧
  (∀ s t : gostring, string_leb s (s ++ t) = true) ∧
  StringRadixSort fruits = Ok fruits_sorted.
Proof.
  intros Hlen Hascii. rewrite Forall_forall in Hascii.
  split; [|split; [apply string_leb_prefix|by vm_compute]].
  eapply yields_mono.
  - apply (StringRadixSortBy_sorts (λ s, s) []); [|done].
    unfold maxInt in Hlen. lia.
  - intros out Hs.
    destruct (sorted_by_string_sorted (λ s, s) [] vec out Hs) as (? & ? & _).
    done.
Qed.

Lemma StringRadixSort_correct_witness :
  yields (StringRadixSort figs) (λ out, out ≡ₚ figs ∧ sorted out).
Proof.
  refine (proj1 (StringRadixSort_correct figs _ _)).
  - vm_compute. discriminate.
  - repeat constructor; apply is_ascii_str_dec; reflexivity.
Defined.

(** ** C4: the bucket sort *)

(** C4, as the code has it.  On a slice of [float64] numbers of which
    none is NaN, [BucketSort] leaves the slice as it is when the
    numbers are all equal, and returns a sorted permutation when the
    slice has at most one number, when the greatest and the least are
    equal, and when their difference is finite and the number of
    buckets is positive and one that [make] accepts.  The
    out-of-range conversion [int_overflow] is any function. *)
Theorem BucketSort_correct (int_overflow : float64 → Z) (vec : list float64) :
  Forall (λ x, is_float64 x ∧ is_nan x = false) vec →
  ((∀ x y, x ∈ vec → y ∈ vec → SFeqb x y = true) →
     BucketSort int_overflow vec = Ok vec) ∧
  (len vec ≤ 1 ∨
   SFeqb (min_max vec).2 (min_max vec).1 = true ∨
   (is_finite (f64_sub (min_max vec).2 (min_max vec).1) = true ∧
    0 < numBuckets int_overflow vec ∧
    numBuckets int_overflow vec * sizeof_slice ≤ maxAlloc) →
     yields (BucketSort int_overflow vec) (λ out, out ≡ₚ vec ∧ sorted out)).
Proof.
  intros HP. split.
  - apply BucketSort_equal.
  - by apply BucketSort_sorts.
Qed.

(** The three equal numbers of the specification are left as they
    are; its seven fractions, which fall into one bucket, and four
    numbers that fall into the buckets 0, 1 and 5 of six, are put in
    order. *)
Lemma BucketSort_correct_witness :
  BucketSort int_overflow_amd64 threes = Ok threes ∧
  yields (BucketSort int_overflow_amd64 fractions)
    (λ out, out ≡ₚ fractions ∧ sorted out) ∧
  (numBuckets int_overflow_amd64 spread = 6 ∧
   bucket_index int_overflow_amd64 spread <$> spread = [0; 1; 0; 5] ∧
   yields (BucketSort int_overflow_amd64 spread)
     (λ out, out ≡ₚ spread ∧ sorted out)).
Proof.
  split; [|split; [|split; [|split]]].
  - refine (proj1 (BucketSort_correct int_overflow_amd64 threes _) _).
    + repeat constructor.
    + intros x y Hx Hy. unfold threes in Hx, Hy.
      repeat (apply elem_of_cons in Hx as [->|Hx]);
        repeat (apply elem_of_cons in Hy as [->|Hy]);
        try (by apply elem_of_nil in Hx); try (by apply elem_of_nil in Hy);
        by vm_compute.
  - refine (proj2 (BucketSort_correct int_overflow_amd64 fractions _) _).
    + repeat constructor.
    + right. right. split; [by vm_compute|]. split; by vm_compute.
  - by vm_compute.
  - by vm_compute.
  - refine (proj2 (BucketSort_correct int_overflow_amd64 spread _) _).
    + repeat constructor.
    + right. right. split; [by vm_compute|]. split; by vm_compute.
Defined.

(** On the slice of NaN and [1], [BucketSort] returns [1] before NaN,
    whatever the conversions do: no [<=] holds of the two.  On the
    slice of [0] and [10^15], where no number is NaN, the number of
    buckets is [707106781186548], more slices than [make] allocates:
    [BucketSort] panics, whatever the conversions do.  On the slice of
    [0] and infinity the number of buckets is no [int]: on amd64
    [BucketSort] panics. *)
Lemma BucketSort_counterexample :
  ((∀ int_overflow, BucketSort int_overflow [S754_nan; f64 1 1]
      = Ok [f64 1 1; S754_nan]) ∧
   SFleb (f64 1 1) S754_nan = false ∧
   ¬ sorted [f64 1 1; S754_nan]) ∧
  (Forall (λ x, is_float64 x ∧ is_nan x = false) far_apart ∧
   (∀ int_overflow, numBuckets int_overflow far_apart = 707106781186548) ∧
   (∀ int_overflow,
      BucketSort int_overflow far_apart = Panic MakeLenOutOfRange)) ∧
  (Forall (λ x, is_float64 x ∧ is_nan x = false)
     [f64 0 1; S754_infinity false] ∧
   BucketSort int_overflow_amd64 [f64 0 1; S754_infinity false]
     = Panic MakeLenOutOfRange).
Proof.
  split; [|split].
  - split; [intros int_overflow; by vm_compute|]. split; [by vm_compute|].
    intros Hs. specialize (Hs 0 1 (f64 1 1) S754_nan).
    by discriminate Hs.
  - split; [repeat constructor|].
    split; intros int_overflow; by vm_compute.
  - split; [repeat constructor|]. by vm_compute.
Qed.
(** ** C5: stability *)






(** ** C6: termination *)

(** C6, as the code has it.  The comparison sorts return a permutation
    for every slice, whatever [<], [<=] and [>] answer: the sift-down
    of [heapify] and the recursion of [quickSortHelper] end for every
    input.  [IntRadixSort] and [LessEfficientRadixSort] return when
    every value is below [10^19], [GeneralCountingSort] and
    [IntegerCountingSort] when every value is below [2^45],
    [StringRadixSort] on ASCII strings, and [BucketSort] on numbers of
    which none is NaN, when there is at most one, when the greatest
    and the least are equal, and when their difference is finite and
    the number of buckets is positive and one that [make] accepts. *)
Theorem sorts_terminate :
  (∀ (T : Type) (O : Ordered T) (vec : list T),
     yields (SimpleSort vec) (λ out, out ≡ₚ vec) ∧
     yields (SelectionSort vec) (λ out, out ≡ₚ vec) ∧
     yields (BubbleSort vec) (λ out, out ≡ₚ vec) ∧
     yields (InsertionSort vec) (λ out, out ≡ₚ vec) ∧
     yields (MergeSort vec) (λ out, out ≡ₚ vec) ∧
     yields (QuickSort vec) (λ out, out ≡ₚ vec) ∧
     yields (HeapSort vec) (λ out, out ≡ₚ vec)) ∧
  (∀ vec : list Z, len vec ≤ maxInt → Forall is_uint vec →
     (Forall (λ v, v < 10 ^ 19) vec →
        yields (IntRadixSort vec) (λ out, out ≡ₚ vec) ∧
        yields (LessEfficientRadixSort vec) (λ out, out ≡ₚ vec)) ∧
     (Forall (λ v, v < 2 ^ 45) vec →
        yields (GeneralCountingSort vec) (λ out, out ≡ₚ vec) ∧
        yields (IntegerCountingSort vec) (λ out, out ≡ₚ vec))) ∧
  (∀ vec : list gostring, len vec ≤ maxInt → Forall is_ascii vec →
     yields (StringRadixSort vec) (λ out, out ≡ₚ vec)) ∧
  (∀ int_overflow (vec : list float64),
     Forall (λ x, is_float64 x ∧ is_nan x = false) vec →
     len vec ≤ 1 ∨
     SFeqb (min_max vec).2 (min_max vec).1 = true ∨
     (is_finite (f64_sub (min_max vec).2 (min_max vec).1) = true ∧
      0 < numBuckets int_overflow vec ∧
      numBuckets int_overflow vec * sizeof_slice ≤ maxAlloc) →
     yields (BucketSort int_overflow vec) (λ out, out ≡ₚ vec)).
Proof.
  split; [|split; [|split]].
  - intros T O vec.
    split; [apply SimpleSort_returns|]. split; [apply SelectionSort_returns|].
    split; [apply BubbleSort_returns|]. split; [apply InsertionSort_returns|].
    split; [apply MergeSort_returns|]. split; [apply QuickSort_returns|].
    apply HeapSort_returns.
  - intros vec Hlen Huint. rewrite Forall_forall in Huint.
    assert (len vec < 2 ^ 64) as Hlen' by (unfold maxInt in Hlen; lia).
    split; intros Hsmall; rewrite Forall_forall in Hsmall.
    + assert (∀ v, v ∈ vec → 0 ≤ v < 10 ^ 19) as Hkey.
      { intros v Hv. pose proof (Huint v Hv) as [? _].
        specialize (Hsmall v Hv). simpl in Hsmall. lia. }
      split.
      * eapply yields_mono; [by apply IntRadixSortBy_sorts|].
        by intros out [? _].
      * eapply yields_mono;
          [by apply (LessEfficientRadixSortBy_sorts (λ v, v) 0)|].
        by intros out [? _].
    + assert (∀ v, v ∈ vec → 0 ≤ v < 2 ^ 45) as Hkey.
      { intros v Hv. pose proof (Huint v Hv) as [? _].
        specialize (Hsmall v Hv). simpl in Hsmall. lia. }
      split.
      * eapply yields_mono; [by apply GeneralCountingSortBy_sorts|].
        by intros out [? _].
      * eapply yields_mono; [by apply IntegerCountingSort_sorts|].
        by intros out [? _].
  - intros vec Hlen Hascii. rewrite Forall_forall in Hascii.
    assert (len vec < 2 ^ 64) as Hlen' by (unfold maxInt in Hlen; lia).
    eapply yields_mono; [by apply (StringRadixSortBy_sorts (λ s, s) [])|].
    by intros out [? _].
  - intros int_overflow vec HP Hok.
    eapply yields_mono; [by apply BucketSort_sorts|].
    by intros out [? _].
Qed.

(** The comparison sorts return on a slice with NaN; the integer
    sorts, the sort of strings and the bucket sort return on slices
    within their bounds. *)
Lemma sorts_terminate_witness :
  yields (HeapSort [S754_nan; f64 1 1; S754_nan; f64 0 1])
    (λ out, out ≡ₚ [S754_nan; f64 1 1; S754_nan; f64 0 1]) ∧
  yields (QuickSort [S754_nan; f64 1 1; S754_nan; f64 0 1])
    (λ out, out ≡ₚ [S754_nan; f64 1 1; S754_nan; f64 0 1]) ∧
  yields (IntRadixSort [170; 45; 75; 90; 802; 24; 2; 66])
    (λ out, out ≡ₚ [170; 45; 75; 90; 802; 24; 2; 66]) ∧
  yields (GeneralCountingSort [170; 45; 75; 90; 802; 24; 2; 66])
    (λ out, out ≡ₚ [170; 45; 75; 90; 802; 24; 2; 66]) ∧
  yields (StringRadixSort figs) (λ out, out ≡ₚ figs) ∧
  yields (BucketSort int_overflow_amd64 spread) (λ out, out ≡ₚ spread).
Proof.
  destruct sorts_terminate as (Hcmp & Hint & Hstr & Hbucket).
  destruct (Hcmp float64 float64_Ordered [S754_nan; f64 1 1; S754_nan; f64 0 1])
    as (_ & _ & _ & _ & _ & Hquick & Hheap).
  split; [exact Hheap|]. split; [exact Hquick|].
  destruct (Hint [170; 45; 75; 90; 802; 24; 2; 66]) as [Hradix Hcount].
  { vm_compute. discriminate. }
  { repeat constructor; unfold is_uint; lia. }
  split.
  { refine (proj1 (Hradix _)). repeat constructor; lia. }
  split.
  { refine (proj1 (Hcount _)). repeat constructor; lia. }
  split.
  { apply Hstr.
    - vm_compute. discriminate.
    - repeat constructor; apply is_ascii_str_dec; reflexivity. }
  apply Hbucket.
  - repeat constructor.
  - right. right. split; [by vm_compute|]. split; by vm_compute.
Defined.

(** Inputs on which a sort does not return, as it is written: the
    counting sorts on the [uint]s [2^45] and [0], for which [make] is
    asked for [2^45 + 1] counters; [StringRadixSort] on a string with
    the byte 128, which has no counter; [BucketSort] on [0] and
    [10^15], for which [make] is asked for [707106781186548]
    buckets. *)
Lemma sorts_terminate_counterexample :
  (Forall is_uint [2 ^ 45; 0] ∧
   GeneralCountingSort [2 ^ 45; 0] = Panic MakeLenOutOfRange ∧
   IntegerCountingSort [2 ^ 45; 0] = Panic MakeLenOutOfRange) ∧
  StringRadixSort [[Byte.x80]; [Byte.x61]] = Panic IndexOutOfRange ∧
  (Forall (λ x, is_float64 x ∧ is_nan x = false) far_apart ∧
   ∀ int_overflow,
     BucketSort int_overflow far_apart = Panic MakeLenOutOfRange).
Proof.
  split; [|split].
  - split; [repeat constructor; unfold is_uint; lia|].
    split; by vm_compute.
  - by vm_compute.
  - split; [repeat constructor|]. intros int_overflow. by vm_compute.
Qed.


(** ** C7: the two radix sorts *)

(** C7.  On every slice, [IntRadixSort] and [LessEfficientRadixSort]
    have the same outcome: the same final contents when they return,
    the same panic when they do not. *)
Theorem radix_sorts_equivalent (vec : list Z) :
  len vec ≤ maxInt →
  IntRadixSort vec = LessEfficientRadixSort vec.
Proof.
  intros Hlen. apply radix_sorts_agree. unfold maxInt in Hlen. lia.
Qed.

Lemma radix_sorts_equivalent_witness :
  IntRadixSort [170; 45; 75; 90; 802; 24; 2; 66]
  = LessEfficientRadixSort [170; 45; 75; 90; 802; 24; 2; 66].
Proof.
  apply (radix_sorts_equivalent [170; 45; 75; 90; 802; 24; 2; 66]).
  vm_compute. discriminate.
Defined.

(** ** C8: the median of three *)

(** C8, where the code leaves the claim.  When the first two of the
    three values are equal and the third is greater, [medianOfThree]
    answers the index of the third, which is above both others, and
    [partition] takes it as the pivot. *)
Theorem medianOfThree_tie (a b : Z) :
  a < b →
  medianOfThree [a; a; b] 0 1 2 = Ok 2 ∧
  partition [a; a; b] 0 2 = Ok ([a; a; b], 2).
Proof.
  intros Hab. unfold partition, medianOfThree. simpl.
  rewrite !Z.gtb_ltb, Z.ltb_irrefl, (proj2 (Z.ltb_ge b a)) by lia. simpl.
  split; [done|]. unfold for_up. simpl.
  repeat (rewrite (proj2 (Z.leb_le a b)) by lia; simpl). done.
Qed.

Lemma medianOfThree_tie_witness :
  medianOfThree [1; 1; 2] 0 1 2 = Ok 2 ∧
  partition [1; 1; 2] 0 2 = Ok ([1; 1; 2], 2).
Proof. apply (medianOfThree_tie 1 2). lia. Defined.

(** ** C9: bytes that are not ASCII *)

(** C9, as the code has it.  For a byte from 128 to 254 at the
    position of the pass, the bucket is the byte plus one, from 129 to
    255, which is no index of the 129 counters, and the pass panics. *)
Theorem non_ascii_bucket (vec : list gostring) (curIdx : Z) (s : gostring)
    (c : Byte.byte) :
  len vec ≤ maxInt →
  s ∈ vec → idx s curIdx = Some c → 128 ≤ byte_val c ≤ 254 →
  bucketOf curIdx s = Ok (byte_val c + 1) ∧
  ¬ 0 ≤ byte_val c + 1 < len (make_const 0 129) ∧
  radixStringCountSort vec curIdx = Panic IndexOutOfRange.
Proof.
  intros Hlen Hs Hc Hbyte. pose proof (idx_Some _ _ _ Hc) as Hi.
  assert (sbkt curIdx s = byte_val c + 1) as Hb.
  { unfold sbkt. rewrite Hc. unfold wrap8. apply Z.mod_small. lia. }
  split; [by rewrite bucketOf_Ok, Hb by lia|].
  split; [unfold make_const, len; simpl; lia|].
  apply (radixStringCountSortBy_panic (λ s, s) [] vec curIdx s); [lia|done|].
  rewrite Hb. lia.
Qed.

Lemma non_ascii_bucket_witness :
  bucketOf 0 [Byte.x80] = Ok (byte_val Byte.x80 + 1) ∧
  ¬ 0 ≤ byte_val Byte.x80 + 1 < len (make_const 0 129) ∧
  radixStringCountSort [[Byte.x80]; [Byte.x61]] 0 = Panic IndexOutOfRange.
Proof.
  apply (non_ascii_bucket [[Byte.x80]; [Byte.x61]] 0 [Byte.x80] Byte.x80).
  - vm_compute. discriminate.
  - left.
  - reflexivity.
  - vm_compute. split; discriminate.
Defined.

(** The byte 255 is no ASCII byte, and its bucket is [0], the bucket
    of the strings that end before the position: the pass and the sort
    return, with the string of that byte before the string [a]. *)
Lemma non_ascii_bucket_counterexample :
  byte_val Byte.xff = 255 ∧
  bucketOf 0 [Byte.xff] = Ok 0 ∧
  radixStringCountSort [[Byte.x61]; [Byte.xff]] 0
    = Ok [[Byte.xff]; [Byte.x61]] ∧
  StringRadixSort [[Byte.x61]; [Byte.xff]] = Ok [[Byte.xff]; [Byte.x61]].
Proof. repeat split; by vm_compute. Qed.

(** ** C10: slices of at most one element *)

(** C10.  Each of the thirteen sorts returns a slice of no or one
    element as it is. *)
Theorem short_slices_unchanged {T : Type} `{Ordered T} (vec : list T)
    (ints : list Z) (strs : list gostring) (floats : list float64)
    (int_overflow : float64 → Z) :
  len vec ≤ 1 → len ints ≤ 1 → len strs ≤ 1 → len floats ≤ 1 →
  SimpleSort vec = Ok vec ∧ SelectionSort vec = Ok vec ∧
  BubbleSort vec = Ok vec ∧ InsertionSort vec = Ok vec ∧
  MergeSort vec = Ok vec ∧ QuickSort vec = Ok vec ∧ HeapSort vec = Ok vec ∧
  GeneralCountingSort ints = Ok ints ∧ IntegerCountingSort ints = Ok ints ∧
  IntRadixSort ints = Ok ints ∧ LessEfficientRadixSort ints = Ok ints ∧
  StringRadixSort strs = Ok strs ∧ BucketSort int_overflow floats = Ok floats.
Proof.
  intros Hv Hi Hs Hf.
  destruct (comparison_sorts_short vec Hv) as (? & ? & ? & ? & ? & ? & ?).
  destruct (linear_sorts_short ints strs floats int_overflow Hi Hs Hf)
    as (? & ? & ? & ? & ? & ?).
  repeat (split; [assumption|]). assumption.
Qed.

Lemma short_slices_unchanged_witness :
  SimpleSort [7] = Ok [7] ∧ SelectionSort [7] = Ok [7] ∧
  BubbleSort [7] = Ok [7] ∧ InsertionSort [7] = Ok [7] ∧
  MergeSort [7] = Ok [7] ∧ QuickSort [7] = Ok [7] ∧ HeapSort [7] = Ok [7] ∧
  GeneralCountingSort [] = Ok [] ∧ IntegerCountingSort [] = Ok [] ∧
  IntRadixSort [] = Ok [] ∧ LessEfficientRadixSort [] = Ok [] ∧
  StringRadixSort [[Byte.x61]] = Ok [[Byte.x61]] ∧
  BucketSort int_overflow_amd64 [S754_nan] = Ok [S754_nan].
Proof.
  apply (@short_slices_unchanged Z Z_Ordered [7] [] [[Byte.x61]] [S754_nan]
    int_overflow_amd64); vm_compute; discriminate.
Defined.

(** * The functions the sorts are made of *)

(** The theorems on [merge], [partition], [medianOfThree], [heapify]
    and [buildHeap] are on slices whose elements are totally ordered by
    [<=]: the elements satisfy a [P] on which the comparisons are a
    total order, which is every element for the integers and the
    strings, and the numbers that are not NaN for the floats. *)

(** [merge] on two runs in order: the positions outside the runs are
    left as they are, and the positions of the runs hold the elements
    of both in order, those that compare equal in the order they had,
    the first run before the second. *)
Theorem merge_sorted_runs {T : Type} `{Ordered T} (P : T → Prop)
    `{∀ x, Decision (P x)} (vec tmp : list T) (start mid end_ : Z) :
  TotalOrderOn P → Forall P vec →
  0 ≤ start ≤ mid + 1 → mid ≤ end_ → end_ < len vec → len tmp = len vec →
  sorted (slice vec start (mid + 1)) →
  sorted (slice vec (mid + 1) (end_ + 1)) →
  yields (merge vec tmp start mid end_) (λ '(vec', _),
    frame vec vec' start (end_ + 1) ∧
    slice vec' start (end_ + 1) ≡ₚ slice vec start (end_ + 1) ∧
    sorted (slice vec' start (end_ + 1)) ∧
    stable_on P (slice vec start (end_ + 1)) (slice vec' start (end_ + 1))).
Proof. intros HT HP. by apply (merge_on P). Qed.

(** [partition] answers a position of the range, leaves the positions
    outside the range as they are, and puts the elements that are not
    above the element at that position before it and those that are
    not below it behind it. *)
Theorem partition_splits {T : Type} `{Ordered T} (P : T → Prop)
    `{∀ x, Decision (P x)} (vec : list T) (start end_ : Z) :
  TotalOrderOn P → Forall P vec →
  0 ≤ start < end_ → end_ < len vec →
  yields (partition vec start end_) (λ '(vec', p),
    start ≤ p ≤ end_ ∧ frame vec vec' start (end_ + 1) ∧ vec' ≡ₚ vec ∧
    ∃ pv, idx vec' p = Some pv ∧
      (∀ k x, start ≤ k < p → idx vec' k = Some x → x ⪯ pv) ∧
      (∀ k x, p < k < end_ + 1 → idx vec' k = Some x → pv ⪯ x)).
Proof. intros HT HP. by apply (partition_on P). Qed.

(** [medianOfThree] answers one of its three positions.  The element
    there is between the two others, unless the first two elements
    compare equal and the third is above them; then it answers the
    third position. *)
Theorem medianOfThree_between {T : Type} `{Ordered T} (P : T → Prop)
    `{∀ x, Decision (P x)} (vec : list T) (i j k : Z) (vi vj vk : T) :
  TotalOrderOn P → P vi → P vj → P vk →
  idx vec i = Some vi → idx vec j = Some vj → idx vec k = Some vk →
  (equivb vi vj = false ∨ vk ⪯ vi →
     medianOfThree vec i j k = Ok i ∧ is_between vi vj vk ∨
     medianOfThree vec i j k = Ok j ∧ is_between vj vi vk ∨
     medianOfThree vec i j k = Ok k ∧ is_between vk vi vj) ∧
  (equivb vi vj = true → ltb vi vk = true →
     medianOfThree vec i j k = Ok k).
Proof. intros HT. by apply (medianOfThree_on P). Qed.

(** The sift-down of [heapify] at a position below which the heap is
    in order puts the heap in order from that position on, and leaves
    the positions before it as they are. *)
Theorem heapify_sift_down {T : Type} `{Ordered T} (P : T → Prop)
    `{∀ x, Decision (P x)} (vec : list T) (i n : Z) :
  TotalOrderOn P → Forall P vec →
  0 ≤ i → n ≤ len vec →
  (∀ k, i < k < n → heap_at vec n k) →
  yields (heapify (Datatypes.S (length vec)) vec i n) (λ vec',
    frame vec vec' i n ∧ vec' ≡ₚ vec ∧ heap_from vec' i n).
Proof. intros HT HP. by apply (heapify_on P). Qed.

(** [buildHeap] makes a heap of the slice: no element is above its
    parent, and none is above the first. *)
Theorem buildHeap_heap {T : Type} `{Ordered T} (P : T → Prop)
    `{∀ x, Decision (P x)} (vec : list T) :
  TotalOrderOn P → Forall P vec →
  yields (buildHeap vec) (λ vec',
    vec' ≡ₚ vec ∧ heap_from vec' 0 (len vec') ∧
    ∀ r x, idx vec' 0 = Some r → x ∈ vec' → x ⪯ r).
Proof. intros HT HP. by apply (buildHeap_on P). Qed.

(** [QuickSort] leaves a slice of elements of which none is above
    another as it is: every [partition] takes the last element of its
    range as the pivot and moves nothing. *)
Theorem QuickSort_all_equal {T : Type} `{Ordered T} (vec : list T) :
  (∀ x y, x ∈ vec → y ∈ vec → leb x y = true ∧ gtb x y = false) →
  QuickSort vec = Ok vec ∧
  (∀ start end_, 0 ≤ start < end_ → end_ < len vec →
     partition vec start end_ = Ok (vec, end_)).
Proof.
  intros Heq. split; [by apply QuickSort_equal|].
  intros start end_ Hs He. by apply partition_equal.
Qed.

Section Passes.
Context {A : Type}.

(** A pass of the radix sort on integers, for a weight [exp] that is
    not [0], returns the elements in the order of their digit of that
    weight, those of the same digit in the order they had. *)
Theorem radixIntCountSort_pass (key : A → Z) (zeroA : A) (vec : list A) (exp : Z) :
  len vec ≤ maxInt → exp ≠ 0 →
  yields (radixIntCountSortBy key zeroA vec exp) (λ out,
    out ≡ₚ vec ∧
    StronglySorted (λ x y, digit key exp x ≤ digit key exp y) out ∧
    ∀ d, filter (λ v, digit key exp v = d) out
         = filter (λ v, digit key exp v = d) vec).
Proof.
  intros Hlen Hexp.
  assert (len vec < 2 ^ 64) as Hlen' by (unfold maxInt in Hlen; lia).
  rewrite radixIntCountSortBy_correct by done. apply yields_Ok.
  split; [apply radix_pass_Permutation|]. split.
  - eapply (bucket_sort_StronglySorted _ (λ _ _, True)).
    + apply StronglySorted_True.
    + intros v w Hvw _. lia.
    + intros v w Hvw. lia.
  - intros d. destruct (decide (0 ≤ d < 10)) as [Hd|Hd].
    + apply (bucket_sort_filter _ _ _ _ d); [by intros v <-|done].
    + rewrite !filter_none; [done| |].
      * intros v _ Hv. pose proof (digit_range key exp v). lia.
      * intros v _ Hv. pose proof (digit_range key exp v). lia.
Qed.

(** With the weight [0] a pass on a slice that is not empty panics:
    the digit is a division by the weight. *)
Theorem radixIntCountSort_zero (key : A → Z) (zeroA : A) (vec : list A) :
  vec ≠ [] →
  radixIntCountSortBy key zeroA vec 0 = Panic DivideByZero.
Proof.
  intros Hne. unfold radixIntCountSortBy. cbv zeta.
  assert (0 < len vec) as Hlen.
  { destruct vec; [done|]. unfold len. simpl. lia. }
  rewrite (for_up_panic (λ _, True) DivideByZero _ 0 (len vec) _ 0);
    [done|done| |lia|].
  - intros j c Hj _. left.
    destruct (idx_is_Some vec j Hj) as [v Hv].
    by rewrite (get_Ok _ _ _ Hv).
  - intros c _. destruct (idx_is_Some vec 0) as [v Hv]; [lia|].
    by rewrite (get_Ok _ _ _ Hv).
Qed.

(** A pass of the radix sort on ASCII strings returns the elements in
    the order of their byte at the position of the pass, a string that
    ends before the position before the others, and those of the same
    byte in the order they had. *)
Theorem radixStringCountSort_pass (key : A → gostring) (zeroA : A)
    (vec : list A) (curIdx : Z) :
  len vec ≤ maxInt → 0 ≤ curIdx →
  Forall (λ v, is_ascii (key v)) vec →
  yields (radixStringCountSortBy key zeroA vec curIdx) (λ out,
    out ≡ₚ vec ∧
    StronglySorted (λ x y, sbkt curIdx (key x) ≤ sbkt curIdx (key y)) out ∧
    ∀ b, filter (λ v, sbkt curIdx (key v) = b) out
         = filter (λ v, sbkt curIdx (key v) = b) vec).
Proof.
  intros Hlen Hi Hascii. rewrite Forall_forall in Hascii.
  assert (len vec < 2 ^ 64) as Hlen' by (unfold maxInt in Hlen; lia).
  assert (∀ v, v ∈ vec → 0 ≤ sbkt curIdx (key v) < 129) as Hb.
  { intros v Hv. apply sbkt_ascii. by apply Hascii. }
  rewrite radixStringCountSortBy_correct;
    [|done|done|intros v Hv; specialize (Hb v Hv); lia].
  apply yields_Ok. split; [by apply bucket_sort_Permutation|]. split.
  - eapply (bucket_sort_StronglySorted _ (λ _ _, True)).
    + apply StronglySorted_True.
    + intros v w Hvw _. lia.
    + intros v w Hvw. lia.
  - intros b. destruct (decide (0 ≤ b < 129)) as [Hd|Hd].
    + apply (bucket_sort_filter _ _ _ _ b); [by intros v <-|done].
    + rewrite !filter_none; [done| |].
      * intros v Hv Heq. specialize (Hb v Hv). lia.
      * intros v [Hv _]%elem_of_bucket_sort Heq. specialize (Hb v Hv). lia.
Qed.
End Passes.

(** [StringRadixSort] panics on a slice of two or more strings of
    which one has a byte from 128 to 254. *)
Theorem StringRadixSort_non_ascii_panics (vec : list gostring) (s : gostring)
    (c : Byte.byte) :
  1 < len vec ≤ maxInt → s ∈ vec → c ∈ s → 128 ≤ byte_val c ≤ 254 →
  StringRadixSort vec = Panic IndexOutOfRange.
Proof.
  intros Hlen Hs [p Hp]%elem_of_idx Hc.
  pose proof (idx_Some _ _ _ Hp) as Hpr.
  apply (StringRadixSortBy_panic (λ s, s) [] vec s p); [|done|lia|].
  - unfold maxInt in Hlen. lia.
  - unfold sbkt. rewrite Hp. unfold wrap8. rewrite Z.mod_small by lia. lia.
Qed.

(** ** The counting sorts beyond their bounds *)

(** What [GeneralCountingSort] returns on [uint]s is a permutation in
    order: beyond the bound on the values it panics, and returns no
    slice that is out of order. *)
Theorem GeneralCountingSort_never_wrong (vec out : list Z) :
  len vec ≤ maxInt → Forall is_uint vec →
  GeneralCountingSort vec = Ok out →
  out ≡ₚ vec ∧ sorted out.
Proof.
  intros Hlen Huint Hrun. rewrite Forall_forall in Huint.
  apply sorted_by_key_Z.
  apply (GeneralCountingSortBy_Ok_inv (λ v, v) 0); [|done|done].
  unfold maxInt in Hlen. lia.
Qed.

Lemma counting_sorts_big (vec : list Z) (max : Z) :
  1 < len vec → slices_Max vec = Ok max → 2 ^ 45 ≤ max < 2 ^ 64 →
  ∃ p, GeneralCountingSort vec = Panic p ∧ IntegerCountingSort vec = Panic p.
Proof.
  intros Hlen HM Hmax.
  unfold GeneralCountingSort, GeneralCountingSortBy, IntegerCountingSort.
  rewrite bool_decide_false by lia. rewrite list_fmap_id, HM. simpl.
  destruct (decide (max + 1 = 2 ^ 64)) as [Hwrap|Hno].
  - replace (wrap64 (max + 1)) with 0 by (unfold wrap64; rewrite Hwrap; done).
    destruct vec as [|x vec]; [unfold len in Hlen; simpl in Hlen; lia|].
    exists IndexOutOfRange. simpl. unfold incr, get, idx. simpl.
    by rewrite bool_decide_false by (unfold len; simpl; lia).
  - rewrite wrap64_small by lia. exists MakeLenOutOfRange.
    unfold make.
    by rewrite bool_decide_false by (unfold maxAlloc, sizeof_uint; lia).
Qed.

(** [IntegerCountingSort] and [GeneralCountingSort] have the same
    outcome on every slice of [uint]s: the same final contents when
    they return, the same panic when they do not. *)
Theorem counting_sorts_equivalent (vec : list Z) :
  len vec ≤ maxInt → Forall is_uint vec →
  IntegerCountingSort vec = GeneralCountingSort vec.
Proof.
  intros Hlen Huint. rewrite Forall_forall in Huint.
  assert (len vec < 2 ^ 64) as Hlen' by (unfold maxInt in Hlen; lia).
  destruct (decide (len vec ≤ 1)) as [Hshort|Hlong].
  { unfold IntegerCountingSort, GeneralCountingSort, GeneralCountingSortBy.
    by rewrite !bool_decide_true by done. }
  destruct (keys_max_elem (λ v, v) vec) as (w & Hw & HM); [lia|].
  pose proof (keys_max (λ v, v) vec _ ltac:(lia) HM) as Hmax.
  rewrite list_fmap_id in HM. simpl in Hmax.
  destruct (decide (w < 2 ^ 45)) as [Hsmall|Hbig].
  - assert (∀ v, v ∈ vec → 0 ≤ v ≤ w) as Hkey.
    { intros v Hv. specialize (Hmax v Hv). pose proof (Huint v Hv) as [? _]. lia. }
    rewrite (IntegerCountingSort_correct vec w) by (done || lia).
    unfold GeneralCountingSort.
    rewrite (GeneralCountingSortBy_correct (λ v, v) 0 vec w); [done|lia|done|lia|].
    by rewrite list_fmap_id.
  - destruct (counting_sorts_big vec w) as (p & -> & ->); [lia|done| |done].
    pose proof (Huint w Hw) as [_ ?]. lia.
Qed.

(** ** All sorts give the same slice on integers *)

Lemma sorted_unique_Z (out1 out2 : list Z) :
  out1 ≡ₚ out2 → sorted out1 → sorted out2 → out1 = out2.
Proof.
  intros Hp Hs1%StronglySorted_sorted Hs2%StronglySorted_sorted.
  assert (AntiSymm (=) (@le Z Z_Ordered)) as Hanti.
  { intros x y Hxy Hyx. unfold le in *. simpl in *.
    apply Z.leb_le in Hxy, Hyx. lia. }
  by apply (StronglySorted_unique (@le Z Z_Ordered)).
Qed.

(** On a slice of [uint]s below [2^45] the seven comparison sorts and
    the four integer sorts return the same slice. *)
Theorem integer_sorts_agree (vec : list Z) :
  len vec ≤ maxInt → Forall (λ v, 0 ≤ v < 2 ^ 45) vec →
  ∃ out, out ≡ₚ vec ∧ sorted out ∧
    SimpleSort vec = Ok out ∧ SelectionSort vec = Ok out ∧
    BubbleSort vec = Ok out ∧ InsertionSort vec = Ok out ∧
    MergeSort vec = Ok out ∧ QuickSort vec = Ok out ∧ HeapSort vec = Ok out ∧
    GeneralCountingSort vec = Ok out ∧ IntegerCountingSort vec = Ok out ∧
    IntRadixSort vec = Ok out ∧ LessEfficientRadixSort vec = Ok out.
Proof.
  intros Hlen Hkey. rewrite Forall_forall in Hkey.
  assert (len vec < 2 ^ 64) as Hlen' by (unfold maxInt in Hlen; lia).
  pose proof (keyed_TotalOrder (λ v : Z, v) 0) as HT.
  destruct (@SimpleSort_correct Z Z_Ordered HT vec) as (out & Hout & Hp & Hs).
  exists out. split; [done|]. split; [done|]. split; [done|].
  assert (∀ r : result (list Z),
    yields r (λ out', out' ≡ₚ vec ∧ sorted out') → r = Ok out) as Hsame.
  { intros r (out' & -> & Hp' & Hs'). f_equal.
    apply sorted_unique_Z; [by rewrite Hp', Hp|done|done]. }
  assert (∀ v, v ∈ vec → 0 ≤ v < 10 ^ 19) as Hkey'.
  { intros v Hv. specialize (Hkey v Hv). simpl in Hkey. lia. }
  repeat split; apply Hsame.
  - apply (@SelectionSort_correct Z Z_Ordered HT).
  - eapply yields_mono; [apply (@BubbleSort_correct Z Z_Ordered HT)|].
    by intros o (? & ? & _).
  - eapply yields_mono; [apply (@InsertionSort_correct Z Z_Ordered HT)|].
    by intros o (? & ? & _).
  - eapply yields_mono; [apply (@MergeSort_correct Z Z_Ordered HT)|].
    by intros o (? & ? & _).
  - apply (@QuickSort_correct Z Z_Ordered HT).
  - apply (@HeapSort_correct Z Z_Ordered HT).
  - eapply yields_mono; [by apply GeneralCountingSortBy_sorts|].
    apply sorted_by_key_Z.
  - eapply yields_mono; [by apply IntegerCountingSort_sorts|].
    apply sorted_by_key_Z.
  - eapply yields_mono; [by apply IntRadixSortBy_sorts|].
    apply sorted_by_key_Z.
  - eapply yields_mono;
      [by apply (LessEfficientRadixSortBy_sorts (λ v, v) 0)|].
    apply sorted_by_key_Z.
Qed.

(** ** The radix sorts on every slice of integers *)

(** [IntRadixSort] and [LessEfficientRadixSort] on a slice of two or
    more [uint]s: they return the sorted slice when every value is
    below [radix_limit], the greatest weight that [exp] takes, and
    panic on the division by the weight [0] when a value is not. *)
Theorem radix_sorts_outcome (vec : list Z) :
  1 < len vec ≤ maxInt → Forall is_uint vec →
  (Forall (λ v, v < radix_limit) vec →
     yields (IntRadixSort vec) (λ out, out ≡ₚ vec ∧ sorted out) ∧
     yields (LessEfficientRadixSort vec) (λ out, out ≡ₚ vec ∧ sorted out)) ∧
  (Exists (λ v, radix_limit ≤ v) vec →
     IntRadixSort vec = Panic DivideByZero ∧
     LessEfficientRadixSort vec = Panic DivideByZero).
Proof.
  intros Hlen Huint. rewrite Forall_forall in Huint.
  assert (len vec < 2 ^ 64) as Hlen' by (unfold maxInt in Hlen; lia).
  assert (LessEfficientRadixSort vec = IntRadixSort vec) as ->.
  { symmetry. by apply radix_sorts_agree. }
  destruct (keys_max_elem (λ v, v) vec) as (w & Hw & HM); [lia|].
  pose proof (keys_max (λ v, v) vec _ ltac:(lia) HM) as Hmax.
  simpl in Hmax.
  destruct (IntRadixSortBy_outcome (λ v, v) 0 vec w) as [Hret Hpanic];
    [lia|done|by apply Huint|].
  split.
  - intros Hsmall. rewrite Forall_forall in Hsmall.
    destruct Hret as [out Hout]; [by apply Hsmall|].
    assert (yields (IntRadixSort vec) (λ out, out ≡ₚ vec ∧ sorted out)); [|done].
    exists out. split; [done|]. apply sorted_by_key_Z.
    apply (IntRadixSortBy_Ok_sorted (λ v, v) 0); [done| |done].
    intros v Hv. by apply Huint.
  - intros (v & Hv & Hbig)%Exists_exists.
    assert (IntRadixSort vec = Panic DivideByZero); [|done].
    apply Hpanic. specialize (Hmax v Hv). lia.
Qed.


(** ** The recursions on a range *)

(** [quickSortHelper] puts the positions of its range in order and
    leaves the others as they are, on a slice whose elements are
    totally ordered by [<=]. *)
Theorem quickSortHelper_range {T : Type} `{Ordered T} (P : T → Prop)
    `{∀ x, Decision (P x)} (fuel : nat) (vec : list T) (start end_ : Z) :
  TotalOrderOn P → Forall P vec →
  (length vec < fuel)%nat → 0 ≤ start → end_ < len vec →
  yields (quickSortHelper fuel vec start end_) (λ vec',
    frame vec vec' start (end_ + 1) ∧ vec' ≡ₚ vec ∧
    sorted_range vec' start (end_ + 1)).
Proof. intros HT HP. by apply (quickSortHelper_on P). Qed.

(** [mergeSortHelper] puts the positions of its range in order, those
    that compare equal in the order they had, and leaves the others
    as they are, on a slice whose elements are totally ordered by
    [<=]. *)
Theorem mergeSortHelper_range {T : Type} `{Ordered T} (P : T → Prop)
    `{∀ x, Decision (P x)} (fuel : nat) (vec tmp : list T) (start end_ : Z) :
  TotalOrderOn P → Forall P vec →
  (length vec ≤ fuel)%nat →
  0 ≤ start ≤ end_ → end_ < len vec → len tmp = len vec →
  yields (mergeSortHelper fuel vec tmp start end_) (λ '(vec', _),
    frame vec vec' start (end_ + 1) ∧
    slice vec' start (end_ + 1) ≡ₚ slice vec start (end_ + 1) ∧
    sorted (slice vec' start (end_ + 1)) ∧
    stable_on P (slice vec start (end_ + 1)) (slice vec' start (end_ + 1))).
Proof. intros HT HP. by apply (mergeSortHelper_on P). Qed.

(** ** The theorems on the parts, on slices of numbers *)

(** The two zeros compare equal: [merge] keeps the negative zero of
    the first run before the zero of the second. *)
Lemma merge_sorted_runs_witness :
  yields (merge signed_runs [zero; zero; zero; zero] 0 1 3) (λ '(vec', _),
    frame signed_runs vec' 0 (3 + 1) ∧
    slice vec' 0 (3 + 1) ≡ₚ slice signed_runs 0 (3 + 1) ∧
    sorted (slice vec' 0 (3 + 1)) ∧
    stable_on (λ x, is_nan x = false)
      (slice signed_runs 0 (3 + 1)) (slice vec' 0 (3 + 1))).
Proof.
  apply (@merge_sorted_runs float64 float64_Ordered (λ x, is_nan x = false) _
    signed_runs [zero; zero; zero; zero] 0 1 3 float64_TotalOrderOn).
  - repeat constructor.
  - lia.
  - lia.
  - vm_compute. reflexivity.
  - reflexivity.
  - apply StronglySorted_sorted. unfold slice. simpl. repeat constructor.
  - apply StronglySorted_sorted. unfold slice. simpl. repeat constructor.
Defined.

Lemma partition_splits_witness :
  yields (partition [f64 3 1; f64 1 1; f64 2 1] 0 2) (λ '(vec', p),
    0 ≤ p ≤ 2 ∧ frame [f64 3 1; f64 1 1; f64 2 1] vec' 0 (2 + 1) ∧
    vec' ≡ₚ [f64 3 1; f64 1 1; f64 2 1] ∧
    ∃ pv, idx vec' p = Some pv ∧
      (∀ k x, 0 ≤ k < p → idx vec' k = Some x → x ⪯ pv) ∧
      (∀ k x, p < k < 2 + 1 → idx vec' k = Some x → pv ⪯ x)).
Proof.
  apply (@partition_splits float64 float64_Ordered (λ x, is_nan x = false) _
    [f64 3 1; f64 1 1; f64 2 1] 0 2 float64_TotalOrderOn).
  - repeat constructor.
  - lia.
  - vm_compute. reflexivity.
Defined.

Lemma medianOfThree_between_witness :
  (medianOfThree [f64 3 1; f64 1 1; f64 2 1] 0 1 2 = Ok 0 ∧
     is_between (f64 3 1) (f64 1 1) (f64 2 1) ∨
   medianOfThree [f64 3 1; f64 1 1; f64 2 1] 0 1 2 = Ok 1 ∧
     is_between (f64 1 1) (f64 3 1) (f64 2 1) ∨
   medianOfThree [f64 3 1; f64 1 1; f64 2 1] 0 1 2 = Ok 2 ∧
     is_between (f64 2 1) (f64 3 1) (f64 1 1)) ∧
  medianOfThree [f64 1 1; f64 1 1; f64 2 1] 0 1 2 = Ok 2.
Proof.
  split.
  - refine (proj1 (@medianOfThree_between float64 float64_Ordered
      (λ x, is_nan x = false) _ [f64 3 1; f64 1 1; f64 2 1] 0 1 2
      (f64 3 1) (f64 1 1) (f64 2 1) float64_TotalOrderOn _ _ _ _ _ _) _);
      try reflexivity.
    left. reflexivity.
  - refine (proj2 (@medianOfThree_between float64 float64_Ordered
      (λ x, is_nan x = false) _ [f64 1 1; f64 1 1; f64 2 1] 0 1 2
      (f64 1 1) (f64 1 1) (f64 2 1) float64_TotalOrderOn _ _ _ _ _ _) _ _);
      reflexivity.
Defined.

Lemma heapify_sift_down_witness :
  yields (heapify 4 [f64 1 1; f64 3 1; f64 2 1] 0 3) (λ vec',
    frame [f64 1 1; f64 3 1; f64 2 1] vec' 0 3 ∧
    vec' ≡ₚ [f64 1 1; f64 3 1; f64 2 1] ∧ heap_from vec' 0 3).
Proof.
  apply (@heapify_sift_down float64 float64_Ordered (λ x, is_nan x = false) _
    [f64 1 1; f64 3 1; f64 2 1] 0 3 float64_TotalOrderOn).
  - repeat constructor.
  - lia.
  - vm_compute. discriminate.
  - intros k Hk c x y Hc Hcn. lia.
Defined.

Lemma buildHeap_heap_witness :
  yields (buildHeap fractions) (λ vec',
    vec' ≡ₚ fractions ∧ heap_from vec' 0 (len vec') ∧
    ∀ r x, idx vec' 0 = Some r → x ∈ vec' → x ⪯ r).
Proof.
  apply (@buildHeap_heap float64 float64_Ordered (λ x, is_nan x = false) _
    fractions float64_TotalOrderOn).
  repeat constructor.
Defined.

Lemma QuickSort_all_equal_witness :
  QuickSort [5; 5; 5] = Ok [5; 5; 5] ∧
  (∀ start end_, 0 ≤ start < end_ → end_ < len [5; 5; 5] →
     partition [5; 5; 5] start end_ = Ok ([5; 5; 5], end_)).
Proof.
  apply (@QuickSort_all_equal Z Z_Ordered [5; 5; 5]).
  intros x y Hx Hy.
  repeat (apply elem_of_cons in Hx as [->|Hx]);
    try (by apply elem_of_nil in Hx);
    repeat (apply elem_of_cons in Hy as [->|Hy]);
    try (by apply elem_of_nil in Hy); by vm_compute.
Defined.

Lemma radixIntCountSort_pass_witness :
  yields (radixIntCountSort [170; 45; 75; 90; 802] 10) (λ out,
    out ≡ₚ [170; 45; 75; 90; 802] ∧
    StronglySorted (λ x y, digit (λ v, v) 10 x ≤ digit (λ v, v) 10 y) out ∧
    ∀ d, filter (λ v, digit (λ v, v) 10 v = d) out
         = filter (λ v, digit (λ v, v) 10 v = d) [170; 45; 75; 90; 802]).
Proof.
  apply (radixIntCountSort_pass (λ v, v) 0 [170; 45; 75; 90; 802] 10).
  - vm_compute. discriminate.
  - lia.
Defined.

Lemma radixIntCountSort_zero_witness :
  radixIntCountSort [7] 0 = Panic DivideByZero.
Proof. apply (radixIntCountSort_zero (λ v, v) 0 [7]). discriminate. Defined.

Lemma radixStringCountSort_pass_witness :
  yields (radixStringCountSort figs 0) (λ out,
    out ≡ₚ figs ∧
    StronglySorted (λ x y, sbkt 0 x ≤ sbkt 0 y) out ∧
    ∀ b, filter (λ v, sbkt 0 v = b) out = filter (λ v, sbkt 0 v = b) figs).
Proof.
  apply (radixStringCountSort_pass (λ s, s) [] figs 0).
  - vm_compute. discriminate.
  - lia.
  - repeat constructor; apply is_ascii_str_dec; reflexivity.
Defined.

Lemma StringRadixSort_non_ascii_panics_witness :
  StringRadixSort [[Byte.x61; Byte.x80]; [Byte.x62]] = Panic IndexOutOfRange.
Proof.
  apply (StringRadixSort_non_ascii_panics [[Byte.x61; Byte.x80]; [Byte.x62]]
    [Byte.x61; Byte.x80] Byte.x80).
  - vm_compute. split; [reflexivity|discriminate].
  - left.
  - right. left.
  - vm_compute. split; discriminate.
Defined.

Lemma GeneralCountingSort_never_wrong_witness :
  [1; 2; 2; 3] ≡ₚ [3; 2; 1; 2] ∧ sorted [1; 2; 2; 3].
Proof.
  apply (GeneralCountingSort_never_wrong [3; 2; 1; 2] [1; 2; 2; 3]).
  - vm_compute. discriminate.
  - repeat constructor; unfold is_uint; lia.
  - vm_compute. reflexivity.
Defined.

Lemma counting_sorts_equivalent_witness :
  IntegerCountingSort [2 ^ 64 - 1; 3; 0] = GeneralCountingSort [2 ^ 64 - 1; 3; 0] ∧
  IntegerCountingSort [3; 2; 1; 2] = GeneralCountingSort [3; 2; 1; 2].
Proof.
  split.
  - apply (counting_sorts_equivalent [2 ^ 64 - 1; 3; 0]).
    + vm_compute. discriminate.
    + repeat constructor; unfold is_uint; lia.
  - apply (counting_sorts_equivalent [3; 2; 1; 2]).
    + vm_compute. discriminate.
    + repeat constructor; unfold is_uint; lia.
Defined.

Lemma integer_sorts_agree_witness :
  ∃ out, out ≡ₚ [170; 45; 75; 90; 802; 24; 2; 66] ∧ sorted out ∧
    SimpleSort [170; 45; 75; 90; 802; 24; 2; 66] = Ok out ∧
    SelectionSort [170; 45; 75; 90; 802; 24; 2; 66] = Ok out ∧
    BubbleSort [170; 45; 75; 90; 802; 24; 2; 66] = Ok out ∧
    InsertionSort [170; 45; 75; 90; 802; 24; 2; 66] = Ok out ∧
    MergeSort [170; 45; 75; 90; 802; 24; 2; 66] = Ok out ∧
    QuickSort [170; 45; 75; 90; 802; 24; 2; 66] = Ok out ∧
    HeapSort [170; 45; 75; 90; 802; 24; 2; 66] = Ok out ∧
    GeneralCountingSort [170; 45; 75; 90; 802; 24; 2; 66] = Ok out ∧
    IntegerCountingSort [170; 45; 75; 90; 802; 24; 2; 66] = Ok out ∧
    IntRadixSort [170; 45; 75; 90; 802; 24; 2; 66] = Ok out ∧
    LessEfficientRadixSort [170; 45; 75; 90; 802; 24; 2; 66] = Ok out.
Proof.
  apply (integer_sorts_agree [170; 45; 75; 90; 802; 24; 2; 66]).
  - vm_compute. discriminate.
  - repeat constructor; lia.
Defined.

Lemma radix_sorts_outcome_witness :
  (yields (IntRadixSort [radix_limit - 1; 0])
     (λ out, out ≡ₚ [radix_limit - 1; 0] ∧ sorted out) ∧
   yields (LessEfficientRadixSort [radix_limit - 1; 0])
     (λ out, out ≡ₚ [radix_limit - 1; 0] ∧ sorted out)) ∧
  (IntRadixSort [radix_limit; 0] = Panic DivideByZero ∧
   LessEfficientRadixSort [radix_limit; 0] = Panic DivideByZero).
Proof.
  split.
  - refine (proj1 (radix_sorts_outcome [radix_limit - 1; 0] _ _) _).
    + vm_compute. split; [reflexivity|discriminate].
    + repeat constructor; unfold is_uint, radix_limit; lia.
    + repeat constructor; unfold radix_limit; lia.
  - refine (proj2 (radix_sorts_outcome [radix_limit; 0] _ _) _).
    + vm_compute. split; [reflexivity|discriminate].
    + repeat constructor; unfold is_uint, radix_limit; lia.
    + left. lia.
Defined.

Lemma quickSortHelper_range_witness :
  yields (quickSortHelper 5 [f64 3 1; f64 1 1; f64 2 1; f64 0 1] 0 2)
    (λ vec',
      frame [f64 3 1; f64 1 1; f64 2 1; f64 0 1] vec' 0 (2 + 1) ∧
      vec' ≡ₚ [f64 3 1; f64 1 1; f64 2 1; f64 0 1] ∧
      sorted_range vec' 0 (2 + 1)).
Proof.
  apply (@quickSortHelper_range float64 float64_Ordered
    (λ x, is_nan x = false) _ 5 [f64 3 1; f64 1 1; f64 2 1; f64 0 1] 0 2
    float64_TotalOrderOn).
  - repeat constructor.
  - simpl. lia.
  - lia.
  - vm_compute. reflexivity.
Defined.

Lemma mergeSortHelper_range_witness :
  yields (mergeSortHelper 4 signed_zeros [zero; zero; zero; zero] 0 2)
    (λ '(vec', _),
      frame signed_zeros vec' 0 (2 + 1) ∧
      slice vec' 0 (2 + 1) ≡ₚ slice signed_zeros 0 (2 + 1) ∧
      sorted (slice vec' 0 (2 + 1)) ∧
      stable_on (λ x, is_nan x = false)
        (slice signed_zeros 0 (2 + 1)) (slice vec' 0 (2 + 1))).
Proof.
  apply (@mergeSortHelper_range float64 float64_Ordered
    (λ x, is_nan x = false) _ 4 signed_zeros [zero; zero; zero; zero] 0 2
    float64_TotalOrderOn).
  - repeat constructor.
  - simpl. lia.
  - lia.
  - vm_compute. reflexivity.
  - reflexivity.
Defined.
